(** * Pseudocode interpreter: lexer, evaluator and formatter

    A shallow embedding of the language toolchain of the pseudocode
    interpreter (services/interpreter: [Lexer], [Environment], [Interpreter];
    the code formatter [formatCode]) and the properties its specification
    states about them.

    Conventions of the embedding.
    - Source text is a sequence of 8-bit code units ([list ascii]); names and
      token values are [string]s.  The JavaScript character classes are the
      restrictions of [\s], [\d], [\w] to code units below 256.
    - The finite JavaScript numbers are the rationals that an IEEE double
      holds, kept in lowest terms; an arithmetic operator and a conversion
      from text return the double nearest to the exact result ([double]).
      Operations whose JavaScript result is NaN, an infinity or not covered
      otherwise stop with the halt reason [OutsideModel]; calls of user
      functions that [Promise.all] runs together stop with [Interleaved],
      and several failures under one [Promise.all] with [Raced].
    - Objects that the code shares and mutates (environment entries,
      environments, arrays) live in heaps and are referred to by index.
    - Recursion that the code does not bound is bounded by fuel; running out
      of it is the halt reason [OutOfFuel]. *)

From Stdlib Require Import ZArith NArith NArithRing QArith Qround Qabs Lqa.
From Stdlib Require Import DecimalPos DecimalN String Ascii List Lia Bool.
From stdpp Require Import base list strings gmap.
Import ListNotations.

Local Open Scope bool_scope.
Local Open Scope list_scope.
Set Warnings "-register-all".

(** ** Character classes and text helpers *)

Module Text.

Definition text := list ascii.

Definition code (c : ascii) : nat := nat_of_ascii c.

  (** [\s] of JavaScript on code units below 256: TAB, LF, VT, FF, CR, SP,
      NBSP.  [String.prototype.trim] strips the same set. *)
Definition is_space (c : ascii) : bool :=
    let n := code c in
    ((9 <=? n) && (n <=? 13)) || (n =? 32) || (n =? 160).

  (** [\d] *)
Definition is_digit (c : ascii) : bool :=
    let n := code c in (48 <=? n) && (n <=? 57).

Definition is_upper (c : ascii) : bool :=
    let n := code c in (65 <=? n) && (n <=? 90).

Definition is_lower (c : ascii) : bool :=
    let n := code c in (97 <=? n) && (n <=? 122).

  (** [[a-zA-Z]] *)
Definition is_alpha (c : ascii) : bool := is_upper c || is_lower c.

  (** [\w], that is [[A-Za-z0-9_]] *)
Definition is_word (c : ascii) : bool :=
    is_alpha c || is_digit c || (code c =? 95).

  (** Case folding of one code unit: the ASCII letters, and the Latin-1
      capitals 192..222 except the multiplication sign 215. *)
Definition lower_char (c : ascii) : ascii :=
    let n := code c in
    if is_upper c then ascii_of_nat (n + 32)
    else if (192 <=? n) && (n <=? 222) && negb (n =? 215) then ascii_of_nat (n + 32)
    else c.

  (** Equality of two code units under the [i] flag of a regular expression
      whose pattern character is ASCII: only ASCII letters are folded. *)
Definition ascii_fold (c : ascii) : ascii :=
    if is_upper c then ascii_of_nat (code c + 32) else c.

Definition eq_char (a b : ascii) : bool := Ascii.eqb a b.

Definition eq_char_ci (a b : ascii) : bool :=
    Ascii.eqb (ascii_fold a) (ascii_fold b).

Definition newline : ascii := ascii_of_nat 10.
Definition dquote : ascii := ascii_of_nat 34.
Definition space : ascii := ascii_of_nat 32.

Fixpoint drop_spaces (s : text) : text :=
    match s with
    | c :: r => if is_space c then drop_spaces r else s
    | [] => []
    end.

  (** [String.prototype.trim] *)
Definition trim (s : text) : text :=
    rev (drop_spaces (rev (drop_spaces s))).

  (** [s.split('\n')]: always at least one piece. *)
Fixpoint split_lines (s : text) : list text :=
    match s with
    | [] => [[]]
    | c :: r =>
        if eq_char c newline then [] :: split_lines r
        else match split_lines r with
             | l :: ls => (c :: l) :: ls
             | [] => [[c]]
             end
    end.

  (** [lines.join('\n')] *)
Fixpoint join_lines (ls : list text) : text :=
    match ls with
    | [] => []
    | [l] => l
    | l :: ls' => l ++ newline :: join_lines ls'
    end.

Definition of_string (s : string) : text := list_ascii_of_string s.
Definition to_string (s : text) : string := string_of_list_ascii s.

  (** [s.toLowerCase()] on a name. *)
Definition toLowerCase (s : string) : string :=
    to_string (map lower_char (of_string s)).

End Text.

(** ** The code formatter ([formatCode]) *)

Module Formatter.
Import Text.

  (** [keyword\b] under the [i] flag at the head of [s]: the letters of
      [kw] match case-insensitively and what follows is not a word
      character. *)
Fixpoint match_prefix_ci (kw s : text) : option text :=
    match kw, s with
    | [], _ => Some s
    | k :: kw', c :: s' => if eq_char_ci k c then match_prefix_ci kw' s' else None
    | _ :: _, [] => None
    end.

Definition at_word_end (rest : text) : bool :=
    match rest with
    | [] => true
    | c :: _ => negb (is_word c)
    end.

Definition keyword_at (kw s : text) : bool :=
    match match_prefix_ci kw s with
    | Some rest => at_word_end rest
    | None => false
    end.

  (** [/^\s*(k1|k2|...)\b/i.test(s)] *)
Definition test_keywords (kws : list string) (s : text) : bool :=
    existsb (fun kw => keyword_at (of_string kw) (drop_spaces s)) kws.

Definition INDENT_KEYWORDS : list string :=
    ["Module"; "Function"; "If"; "Do"; "While"; "For"]%string.

Definition OUTDENT_KEYWORDS : list string :=
    ["End Module"; "End Function"; "End If"; "End While"; "End For"; "Until"]%string.

Definition ELSE_KEYWORD : list string := ["Else"]%string.

  (** Three spaces. *)
Definition INDENTATION : text := [space; space; space].

  (** [INDENTATION.repeat(n)] *)
Fixpoint repeat_text (s : text) (n : nat) : text :=
    match n with
    | O => []
    | S n' => s ++ repeat_text s n'
    end.

  (** The body of the [for (const line of lines)] loop, with [indentLevel]
      threaded through; the result is [formattedLines]. *)
Fixpoint format_lines (indentLevel : nat) (lines : list text) : list text :=
    match lines with
    | [] => []
    | line :: rest =>
        let trimmedLine := trim line in
        match trimmedLine with
        | [] => [] :: format_lines indentLevel rest
        | _ :: _ =>
            let indentLevel1 :=
              if test_keywords OUTDENT_KEYWORDS trimmedLine
                 || test_keywords ELSE_KEYWORD trimmedLine
              then Nat.max 0 (indentLevel - 1) else indentLevel in
            let indentedLine := repeat_text INDENTATION indentLevel1 ++ trimmedLine in
            let indentLevel2 :=
              if test_keywords INDENT_KEYWORDS trimmedLine
                 || test_keywords ELSE_KEYWORD trimmedLine
              then S indentLevel1 else indentLevel1 in
            indentedLine :: format_lines indentLevel2 rest
        end
    end.

Definition format_text (code : text) : text :=
    join_lines (format_lines 0 (split_lines code)).

Definition formatCode (code : string) : string :=
    to_string (format_text (of_string code)).

End Formatter.

(** ** Tokens and errors (interpreterTypes) *)

Module Types.

Inductive TokenType :=
| MODULE | END_MODULE | FUNCTION | END_FUNCTION | CALL | RETURN | CONSTANT
| DECLARE | INTEGER_TYPE | REAL_TYPE | STRING_TYPE | REF | SET | DISPLAY
| INPUT | IF | THEN | ELSE | END_IF | DO | UNTIL | WHILE | END_WHILE | FOR
| TO | END_FOR | TAP
| IDENTIFIER | NUMBER | STRING
| ASSIGN | PLUS | MINUS | MULTIPLY | DIVIDE | MOD | POWER | LPAREN | RPAREN
| LBRACKET | RBRACKET | COMMA
| EQUAL | NOT_EQUAL | LESS | LESS_EQUAL | GREATER | GREATER_EQUAL
| AND | OR | NOT
| EOF.

Definition TokenType_eq_dec (a b : TokenType) : {a = b} + {a <> b}.
Proof. decide equality. Defined.

Definition TokenType_eqb (a b : TokenType) : bool :=
  if TokenType_eq_dec a b then true else false.

Record Token := mkToken {
  type : TokenType;
  value : string;
  lineNumber : nat
}.

End Types.

(** ** The lexer ([Lexer]) *)

Module Lexer.
Import Text Types.

(** The messages of the lexer's [InterpreterError]s. *)
Inductive LexMessage :=
| UnexpectedCharacter (char : ascii)   (* Unexpected character: ${char} *)
| UnterminatedString.                  (* Unterminated string literal *)

Inductive LexResult :=
| LexOk (tokens : list Token)
| LexError (message : LexMessage) (line : nat)
| LexOutOfFuel.

(** [Lexer.KEYWORDS], in the order of the object literal. *)
Definition KEYWORDS : list (string * TokenType) :=
  [ ("module", MODULE); ("end module", END_MODULE); ("function", FUNCTION);
    ("end function", END_FUNCTION); ("call", CALL); ("return", RETURN);
    ("constant", CONSTANT); ("declare", DECLARE); ("integer", INTEGER_TYPE);
    ("real", REAL_TYPE); ("string", STRING_TYPE); ("ref", REF); ("set", SET);
    ("display", DISPLAY); ("input", INPUT); ("if", IF); ("then", THEN);
    ("else", ELSE); ("end if", END_IF); ("do", DO); ("until", UNTIL);
    ("while", WHILE); ("end while", END_WHILE); ("for", FOR); ("to", TO);
    ("end for", END_FOR); ("and", AND); ("or", OR); ("not", NOT); ("tap", TAP);
    ("mod", MOD) ]%string.

(** [Lexer.OPERATORS] *)
Definition OPERATORS : list (string * TokenType) :=
  [ ("==", EQUAL); ("!=", NOT_EQUAL); ("<=", LESS_EQUAL); (">=", GREATER_EQUAL);
    ("=", ASSIGN); ("<", LESS); (">", GREATER); ("+", PLUS); ("-", MINUS);
    ("*", MULTIPLY); ("/", DIVIDE); ("%", MOD); ("^", POWER); ("(", LPAREN);
    (")", RPAREN); ("[", LBRACKET); ("]", RBRACKET); (",", COMMA) ]%string.

(** [keys.sort((a, b) => b.length - a.length)]: longest first; the sort is
    stable, so keys of one length keep the order of the table. *)
Fixpoint insert_by_length (x : string * TokenType) (l : list (string * TokenType))
  : list (string * TokenType) :=
  match l with
  | [] => [x]
  | y :: l' =>
      if String.length (fst x) <? String.length (fst y)
      then y :: insert_by_length x l'
      else x :: l
  end.

Definition sort_by_length (l : list (string * TokenType)) : list (string * TokenType) :=
  fold_right insert_by_length [] l.

Definition SORTED_KEYWORDS : list (string * TokenType) :=
  sort_by_length KEYWORDS.

Definition SORTED_OPERATORS : list (string * TokenType) :=
  sort_by_length OPERATORS.

(** The regular expression of [matchKeyword]: each white-space character of
    the keyword stands for [\s+], every other character for itself under
    the [i] flag, and [\b] closes the pattern.  The result is the input
    that follows the match. *)
Fixpoint match_keyword_chars (kw s : text) : option text :=
  match kw with
  | [] => Some s
  | k :: kw' =>
      match s with
      | [] => None
      | c :: s' =>
          if is_space k then
            if is_space c then match_keyword_chars kw' (drop_spaces s') else None
          else if eq_char_ci k c then match_keyword_chars kw' s'
          else None
      end
  end.

Definition at_word_end (rest : text) : bool :=
  match rest with
  | [] => true
  | c :: _ => negb (is_word c)
  end.

Definition matchKeyword (keyword : string) (s : text) : option text :=
  match match_keyword_chars (of_string keyword) s with
  | Some rest => if at_word_end rest then Some rest else None
  | None => None
  end.

(** The loop over [SORTED_KEYWORDS]: the first keyword that matches. *)
Fixpoint matchKeywords (kws : list (string * TokenType)) (s : text)
  : option (string * TokenType * text) :=
  match kws with
  | [] => None
  | (kw, ty) :: kws' =>
      match matchKeyword kw s with
      | Some rest => Some (kw, ty, rest)
      | None => matchKeywords kws' s
      end
  end.

(** [consumeComment]: up to, not including, the next newline. *)
Fixpoint consumeComment (s : text) : text :=
  match s with
  | [] => []
  | c :: r => if eq_char c newline then s else consumeComment r
  end.

(** [consumeString], after the opening quote: the characters up to the
    closing quote and the input after it; [None] when the input ends
    first. *)
Fixpoint consumeString (s : text) : option (text * text) :=
  match s with
  | [] => None
  | c :: r =>
      if eq_char c dquote then Some ([], r)
      else match consumeString r with
           | Some (v, rest) => Some (c :: v, rest)
           | None => None
           end
  end.

(** The longest prefix of characters that satisfy [p], and the rest. *)
Fixpoint span (p : ascii -> bool) (s : text) : text * text :=
  match s with
  | [] => ([], [])
  | c :: r =>
      if p c then let '(v, rest) := span p r in (c :: v, rest)
      else ([], s)
  end.

Definition consumeNumber (s : text) : text * text :=
  span (fun c => is_digit c || eq_char c "."%char) s.

Definition consumeIdentifier (s : text) : text * text :=
  span is_word s.

(** [input.startsWith(op, position)] *)
Fixpoint startsWith (op s : text) : option text :=
  match op, s with
  | [], _ => Some s
  | o :: op', c :: s' => if eq_char o c then startsWith op' s' else None
  | _ :: _, [] => None
  end.

Fixpoint matchOperator (ops : list (string * TokenType)) (s : text)
  : option (string * TokenType * text) :=
  match ops with
  | [] => None
  | (op, ty) :: ops' =>
      match startsWith (of_string op) s with
      | Some rest => Some (op, ty, rest)
      | None => matchOperator ops' s
      end
  end.

(** The [while (this.position < this.input.length)] loop of [tokenize]; [s]
    is the input from [position] on, [tokens] and [line] are the fields of
    the lexer. *)
Fixpoint scan (fuel : nat) (s : text) (line : nat) (tokens : list Token) : LexResult :=
  match fuel with
  | O => LexOutOfFuel
  | S fuel' =>
      match s with
      | [] => LexOk (tokens ++ [mkToken EOF "" line])
      | char :: r =>
          if is_space char then
            scan fuel' r (if eq_char char newline then S line else line) tokens
          else if eq_char char "/"%char
                  && match r with c :: _ => eq_char c "/"%char | [] => false end
          then scan fuel' (consumeComment s) line tokens
          else
            match matchKeywords SORTED_KEYWORDS s with
            | Some (kw, ty, rest) =>
                scan fuel' rest line (tokens ++ [mkToken ty kw line])
            | None =>
                if eq_char char dquote then
                  match consumeString r with
                  | Some (v, rest) =>
                      scan fuel' rest line (tokens ++ [mkToken STRING (to_string v) line])
                  | None => LexError UnterminatedString line
                  end
                else if is_digit char then
                  let '(v, rest) := consumeNumber s in
                  scan fuel' rest line (tokens ++ [mkToken NUMBER (to_string v) line])
                else if is_alpha char then
                  let '(v, rest) := consumeIdentifier s in
                  scan fuel' rest line (tokens ++ [mkToken IDENTIFIER (to_string v) line])
                else
                  match matchOperator SORTED_OPERATORS s with
                  | Some (op, ty, rest) =>
                      scan fuel' rest line (tokens ++ [mkToken ty op line])
                  | None => LexError (UnexpectedCharacter char) line
                  end
            end
      end
  end.

(** [new Lexer(input).tokenize()].  Every turn of the loop consumes at
    least one character, so [length input + 1] turns are enough. *)
Definition tokenize_text (input : text) : LexResult :=
  scan (S (length input)) input 1 [].

Definition tokenize (input : string) : LexResult :=
  tokenize_text (of_string input).

End Lexer.

(** ** JavaScript values and operators

    The part of the host language that the evaluator relies on: values,
    conversions between them and the primitive operators. *)

Module JS.
Import Text.

(** Values of the interpreted program as the evaluator holds them:
    [null], booleans, numbers, strings, and references to arrays. *)
Inductive Value :=
| VNull
| VBool (b : bool)
| VNumber (q : Q)
| VString (s : string)
| VArray (ref : nat).

(** The outcome of a primitive: a result, or a case left out of the
    model. *)
Inductive Pure (A : Type) :=
| PVal (a : A)
| POutside.
Arguments PVal {A} a.
Arguments POutside {A}.

Definition pbind {A B} (x : Pure A) (k : A -> Pure B) : Pure B :=
  match x with
  | PVal a => k a
  | POutside => POutside
  end.

(** *** Numbers *)

Definition num (z : Z) : Q := inject_Z z.

Definition is_zero (q : Q) : bool := Qeq_bool q 0.

Definition Qltb (a b : Q) : bool := negb (Qle_bool b a).

(** [Number.isInteger] *)
Definition isInteger (q : Q) : bool :=
  Pos.eqb (Qden (Qred q)) 1.

(** [Math.trunc] *)
Definition trunc (q : Q) : Z :=
  if Qle_bool 0 q then Qfloor q else Qceiling q.

(** *** Doubles

    A finite double is [m * 2^e] with [|m| < 2^53] and
    [-1074 <= e <= 971].  [double q] is the one nearest to the real number
    [q], the one with an even [m] when two are equally near (IEEE 754
    round to nearest, ties to even); a magnitude that rounds to [2^1024] or
    beyond is an infinity, which is left out.  Zero stands for both
    zeros. *)

Definition pow2 (e : Z) : Q :=
  if (0 <=? e)%Z then inject_Z (2 ^ e) else Qinv (inject_Z (2 ^ (- e))).

(** The integer part of the binary logarithm of a positive rational. *)
Definition ilog2 (q : Q) : Z :=
  let k := (Z.log2 (Qnum q) - Z.log2 (Zpos (Qden q)))%Z in
  if Qle_bool (pow2 k) q then k else (k - 1)%Z.

(** The integer nearest to a rational that is not negative, the even one
    of two. *)
Definition round_half_even (q : Q) : Z :=
  let f := Qfloor q in
  match Qcompare (q - inject_Z f)%Q (1 # 2)%Q with
  | Lt => f
  | Gt => (f + 1)%Z
  | Eq => if Z.even f then f else (f + 1)%Z
  end.

Definition double (x : Q) : Pure Q :=
  let q := Qred x in
  if is_zero q then PVal (num 0)
  else
    let a := Qabs q in
    let e := Z.max (ilog2 a - 52) (- 1074) in
    let m := round_half_even (a / pow2 e)%Q in
    let r := (inject_Z m * pow2 e)%Q in
    if Qle_bool (pow2 1024) r then POutside
    else PVal (Qred (if Qle_bool 0 q then r else (- r)%Q)).

(** The operators on two doubles: the double of the exact result. *)
Definition add (a b : Q) : Pure Q := double (a + b)%Q.
Definition sub (a b : Q) : Pure Q := double (a - b)%Q.
Definition mul (a b : Q) : Pure Q := double (a * b)%Q.
Definition div (a b : Q) : Pure Q := double (a / b)%Q.

(** The opposite of a double is a double. *)
Definition neg (a : Q) : Q := Qred (- a).

(** [a % b] for [b] other than zero: the remainder has the sign of [a];
    the remainder of two doubles is a double. *)
Definition rem (a b : Q) : Q := Qred (a - b * inject_Z (trunc (a / b))).

(** *** Decimal spelling of integers *)

Fixpoint uint_chars (d : Decimal.uint) : text :=
  match d with
  | Decimal.Nil => []
  | Decimal.D0 d => "0"%char :: uint_chars d
  | Decimal.D1 d => "1"%char :: uint_chars d
  | Decimal.D2 d => "2"%char :: uint_chars d
  | Decimal.D3 d => "3"%char :: uint_chars d
  | Decimal.D4 d => "4"%char :: uint_chars d
  | Decimal.D5 d => "5"%char :: uint_chars d
  | Decimal.D6 d => "6"%char :: uint_chars d
  | Decimal.D7 d => "7"%char :: uint_chars d
  | Decimal.D8 d => "8"%char :: uint_chars d
  | Decimal.D9 d => "9"%char :: uint_chars d
  end.

Definition N_chars (n : N) : text := uint_chars (N.to_uint n).

(** The decimal spelling of an integer: digits, with a leading minus sign
    for a negative one. *)
Definition Z_chars (z : Z) : text :=
  match z with
  | Z0 => ["0"%char]
  | Zpos p => N_chars (Npos p)
  | Zneg p => "-"%char :: N_chars (Npos p)
  end.

Definition decimal (z : Z) : string := to_string (Z_chars z).

(** [String(n)] for a number: the decimal spelling of an integer up to
    2^53 in magnitude; other numbers are left out. *)
Definition number_to_string (q : Q) : Pure string :=
  if isInteger q && (Z.abs (Qnum (Qred q)) <=? 2 ^ 53)%Z
  then PVal (decimal (Qnum (Qred q)))
  else POutside.

(** *** Reading numbers *)

Definition digit_value (c : ascii) : N := N.of_nat (code c - 48).

Definition digits_value (ds : text) : N :=
  fold_left (fun acc c => (acc * 10 + digit_value c)%N) ds 0%N.

Fixpoint take_digits (s : text) : text * text :=
  match s with
  | c :: r =>
      if is_digit c then let '(v, rest) := take_digits r in (c :: v, rest)
      else ([], s)
  | [] => ([], [])
  end.

(** The real number that [int.frac] spells. *)
Definition decimal_value (ip fp : text) : Q :=
  Qred (Qplus (inject_Z (Z.of_N (digits_value ip)))
              (Qmake (Z.of_N (digits_value fp)) (Pos.pow 10 (Pos.of_nat (length fp))))).

Definition mantissa_value (ip fp : text) : Q :=
  match fp with
  | [] => Qred (inject_Z (Z.of_N (digits_value ip)))
  | _ :: _ => decimal_value ip fp
  end.

(** The longest prefix [digits [. digits]] or [. digits] of [s] with at
    least one digit: the real number that it spells and what follows. *)
Definition read_mantissa (s : text) : option (Q * text) :=
  let '(ip, r) := take_digits s in
  match r with
  | "."%char :: f =>
      let '(fp, r') := take_digits f in
      match ip, fp with
      | [], [] => None
      | _, _ => Some (mantissa_value ip fp, r')
      end
  | _ =>
      match ip with
      | [] => None
      | _ :: _ => Some (mantissa_value ip [], r)
      end
  end.

Definition is_e (c : ascii) : bool := eq_char_ci c "e"%char.

(** An exponent part is about to follow. *)
Definition exponent_ahead (r : text) : bool :=
  match r with
  | e :: d :: r' =>
      is_e e && (is_digit d
                 || ((eq_char d "+"%char || eq_char d "-"%char)
                     && match r' with d' :: _ => is_digit d' | [] => false end))
  | _ => false
  end.

Definition read_sign (s : text) : bool * text :=
  match s with
  | c :: r =>
      if eq_char c "-"%char then (true, r)
      else if eq_char c "+"%char then (false, r)
      else (false, s)
  | [] => (false, [])
  end.

Definition apply_sign (negative : bool) (q : Q) : Q :=
  if negative then neg q else q.

(** [parseFloat(s)]: the double nearest to the number that the longest
    numeric prefix of [s] spells, [None] for NaN.  Exponents and [Infinity]
    are left out. *)
Definition parseFloat (s : text) : Pure (option Q) :=
  let '(negative, body) := read_sign (drop_spaces s) in
  match read_mantissa body with
  | Some (q, rest) =>
      if exponent_ahead rest then POutside
      else pbind (double q) (fun d => PVal (Some (apply_sign negative d)))
  | None =>
      match body with
      | c :: _ => if eq_char c "I"%char then POutside else PVal None
      | [] => PVal None
      end
  end.

(** [parseInt(s, 10)]: the double nearest to the integer that the leading
    digits spell, [None] for NaN. *)
Definition parseInt (s : text) : Pure (option Q) :=
  let '(negative, body) := read_sign (drop_spaces s) in
  match take_digits body with
  | ([], _) => PVal None
  | (ds, _) =>
      pbind (double (inject_Z (Z.of_N (digits_value ds))))
        (fun d => PVal (Some (apply_sign negative d)))
  end.

(** [Number(s)] for a string: white space is trimmed, the empty string is
    zero, a whole decimal literal is the double nearest to its value and
    anything else NaN ([None]).  Exponents, [Infinity] and the prefixed literals ([0x], [0o],
    [0b]) are left out. *)
Definition string_to_number (s : string) : Pure (option Q) :=
  let t := trim (of_string s) in
  match t with
  | [] => PVal (Some (num 0))
  | _ :: _ =>
      let '(negative, body) := read_sign t in
      match read_mantissa body with
      | Some (q, []) => pbind (double q) (fun d => PVal (Some (apply_sign negative d)))
      | Some (_, c :: _) =>
          if is_digit c || is_alpha c then POutside else PVal None
      | None =>
          match body with
          | c :: _ => if eq_char c "I"%char then POutside else PVal None
          | [] => PVal None
          end
      end
  end.

End JS.

(** *** Conversions and operators on values *)

Module Ops.
Import Text JS.

(** Truthiness: [false], [0], the empty string and [null] are falsy. *)
Definition truthy (v : Value) : bool :=
  match v with
  | VNull => false
  | VBool b => b
  | VNumber q => negb (is_zero q)
  | VString s => negb (String.eqb s "")
  | VArray _ => true
  end.

Definition bool_number (b : bool) : Q := if b then num 1 else num 0.

(** [ToNumber]; [None] is NaN.  Arrays are left out. *)
Definition to_number (v : Value) : Pure (option Q) :=
  match v with
  | VNull => PVal (Some (num 0))
  | VBool b => PVal (Some (bool_number b))
  | VNumber q => PVal (Some q)
  | VString s => string_to_number s
  | VArray _ => POutside
  end.

(** [String(v)].  Arrays are left out. *)
Definition to_string_value (v : Value) : Pure string :=
  match v with
  | VNull => PVal "null"%string
  | VBool true => PVal "true"%string
  | VBool false => PVal "false"%string
  | VNumber q => number_to_string q
  | VString s => PVal s
  | VArray _ => POutside
  end.

Definition number_equals_string (q : Q) (s : string) : Pure bool :=
  pbind (string_to_number s) (fun n =>
    match n with
    | Some q' => PVal (Qeq_bool q q')
    | None => PVal false
    end).

(** [a == b] *)
Definition loose_eq (a b : Value) : Pure bool :=
  match a, b with
  | VNull, VNull => PVal true
  | VNull, _ | _, VNull => PVal false
  | VBool x, VBool y => PVal (Bool.eqb x y)
  | VNumber x, VNumber y => PVal (Qeq_bool x y)
  | VString x, VString y => PVal (String.eqb x y)
  | VArray x, VArray y => PVal (Nat.eqb x y)
  | VNumber x, VString s | VString s, VNumber x => number_equals_string x s
  | VBool x, VNumber y | VNumber y, VBool x => PVal (Qeq_bool (bool_number x) y)
  | VBool x, VString s | VString s, VBool x => number_equals_string (bool_number x) s
  | VArray _, _ | _, VArray _ => POutside
  end.

(** [a != b] *)
Definition loose_neq (a b : Value) : Pure bool :=
  pbind (loose_eq a b) (fun r => PVal (negb r)).

(** Order of strings by code units. *)
Fixpoint text_ltb (a b : text) : bool :=
  match a, b with
  | _, [] => false
  | [], _ :: _ => true
  | x :: a', y :: b' =>
      if code x <? code y then true
      else if code y <? code x then false
      else text_ltb a' b'
  end.

(** The abstract relational comparison [a < b]: [Some true], [Some false],
    or [None] when an operand is NaN. *)
Definition less_than (a b : Value) : Pure (option bool) :=
  match a, b with
  | VString x, VString y => PVal (Some (text_ltb (of_string x) (of_string y)))
  | _, _ =>
      pbind (to_number a) (fun na =>
      pbind (to_number b) (fun nb =>
        match na, nb with
        | Some x, Some y => PVal (Some (Qltb x y))
        | _, _ => PVal None
        end))
  end.

Definition is_true (r : option bool) : bool :=
  match r with Some true => true | _ => false end.

Definition is_false (r : option bool) : bool :=
  match r with Some false => true | _ => false end.

Definition js_lt (a b : Value) : Pure bool := pbind (less_than a b) (fun r => PVal (is_true r)).
Definition js_gt (a b : Value) : Pure bool := pbind (less_than b a) (fun r => PVal (is_true r)).
Definition js_le (a b : Value) : Pure bool := pbind (less_than b a) (fun r => PVal (is_false r)).
Definition js_ge (a b : Value) : Pure bool := pbind (less_than a b) (fun r => PVal (is_false r)).

(** An arithmetic operator on the numbers that the operands convert to; a
    NaN operand is left out. *)
Definition arith (f : Q -> Q -> Pure Q) (a b : Value) : Pure Value :=
  pbind (to_number a) (fun na =>
  pbind (to_number b) (fun nb =>
    match na, nb with
    | Some x, Some y => pbind (f x y) (fun r => PVal (VNumber r))
    | _, _ => POutside
    end)).

Definition is_string (v : Value) : bool :=
  match v with VString _ => true | _ => false end.

Definition is_array (v : Value) : bool :=
  match v with VArray _ => true | _ => false end.

Definition is_number (v : Value) : bool :=
  match v with VNumber _ => true | _ => false end.

(** [a + b]: concatenation when an operand is a string, addition
    otherwise. *)
Definition js_add (a b : Value) : Pure Value :=
  if is_array a || is_array b then POutside
  else if is_string a || is_string b then
    pbind (to_string_value a) (fun x =>
    pbind (to_string_value b) (fun y => PVal (VString (x ++ y))))
  else arith add a b.

Definition js_sub : Value -> Value -> Pure Value := arith sub.
Definition js_mul : Value -> Value -> Pure Value := arith mul.

(** [a / b]; a divisor that converts to zero gives an infinity or NaN,
    which is left out. *)
Definition js_div : Value -> Value -> Pure Value :=
  arith (fun x y => if is_zero y then POutside else div x y).

(** [-a] *)
Definition js_neg (a : Value) : Pure Value :=
  pbind (to_number a) (fun n =>
    match n with
    | Some x => PVal (VNumber (neg x))
    | None => POutside
    end).

End Ops.

(** ** Syntax trees (interpreterTypes) *)

Module Ast.
Import JS.

Inductive LiteralValue :=
| LNumber (q : Q)
| LString (s : string)
| LOutside.      (* a number literal whose value the model leaves out *)

(** Every node carries its [lineNumber] as last field. *)
Inductive Expression :=
| Literal (value : LiteralValue) (lineNumber : nat)
| ArrayLiteral (elements : list Expression) (lineNumber : nat)
| Identifier (name : string) (lineNumber : nat)
| BinaryExpression (left : Expression) (operator : string) (right : Expression)
    (lineNumber : nat)
| UnaryExpression (operator : string) (right : Expression) (lineNumber : nat)
| Grouping (expression : Expression) (lineNumber : nat)
| FunctionCall (callee : string) (args : list Expression) (lineNumber : nat)
| ArrayAccess (array : Expression) (index : Expression) (lineNumber : nat).

Definition expr_line (e : Expression) : nat :=
  match e with
  | Literal _ l | ArrayLiteral _ l | Identifier _ l | BinaryExpression _ _ _ l
  | UnaryExpression _ _ l | Grouping _ l | FunctionCall _ _ l | ArrayAccess _ _ l => l
  end.

(** An item of a [Display] statement. *)
Inductive DisplayItem :=
| Item (e : Expression)
| TapMarker.

(** [Parameter] of the source ([Param] here: the other name is taken). *)
Record Param := mkParam {
  name : string;
  dataType : string;
  isReference : bool;
  isArray : bool
}.

Record Declarator := mkDeclarator {
  identifier : string;
  size : option Expression;
  initializer : option Expression
}.

Inductive Statement :=
| VariableDeclaration (dataType : string) (declarations : list Declarator)
    (isConstant : bool) (lineNumber : nat)
| Assignment (lvalue : Expression) (value : Expression) (lineNumber : nat)
| DisplayStatement (values : list DisplayItem) (lineNumber : nat)
| InputStatement (identifier : string) (lineNumber : nat)
| IfStatement (condition : Expression) (thenBranch : list Statement)
    (elseBranch : option (list Statement)) (lineNumber : nat)
| DoWhileStatement (condition : Expression) (body : list Statement) (lineNumber : nat)
| DoUntilStatement (condition : Expression) (body : list Statement) (lineNumber : nat)
| WhileStatement (condition : Expression) (body : list Statement) (lineNumber : nat)
| ForStatement (identifier : string) (start : Expression) (end_ : Expression)
    (body : list Statement) (lineNumber : nat)
| ModuleStatement (name : string) (parameters : list Param)
    (body : list Statement) (lineNumber : nat)
| FunctionDeclaration (name : string) (returnType : string)
    (parameters : list Param) (body : list Statement) (lineNumber : nat)
| ReturnStatement (value : Expression) (lineNumber : nat)
| CallStatement (name : string) (args : list Expression) (lineNumber : nat).

Definition stmt_line (s : Statement) : nat :=
  match s with
  | VariableDeclaration _ _ _ l | Assignment _ _ l | DisplayStatement _ l
  | InputStatement _ l | IfStatement _ _ _ l | DoWhileStatement _ _ l
  | DoUntilStatement _ _ l | WhileStatement _ _ l | ForStatement _ _ _ _ l
  | ModuleStatement _ _ _ l | FunctionDeclaration _ _ _ _ l | ReturnStatement _ l
  | CallStatement _ _ l => l
  end.

Definition is_module (s : Statement) : bool :=
  match s with ModuleStatement _ _ _ _ => true | _ => false end.

Definition is_function (s : Statement) : bool :=
  match s with FunctionDeclaration _ _ _ _ _ => true | _ => false end.

Definition is_variable_declaration (s : Statement) : bool :=
  match s with VariableDeclaration _ _ _ _ => true | _ => false end.

(** [callee.parameters], [callee.body] and [callee.name] of a module or a
    function. *)
Definition callee_parameters (s : Statement) : list Param :=
  match s with
  | ModuleStatement _ ps _ _ | FunctionDeclaration _ _ ps _ _ => ps
  | _ => []
  end.

Definition callee_body (s : Statement) : list Statement :=
  match s with
  | ModuleStatement _ _ b _ | FunctionDeclaration _ _ _ b _ => b
  | _ => []
  end.

Definition callee_name (s : Statement) : string :=
  match s with
  | ModuleStatement n _ _ _ | FunctionDeclaration n _ _ _ _ => n
  | _ => ""%string
  end.

End Ast.

(** ** The parser ([Parser]) *)

Module Parser.
Import Text Types JS Ast.

(** The messages of the parser's [InterpreterError]s. *)
Inductive ParseMessage :=
| UnexpectedToken (value : string)             (* Unexpected token: ${value} *)
| ExpectedButGot (expected got : TokenType)    (* Expected ${type} but got ${type} *)
| ExpectedOneOf (expected : list TokenType) (got : TokenType)
                                               (* Expected one of .. but got ${type} *)
| InvalidAssignmentTarget                      (* Invalid assignment target. *)
| DisplayStartsWithTap                         (* 'Display' statement cannot start with 'Tap'. *)
| ExpectedWhileOrUntil                         (* Expected 'While' or 'Until' after 'Do' block. *)
| CanOnlyCallFunctions                         (* Can only call functions, not expressions. *)
| ExpectedExpression (value : string).         (* Expected expression, got ${value} *)

(** The parser's state is the tokens from [position] on; the token list
    that the lexer hands over ends with the end marker, which is never
    consumed. *)
Inductive PResult (A : Type) :=
| POk (a : A) (rest : list Token)
| PError (message : ParseMessage) (line : nat)
| PStuck.     (* out of fuel, or a token list without end marker *)
Arguments POk {A} a rest.
Arguments PError {A} message line.
Arguments PStuck {A}.

Definition P (A : Type) : Type := list Token -> PResult A.

Definition pret {A} (a : A) : P A := fun ts => POk a ts.

Definition pbind {A B} (m : P A) (k : A -> P B) : P B :=
  fun ts =>
    match m ts with
    | POk a ts' => k a ts'
    | PError m l => PError m l
    | PStuck => PStuck
    end.

Definition stuck {A} : P A := fun _ => PStuck.

Declare Scope parser_scope.
Delimit Scope parser_scope with parser.
Notation "x <-- m ;; k" := (pbind m (fun x => k))
  (at level 100, m at next level, right associativity) : parser_scope.
Notation "m ;;;; k" := (pbind m (fun _ => k))
  (at level 100, right associativity) : parser_scope.
Local Open Scope parser_scope.

(** [this.peek()] *)
Definition peek : P Token :=
  fun ts =>
    match ts with
    | t :: _ => POk t ts
    | [] => PStuck
    end.

(** An error at the token ahead. *)
Definition fail_here {A} (message : Token -> ParseMessage) : P A :=
  fun ts =>
    match ts with
    | t :: _ => PError (message t) (lineNumber t)
    | [] => PStuck
    end.

Definition fail_at {A} (message : ParseMessage) (line : nat) : P A :=
  fun _ => PError message line.

(** [this.check(type)] *)
Definition check (ty : TokenType) : P bool :=
  t <-- peek ;;
  pret (negb (TokenType_eqb (type t) EOF) && TokenType_eqb (type t) ty).

Definition isAtEnd : P bool :=
  t <-- peek ;; pret (TokenType_eqb (type t) EOF).

(** [this.advance()], called where the token ahead is not the end
    marker. *)
Definition advance : P Token :=
  fun ts =>
    match ts with
    | t :: ts' => if TokenType_eqb (type t) EOF then POk t ts else POk t ts'
    | [] => PStuck
    end.

(** [this.match(...types)]: the token consumed, if any; it is what
    [previous()] returns afterwards. *)
Definition match_ (types : list TokenType) : P (option Token) :=
  t <-- peek ;;
  if negb (TokenType_eqb (type t) EOF) && existsb (TokenType_eqb (type t)) types
  then (t' <-- advance ;; pret (Some t'))
  else pret None.

(** [this.consume(type)] *)
Definition consume (ty : TokenType) : P Token :=
  ok <-- check ty ;;
  if ok then advance else fail_here (fun t => ExpectedButGot ty (type t)).

(** [this.consumeOneOf(...types)] *)
Definition consumeOneOf (types : list TokenType) : P Token :=
  t <-- peek ;;
  if negb (TokenType_eqb (type t) EOF) && existsb (TokenType_eqb (type t)) types
  then advance
  else fail_here (fun t => ExpectedOneOf types (type t)).

(** *** Expressions *)

(** [do { items.push(item) } while (this.match(COMMA))] *)
Fixpoint comma_list {A} (fuel : nat) (item : P A) : P (list A) :=
  match fuel with
  | O => stuck
  | S fuel' =>
      x <-- item ;;
      comma <-- match_ [COMMA] ;;
      match comma with
      | Some _ => xs <-- comma_list fuel' item ;; pret (x :: xs)
      | None => pret [x]
      end
  end.

(** [parseArguments] *)
Definition parseArguments_with (fuel : nat) (expression : P Expression) : P (list Expression) :=
  closing <-- check RPAREN ;;
  if closing then pret [] else comma_list fuel expression.

(** The value of a [NUMBER] token: [parseFloat] of its text. *)
Definition number_of_token (t : Token) : P Expression :=
  match parseFloat (of_string (value t)) with
  | PVal (Some q) => pret (Literal (LNumber q) (lineNumber t))
  | _ => pret (Literal LOutside (lineNumber t))
  end.

(** [parsePrimary] *)
Definition parsePrimary_with (expression : P Expression) : P Expression :=
  token <-- peek ;;
  match type token with
  | NUMBER => advance ;;;; number_of_token token
  | STRING => advance ;;;; pret (Literal (LString (value token)) (lineNumber token))
  | IDENTIFIER => advance ;;;; pret (Identifier (value token) (lineNumber token))
  | LPAREN =>
      advance ;;;;
      expr <-- expression ;;
      consume RPAREN ;;;;
      pret (Grouping expr (lineNumber token))
  | _ => fail_here (fun t => ExpectedExpression (value t))
  end.

(** The [while (true)] loop of [parsePostfix]. *)
Fixpoint postfix_loop (fuel : nat) (expression : P Expression) (expr : Expression)
  : P Expression :=
  match fuel with
  | O => stuck
  | S fuel' =>
      paren <-- match_ [LPAREN] ;;
      match paren with
      | Some previous =>
          match expr with
          | Identifier calleeName line =>
              args <-- parseArguments_with fuel' expression ;;
              consume RPAREN ;;;;
              postfix_loop fuel' expression (FunctionCall calleeName args line)
          | _ => fail_at CanOnlyCallFunctions (lineNumber previous)
          end
      | None =>
          bracket <-- match_ [LBRACKET] ;;
          match bracket with
          | Some _ =>
              index <-- expression ;;
              bracketToken <-- consume RBRACKET ;;
              postfix_loop fuel' expression (ArrayAccess expr index (lineNumber bracketToken))
          | None => pret expr
          end
      end
  end.

Definition parsePostfix_with (fuel : nat) (expression : P Expression) : P Expression :=
  expr <-- parsePrimary_with expression ;;
  postfix_loop fuel expression expr.

(** [parseUnary] *)
Fixpoint parseUnary_with (fuel : nat) (expression : P Expression) : P Expression :=
  match fuel with
  | O => stuck
  | S fuel' =>
      op <-- match_ [MINUS; NOT] ;;
      match op with
      | Some operatorToken =>
          right <-- parseUnary_with fuel' expression ;;
          pret (UnaryExpression (value operatorToken) right (lineNumber operatorToken))
      | None => parsePostfix_with fuel' expression
      end
  end.

(** The loop shared by the levels of binary operators:
    [while (this.match(...ops)) { ... expr = Binary(expr, operator, right) }] *)
Fixpoint binary_loop (fuel : nat) (operand : P Expression) (ops : list TokenType)
  (operator_of : Token -> string) (expr : Expression) : P Expression :=
  match fuel with
  | O => stuck
  | S fuel' =>
      op <-- match_ ops ;;
      match op with
      | Some operatorToken =>
          right <-- operand ;;
          binary_loop fuel' operand ops operator_of
            (BinaryExpression expr (operator_of operatorToken) right
               (lineNumber operatorToken))
      | None => pret expr
      end
  end.

Definition binary_level (fuel : nat) (operand : P Expression) (ops : list TokenType)
  (operator_of : Token -> string) : P Expression :=
  expr <-- operand ;;
  binary_loop fuel operand ops operator_of expr.

(** In [parseEquality] an [=] counts as [==]. *)
Definition equality_operator (t : Token) : string :=
  if TokenType_eqb (type t) ASSIGN then "==" else value t.

Definition parseFactor_with (fuel : nat) (expression : P Expression) : P Expression :=
  binary_level fuel (parseUnary_with fuel expression) [MULTIPLY; DIVIDE; MOD] value.

Definition parseTerm_with (fuel : nat) (expression : P Expression) : P Expression :=
  binary_level fuel (parseFactor_with fuel expression) [PLUS; MINUS] value.

Definition parseComparison_with (fuel : nat) (expression : P Expression) : P Expression :=
  binary_level fuel (parseTerm_with fuel expression)
    [GREATER; GREATER_EQUAL; LESS; LESS_EQUAL] value.

Definition parseEquality_with (fuel : nat) (expression : P Expression) : P Expression :=
  binary_level fuel (parseComparison_with fuel expression)
    [EQUAL; NOT_EQUAL; ASSIGN] equality_operator.

Definition parseAnd_with (fuel : nat) (expression : P Expression) : P Expression :=
  binary_level fuel (parseEquality_with fuel expression) [AND] value.

Definition parseOr_with (fuel : nat) (expression : P Expression) : P Expression :=
  binary_level fuel (parseAnd_with fuel expression) [OR] value.

(** [parseExpression] *)
Fixpoint parseExpression (fuel : nat) : P Expression :=
  match fuel with
  | O => stuck
  | S fuel' => parseOr_with fuel' (parseExpression fuel')
  end.

Definition parsePostfix (fuel : nat) : P Expression :=
  parsePostfix_with fuel (parseExpression fuel).

Definition parseArguments (fuel : nat) : P (list Expression) :=
  parseArguments_with fuel (parseExpression fuel).

(** *** Statements *)

(** One parameter of [parseParameters]. *)
Definition parseParameter : P Param :=
  ref1 <-- match_ [REF] ;;
  typeToken <-- match_ [INTEGER_TYPE; REAL_TYPE; STRING_TYPE] ;;
  ref2 <-- (match ref1 with
            | Some _ => pret ref1
            | None => match_ [REF]
            end) ;;
  nameToken <-- consume IDENTIFIER ;;
  bracket <-- match_ [LBRACKET] ;;
  match bracket with Some _ => consume RBRACKET ;;;; pret tt | None => pret tt end ;;;;
  pret (mkParam (value nameToken)
          (match typeToken with Some ty => value ty | None => "auto" end)
          (match ref2 with Some _ => true | None => false end)
          (match bracket with Some _ => true | None => false end)).

Definition parseParameters (fuel : nat) : P (list Param) :=
  closing <-- check RPAREN ;;
  if closing then pret [] else comma_list fuel parseParameter.

(** [while (this.peek().type !== stop && !this.isAtEnd()) body.push(...)] *)
Fixpoint block_until (fuel : nat) (statement : P Statement) (stops : list TokenType)
  : P (list Statement) :=
  match fuel with
  | O => stuck
  | S fuel' =>
      t <-- peek ;;
      if existsb (TokenType_eqb (type t)) stops || TokenType_eqb (type t) EOF
      then pret []
      else (s <-- statement ;; ss <-- block_until fuel' statement stops ;; pret (s :: ss))
  end.

(** One declarator of [parseVariableDeclaration]. *)
Definition parseDeclarator (fuel : nat) : P Declarator :=
  nameToken <-- consume IDENTIFIER ;;
  bracket <-- match_ [LBRACKET] ;;
  size <-- (match bracket with
            | Some _ =>
                e <-- parseExpression fuel ;; consume RBRACKET ;;;; pret (Some e)
            | None => pret None
            end) ;;
  eq <-- match_ [ASSIGN] ;;
  initializer <--
    (match eq with
     | Some _ =>
         match size with
         | Some _ =>
             firstToken <-- peek ;;
             elements <-- comma_list fuel (parseExpression fuel) ;;
             pret (Some (ArrayLiteral elements (lineNumber firstToken)))
         | None => e <-- parseExpression fuel ;; pret (Some e)
         end
     | None => pret None
     end) ;;
  pret (mkDeclarator (value nameToken) size initializer).

Definition parseVariableDeclaration (fuel : nat) : P Statement :=
  t <-- peek ;;
  let isConstant := TokenType_eqb (type t) CONSTANT in
  keywordToken <-- (if isConstant then consume CONSTANT else consume DECLARE) ;;
  typeToken <-- consumeOneOf [INTEGER_TYPE; REAL_TYPE; STRING_TYPE] ;;
  declarations <-- comma_list fuel (parseDeclarator fuel) ;;
  pret (VariableDeclaration (value typeToken) declarations isConstant
          (lineNumber keywordToken)).

Definition parseAssignment (fuel : nat) : P Statement :=
  setToken <-- consume SET ;;
  lvalue <-- parsePostfix fuel ;;
  match lvalue with
  | Identifier _ _ | ArrayAccess _ _ _ =>
      consume ASSIGN ;;;;
      value <-- parseExpression fuel ;;
      pret (Assignment lvalue value (lineNumber setToken))
  | _ => fail_at InvalidAssignmentTarget (lineNumber setToken)
  end.

(** The [do ... while (this.match(COMMA))] loop of
    [parseDisplayStatement]; [first] says that [values] is still empty. *)
Fixpoint display_items (fuel : nat) (first : bool) : P (list DisplayItem) :=
  match fuel with
  | O => stuck
  | S fuel' =>
      t <-- peek ;;
      item <-- (if TokenType_eqb (type t) TAP then
                  if first then fail_at DisplayStartsWithTap (lineNumber t)
                  else (consume TAP ;;;; pret TapMarker)
                else (e <-- parseExpression fuel' ;; pret (Item e))) ;;
      comma <-- match_ [COMMA] ;;
      match comma with
      | Some _ => rest <-- display_items fuel' false ;; pret (item :: rest)
      | None => pret [item]
      end
  end.

Definition parseDisplayStatement (fuel : nat) : P Statement :=
  displayToken <-- consume DISPLAY ;;
  values <-- display_items fuel true ;;
  pret (DisplayStatement values (lineNumber displayToken)).

Definition parseInputStatement : P Statement :=
  inputToken <-- consume INPUT ;;
  nameToken <-- consume IDENTIFIER ;;
  pret (InputStatement (value nameToken) (lineNumber inputToken)).

Definition parseReturnStatement (fuel : nat) : P Statement :=
  returnToken <-- consume RETURN ;;
  value <-- parseExpression fuel ;;
  pret (ReturnStatement value (lineNumber returnToken)).

Definition parseCallStatement (fuel : nat) : P Statement :=
  callToken <-- consume CALL ;;
  nameToken <-- consume IDENTIFIER ;;
  consume LPAREN ;;;;
  args <-- parseArguments fuel ;;
  consume RPAREN ;;;;
  pret (CallStatement (value nameToken) args (lineNumber callToken)).

(** [parseIfStatement] *)
Fixpoint parseIfStatement_with (fuel : nat) (statement : P Statement) : P Statement :=
  match fuel with
  | O => stuck
  | S fuel' =>
      ifToken <-- consume IF ;;
      condition <-- parseExpression fuel' ;;
      consume THEN ;;;;
      thenBranch <-- block_until fuel' statement [ELSE; END_IF] ;;
      els <-- match_ [ELSE] ;;
      match els with
      | Some _ =>
          t <-- peek ;;
          if TokenType_eqb (type t) IF then
            nested <-- parseIfStatement_with fuel' statement ;;
            pret (IfStatement condition thenBranch (Some [nested]) (lineNumber ifToken))
          else
            elseBranch <-- block_until fuel' statement [END_IF] ;;
            consume END_IF ;;;;
            pret (IfStatement condition thenBranch (Some elseBranch) (lineNumber ifToken))
      | None =>
          consume END_IF ;;;;
          pret (IfStatement condition thenBranch None (lineNumber ifToken))
      end
  end.

Definition parseDoLoopStatement_with (fuel : nat) (statement : P Statement) : P Statement :=
  doToken <-- consume DO ;;
  body <-- block_until fuel statement [WHILE; UNTIL] ;;
  w <-- match_ [WHILE] ;;
  match w with
  | Some _ =>
      condition <-- parseExpression fuel ;;
      pret (DoWhileStatement condition body (lineNumber doToken))
  | None =>
      u <-- match_ [UNTIL] ;;
      match u with
      | Some _ =>
          condition <-- parseExpression fuel ;;
          pret (DoUntilStatement condition body (lineNumber doToken))
      | None => fail_here (fun _ => ExpectedWhileOrUntil)
      end
  end.

Definition parseWhileStatement_with (fuel : nat) (statement : P Statement) : P Statement :=
  whileToken <-- consume WHILE ;;
  condition <-- parseExpression fuel ;;
  body <-- block_until fuel statement [END_WHILE] ;;
  consume END_WHILE ;;;;
  pret (WhileStatement condition body (lineNumber whileToken)).

Definition parseForStatement_with (fuel : nat) (statement : P Statement) : P Statement :=
  forToken <-- consume FOR ;;
  nameToken <-- consume IDENTIFIER ;;
  consume ASSIGN ;;;;
  start <-- parseExpression fuel ;;
  consume TO ;;;;
  end_ <-- parseExpression fuel ;;
  body <-- block_until fuel statement [END_FOR] ;;
  consume END_FOR ;;;;
  pret (ForStatement (value nameToken) start end_ body (lineNumber forToken)).

(** [parseStatement] *)
Fixpoint parseStatement (fuel : nat) : P Statement :=
  match fuel with
  | O => stuck
  | S fuel' =>
      t <-- peek ;;
      match type t with
      | CONSTANT | DECLARE => parseVariableDeclaration fuel'
      | SET => parseAssignment fuel'
      | DISPLAY => parseDisplayStatement fuel'
      | INPUT => parseInputStatement
      | IF => parseIfStatement_with fuel' (parseStatement fuel')
      | DO => parseDoLoopStatement_with fuel' (parseStatement fuel')
      | WHILE => parseWhileStatement_with fuel' (parseStatement fuel')
      | FOR => parseForStatement_with fuel' (parseStatement fuel')
      | CALL => parseCallStatement fuel'
      | RETURN => parseReturnStatement fuel'
      | _ => fail_here (fun t => UnexpectedToken (value t))
      end
  end.

Definition parseModuleStatement (fuel : nat) : P Statement :=
  moduleToken <-- consume MODULE ;;
  nameToken <-- consume IDENTIFIER ;;
  consume LPAREN ;;;;
  parameters <-- parseParameters fuel ;;
  consume RPAREN ;;;;
  body <-- block_until fuel (parseStatement fuel) [END_MODULE] ;;
  consume END_MODULE ;;;;
  pret (ModuleStatement (value nameToken) parameters body (lineNumber moduleToken)).

Definition parseFunctionDeclaration (fuel : nat) : P Statement :=
  funcToken <-- consume FUNCTION ;;
  typeToken <-- consumeOneOf [INTEGER_TYPE; REAL_TYPE; STRING_TYPE] ;;
  nameToken <-- consume IDENTIFIER ;;
  consume LPAREN ;;;;
  parameters <-- parseParameters fuel ;;
  consume RPAREN ;;;;
  body <-- block_until fuel (parseStatement fuel) [END_FUNCTION] ;;
  consume END_FUNCTION ;;;;
  pret (FunctionDeclaration (value nameToken) (value typeToken) parameters body
          (lineNumber funcToken)).

(** [parseDeclaration] *)
Definition parseDeclaration (fuel : nat) : P Statement :=
  t <-- peek ;;
  match type t with
  | MODULE => parseModuleStatement fuel
  | FUNCTION => parseFunctionDeclaration fuel
  | CONSTANT | DECLARE => parseVariableDeclaration fuel
  | _ => parseStatement fuel
  end.

(** [parse()] *)
Fixpoint parse_loop (fuel : nat) : P (list Statement) :=
  match fuel with
  | O => stuck
  | S fuel' =>
      atEnd <-- isAtEnd ;;
      if atEnd then pret []
      else (s <-- parseDeclaration fuel' ;; ss <-- parse_loop fuel' ;; pret (s :: ss))
  end.

(** The fuel bounds the nesting of the syntax and the turns of each loop
    of the parser; [parse] gives a generous multiple of the number of
    tokens, and [PStuck] reports that it was used up. *)
Definition parse (tokens : list Token) : PResult (list Statement) :=
  parse_loop (20 * S (length tokens)) tokens.

End Parser.

(** ** Run-time state, errors and the execution monad *)

Module Run.
Import Text JS Ast.

(** The messages of the errors that the evaluator raises. *)
Inductive Message :=
| AlreadyDefined (name : string)       (* Variable ${name} already defined in this scope. *)
| CannotAssignConstant (name : string) (* Cannot assign to constant "${name}". *)
| NotDeclared (name : string)          (* Variable "${name}" has not been declared. *)
| NotFound (name : string)             (* Variable "${name}" not found. *)
| MainRequired                         (* A 'main' module is required when other modules are defined. *)
| ArraySizeInvalid                     (* Array size must be a non-negative integer. *)
| ArrayInitializerNotList              (* Array initializer must be a comma-separated list of values. *)
| TooManyInitializers (name : string) (expected : Q) (got : nat)
                                       (* Too many initializers for array "${name}". Expected .., got ... *)
| ScalarWithArrayLiteral               (* Cannot initialize a scalar variable with an array literal. *)
| ConstantNotInitialized (name : string) (* Constant "${name}" must be initialized. *)
| NotAnArray                           (* Cannot access an element of a non-array variable. *)
| IndexOutOfBounds (index : Value) (size : nat)
                                       (* Array index out of bounds. Index .. is not valid for array of size ... *)
| InvalidAssignmentTarget              (* Invalid assignment target. *)
| ForBoundsNotNumbers                  (* For loop bounds must be numbers *)
| ModuleNotFound (name : string)       (* Module "${name}" not found. *)
| ArgumentCount (expected got : nat)   (* Expected .. arguments but got ... *)
| ReferenceArgumentNotVariable (param : string)
                                       (* Argument for reference parameter "${param}" must be a variable. *)
| DivisionByZero                       (* Division by zero. *)
| ModOperandsNotNumbers                (* Operands for MOD must be numbers. *)
| ModDivisionByZero                    (* Division by zero in MOD operation. *)
| UnknownOperator (operator : string)  (* Unknown operator: ${operator} *)
| UnknownUnaryOperator (operator : string) (* Unknown unary operator: ${operator} *)
| BuiltInArgumentCount (callee : string) (expected : list nat) (got : nat)
                                       (* Built-in function "${callee}" expects .. arguments, but got ... *)
| BuiltInFailed (callee : string) (inner : Message)
                                       (* Error in built-in function '${callee}': ${inner} *)
| FunctionNotFound (callee : string)   (* Function "${callee}" not found. *)
| NoReturnValue (name : string)        (* Function "${name}" did not return a value. *)
| SubstringStartNotNumber              (* Substring start argument must be a number. *)
| SubstringEndNotNumber                (* Substring end argument must be a number if provided. *)
| SubstringStartAfterEnd               (* Substring start index cannot be greater than end index. *)
| ReturnValue.                         (* Return value *)

(** What the evaluator throws. *)
Inductive Exn :=
| InterpreterError (message : Message) (lineNumber : nat)
| ProgramStoppedError
| ReturnError (value : Value)
| Error (message : Message)   (* a plain [Error] *)
| TypeError                   (* a property read on [undefined] *)
| RangeError.                 (* [new Array(n)] with [n] above 2^32 - 1 *)

(** Why a run of the model stops without a JavaScript outcome. *)
Inductive HaltReason :=
| OutOfFuel
| OutsideModel
| Interleaved      (* calls run together by [Promise.all], see [promise_all] *)
| Raced            (* several evaluations of one [Promise.all] fail *)
| AwaitingInput.   (* the host never answers the pending input request *)

(** An [EnvironmentEntry] together with its [EnvironmentValue]: the two
    objects are created together and never separated, so one heap cell
    stands for both. *)
Record EnvironmentEntry := mkEntry {
  entry_value : Value;
  entry_isConstant : bool;
  entry_dataType : string;
  originalName : string
}.

(** An [Environment]: [values] maps lower-cased names to entries, in
    insertion order; [enclosing] is the outer environment. *)
Record Environment := mkEnvironment {
  values : list (string * nat);
  enclosing : option nat
}.

(** What the host observes, in order: a step point yielded by the
    generator, a call of [displayProvider], a call of [inputProvider]. *)
Inductive Event :=
| EStep (lineNumber : nat) (scope : list (string * Value))
| EDisplay (values : list Value)
| EInput (prompt : string).

Record State := mkState {
  entries : list EnvironmentEntry;    (* heap of entries *)
  environments : list Environment;    (* heap of environments; 0 is [globals] *)
  arrays : list (list Value);         (* heap of arrays *)
  environment : nat;                  (* [this.environment] *)
  events : list Event;                (* what the host has observed so far *)
  inputs : list (option string);      (* the answers of [inputProvider] to come *)
  polls : nat;                        (* calls of [shouldStop] so far *)
  muted : bool                        (* inside the evaluation of a function call *)
}.

Definition set_entries (f : list EnvironmentEntry -> list EnvironmentEntry) (s : State) : State :=
  mkState (f (entries s)) (environments s) (arrays s) (environment s) (events s)
    (inputs s) (polls s) (muted s).

Definition set_environments (f : list Environment -> list Environment) (s : State) : State :=
  mkState (entries s) (f (environments s)) (arrays s) (environment s) (events s)
    (inputs s) (polls s) (muted s).

Definition set_arrays (f : list (list Value) -> list (list Value)) (s : State) : State :=
  mkState (entries s) (environments s) (f (arrays s)) (environment s) (events s)
    (inputs s) (polls s) (muted s).

Definition set_environment (e : nat) (s : State) : State :=
  mkState (entries s) (environments s) (arrays s) e (events s)
    (inputs s) (polls s) (muted s).

Definition add_event (ev : Event) (s : State) : State :=
  mkState (entries s) (environments s) (arrays s) (environment s) (events s ++ [ev])
    (inputs s) (polls s) (muted s).

Definition set_inputs (i : list (option string)) (s : State) : State :=
  mkState (entries s) (environments s) (arrays s) (environment s) (events s)
    i (polls s) (muted s).

Definition set_polls (n : nat) (s : State) : State :=
  mkState (entries s) (environments s) (arrays s) (environment s) (events s)
    (inputs s) n (muted s).

Definition set_muted (b : bool) (s : State) : State :=
  mkState (entries s) (environments s) (arrays s) (environment s) (events s)
    (inputs s) (polls s) b.

(** A fresh interpreter: only [globals] exists, and it is empty. *)
Definition initial_state (host_inputs : list (option string)) : State :=
  mkState [] [mkEnvironment [] None] [] 0 [] host_inputs 0 false.

(** *** The monad of state and exceptions *)

Inductive Result (A : Type) :=
| Ok (a : A) (s : State)
| Throw (e : Exn) (s : State)
| Halt (h : HaltReason) (s : State).
Arguments Ok {A} a s.
Arguments Throw {A} e s.
Arguments Halt {A} h s.

Definition M (A : Type) : Type := State -> Result A.

Definition ret {A} (a : A) : M A := fun s => Ok a s.

Definition bind {A B} (m : M A) (k : A -> M B) : M B :=
  fun s =>
    match m s with
    | Ok a s' => k a s'
    | Throw e s' => Throw e s'
    | Halt h s' => Halt h s'
    end.

Definition throw {A} (e : Exn) : M A := fun s => Throw e s.
Definition halt {A} (h : HaltReason) : M A := fun s => Halt h s.
Definition get_state : M State := fun s => Ok s s.
Definition modify (f : State -> State) : M unit := fun s => Ok tt (f s).

Definition lift {A} (p : Pure A) : M A :=
  match p with
  | PVal a => ret a
  | POutside => halt OutsideModel
  end.

(** [try { m } finally { f }] *)
Definition try_finally {A} (m : M A) (f : State -> State) : M A :=
  fun s =>
    match m s with
    | Ok a s' => Ok a (f s')
    | Throw e s' => Throw e (f s')
    | Halt h s' => Halt h s'
    end.

Declare Scope monad_scope.
Delimit Scope monad_scope with monad.
Notation "x <- m ;; k" := (bind m (fun x => k))
  (at level 100, m at next level, right associativity) : monad_scope.
Notation "m ;;; k" := (bind m (fun _ => k))
  (at level 100, right associativity) : monad_scope.
Local Open Scope monad_scope.

(** [for (const x of l) { f(x) }] *)
Fixpoint for_each {A} (f : A -> M unit) (l : list A) : M unit :=
  match l with
  | [] => ret tt
  | x :: l' => f x ;;; for_each f l'
  end.

(** Values computed one after the other and collected. *)
Fixpoint map_m {A B} (f : A -> M B) (l : list A) : M (list B) :=
  match l with
  | [] => ret []
  | x :: l' => y <- f x ;; ys <- map_m f l' ;; ret (y :: ys)
  end.

End Run.

(** ** Environments ([Environment]) *)

Module Env.
Import Text JS Ast Run.
Local Open Scope monad_scope.

(** [this.values.get(lowerName)] *)
Definition local (env : Environment) (lowerName : string) : option nat :=
  match find (fun kv => String.eqb (fst kv) lowerName) (values env) with
  | Some kv => Some (snd kv)
  | None => None
  end.

Definition new_entry (name : string) (isConstant : bool) (dataType : string)
  (value : Value) : EnvironmentEntry :=
  mkEntry value isConstant dataType name.

Definition add_binding (lowerName : string) (ref : nat) (env : Environment) : Environment :=
  mkEnvironment (values env ++ [(lowerName, ref)]) (enclosing env).

(** [new Environment(enclosing)]: the new environment's index. *)
Definition create (enclosing : option nat) : M nat :=
  fun s =>
    Ok (length (environments s))
       (set_environments (fun es => es ++ [mkEnvironment [] enclosing]) s).

(** [env.defineReference(name, valueEntry)] *)
Definition defineReference (env : nat) (name : string) (valueEntry : nat) : M unit :=
  fun s =>
    let lowerName := toLowerCase name in
    match environments s !! env with
    | None => Halt OutOfFuel s
    | Some e =>
        match local e lowerName with
        | Some _ => Throw (Error (AlreadyDefined name)) s
        | None =>
            Ok tt (set_environments (fun es => <[env := add_binding lowerName valueEntry e]> es) s)
        end
    end.

(** [env.define(name, isConstant, dataType, value)] *)
Definition define (env : nat) (name : string) (isConstant : bool) (dataType : string)
  (value : Value) : M unit :=
  fun s =>
    let lowerName := toLowerCase name in
    match environments s !! env with
    | None => Halt OutOfFuel s
    | Some e =>
        match local e lowerName with
        | Some _ => Throw (Error (AlreadyDefined name)) s
        | None =>
            let ref := length (entries s) in
            Ok tt (set_environments
                     (fun es => <[env := add_binding lowerName ref e]> es)
                     (set_entries
                        (fun l => l ++ [new_entry name isConstant dataType value]) s))
        end
    end.

(** The walk along [enclosing] that [assign] and [getEntry] share: the
    entry bound to [lowerName] in the nearest environment that has it. *)
Inductive Walk :=
| Found (ref : nat)
| Missing
| TooDeep.

Fixpoint walk (depth : nat) (envs : list Environment) (env : nat) (lowerName : string) : Walk :=
  match depth with
  | O => TooDeep
  | S depth' =>
      match envs !! env with
      | None => TooDeep
      | Some e =>
          match local e lowerName with
          | Some ref => Found ref
          | None =>
              match enclosing e with
              | Some outer => walk depth' envs outer lowerName
              | None => Missing
              end
          end
      end
  end.

(** Environments are created after the one they enclose, so a chain is
    never longer than the heap. *)
Definition resolve (s : State) (env : nat) (name : string) : Walk :=
  walk (length (environments s)) (environments s) env (toLowerCase name).

(** [env.getEntry(name, lineNumber)] *)
Definition getEntry (env : nat) (name : string) (lineNumber : nat) : M nat :=
  fun s =>
    match resolve s env name with
    | Found ref => Ok ref s
    | Missing => Throw (InterpreterError (NotFound name) lineNumber) s
    | TooDeep => Halt OutOfFuel s
    end.

Definition read_entry (ref : nat) : M EnvironmentEntry :=
  fun s =>
    match entries s !! ref with
    | Some e => Ok e s
    | None => Halt OutOfFuel s
    end.

(** [env.get(name, lineNumber)] *)
Definition get (env : nat) (name : string) (lineNumber : nat) : M Value :=
  ref <- getEntry env name lineNumber ;;
  e <- read_entry ref ;;
  ret (entry_value e).

Definition with_value (v : Value) (e : EnvironmentEntry) : EnvironmentEntry :=
  mkEntry v (entry_isConstant e) (entry_dataType e) (originalName e).

(** [env.assign(name, value, lineNumber)] *)
Definition assign (env : nat) (name : string) (value : Value) (lineNumber : nat) : M unit :=
  fun s =>
    match resolve s env name with
    | Found ref =>
        match entries s !! ref with
        | Some existing =>
            if entry_isConstant existing
            then Throw (InterpreterError (CannotAssignConstant name) lineNumber) s
            else Ok tt (set_entries (fun l => <[ref := with_value value existing]> l) s)
        | None => Halt OutOfFuel s
        end
    | Missing => Throw (InterpreterError (NotDeclared name) lineNumber) s
    | TooDeep => Halt OutOfFuel s
    end.

(** [scope[key] = v] on a plain object: a key that is present keeps its
    place. *)
Fixpoint record_set (key : string) (v : Value) (scope : list (string * Value))
  : list (string * Value) :=
  match scope with
  | [] => [(key, v)]
  | (k, w) :: scope' =>
      if String.eqb k key then (k, v) :: scope'
      else (k, w) :: record_set key v scope'
  end.

(** [env.serialize()]: outer environments first, inner ones overriding. *)
Fixpoint serialize_walk (depth : nat) (s : State) (env : nat) : list (string * Value) :=
  match depth with
  | O => []
  | S depth' =>
      match environments s !! env with
      | None => []
      | Some e =>
          let outer :=
            match enclosing e with
            | Some o => serialize_walk depth' s o
            | None => []
            end in
          fold_left
            (fun scope kv =>
               match entries s !! snd kv with
               | Some en => record_set (originalName en) (entry_value en) scope
               | None => scope
               end)
            (values e) outer
      end
  end.

Definition serialize (s : State) (env : nat) : list (string * Value) :=
  serialize_walk (length (environments s)) s env.

End Env.

(** ** Built-in functions ([builtInFunctions]) *)

Module BuiltIn.
Import Text JS Ops Ast Run.

(** [argCount] of each built-in: the numbers of arguments it accepts. *)
Definition table : list (string * list nat) :=
  [ ("sqrt", [1]); ("round", [1]); ("abs", [1]); ("cos", [1]); ("sin", [1]);
    ("tan", [1]); ("power", [2]); ("random", [2]); ("tointeger", [1]);
    ("toreal", [1]); ("stringtointeger", [1]); ("stringtoreal", [1]);
    ("isinteger", [1]); ("isreal", [1]); ("currencyformat", [1]);
    ("length", [1]); ("toupper", [1]); ("tolower", [1]); ("append", [2]);
    ("contains", [2]); ("substring", [2; 3]) ]%string.

(** [builtInFunctions.hasOwnProperty(name)] and the entry's [argCount]. *)
Definition argCount (name : string) : option (list nat) :=
  match find (fun kv => String.eqb (fst kv) name) table with
  | Some kv => Some (snd kv)
  | None => None
  end.

(** [/^-?\d+$/.test(t)] *)
Definition matches_integer (t : text) : bool :=
  let body := match t with
              | c :: r => if eq_char c "-"%char then r else t
              | [] => t
              end in
  match body with
  | [] => false
  | _ :: _ => forallb is_digit body
  end.

(** [/^-?\d+(\.\d+)?$/.test(t)] *)
Definition matches_real (t : text) : bool :=
  let body := match t with
              | c :: r => if eq_char c "-"%char then r else t
              | [] => t
              end in
  let '(ip, r) := take_digits body in
  match ip, r with
  | [], _ => false
  | _ :: _, [] => true
  | _ :: _, c :: f =>
      eq_char c "."%char
      && match f with [] => false | _ :: _ => forallb is_digit f end
  end.

(** [s.includes(sub)] *)
Fixpoint includes (s sub : text) : bool :=
  match Lexer.startsWith sub s with
  | Some _ => true
  | None => match s with
            | [] => false
            | _ :: s' => includes s' sub
            end
  end.

Definition upper_char (c : ascii) : ascii :=
  let n := code c in
  if is_lower c then ascii_of_nat (n - 32)
  else if (224 <=? n) && (n <=? 254) && negb (n =? 247) then ascii_of_nat (n - 32)
  else c.

(** Code units whose capital is not a single code unit below 256. *)
Definition upper_outside (c : ascii) : bool :=
  let n := code c in (n =? 181) || (n =? 223) || (n =? 255).

(** What an implementation does: a value, a plain [Error] that it throws,
    or a case left out of the model. *)
Inductive Outcome :=
| Returns (v : Value)
| Fails (message : Message)
| Outside.

Definition of_pure (p : Pure Value) : Outcome :=
  match p with
  | PVal v => Returns v
  | POutside => Outside
  end.

Definition on_number (f : Q -> Value) (v : Value) : Outcome :=
  match to_number v with
  | PVal (Some q) => Returns (f q)
  | _ => Outside
  end.

Definition on_string (f : text -> Outcome) (v : Value) : Outcome :=
  match to_string_value v with
  | PVal s => f (of_string s)
  | POutside => Outside
  end.

Definition number_or_outside (p : Pure (option Q)) : Outcome :=
  match p with
  | PVal (Some q) => Returns (VNumber q)
  | _ => Outside
  end.

(** [ToIntegerOrInfinity] of an index, clamped to [0, len]. *)
Definition clamp_index (q : Q) (len : nat) : nat :=
  Nat.min (Z.to_nat (trunc q)) len.

(** [str.substring(a, b)] *)
Definition substring_text (s : text) (a b : nat) : text :=
  let lo := Nat.min a b in
  let hi := Nat.max a b in
  firstn (hi - lo) (skipn lo s).

(** [builtIn.implementation(...evaluatedArgs)]; a missing argument is
    [undefined].  The trigonometric functions, [sqrt], [power], [random]
    and [currencyformat] are left out. *)
Definition implementation (name : string) (args : list Value) : Outcome :=
  match name, args with
  | "round"%string, [n] => on_number (fun q => VNumber (Qred (inject_Z (Qfloor (q + (1 # 2)))))) n
  | "abs"%string, [n] => on_number (fun q => VNumber (Qred (Qabs q))) n
  | "tointeger"%string, [n] => on_number (fun q => VNumber (Qred (inject_Z (trunc q)))) n
  | "toreal"%string, [VNumber q] => Returns (VNumber q)
  | "toreal"%string, [VString s] => number_or_outside (parseFloat (of_string s))
  | "stringtointeger"%string, [n] =>
      on_string (fun t => number_or_outside (parseInt t)) n
  | "stringtoreal"%string, [n] => on_string (fun t => number_or_outside (parseFloat t)) n
  | "isinteger"%string, [s] => on_string (fun t => Returns (VBool (matches_integer (trim t)))) s
  | "isreal"%string, [s] => on_string (fun t => Returns (VBool (matches_real (trim t)))) s
  | "length"%string, [s] =>
      on_string (fun t => Returns (VNumber (inject_Z (Z.of_nat (length t))))) s
  | "toupper"%string, [s] =>
      on_string (fun t => if existsb upper_outside t then Outside
                          else Returns (VString (to_string (map upper_char t)))) s
  | "tolower"%string, [s] =>
      on_string (fun t => Returns (VString (to_string (map lower_char t)))) s
  | "append"%string, [s1; s2] =>
      on_string (fun t1 => on_string (fun t2 => Returns (VString (to_string (t1 ++ t2)))) s2) s1
  | "contains"%string, [s1; s2] =>
      on_string (fun t1 => on_string (fun t2 => Returns (VBool (includes t1 t2))) s2) s1
  | "substring"%string, [s; start] =>
      on_string (fun t =>
        match start with
        | VNumber a =>
            Returns (VString (to_string (skipn (clamp_index a (length t)) t)))
        | _ => Fails SubstringStartNotNumber
        end) s
  | "substring"%string, [s; start; end_] =>
      on_string (fun t =>
        match start, end_ with
        | VNumber a, VNumber b =>
            if Qltb b a then Fails SubstringStartAfterEnd
            else Returns (VString (to_string
                   (substring_text t (clamp_index a (length t)) (clamp_index b (length t)))))
        | VNumber _, _ => Fails SubstringEndNotNumber
        | _, _ => Fails SubstringStartNotNumber
        end) s
  | _, _ => Outside
  end.

End BuiltIn.

(** ** The evaluator ([Interpreter]) *)

Module Interp.
Import Text JS Ops Ast Run.
Local Open Scope monad_scope.

(** The fields of the interpreter that never change during a run. *)
Record Interpreter := mkInterpreter {
  statements : list Statement;
  modules : gmap string Statement;
  functions : gmap string Statement
}.

(** The constructor: modules and functions are registered under their
    lower-cased names, a later declaration replacing an earlier one. *)
Definition register (maps : gmap string Statement * gmap string Statement)
  (stmt : Statement) : gmap string Statement * gmap string Statement :=
  match stmt with
  | ModuleStatement name _ _ _ => (<[toLowerCase name := stmt]> (fst maps), snd maps)
  | FunctionDeclaration name _ _ _ _ => (fst maps, <[toLowerCase name := stmt]> (snd maps))
  | _ => maps
  end.

Definition new_Interpreter (stmts : list Statement) : Interpreter :=
  let maps := fold_left register stmts (∅, ∅) in
  mkInterpreter stmts (fst maps) (snd maps).

(** [this.globals] *)
Definition globals : nat := 0.

(** *** The operators of [evaluate] *)

(** [right === 0] *)
Definition strictly_zero (v : Value) : bool :=
  match v with
  | VNumber q => is_zero q
  | _ => false
  end.

(** The [switch (binaryExpr.operator.toLowerCase())] of [evaluate], once
    both operands have been evaluated. *)
Definition binary (operator : string) (left right : Value) (lineNumber : nat) : M Value :=
  let op := toLowerCase operator in
  if String.eqb op "+" then lift (js_add left right)
  else if String.eqb op "-" then lift (js_sub left right)
  else if String.eqb op "*" then lift (js_mul left right)
  else if String.eqb op "/" then
    if strictly_zero right then throw (InterpreterError DivisionByZero lineNumber)
    else lift (js_div left right)
  else if String.eqb op "mod" || String.eqb op "%" then
    match left, right with
    | VNumber a, VNumber b =>
        if is_zero b then throw (InterpreterError ModDivisionByZero lineNumber)
        else ret (VNumber (rem a b))
    | _, _ => throw (InterpreterError ModOperandsNotNumbers lineNumber)
    end
  else if String.eqb op ">" then b <- lift (js_gt left right) ;; ret (VBool b)
  else if String.eqb op "<" then b <- lift (js_lt left right) ;; ret (VBool b)
  else if String.eqb op ">=" then b <- lift (js_ge left right) ;; ret (VBool b)
  else if String.eqb op "<=" then b <- lift (js_le left right) ;; ret (VBool b)
  else if String.eqb op "==" then b <- lift (loose_eq left right) ;; ret (VBool b)
  else if String.eqb op "!=" then b <- lift (loose_neq left right) ;; ret (VBool b)
  else if String.eqb op "and" then ret (if truthy left then right else left)
  else if String.eqb op "or" then ret (if truthy left then left else right)
  else throw (InterpreterError (UnknownOperator operator) lineNumber).

(** The [switch (unaryExpr.operator.toLowerCase())] of [evaluate]. *)
Definition unary (operator : string) (right : Value) (lineNumber : nat) : M Value :=
  let op := toLowerCase operator in
  if String.eqb op "-" then lift (js_neg right)
  else if String.eqb op "not" then ret (VBool (negb (truthy right)))
  else throw (InterpreterError (UnknownUnaryOperator operator) lineNumber).

Definition value_of_literal (l : LiteralValue) : Pure Value :=
  match l with
  | LNumber q => PVal (VNumber q)
  | LString s => PVal (VString s)
  | LOutside => POutside
  end.

(** *** Arrays *)

(** A new array object. *)
Definition new_array (elements : list Value) : M Value :=
  fun s => Ok (VArray (length (arrays s))) (set_arrays (fun l => l ++ [elements]) s).

Definition read_array (ref : nat) : M (list Value) :=
  fun s =>
    match arrays s !! ref with
    | Some a => Ok a s
    | None => Halt OutOfFuel s
    end.

(** [array[index] = value], [index] in range. *)
Definition write_array (ref index : nat) (value : Value) : M unit :=
  modify (set_arrays (fun l =>
    match l !! ref with
    | Some a => <[ref := <[index := value]> a]> l
    | None => l
    end)).

(** The index check of [ArrayAccess]: a number that is an integer from [0]
    to [length - 1]. *)
Definition valid_index (index : Value) (len : nat) : option nat :=
  match index with
  | VNumber q =>
      if isInteger q && Qle_bool 0 q && Qltb q (inject_Z (Z.of_nat len))
      then Some (Z.to_nat (Qnum (Qred q)))
      else None
  | _ => None
  end.

(** The checks that the two [ArrayAccess] cases share: the array's
    reference and the index. *)
Definition check_access (array index : Value) (lineNumber : nat) : M (nat * nat) :=
  match array with
  | VArray ref =>
      a <- read_array ref ;;
      match valid_index index (length a) with
      | Some i => ret (ref, i)
      | None => throw (InterpreterError (IndexOutOfBounds index (length a)) lineNumber)
      end
  | _ => throw (InterpreterError NotAnArray lineNumber)
  end.

(** *** Calls of the host *)

Section Host.

(** [shouldStop()], by the number of calls made before. *)
Variable shouldStop : nat -> bool.

Definition checkStopSignal : M unit :=
  fun s =>
    let s' := set_polls (S (polls s)) s in
    if shouldStop (polls s) then Throw ProgramStoppedError s' else Ok tt s'.

(** [this.displayProvider(values)] *)
Definition displayProvider (values : list Value) : M unit :=
  modify (add_event (EDisplay values)).

(** [await this.inputProvider(prompt)] *)
Definition inputProvider (prompt : string) : M (option string) :=
  fun s =>
    let s' := add_event (EInput prompt) s in
    match inputs s with
    | answer :: rest => Ok answer (set_inputs rest s')
    | [] => Halt AwaitingInput s'
    end.

(** [yield { lineNumber, scope: this.environment.serialize() }]; inside the
    evaluation of a function call the step point reaches no one. *)
Definition yield_step (lineNumber : nat) : M unit :=
  fun s =>
    if muted s then Ok tt s
    else Ok tt (add_event (EStep lineNumber (Env.serialize s (environment s))) s).

(** [this.environment] *)
Definition current : M nat := fun s => Ok (environment s) s.

(** *** [validateAndParseInput]

    [{ isValid, value }]; the value of an accepted line is a number that
    the model holds or one that it leaves out (an infinity, for a line of
    more than three hundred digits). *)

Definition parsed_number (p : Pure (option Q)) : Pure Value :=
  match p with
  | PVal (Some q) => PVal (VNumber q)
  | _ => POutside
  end.

Definition validateAndParseInput (input : string) (type : string) : bool * Pure Value :=
  let trimmedInput := trim (of_string input) in
  let t := toLowerCase type in
  if String.eqb t "integer" then
    if BuiltIn.matches_integer trimmedInput
    then (true, parsed_number (parseInt trimmedInput))
    else (false, PVal VNull)
  else if String.eqb t "real" then
    if BuiltIn.matches_real trimmedInput
    then (true, parsed_number (parseFloat trimmedInput))
    else (false, PVal VNull)
  else (true, PVal (VString input)).

(** *** Loops

    Each loop of the evaluator, with its body and condition as parameters;
    [fuel] bounds the number of turns. *)

Fixpoint whileLoop (fuel : nat) (condition : M Value) (body : M unit) : M unit :=
  match fuel with
  | O => halt OutOfFuel
  | S fuel' =>
      c <- condition ;;
      if truthy c then checkStopSignal ;;; body ;;; whileLoop fuel' condition body
      else ret tt
  end.

Fixpoint doWhileLoop (fuel : nat) (condition : M Value) (body : M unit) : M unit :=
  match fuel with
  | O => halt OutOfFuel
  | S fuel' =>
      checkStopSignal ;;; body ;;;
      c <- condition ;;
      if truthy c then doWhileLoop fuel' condition body else ret tt
  end.

Fixpoint doUntilLoop (fuel : nat) (condition : M Value) (body : M unit) : M unit :=
  match fuel with
  | O => halt OutOfFuel
  | S fuel' =>
      checkStopSignal ;;; body ;;;
      c <- condition ;;
      if negb (truthy c) then doUntilLoop fuel' condition body else ret tt
  end.

(** [for (let i = start; i <= end; i++) { ... }]: [i] is a variable of the
    evaluator, written to the counter's entry at the start of every turn;
    [i++] is the addition of doubles. *)
Fixpoint forLoop (fuel : nat) (body : M unit) (scope : nat) (identifier : string)
  (lineNumber : nat) (i end_ : Q) : M unit :=
  match fuel with
  | O => halt OutOfFuel
  | S fuel' =>
      if Qle_bool i end_ then
        checkStopSignal ;;;
        Env.assign scope identifier (VNumber i) lineNumber ;;;
        body ;;;
        next <- lift (add i (num 1)) ;;
        forLoop fuel' body scope identifier lineNumber next end_
      else ret tt
  end.

(** The [while (!validInput)] loop of the [Input] statement. *)
Fixpoint inputLoop (fuel : nat) (identifier : string) (lineNumber : nat)
  (inputVarEntry : nat) : M unit :=
  match fuel with
  | O => halt OutOfFuel
  | S fuel' =>
      checkStopSignal ;;;
      entry <- Env.read_entry inputVarEntry ;;
      let dataType := entry_dataType entry in
      rawInput <- inputProvider
        ("Enter a value for " ++ identifier ++ " (" ++ dataType ++ "):") ;;
      match rawInput with
      | None =>
          checkStopSignal ;;;
          displayProvider [VString ("Input for " ++ identifier ++ " cancelled.")]
      | Some raw =>
          let validationResult := validateAndParseInput raw dataType in
          if fst validationResult then
            value <- lift (snd validationResult) ;;
            env <- current ;;
            Env.assign env identifier value lineNumber
          else
            displayProvider
              [VString ("Invalid input. Please enter a valid " ++ dataType ++ ".")] ;;;
            inputLoop fuel' identifier lineNumber inputVarEntry
      end
  end.

(** *** Blocks and calls, over a given way to run statements and to
    evaluate expressions *)

(** [executeBlockGenerator(statements, environment)] *)
Definition block (exec : Statement -> M unit) (stmts : list Statement) (env : nat) : M unit :=
  previousEnv <- current ;;
  try_finally
    (modify (set_environment env) ;;;
     for_each (fun stmt => checkStopSignal ;;; exec stmt) stmts)
    (set_environment previousEnv).

(** A block in [new Environment(outer)]. *)
Definition block_in_new (exec : Statement -> M unit) (stmts : list Statement)
  (outer : nat) : M unit :=
  env <- Env.create (Some outer) ;;
  block exec stmts env.

(** A block in [new Environment(this.environment)]. *)
Definition nested_block (exec : Statement -> M unit) (stmts : list Statement) : M unit :=
  outer <- current ;;
  block_in_new exec stmts outer.

(** The binding of one parameter in [executeCallGenerator]. *)
Definition bind_parameter (eval : Expression -> M Value) (calleeEnv : nat)
  (lineNumber : nat) (pa : Param * Expression) : M unit :=
  let '(param, arg) := pa in
  if isReference param then
    match arg with
    | Identifier varName _ =>
        env <- current ;;
        valueEntry <- Env.getEntry env varName lineNumber ;;
        Env.defineReference calleeEnv (name param) valueEntry
    | _ =>
        throw (InterpreterError (ReferenceArgumentNotVariable (name param)) lineNumber)
    end
  else
    argValue <- eval arg ;;
    paramDataType <-
      (if String.eqb (dataType param) "auto" then
         (* [(arg as Identifier).name] is [undefined] unless [arg] is an
            identifier, and [getEntry] calls [toLowerCase] on it *)
         match arg with
         | Identifier argName argLine =>
             env <- current ;;
             ref <- Env.getEntry env argName argLine ;;
             originalEntry <- Env.read_entry ref ;;
             ret (entry_dataType originalEntry)
         | _ => throw TypeError
         end
       else ret (dataType param)) ;;
    Env.define calleeEnv (name param) false paramDataType argValue.

(** [executeCallGenerator(callee, args, lineNumber)] *)
Definition call (eval : Expression -> M Value) (exec : Statement -> M unit)
  (callee : Statement) (args : list Expression) (lineNumber : nat) : M unit :=
  let parameters := callee_parameters callee in
  if negb (length args =? length parameters) then
    throw (InterpreterError (ArgumentCount (length parameters) (length args)) lineNumber)
  else
    calleeEnv <- Env.create (Some globals) ;;
    for_each (bind_parameter eval calleeEnv lineNumber) (combine parameters args) ;;;
    block exec (callee_body callee) calleeEnv.

(** The evaluation of a call of a user function: the step points of the
    body are dropped, a [ReturnError] is the call's value, and a body that
    ends without one is an error. *)
Definition call_function (body : M unit) (name : string) (lineNumber : nat) : M Value :=
  fun s =>
    let was := muted s in
    match body (set_muted true s) with
    | Ok _ s' => Throw (InterpreterError (NoReturnValue name) lineNumber) (set_muted was s')
    | Throw (ReturnError v) s' => Ok v (set_muted was s')
    | Throw e s' => Throw e (set_muted was s')
    | Halt h s' => Halt h s'
    end.

(** *** [Promise.all]

    The arguments of a built-in and the elements of an array literal are
    evaluated by [Promise.all(list.map(e => this.evaluate(e)))]: the
    evaluations are started in order and then interleave.  With one
    expression, or with expressions that call no user function (they have
    no effect on the state), the interleaving cannot be observed, except
    for which of several errors is reported: this is left out, with the
    halt reason [Raced].  The other cases are left out with the halt reason
    [Interleaved]: there the calls save and restore [this.environment] in
    an order of their own, statements of one run in the environment of
    another, and [this.environment] is not what it was when all have
    returned. *)

Fixpoint calls_user_function (e : Expression) : bool :=
  match e with
  | Literal _ _ | Identifier _ _ => false
  | ArrayLiteral elements _ => existsb calls_user_function elements
  | BinaryExpression l _ r _ => calls_user_function l || calls_user_function r
  | UnaryExpression _ r _ => calls_user_function r
  | Grouping e' _ => calls_user_function e'
  | FunctionCall callee args _ =>
      match BuiltIn.argCount (toLowerCase callee) with
      | Some _ => existsb calls_user_function args
      | None => true
      end
  | ArrayAccess a i _ => calls_user_function a || calls_user_function i
  end.

(** How the evaluations that are still under way end when one has
    failed: all with a value, one more with an error, or one does not end
    in the model. *)
Inductive Others :=
| OthersSucceed
| OthersThrow
| OthersHalt (h : HaltReason).

Fixpoint others (eval : Expression -> M Value) (es : list Expression) (s : State) : Others :=
  match es with
  | [] => OthersSucceed
  | e :: es' =>
      match eval e s with
      | Ok _ _ => others eval es' s
      | Throw _ _ =>
          match others eval es' s with
          | OthersHalt h => OthersHalt h
          | _ => OthersThrow
          end
      | Halt h _ => OthersHalt h
      end
  end.

Fixpoint all_settled (eval : Expression -> M Value) (es : list Expression) : M (list Value) :=
  match es with
  | [] => ret []
  | e :: es' =>
      fun s =>
        match eval e s with
        | Ok v s1 =>
            match all_settled eval es' s1 with
            | Ok vs s2 => Ok (v :: vs) s2
            | r => r
            end
        | Throw x s1 =>
            match others eval es' s1 with
            | OthersSucceed => Throw x s1
            | OthersThrow => Halt Raced s1
            | OthersHalt h => Halt h s1
            end
        | Halt h s1 => Halt h s1
        end
  end.

Definition promise_all (eval : Expression -> M Value) (es : list Expression) : M (list Value) :=
  match es with
  | [] | [_] => map_m eval es
  | _ =>
      if existsb calls_user_function es then halt Interleaved
      else all_settled eval es
  end.

(** *** [evaluate] and [executeStatementGenerator] *)

Variable this : Interpreter.

(** One declarator of a [VariableDeclaration]: the initial value. *)
Definition initial_value (eval : Expression -> M Value) (declaration : Declarator)
  : M Value :=
  match size declaration with
  | Some sizeExpr =>
      sz <- eval sizeExpr ;;
      match sz with
      | VNumber q =>
          if isInteger q && Qle_bool 0 q then
            if Qle_bool (inject_Z (2 ^ 32)) q then throw RangeError
            else
              let n := Z.to_nat (Qnum (Qred q)) in
              initialValue <- new_array (repeat VNull n) ;;
              match initializer declaration with
              | Some (ArrayLiteral elements initLine) =>
                  if n <? length elements then
                    throw (InterpreterError
                             (TooManyInitializers (identifier declaration) q (length elements))
                             initLine)
                  else
                    for_each
                      (fun ie : nat * Expression =>
                         v <- eval (snd ie) ;;
                         match initialValue with
                         | VArray ref => write_array ref (fst ie) v
                         | _ => ret tt
                         end)
                      (combine (seq 0 (length elements)) elements) ;;;
                    ret initialValue
              | Some init =>
                  throw (InterpreterError ArrayInitializerNotList (expr_line init))
              | None => ret initialValue
              end
          else throw (InterpreterError ArraySizeInvalid (expr_line sizeExpr))
      | _ => throw (InterpreterError ArraySizeInvalid (expr_line sizeExpr))
      end
  | None =>
      match initializer declaration with
      | Some (ArrayLiteral _ initLine) =>
          throw (InterpreterError ScalarWithArrayLiteral initLine)
      | Some init => eval init
      | None => ret VNull
      end
  end.

Definition is_null (v : Value) : bool :=
  match v with VNull => true | _ => false end.

Fixpoint evaluate (fuel : nat) (expr : Expression) {struct fuel} : M Value :=
  match fuel with
  | O => halt OutOfFuel
  | S fuel' =>
      match expr with
      | Literal value _ => lift (value_of_literal value)
      | Identifier name lineNumber =>
          env <- current ;;
          Env.get env name lineNumber
      | BinaryExpression l operator r lineNumber =>
          left <- evaluate fuel' l ;;
          right <- evaluate fuel' r ;;
          binary operator left right lineNumber
      | UnaryExpression operator r lineNumber =>
          unaryRight <- evaluate fuel' r ;;
          unary operator unaryRight lineNumber
      | Grouping expression _ => evaluate fuel' expression
      | FunctionCall callee args lineNumber =>
          let calleeName := toLowerCase callee in
          match BuiltIn.argCount calleeName with
          | Some expectedArgCount =>
              let actualArgCount := length args in
              if negb (existsb (Nat.eqb actualArgCount) expectedArgCount) then
                throw (InterpreterError
                         (BuiltInArgumentCount callee expectedArgCount actualArgCount)
                         lineNumber)
              else
                evaluatedArgs <- promise_all (evaluate fuel') args ;;
                match BuiltIn.implementation calleeName evaluatedArgs with
                | BuiltIn.Returns v => ret v
                | BuiltIn.Fails message =>
                    throw (InterpreterError (BuiltInFailed calleeName message) lineNumber)
                | BuiltIn.Outside => halt OutsideModel
                end
          | None =>
              match functions this !! calleeName with
              | None => throw (InterpreterError (FunctionNotFound callee) lineNumber)
              | Some funcToCall =>
                  call_function
                    (call (evaluate fuel') (executeStatementGenerator fuel')
                       funcToCall args lineNumber)
                    (callee_name funcToCall) lineNumber
              end
          end
      | ArrayLiteral elements _ =>
          vs <- promise_all (evaluate fuel') elements ;;
          new_array vs
      | ArrayAccess arrayExpr indexExpr lineNumber =>
          array <- evaluate fuel' arrayExpr ;;
          index <- evaluate fuel' indexExpr ;;
          ri <- check_access array index lineNumber ;;
          a <- read_array (fst ri) ;;
          match a !! snd ri with
          | Some v => ret v
          | None => halt OutOfFuel
          end
      end
  end

with executeStatementGenerator (fuel : nat) (stmt : Statement) {struct fuel} : M unit :=
  match fuel with
  | O => halt OutOfFuel
  | S fuel' =>
      checkStopSignal ;;;
      yield_step (stmt_line stmt) ;;;
      match stmt with
      | VariableDeclaration dataType declarations isConstant lineNumber =>
          for_each
            (fun declaration =>
               initialValue <- initial_value (evaluate fuel') declaration ;;
               if isConstant && is_null initialValue then
                 throw (InterpreterError
                          (ConstantNotInitialized (identifier declaration)) lineNumber)
               else
                 env <- current ;;
                 Env.define env (identifier declaration) isConstant dataType initialValue)
            declarations
      | Assignment lvalue valueExpr lineNumber =>
          value <- evaluate fuel' valueExpr ;;
          match lvalue with
          | Identifier name _ =>
              env <- current ;;
              Env.assign env name value lineNumber
          | ArrayAccess arrayExpr indexExpr accessLine =>
              array <- evaluate fuel' arrayExpr ;;
              index <- evaluate fuel' indexExpr ;;
              ri <- check_access array index accessLine ;;
              write_array (fst ri) (snd ri) value
          | _ => throw (InterpreterError InvalidAssignmentTarget lineNumber)
          end
      | DisplayStatement values _ =>
          evaluatedValues <-
            map_m (fun valueNode =>
                     checkStopSignal ;;;
                     match valueNode with
                     | TapMarker => ret (VString "    ")
                     | Item e => evaluate fuel' e
                     end)
                  values ;;
          displayProvider evaluatedValues
      | InputStatement identifier lineNumber =>
          env <- current ;;
          inputVarEntry <- Env.getEntry env identifier lineNumber ;;
          inputLoop fuel' identifier lineNumber inputVarEntry
      | IfStatement condition thenBranch elseBranch _ =>
          c <- evaluate fuel' condition ;;
          if truthy c then
            nested_block (executeStatementGenerator fuel') thenBranch
          else
            match elseBranch with
            | Some stmts => nested_block (executeStatementGenerator fuel') stmts
            | None => ret tt
            end
      | DoWhileStatement condition body _ =>
          doWhileLoop fuel' (evaluate fuel' condition)
            (nested_block (executeStatementGenerator fuel') body)
      | DoUntilStatement condition body _ =>
          doUntilLoop fuel' (evaluate fuel' condition)
            (nested_block (executeStatementGenerator fuel') body)
      | WhileStatement condition body _ =>
          whileLoop fuel' (evaluate fuel' condition)
            (nested_block (executeStatementGenerator fuel') body)
      | ForStatement identifier startExpr endExpr body lineNumber =>
          env <- current ;;
          scope <- Env.create (Some env) ;;
          start <- evaluate fuel' startExpr ;;
          end_ <- evaluate fuel' endExpr ;;
          match start, end_ with
          | VNumber a, VNumber b =>
              Env.define scope identifier false "Real" start ;;;
              forLoop fuel' (block_in_new (executeStatementGenerator fuel') body scope)
                scope identifier lineNumber a b
          | _, _ => throw (InterpreterError ForBoundsNotNumbers lineNumber)
          end
      | CallStatement name args lineNumber =>
          match modules this !! toLowerCase name with
          | None => throw (InterpreterError (ModuleNotFound name) lineNumber)
          | Some moduleToCall =>
              call (evaluate fuel') (executeStatementGenerator fuel')
                moduleToCall args lineNumber
          end
      | ReturnStatement valueExpr _ =>
          returnValue <- evaluate fuel' valueExpr ;;
          throw (ReturnError returnValue)
      | FunctionDeclaration _ _ _ _ _ | ModuleStatement _ _ _ _ => ret tt
      end
  end.

(** [executeBlockGenerator] and [executeCallGenerator] *)
Definition executeBlockGenerator (fuel : nat) (stmts : list Statement) (env : nat) : M unit :=
  block (executeStatementGenerator fuel) stmts env.

Definition executeCallGenerator (fuel : nat) (callee : Statement)
  (args : list Expression) (lineNumber : nat) : M unit :=
  call (evaluate fuel) (executeStatementGenerator fuel) callee args lineNumber.

(** [runGenerator()]; [run()] drains the same generator. *)
Definition runGenerator (fuel : nat) : M unit :=
  checkStopSignal ;;;
  if 0 <? base.size (modules this) then
    match modules this !! "main"%string with
    | None => throw (InterpreterError MainRequired 1)
    | Some mainModule =>
        for_each
          (fun stmt =>
             if is_variable_declaration stmt then executeStatementGenerator fuel stmt
             else ret tt)
          (statements this) ;;;
        executeCallGenerator fuel mainModule [] 1
    end
  else
    for_each
      (fun stmt =>
         if negb (is_function stmt) then executeStatementGenerator fuel stmt
         else ret tt)
      (statements this).

End Host.

(** *** [interpret]

    Lexing, parsing and a run of the generator to its end, with the host's
    stop signal, its answers to input requests and the fuel of the
    evaluator.  In debug mode the driver pulls the step points one at a
    time; in run mode it drains them. *)
Inductive Outcome :=
| LexFailed (message : Lexer.LexMessage) (line : nat)
| ParseFailed (message : Parser.ParseMessage) (line : nat)
| FrontEndStuck
| Ran (result : Result unit).

Definition interpret (shouldStop : nat -> bool) (code : string)
  (host_inputs : list (option string)) (fuel : nat) : Outcome :=
  match Lexer.tokenize code with
  | Lexer.LexOk tokens =>
      match Parser.parse tokens with
      | Parser.POk stmts _ =>
          Ran (runGenerator shouldStop (new_Interpreter stmts) fuel
                 (initial_state host_inputs))
      | Parser.PError message line => ParseFailed message line
      | Parser.PStuck => FrontEndStuck
      end
  | Lexer.LexError message line => LexFailed message line
  | Lexer.LexOutOfFuel => FrontEndStuck
  end.

(** The state in which a run ended, whatever the way. *)
Definition final_state {A} (r : Result A) : State :=
  match r with
  | Ok _ s | Throw _ s | Halt _ s => s
  end.

(** The step points of a run: what the debug iterator yields. *)
Definition steps_of (evs : list Event) : list (nat * list (string * Value)) :=
  flat_map (fun ev => match ev with
                      | EStep line scope => [(line, scope)]
                      | _ => []
                      end) evs.

(** The lines displayed in a run: the arguments of [displayProvider]. *)
Definition displays_of (evs : list Event) : list (list Value) :=
  flat_map (fun ev => match ev with
                      | EDisplay values => [values]
                      | _ => []
                      end) evs.

End Interp.

(** * Notions used to state the properties *)

Module FormatterSpec.
Import Text Formatter.

Definition no_newline (l : text) : Prop :=
  Forall (fun c => eq_char c newline = false) l.

Definition blank (l : text) : Prop :=
  Forall (fun c => is_space c = true) l.

(** A text with no white space at either end. *)
Definition trimmed (t : text) : Prop :=
  drop_spaces t = t /\ drop_spaces (rev t) = rev t.

End FormatterSpec.

Module LexerSpec.
Import Text Types Lexer.

(** What one turn of the scanning loop consumes: a white-space character,
    a line comment, or the characters of one token. *)
Inductive Piece :=
| PSpace (c : ascii)
| PComment (t : text)
| PLexeme (tok : Token) (t : text).

Definition piece_text (p : Piece) : text :=
  match p with
  | PSpace c => [c]
  | PComment t => t
  | PLexeme _ t => t
  end.

Definition piece_tokens (p : Piece) : list Token :=
  match p with
  | PLexeme tok _ => [tok]
  | _ => []
  end.

(** [m] spells the keyword [kw]: its letters one by one, in either case,
    and one or more white-space characters where the keyword has one. *)
Inductive spells : text -> text -> Prop :=
| spells_end : spells [] []
| spells_letter k c kw m :
    is_space k = false -> eq_char_ci k c = true -> spells kw m ->
    spells (k :: kw) (c :: m)
| spells_space k c sp kw m :
    is_space k = true -> is_space c = true -> FormatterSpec.blank sp -> spells kw m ->
    spells (k :: kw) (c :: sp ++ m).

(** A digit, then digits and dots. *)
Definition number_text (t : text) : Prop :=
  exists c r, t = c :: r /\ is_digit c = true
              /\ forallb (fun c => is_digit c || eq_char c "."%char) r = true.

(** A letter or an underscore, then letters, digits and underscores. *)
Definition identifier_text (t : text) : Prop :=
  exists c r, t = c :: r /\ is_alpha c = true /\ forallb is_word r = true.

(** The token that a lexeme stands for: a keyword of [KEYWORDS] for a text
    that spells it, with the type that the table gives it; the characters
    between the quotes for a string literal; its own text for a number and
    for an identifier; an operator of [OPERATORS] for its own text, with
    the type of the table.  The line of the token is left open here. *)
Inductive lexeme : Token -> text -> Prop :=
| lexeme_keyword kw ty line m :
    In (kw, ty) KEYWORDS -> spells (of_string kw) m ->
    lexeme (mkToken ty kw line) m
| lexeme_string v line :
    Forall (fun c => eq_char c dquote = false) v ->
    lexeme (mkToken STRING (to_string v) line) (dquote :: v ++ [dquote])
| lexeme_number v line :
    number_text v -> lexeme (mkToken NUMBER (to_string v) line) v
| lexeme_identifier v line :
    identifier_text v -> lexeme (mkToken IDENTIFIER (to_string v) line) v
| lexeme_operator op ty line :
    In (op, ty) OPERATORS -> lexeme (mkToken ty op line) (of_string op).

Definition piece_ok (p : Piece) : Prop :=
  match p with
  | PSpace c => is_space c = true
  | PComment t =>
      (exists r, t = "/"%char :: "/"%char :: r)
      /\ Forall (fun c => eq_char c newline = false) t
  | PLexeme tok t => t <> [] /\ type tok <> EOF /\ lexeme tok t
  end.

(** The line on which reading goes on after a piece: only a newline between
    the tokens counts. *)
Definition line_after (line : nat) (p : Piece) : nat :=
  match p with
  | PSpace c => if eq_char c newline then S line else line
  | _ => line
  end.

(** Every token carries the line on which its lexeme starts, when the
    pieces are read from [line] on. *)
Fixpoint placed (line : nat) (pieces : list Piece) : Prop :=
  match pieces with
  | [] => True
  | p :: rest =>
      match p with PLexeme tok _ => lineNumber tok = line | _ => True end
      /\ placed (line_after line p) rest
  end.

(** The input is cut into consecutive pieces, and the tokens are those of
    the lexeme pieces, in order, each on its line, followed by the end
    marker on the last line. *)
Definition segmented (s : text) (tokens : list Token) : Prop :=
  exists pieces,
    Forall piece_ok pieces
    /\ concat (map piece_text pieces) = s
    /\ placed 1 pieces
    /\ tokens = flat_map piece_tokens pieces
                ++ [mkToken EOF "" (fold_left line_after pieces 1)].

End LexerSpec.

Module RunSpec.
Import Text JS Ops Ast Run Interp.

(** Computations are compared state by state. *)
Definition same {A} (m m' : M A) : Prop := forall s, m s = m' s.

(** *** Computations that leave [this.environment] as they found it

    Whether they return or throw: the only writes to the field are those
    of [executeBlockGenerator], which restores it in its [finally]. *)
Definition keeps_env {A} (m : M A) : Prop :=
  forall s,
    match m s with
    | Ok _ s' | Throw _ s' => environment s' = environment s
    | Halt _ _ => True
    end.

(** *** More fuel

    A result other than running out of fuel is final: [m'] refines [m] when
    it gives every such result of [m]. *)
Definition final {A} (r : Result A) : Prop :=
  match r with
  | Halt OutOfFuel _ => False
  | _ => True
  end.

Definition refines {A} (m m' : M A) : Prop :=
  forall s, final (m s) -> m' s = m s.

(** [m] run with [this.environment] set to [e]. *)
Definition in_environment {A} (e : nat) (m : M A) : M A :=
  fun s => m (set_environment e s).

(** A module declaration whose lower-cased name is [k]. *)
Definition module_named (k : string) (st : Statement) : bool :=
  match st with
  | ModuleStatement name _ _ _ => String.eqb (toLowerCase name) k
  | _ => false
  end.

(** The module that a program declares under the name [k]: the last such
    declaration. *)
Definition find_module (k : string) (stmts : list Statement) : option Statement :=
  List.find (module_named k) (rev stmts).

(** An integer that a double holds together with every integer nearer to
    zero. *)
Definition safe (z : Z) : Prop := (Z.abs z <= 2 ^ 53)%Z.

(** The values that the counter of a [For] loop from [a] to [b] takes in
    its first [n] turns: [a], then each time the double sum of the value
    before and 1, as long as it does not exceed [b]. *)
Fixpoint counter_values (n : nat) (a b : Q) : list Q :=
  match n with
  | O => []
  | S n' =>
      if Qle_bool a b then
        a :: match add a (num 1) with
             | PVal next => counter_values n' next b
             | POutside => []
             end
      else []
  end.

(** What comes after these turns: the loop has ended ([None]), or it goes
    on, or the next sum is not a finite double. *)
Fixpoint counter_end (n : nat) (a b : Q) : option HaltReason :=
  match n with
  | O => Some OutOfFuel
  | S n' =>
      if Qle_bool a b then
        match add a (num 1) with
        | PVal next => counter_end n' next b
        | POutside => Some OutsideModel
        end
      else None
  end.

(** [s] between double quotes, as a string literal of the language. *)
Definition quoted (s : string) : string :=
  String dquote (s ++ String dquote "")%string.

(** The host that never asks to stop. *)
Definition never_stop (_ : nat) : bool := false.

(** A run of [interpret] that did not run out of fuel. *)
Definition finished (o : Outcome) : Prop :=
  match o with
  | Ran r => final r
  | _ => True
  end.

(** The events of a run that came to its end without error. *)
Definition completed (o : Outcome) : option (list Event) :=
  match o with
  | Ran (Ok _ s) => Some (events s)
  | _ => None
  end.

(** The exception that ended a run. *)
Definition thrown (o : Outcome) : option Exn :=
  match o with
  | Ran (Throw e _) => Some e
  | _ => None
  end.

(** What [left && right] and [left || right] yield. *)
Definition and_value (left right : Value) : Value :=
  if truthy left then right else left.

Definition or_value (left right : Value) : Value :=
  if truthy left then left else right.

(** An argument that is a bare identifier. *)
Definition is_identifier (e : Expression) : bool :=
  match e with Identifier _ _ => true | _ => false end.

(** The language of [^-?\d+$]: an optional minus sign and one digit or
    more. *)
Definition integer_text (t : text) : Prop :=
  exists sign digits,
    t = sign ++ digits
    /\ (sign = [] \/ sign = ["-"%char])
    /\ digits <> []
    /\ forallb is_digit digits = true.

(** The integer that such a text spells. *)
Definition integer_value (t : text) : Z :=
  match t with
  | c :: ds =>
      if eq_char c "-"%char then (- Z.of_N (digits_value ds))%Z
      else Z.of_N (digits_value t)
  | [] => 0%Z
  end.









(** Concrete states used to instantiate the general statements. *)

(** A caller environment (1) that holds [a], and an empty callee
    environment (2), both inside the globals. *)
Definition alias_demo : State :=
  mkState [mkEntry (VNumber (num 1)) false "integer" "a"]
    [mkEnvironment [] None; mkEnvironment [("a"%string, 0)] (Some 0);
     mkEnvironment [] (Some 0)]
    [] 1 [] [] 0 false.

(** The same once [x] is bound in the callee environment to the entry of
    [a]. *)
Definition alias_demo_bound : State :=
  mkState [mkEntry (VNumber (num 1)) false "integer" "a"]
    [mkEnvironment [] None; mkEnvironment [("a"%string, 0)] (Some 0);
     mkEnvironment [("x"%string, 0)] (Some 0)]
    [] 1 [] [] 0 false.

(** And once 7 has been written through [x]. *)
Definition alias_demo_written : State :=
  mkState [mkEntry (VNumber (num 7)) false "integer" "a"]
    [mkEnvironment [] None; mkEnvironment [("a"%string, 0)] (Some 0);
     mkEnvironment [("x"%string, 0)] (Some 0)]
    [] 1 [] [] 0 false.

(** *** Programs that run no two calls together

    [Promise.all] evaluates the arguments of a built-in function and the
    elements of an array literal; [alone] says of such a list that it has
    at most one expression or calls no user function. *)
Definition alone (es : list Expression) : bool :=
  match es with
  | [] | [_] => true
  | _ => negb (existsb calls_user_function es)
  end.

Fixpoint sequential (e : Expression) : bool :=
  match e with
  | Literal _ _ | Identifier _ _ => true
  | ArrayLiteral elements _ => alone elements && forallb sequential elements
  | BinaryExpression l _ r _ => sequential l && sequential r
  | UnaryExpression _ r _ => sequential r
  | Grouping e' _ => sequential e'
  | FunctionCall callee args _ =>
      match BuiltIn.argCount (toLowerCase callee) with
      | Some _ => alone args
      | None => true
      end
      && forallb sequential args
  | ArrayAccess a i _ => sequential a && sequential i
  end.

(** The initializer list of an array is evaluated element by element. *)
Definition sequential_initializer (e : Expression) : bool :=
  match e with
  | ArrayLiteral elements _ => forallb sequential elements
  | _ => sequential e
  end.

Definition sequential_declarator (d : Declarator) : bool :=
  match size d with Some e => sequential e | None => true end
  && match initializer d with Some e => sequential_initializer e | None => true end.

Definition sequential_item (item : DisplayItem) : bool :=
  match item with
  | Item e => sequential e
  | TapMarker => true
  end.

Fixpoint sequential_stmt (st : Statement) : bool :=
  match st with
  | VariableDeclaration _ declarations _ _ => forallb sequential_declarator declarations
  | Assignment lvalue value _ => sequential lvalue && sequential value
  | DisplayStatement values _ => forallb sequential_item values
  | InputStatement _ _ => true
  | IfStatement condition thenBranch elseBranch _ =>
      sequential condition && forallb sequential_stmt thenBranch
      && match elseBranch with
         | Some stmts => forallb sequential_stmt stmts
         | None => true
         end
  | DoWhileStatement condition body _ | DoUntilStatement condition body _
  | WhileStatement condition body _ =>
      sequential condition && forallb sequential_stmt body
  | ForStatement _ start end_ body _ =>
      sequential start && sequential end_ && forallb sequential_stmt body
  | ModuleStatement _ _ body _ | FunctionDeclaration _ _ _ body _ =>
      forallb sequential_stmt body
  | ReturnStatement value _ => sequential value
  | CallStatement _ args _ => forallb sequential args
  end.

(** No statement of the program, at any depth, has two calls of user
    functions evaluated together. *)
Definition sequential_program (stmts : list Statement) : bool :=
  forallb sequential_stmt stmts.

(** [m] does not stop for calls run together. *)
Definition calm {A} (m : M A) : Prop :=
  forall s s', m s <> Halt Interleaved s'.

(** *** Calls with arguments by reference *)

(** The arguments of a call that are variables: [(name, line)] stands for
    the identifier [name] on line [line]. *)
Definition identifiers (args : list (string * nat)) : list Expression :=
  map (fun a => Identifier (fst a) (snd a)) args.

(** In state [s] the [i]-th name resolves, from environment [env], to the
    [i]-th entry. *)
Definition resolve_all (s : State) (env : nat) (names : list string) (refs : list nat)
  : Prop :=
  Forall2 (fun n ref => Env.resolve s env n = Env.Found ref) names refs.

(** The module [swap] of the claim, and a state at the call: [a] and [b] in
    the environment of [main]. *)
Definition swap_module : Statement :=
  ModuleStatement "swap"
    [mkParam "x" "integer" true false; mkParam "y" "integer" true false]
    [ VariableDeclaration "integer" [mkDeclarator "t" None None] false 2;
      Assignment (Identifier "t" 3) (Identifier "x" 3) 3;
      Assignment (Identifier "x" 4) (Identifier "y" 4) 4;
      Assignment (Identifier "y" 5) (Identifier "t" 5) 5 ] 1.

Definition swap_demo : State :=
  mkState [mkEntry (VNumber (num 1)) false "integer" "a";
           mkEntry (VNumber (num 2)) false "integer" "b"]
    [mkEnvironment [] None; mkEnvironment [("a"%string, 0); ("b"%string, 1)] (Some 0)]
    [] 1 [] [] 0 false.




(** A program with a global and two modules. *)
Definition entry_demo : list Statement :=
  [ VariableDeclaration "integer" [mkDeclarator "g" None None] false 1;
    ModuleStatement "Main" [] [] 2;
    ModuleStatement "other" [] [] 3 ].

(** A program whose global [y] is initialized from two calls that
    [Promise.all] runs together. *)
Definition together_demo : string :=
  "Function Integer f()
   Return 2
End Function
Function Integer g()
   Return 3
End Function
Declare Integer y = power(f(), g())
Module main()
   Display y
End Module".

End RunSpec.

(** * Further notions *)

Module LineSpec.
Import Text Types Lexer.

(** The number of newline characters of a text. *)
Definition newlines (s : text) : nat :=
  length (List.filter (fun c => eq_char c newline) s).

(** [lo <= x1 <= x2 <= ... <= xn <= hi] *)
Fixpoint ascending (lo : nat) (l : list nat) (hi : nat) : Prop :=
  match l with
  | [] => lo <= hi
  | x :: l' => lo <= x /\ ascending x l' hi
  end.

(** A token that is not an identifier, or whose text is no keyword in any
    letter case. *)
Definition no_keyword (t : Token) : Prop :=
  type t = IDENTIFIER ->
  forall ty, ~ In (toLowerCase (value t), ty) KEYWORDS.

End LineSpec.

Module ScopeSpec.
Import Text JS Ast Run.

(** Every environment is enclosed in one that was created before it. *)
Definition well_scoped (s : State) : Prop :=
  forall i e o, environments s !! i = Some e -> enclosing e = Some o -> o < i.

(** Two spellings of one name. *)
Definition same_name (a b : string) : Prop := toLowerCase a = toLowerCase b.

(** Between [s] and [s'], for the environments that [s] holds under index
    [n]: none is lost, [this.environment] is the same, and each has the
    bindings it had and is enclosed where it was; when [strict] is false
    this is not said of the current environment. *)
Definition scope_frame (strict : bool) (n : nat) (s s' : State) : Prop :=
  n <= length (environments s) ->
  n <= length (environments s')
  /\ environment s' = environment s
  /\ forall i, i < n -> strict = true \/ i <> environment s ->
       environments s' !! i = environments s !! i.

(** Statements other than declarations are held to the strict frame. *)
Definition strictness (stmt : Statement) : bool :=
  negb (is_variable_declaration stmt).

(** The globals hold [x]; an environment inside them (1) is empty. *)
Definition shadow_demo : State :=
  mkState [mkEntry (VNumber (num 1)) false "integer" "x"]
    [mkEnvironment [("x"%string, 0)] None; mkEnvironment [] (Some 0)]
    [] 1 [] [] 0 false.

End ScopeSpec.

Module InvariantSpec.
Import Text JS Ops Ast Run Interp.

(** [m] takes a state to one that [R] relates to it, whether it returns
    or throws, and throws only what [allowed] admits. *)
Definition sat {A} (R : State -> State -> Prop) (allowed : Exn -> Prop) (m : M A) : Prop :=
  forall s,
    match m s with
    | Ok _ s' => R s s'
    | Throw e s' => R s s' /\ allowed e
    | Halt _ _ => True
    end.

(** [m] leaves the state as it is, and throws no stop. *)
Definition reads {A} (m : M A) : Prop :=
  forall s,
    match m s with
    | Ok _ s' => s' = s
    | Throw e s' => s' = s /\ e <> ProgramStoppedError
    | Halt _ _ => True
    end.

(** What it takes for [Re] to hold across every expression and [Rs]
    across every statement: the two are preorders, [Re] is the finer one,
    and each write of the evaluator to its state respects them.
    Exceptions other than the stop are [allowed], and the stop is when the
    host signals it. *)
Record Invariant (Re Rs : State -> State -> Prop) (allowed : Exn -> Prop)
  (shouldStop : nat -> bool) : Prop := {
  inv_Re_refl : forall s, Re s s;
  inv_Re_trans : forall s1 s2 s3, Re s1 s2 -> Re s2 s3 -> Re s1 s3;
  inv_Rs_refl : forall s, Rs s s;
  inv_Rs_trans : forall s1 s2 s3, Rs s1 s2 -> Rs s2 s3 -> Rs s1 s3;
  inv_Re_Rs : forall s s', Re s s' -> Rs s s';
  inv_allowed_other : forall e, e <> ProgramStoppedError -> allowed e;
  inv_allowed_stop :
    forall s, shouldStop (polls s) = true -> allowed ProgramStoppedError;
  inv_new_array : forall a s, Re s (set_arrays (fun l => l ++ [a]) s);
  inv_call_function :
    forall (body : M unit) name line,
      sat Rs allowed body -> sat Re allowed (call_function body name line);
  inv_poll : forall s, Rs s (set_polls (S (polls s)) s);
  inv_yield_step : forall line, sat Rs allowed (yield_step line);
  inv_display : forall vs s, Rs s (add_event (EDisplay vs) s);
  inv_input :
    forall prompt s, Rs s (set_inputs (tl (inputs s)) (add_event (EInput prompt) s));
  inv_create :
    forall o s, Rs s (set_environments (fun es => es ++ [mkEnvironment [] o]) s);
  inv_define :
    forall env name c t v s s', Env.define env name c t v s = Ok tt s' -> Rs s s';
  inv_defineReference :
    forall env name ref s s', Env.defineReference env name ref s = Ok tt s' -> Rs s s';
  inv_assign :
    forall env name v line s s', Env.assign env name v line s = Ok tt s' -> Rs s s';
  inv_write_array :
    forall ref index v s s', write_array ref index v s = Ok tt s' -> Rs s s';
  inv_switch : forall e s, Rs s (set_environment e s)
}.

Definition any_exception (_ : Exn) : Prop := True.

Definition any_change (_ _ : State) : Prop := True.

(** Every entry of [s] is still there in [s'], with the name, the type and
    the kind it was declared with, and with its value if it is a
    constant. *)
Definition entries_kept (s s' : State) : Prop :=
  forall ref en,
    entries s !! ref = Some en ->
    exists en',
      entries s' !! ref = Some en'
      /\ originalName en' = originalName en
      /\ entry_dataType en' = entry_dataType en
      /\ entry_isConstant en' = entry_isConstant en
      /\ (entry_isConstant en = true -> entry_value en' = entry_value en).

(** Every binding of [s] is still there in [s']: an environment that
    binds a name to an entry still binds it to this entry. *)
Definition bindings_kept (s s' : State) : Prop :=
  forall i e k ref,
    environments s !! i = Some e -> Env.local e k = Some ref ->
    exists e', environments s' !! i = Some e' /\ Env.local e' k = Some ref.

(** Bindings and entries are kept. *)
Definition declarations_kept (s s' : State) : Prop :=
  bindings_kept s s' /\ entries_kept s s'.

(** In state [s] the environment [env] itself binds [name], to an entry
    that was declared with this name, the type [dataType] and the kind
    [isConstant]. *)
Definition declared (s : State) (env : nat) (name dataType : string) (isConstant : bool)
  : Prop :=
  exists e ref en,
    environments s !! env = Some e
    /\ Env.local e (toLowerCase name) = Some ref
    /\ entries s !! ref = Some en
    /\ originalName en = name
    /\ entry_dataType en = dataType
    /\ entry_isConstant en = isConstant.

(** Every array of [s] is still there in [s'], with the same number of
    elements. *)
Definition array_sizes_kept (s s' : State) : Prop :=
  forall ref a,
    arrays s !! ref = Some a ->
    exists a', arrays s' !! ref = Some a' /\ length a' = length a.

(** No step point is added, and the flag [muted] is as it was. *)
Definition no_step (s s' : State) : Prop :=
  steps_of (events s') = steps_of (events s) /\ muted s' = muted s.

(** The same for a state in which step points are muted. *)
Definition no_step_if_muted (s s' : State) : Prop :=
  muted s' = muted s
  /\ (muted s = true -> steps_of (events s') = steps_of (events s)).

(** [s'] is [s] with some more arrays, and nothing else is different. *)
Definition only_allocates (s s' : State) : Prop :=
  exists more, s' = set_arrays (fun l => l ++ more) s.

End InvariantSpec.

Module RegistrySpec.
Import Text JS Ops Ast Run Interp RunSpec.

(** A function declaration whose lower-cased name is [k]. *)
Definition function_named (k : string) (st : Statement) : bool :=
  match st with
  | FunctionDeclaration name _ _ _ _ => String.eqb (toLowerCase name) k
  | _ => false
  end.

(** The function that a program declares under the name [k]: the last
    such declaration. *)
Definition find_function (k : string) (stmts : list Statement) : option Statement :=
  List.find (function_named k) (rev stmts).

End RegistrySpec.

Module ParserSpec.
Import Text Types JS Ast Parser.

(** A token list as the lexer hands it over, or what is left of it at a
    position of the parser: tokens that are not the end marker, then the
    end marker. *)
Definition closed (ts : list Token) : Prop :=
  exists body e,
    ts = body ++ [e]
    /\ type e = EOF
    /\ Forall (fun t => type t <> EOF) body.

(** A result of a parser that is not [PStuck] and, when it is a success,
    leaves a closed list of at most [n] tokens, of which [Q] holds. *)
Definition fine {A} (n : nat) (Q : A -> list Token -> Prop) (r : PResult A) : Prop :=
  match r with
  | POk a rest => closed rest /\ length rest <= n /\ Q a rest
  | PError _ _ => True
  | PStuck => False
  end.

Definition anything {A} (_ : A) (_ : list Token) : Prop := True.

(** Nothing is left but the end marker. *)
Definition at_end (ts : list Token) : Prop :=
  exists e, ts = [e] /\ type e = EOF.

(** A statement and its tokens. *)
Definition parser_demo_text : string := "Display 1.5 + f(2), Tap".

Definition parser_demo : list Token :=
  [ mkToken DISPLAY "display" 1; mkToken NUMBER "1.5" 1; mkToken PLUS "+" 1;
    mkToken IDENTIFIER "f" 1; mkToken LPAREN "(" 1; mkToken NUMBER "2" 1;
    mkToken RPAREN ")" 1; mkToken COMMA "," 1; mkToken TAP "tap" 1;
    mkToken EOF "" 1 ].

End ParserSpec.

Module DeclarationSpec.
Import Text JS Ops Ast Run Interp.

(** [a[3] = 7]: three elements declared, one of them given. *)
Definition array_demo : Declarator :=
  mkDeclarator "a" (Some (Literal (LNumber (num 3)) 1))
    (Some (ArrayLiteral [Literal (LNumber (num 7)) 1] 1)).

End DeclarationSpec.

(** ** Properties of the formatter *)

Module FormatterFacts.
Import Text Formatter FormatterSpec.

Lemma drop_spaces_blank_app sp t :
  blank sp -> drop_spaces (sp ++ t) = drop_spaces t.
Proof.
  induction 1 as [|c sp Hc _ IH]; simpl; [reflexivity|].
  now rewrite Hc.
Qed.

Lemma drop_spaces_decompose s :
  exists sp, blank sp /\ s = sp ++ drop_spaces s.
Proof.
  induction s as [|c s [sp [Hsp Hs]]]; simpl.
  - exists []. split; [constructor | reflexivity].
  - destruct (is_space c) eqn:Hc.
    + exists (c :: sp). split; [now constructor|].
      simpl. now f_equal.
    + exists []. split; [constructor | reflexivity].
Qed.

Lemma drop_spaces_head s c r :
  drop_spaces s = c :: r -> is_space c = false.
Proof.
  induction s as [|a s IH]; simpl; [discriminate|].
  destruct (is_space a) eqn:Ha; [exact IH|].
  intros [= <- <-]. exact Ha.
Qed.

Lemma drop_spaces_stable s :
  match s with [] => True | c :: _ => is_space c = false end ->
  drop_spaces s = s.
Proof.
  destruct s as [|c s]; simpl; [reflexivity|].
  now intros ->.
Qed.

Lemma drop_spaces_idem s : drop_spaces (drop_spaces s) = drop_spaces s.
Proof.
  apply drop_spaces_stable.
  destruct (drop_spaces s) as [|c r] eqn:E; [exact I|].
  exact (drop_spaces_head _ _ _ E).
Qed.

Lemma trim_trimmed l : trimmed (trim l).
Proof.
  unfold trimmed, trim.
  set (a := drop_spaces l).
  destruct (drop_spaces_decompose (rev a)) as [sp [Hsp Hrev]].
  set (b := drop_spaces (rev a)) in *.
  split.
  - apply drop_spaces_stable.
    destruct (rev b) as [|c r] eqn:Eb; [exact I|].
    assert (Ha : a = rev b ++ rev sp).
    { rewrite <- (rev_involutive a), Hrev, rev_app_distr. reflexivity. }
    rewrite Eb in Ha. simpl in Ha.
    apply (drop_spaces_head l c (r ++ rev sp)). exact Ha.
  - rewrite rev_involutive. apply drop_spaces_idem.
Qed.

Lemma trim_of_trimmed t : trimmed t -> trim t = t.
Proof.
  intros [H1 H2]. unfold trim. rewrite H1, H2. apply rev_involutive.
Qed.

Lemma trim_blank_app sp t : blank sp -> trimmed t -> trim (sp ++ t) = t.
Proof.
  intros Hsp Ht. unfold trim.
  rewrite (drop_spaces_blank_app sp t Hsp).
  exact (trim_of_trimmed t Ht).
Qed.

Lemma blank_repeat_indent n : blank (repeat_text INDENTATION n).
Proof.
  induction n as [|n IH]; simpl; [constructor|].
  repeat (constructor; [reflexivity|]). exact IH.
Qed.

Lemma Forall_drop_spaces (P : ascii -> Prop) s :
  Forall P s -> Forall P (drop_spaces s).
Proof.
  induction 1 as [|c s Hc Hs IH]; simpl; [constructor|].
  destruct (is_space c); [exact IH | now constructor].
Qed.

Lemma Forall_trim (P : ascii -> Prop) s : Forall P s -> Forall P (trim s).
Proof.
  intros H. unfold trim.
  apply Forall_rev, Forall_drop_spaces, Forall_rev, Forall_drop_spaces, H.
Qed.

Lemma no_newline_repeat_indent n : no_newline (repeat_text INDENTATION n).
Proof.
  induction n as [|n IH]; simpl; [constructor|].
  repeat (constructor; [reflexivity|]). exact IH.
Qed.

(** Splitting yields at least one line, and no line holds a newline. *)
Lemma split_lines_nonempty s : split_lines s <> [].
Proof.
  destruct s as [|c r]; simpl; [discriminate|].
  destruct (eq_char c newline); [discriminate|].
  destruct (split_lines r); discriminate.
Qed.

Lemma split_lines_no_newline s : Forall no_newline (split_lines s).
Proof.
  induction s as [|c r IH]; simpl.
  - repeat constructor.
  - destruct (eq_char c newline) eqn:Hc.
    + constructor; [constructor | exact IH].
    + destruct (split_lines r) as [|l ls].
      * repeat constructor. exact Hc.
      * inversion IH; subst. constructor; [|assumption].
        constructor; assumption.
Qed.

Lemma split_lines_app_newline l ls :
  no_newline l -> split_lines (l ++ newline :: ls) = l :: split_lines ls.
Proof.
  induction 1 as [|c l Hc Hl IH]; simpl.
  - reflexivity.
  - rewrite Hc, IH. reflexivity.
Qed.

Lemma split_lines_single l : no_newline l -> split_lines l = [l].
Proof.
  induction 1 as [|c l Hc Hl IH]; simpl; [reflexivity|].
  now rewrite Hc, IH.
Qed.

(** [split] undoes [join] on lines that hold no newline. *)
Lemma split_join_lines ls :
  ls <> [] -> Forall no_newline ls -> split_lines (join_lines ls) = ls.
Proof.
  induction ls as [|l ls IH]; [congruence|].
  intros _ H. inversion H as [|? ? Hl Hls]; subst.
  destruct ls as [|l' ls'].
  - simpl. now apply split_lines_single.
  - change (join_lines (l :: l' :: ls')) with (l ++ newline :: join_lines (l' :: ls')).
    rewrite split_lines_app_newline by assumption.
    f_equal. apply IH; [discriminate | assumption].
Qed.

Lemma format_lines_length k ls : length (format_lines k ls) = length ls.
Proof.
  revert k. induction ls as [|l ls IH]; intros k; simpl; [reflexivity|].
  destruct (trim l); simpl; now rewrite IH.
Qed.

Lemma format_lines_no_newline k ls :
  Forall no_newline ls -> Forall no_newline (format_lines k ls).
Proof.
  intros H. revert k. induction H as [|l ls Hl Hls IH]; intros k; simpl.
  - constructor.
  - pose proof (Forall_trim _ _ Hl) as Ht.
    destruct (trim l) as [|c t] eqn:E.
    + constructor; [constructor | apply IH].
    + constructor; [|apply IH].
      apply Forall_app. split; [apply no_newline_repeat_indent | exact Ht].
Qed.

(** One pass over lines that are already formatted changes nothing: the
    trimmed content of each line, hence every indentation level, is the
    same as in the first pass. *)
Lemma format_lines_idempotent ls k :
  format_lines k (format_lines k ls) = format_lines k ls.
Proof.
  revert k. induction ls as [|l ls IH]; intros k; simpl; [reflexivity|].
  pose proof (trim_trimmed l) as Ht.
  destruct (trim l) as [|c t] eqn:E.
  - simpl. change (trim []) with (@nil ascii). now rewrite IH.
  - cbv zeta. cbn [format_lines]. cbv zeta.
    rewrite trim_blank_app by (first [apply blank_repeat_indent | exact Ht]).
    cbv iota. rewrite IH. reflexivity.
Qed.

Lemma format_text_idempotent code :
  format_text (format_text code) = format_text code.
Proof.
  unfold format_text.
  rewrite split_join_lines.
  - now rewrite format_lines_idempotent.
  - intros E. apply (f_equal (@length _)) in E.
    rewrite format_lines_length in E.
    pose proof (split_lines_nonempty code).
    destruct (split_lines code); [congruence | discriminate].
  - apply format_lines_no_newline, split_lines_no_newline.
Qed.

(** C8. The formatter is idempotent: for every source string [P],
    [formatCode (formatCode P) = formatCode P]. *)
Theorem formatCode_idempotent (P : string) :
  formatCode (formatCode P) = formatCode P.
Proof.
  unfold formatCode, of_string, to_string.
  rewrite list_ascii_of_string_of_list_ascii.
  now rewrite format_text_idempotent.
Qed.

(** The formatter on a small program: nested blocks are indented by three
    spaces a level, [Else] sits at the level of its [If]. *)
Example formatCode_sample :
  formatCode
    "Module main()
Declare Integer x
  If x > 0 Then
Display x
   Else
Display 0
End If
End Module"
  = "Module main()
   Declare Integer x
   If x > 0 Then
      Display x
   Else
      Display 0
   End If
End Module"%string.
Proof. vm_compute. reflexivity. Qed.

End FormatterFacts.

(** ** Properties of the lexer *)

Module LexerFacts.
Import Text Types Lexer FormatterSpec LexerSpec.

(** *** What each consumer takes from the input *)

Lemma match_keyword_chars_split kw s rest :
  match_keyword_chars kw s = Some rest ->
  exists m, s = m ++ rest /\ (kw <> [] -> m <> []) /\ spells kw m.
Proof.
  revert s. induction kw as [|k kw IH]; intros s; simpl.
  - intros [= ->]. exists []. repeat split; [congruence | constructor].
  - destruct s as [|c s']; [discriminate|].
    destruct (is_space k) eqn:Hk.
    + destruct (is_space c) eqn:Hc; [|discriminate].
      intros H. apply IH in H as (m & Hm & _ & Hsp').
      destruct (FormatterFacts.drop_spaces_decompose s') as [sp [Hb Hsp]].
      exists (c :: sp ++ m). repeat split; [|discriminate | now constructor].
      simpl. f_equal. rewrite <- app_assoc, <- Hm. exact Hsp.
    + destruct (eq_char_ci k c) eqn:Hkc; [|discriminate].
      intros H. apply IH in H as (m & Hm & _ & Hsp).
      exists (c :: m). repeat split; [|discriminate | now constructor].
      simpl. now f_equal.
Qed.

Lemma matchKeywords_split kws s kw ty rest :
  matchKeywords kws s = Some (kw, ty, rest) ->
  In (kw, ty) kws
  /\ exists m, s = m ++ rest /\ (of_string kw <> [] -> m <> []) /\ spells (of_string kw) m.
Proof.
  induction kws as [|[k t] kws IH]; simpl; [discriminate|].
  destruct (matchKeyword k s) as [r|] eqn:E.
  - intros [= -> -> ->]. split; [now left|].
    unfold matchKeyword in E.
    destruct (match_keyword_chars (of_string kw) s) as [r|] eqn:E'; [|discriminate].
    destruct (at_word_end r); [|discriminate].
    injection E as ->. exact (match_keyword_chars_split _ _ _ E').
  - intros H. apply IH in H as [Hin Hm]. split; [now right | exact Hm].
Qed.

Lemma consumeComment_split s :
  exists m, s = m ++ consumeComment s
            /\ Forall (fun c => eq_char c newline = false) m.
Proof.
  induction s as [|c r [m [Hm Hnl]]]; simpl.
  - exists []. split; [reflexivity | constructor].
  - destruct (eq_char c newline) eqn:Hc.
    + exists []. split; [reflexivity | constructor].
    + exists (c :: m). split; [simpl; now f_equal | now constructor].
Qed.

Lemma consumeString_split s v rest :
  consumeString s = Some (v, rest) ->
  s = v ++ dquote :: rest /\ Forall (fun c => eq_char c dquote = false) v.
Proof.
  revert v rest. induction s as [|c r IH]; intros v rest; simpl; [discriminate|].
  destruct (eq_char c dquote) eqn:Hc.
  - intros [= <- <-]. apply Ascii.eqb_eq in Hc. subst. split; [reflexivity | constructor].
  - destruct (consumeString r) as [[v' rest']|]; [|discriminate].
    intros [= <- <-]. destruct (IH v' rest' eq_refl) as [-> Hv].
    split; [reflexivity | now constructor].
Qed.

Lemma span_split p s v rest :
  span p s = (v, rest) -> s = v ++ rest.
Proof.
  revert v rest. induction s as [|c r IH]; intros v rest; simpl.
  - now intros [= <- <-].
  - destruct (p c).
    + destruct (span p r) as [v' rest'] eqn:E.
      intros [= <- <-]. simpl. f_equal. now apply IH.
    + now intros [= <- <-].
Qed.

Lemma span_head p c r v rest :
  p c = true -> span p (c :: r) = (v, rest) -> v <> [].
Proof.
  simpl. intros ->. destruct (span p r). now intros [= <- <-].
Qed.

Lemma span_all p s v rest : span p s = (v, rest) -> forallb p v = true.
Proof.
  revert v rest. induction s as [|c r IH]; intros v rest; simpl.
  - now intros [= <- <-].
  - destruct (p c) eqn:Hc.
    + destruct (span p r) as [v' rest'] eqn:E. intros [= <- <-].
      simpl. rewrite Hc. now apply (IH v' rest').
    + now intros [= <- <-].
Qed.

(** The text that [span] takes from an input whose first character is
    [c]: this character, then characters that satisfy [p]. *)
Lemma span_text p c r v rest :
  p c = true -> span p (c :: r) = (v, rest) ->
  exists v', v = c :: v' /\ forallb p v' = true.
Proof.
  intros Hc H. pose proof (span_all _ _ _ _ H) as Hall.
  simpl in H. rewrite Hc in H. destruct (span p r) as [v' rest'].
  injection H as <- <-. exists v'. split; [reflexivity|].
  simpl in Hall. now rewrite Hc in Hall.
Qed.

Lemma startsWith_split op s rest :
  startsWith op s = Some rest -> s = op ++ rest.
Proof.
  revert s. induction op as [|o op IH]; intros s; simpl.
  - now intros [= ->].
  - destruct s as [|c s']; [discriminate|].
    destruct (eq_char o c) eqn:Hc; [|discriminate].
    apply Ascii.eqb_eq in Hc. subst. intros H. f_equal. now apply IH.
Qed.

Lemma matchOperator_split ops s op ty rest :
  matchOperator ops s = Some (op, ty, rest) ->
  In (op, ty) ops /\ s = of_string op ++ rest.
Proof.
  induction ops as [|[o t] ops IH]; simpl; [discriminate|].
  destruct (startsWith (of_string o) s) as [r|] eqn:E.
  - intros [= -> -> ->]. split; [now left | now apply startsWith_split].
  - intros H. apply IH in H as [Hin Hs]. split; [now right | exact Hs].
Qed.

(** Sorting the tables by length keeps their entries. *)
Lemma insert_by_length_In x y l :
  In x (insert_by_length y l) -> x = y \/ In x l.
Proof.
  induction l as [|z l IH]; simpl; [intuition congruence|].
  destruct (_ <? _); simpl; intuition congruence.
Qed.

Lemma sort_by_length_In x l : In x (sort_by_length l) -> In x l.
Proof.
  induction l as [|y l IH]; simpl; [tauto|].
  intros H. apply insert_by_length_In in H as [-> | H]; auto.
Qed.

(** No keyword and no operator is empty, and none stands for the end
    marker. *)
Lemma keywords_proper kw ty :
  In (kw, ty) SORTED_KEYWORDS -> of_string kw <> [] /\ ty <> EOF.
Proof.
  assert (H : Forall (fun x => of_string (fst x) <> [] /\ snd x <> EOF) SORTED_KEYWORDS).
  { vm_compute. repeat (constructor; [split; discriminate|]). constructor. }
  intros Hin. exact (proj1 (List.Forall_forall _ _) H _ Hin).
Qed.

Lemma operators_proper op ty :
  In (op, ty) SORTED_OPERATORS -> of_string op <> [] /\ ty <> EOF.
Proof.
  assert (H : Forall (fun x => of_string (fst x) <> [] /\ snd x <> EOF) SORTED_OPERATORS).
  { vm_compute. repeat (constructor; [split; discriminate|]). constructor. }
  intros Hin. exact (proj1 (List.Forall_forall _ _) H _ Hin).
Qed.

(** *** One turn of the loop

    At a non-empty input the loop fails, or it consumes one non-empty piece
    and goes on with the rest, on the line that follows the piece, with the
    token of the piece (if it is a lexeme) placed on the current line. *)
Lemma scan_turn fuel char r line tokens :
  (exists message, scan (S fuel) (char :: r) line tokens = LexError message line)
  \/ (exists p rest,
        piece_ok p /\ char :: r = piece_text p ++ rest /\ piece_text p <> []
        /\ placed line [p]
        /\ scan (S fuel) (char :: r) line tokens
           = scan fuel rest (line_after line p) (tokens ++ piece_tokens p)).
Proof.
  cbn [scan].
  destruct (is_space char) eqn:Hsp.
  { right. exists (PSpace char), r. repeat split; try discriminate.
    - exact Hsp.
    - cbn [piece_tokens line_after]. rewrite app_nil_r. reflexivity. }
  destruct (eq_char char "/"%char
            && match r with c :: _ => eq_char c "/"%char | [] => false end) eqn:Hcom.
  { right. apply andb_true_iff in Hcom as [H1 H2].
    destruct r as [|c2 r2]; [discriminate|].
    apply Ascii.eqb_eq in H1, H2. subst.
    destruct (consumeComment_split r2) as [m [Hm Hnl]].
    exists (PComment ("/"%char :: "/"%char :: m)), (consumeComment r2).
    repeat split; try discriminate.
    - now exists m.
    - repeat (constructor; [reflexivity|]). exact Hnl.
    - simpl. now rewrite <- Hm.
    - cbn [piece_tokens line_after]. rewrite app_nil_r. reflexivity. }
  destruct (matchKeywords SORTED_KEYWORDS (char :: r)) as [[[kw ty] rest]|] eqn:Hkw.
  { right. apply matchKeywords_split in Hkw as [Hin (m & Hm & Hne & Hsp')].
    destruct (keywords_proper _ _ Hin) as [Hkw Hty].
    exists (PLexeme (mkToken ty kw line) m), rest.
    repeat split; auto.
    apply lexeme_keyword; [now apply sort_by_length_In | exact Hsp']. }
  destruct (eq_char char dquote) eqn:Hq.
  { apply Ascii.eqb_eq in Hq. subst.
    destruct (consumeString r) as [[v rest]|] eqn:Hs.
    - right. apply consumeString_split in Hs as [Hs Hv].
      exists (PLexeme (mkToken STRING (to_string v) line) (dquote :: v ++ [dquote])),
        rest.
      repeat split; try discriminate.
      + now apply lexeme_string.
      + simpl. rewrite <- app_assoc. simpl. now f_equal.
    - left. eexists. reflexivity. }
  destruct (is_digit char) eqn:Hd.
  { right. destruct (consumeNumber (char :: r)) as [v rest] eqn:Hn.
    exists (PLexeme (mkToken NUMBER (to_string v) line) v), rest.
    unfold consumeNumber in Hn.
    set (p := fun c => is_digit c || eq_char c "."%char) in Hn.
    assert (Hc : p char = true) by (unfold p; now rewrite Hd).
    repeat split; try discriminate.
    - eapply span_head; [exact Hc | exact Hn].
    - apply lexeme_number. destruct (span_text _ _ _ _ _ Hc Hn) as (v' & -> & Hv').
      now exists char, v'.
    - now apply span_split in Hn.
    - eapply span_head; [exact Hc | exact Hn]. }
  destruct (is_alpha char) eqn:Ha.
  { right. destruct (consumeIdentifier (char :: r)) as [v rest] eqn:Hn.
    exists (PLexeme (mkToken IDENTIFIER (to_string v) line) v), rest.
    unfold consumeIdentifier in Hn.
    assert (Hw : is_word char = true) by (unfold is_word; now rewrite Ha).
    repeat split; try discriminate.
    - eapply span_head; [exact Hw | exact Hn].
    - apply lexeme_identifier. destruct (span_text _ _ _ _ _ Hw Hn) as (v' & -> & Hv').
      now exists char, v'.
    - now apply span_split in Hn.
    - eapply span_head; [exact Hw | exact Hn]. }
  destruct (matchOperator SORTED_OPERATORS (char :: r)) as [[[op ty] rest]|] eqn:Hop.
  { right. apply matchOperator_split in Hop as [Hin Hs].
    destruct (operators_proper _ _ Hin) as [Hne Hty].
    exists (PLexeme (mkToken ty op line) (of_string op)), rest.
    repeat split; auto.
    apply lexeme_operator. now apply sort_by_length_In. }
  left. eexists. reflexivity.
Qed.

(** The loop never runs out of fuel when it is given more turns than the
    input has characters. *)
Lemma scan_enough_fuel fuel s line tokens :
  length s < fuel -> scan fuel s line tokens <> LexOutOfFuel.
Proof.
  revert s line tokens.
  induction fuel as [|fuel IH]; intros s line tokens Hlen; [lia|].
  destruct s as [|char r]; [discriminate|].
  destruct (scan_turn fuel char r line tokens)
    as [[message ->] | (p & rest & _ & Hs & Hne & _ & ->)]; [discriminate|].
  apply IH.
  apply (f_equal (@length _)) in Hs. rewrite length_app in Hs. simpl in Hs, Hlen.
  destruct (piece_text p); [congruence | simpl in Hs; lia].
Qed.



(** The tokens are tied to the text: the text [Set x = 5] cannot be cut
    into pieces that stand for the one token [999]. *)
Lemma segmented_pins_tokens :
  ~ segmented (of_string "Set x = 5") [mkToken NUMBER "999" 1; mkToken EOF "" 1].
Proof.
  intros (pieces & Hall & Hcat & _ & Htok).
  cbv [of_string list_ascii_of_string] in Hcat.
  destruct pieces as [|p ps]; [discriminate Hcat|].
  apply Forall_cons_1 in Hall as [Hp _].
  destruct p as [c|t|tok t]; cbn [map concat piece_text app] in Hcat.
  - injection Hcat as -> _. vm_compute in Hp. discriminate Hp.
  - destruct Hp as [[r ->] _]. discriminate Hcat.
  - simpl in Htok. injection Htok as <- _.
    destruct Hp as (_ & _ & Hlex).
    inversion Hlex as [kw ty line m Hin _ | | v line [c [r (-> & Hc & _)]] | |
                       op ty line Hin]; subst.
    + cbn in Hin. repeat (destruct Hin as [Hin|Hin]; [discriminate Hin|]). destruct Hin.
    + discriminate Hcat.
    + cbn in Hin. repeat (destruct Hin as [Hin|Hin]; [discriminate Hin|]). destruct Hin.
Qed.


End LexerFacts.

(** ** Numbers and their decimal spelling *)

Module NumFacts.
Import Text JS Ops FormatterSpec RunSpec.

Lemma Qred_inject_Z (z : Z) : Qred (inject_Z z) = inject_Z z.
Proof.
  unfold inject_Z, Qred.
  pose proof (Z.ggcd_gcd z 1) as Hg.
  pose proof (Z.ggcd_correct_divisors z 1) as Hd.
  destruct (Z.ggcd z 1) as [g [aa bb]]. simpl in *.
  rewrite Z.gcd_1_r in Hg. subst g. destruct Hd as [H1 H2].
  rewrite Z.mul_1_l in H1, H2. subst aa bb. reflexivity.
Qed.

Lemma Qle_bool_num (x y : Z) : Qle_bool (num x) (num y) = (x <=? y)%Z.
Proof.
  unfold num. destruct (x <=? y)%Z eqn:E.
  - apply Qle_bool_iff. rewrite <- Zle_Qle. lia.
  - destruct (Qle_bool (inject_Z x) (inject_Z y)) eqn:E'; [|reflexivity].
    apply Qle_bool_iff in E'. rewrite <- Zle_Qle in E'. lia.
Qed.

(** *** Doubles *)

(** Equal rationals have the same double. *)
Lemma double_comp (q q' : Q) : (q == q')%Q -> double q = double q'.
Proof. intros H. unfold double. now rewrite (Qred_complete _ _ H). Qed.

Lemma round_half_even_Z (q : Q) (n : Z) :
  (q == inject_Z n)%Q -> round_half_even q = n.
Proof.
  intros H. unfold round_half_even.
  rewrite (Qfloor_comp _ _ H), Qfloor_Z.
  assert (Hlt : (q - inject_Z n < 1 # 2)%Q) by (rewrite H; lra).
  pose proof (proj1 (Qlt_alt _ _) Hlt) as Hc. now rewrite Hc.
Qed.

Lemma pow2_neg (c : Z) :
  (0 <= c)%Z -> (pow2 (- c) == / inject_Z (2 ^ c))%Q.
Proof.
  intros Hc. unfold pow2.
  destruct (0 <=? - c)%Z eqn:E.
  - apply Z.leb_le in E. assert (c = 0%Z) by lia. subst c. reflexivity.
  - now rewrite Z.opp_involutive.
Qed.

Lemma Qle_bool_false (x y : Q) : (y < x)%Q -> Qle_bool x y = false.
Proof.
  intros H. destruct (Qle_bool x y) eqn:E; [|reflexivity].
  apply Qle_bool_iff in E. lra.
Qed.

(** A safe integer is a double. *)
Lemma double_num (z : Z) : safe z -> double (num z) = PVal (num z).
Proof.
  unfold safe. intros Hz.
  destruct (Z.eq_dec z 0%Z) as [->|Hnz]; [reflexivity|].
  destruct (Z.eq_dec (Z.abs z) (2 ^ 53)%Z) as [Hmax|Hmax].
  { assert (Hc : z = (2 ^ 53)%Z \/ z = (- 2 ^ 53)%Z) by lia.
    destruct Hc as [-> | ->]; vm_compute; reflexivity. }
  assert (Hlt : (Z.abs z < 2 ^ 53)%Z) by lia.
  unfold double, num. rewrite Qred_inject_Z.
  assert (Hz0 : is_zero (inject_Z z) = false).
  { unfold is_zero, Qeq_bool. simpl. rewrite Z.mul_1_r. now apply Z.eqb_neq. }
  rewrite Hz0.
  change (Qabs (inject_Z z)) with (inject_Z (Z.abs z)).
  set (a := Z.abs z) in *.
  assert (Ha : (0 < a)%Z) by (subst a; lia).
  assert (Hlog : ilog2 (inject_Z a) = Z.log2 a).
  { unfold ilog2. cbn [Qnum Qden inject_Z]. change (Z.log2 1) with 0%Z.
    rewrite Z.sub_0_r.
    pose proof (Z.log2_nonneg a) as Hn.
    destruct (Z.log2_spec a Ha) as [Hl _].
    unfold pow2. rewrite (proj2 (Z.leb_le _ _) Hn).
    replace (Qle_bool (inject_Z (2 ^ Z.log2 a)) (inject_Z a)) with true;
      [reflexivity|].
    symmetry. apply Qle_bool_iff. now rewrite <- Zle_Qle. }
  rewrite Hlog.
  assert (Hl53 : (Z.log2 a < 53)%Z) by (apply Z.log2_lt_pow2; lia).
  pose proof (Z.log2_nonneg a) as Hl0.
  rewrite Z.max_l by lia.
  set (c := (52 - Z.log2 a)%Z).
  replace (Z.log2 a - 52)%Z with (- c)%Z by (subst c; lia).
  assert (Hc : (0 <= c)%Z) by (subst c; lia).
  clearbody c.
  assert (Hp : (0 < 2 ^ c)%Z) by (apply Z.pow_pos_nonneg; lia).
  assert (Hpq : (0 < inject_Z (2 ^ c))%Q)
    by (change 0%Q with (inject_Z 0); now rewrite <- Zlt_Qlt).
  pose proof (pow2_neg c Hc) as Hpow.
  assert (Hm : round_half_even (inject_Z a / pow2 (- c)) = (a * 2 ^ c)%Z).
  { apply round_half_even_Z. rewrite Hpow, inject_Z_mult. field. lra. }
  rewrite Hm.
  assert (Hr : (inject_Z (a * 2 ^ c) * pow2 (- c) == inject_Z a)%Q).
  { rewrite Hpow, inject_Z_mult. field. lra. }
  rewrite Qle_bool_false.
  2:{ assert (Hbig : (inject_Z a < pow2 1024)%Q).
      { unfold pow2. cbn [Z.leb Z.compare]. rewrite <- Zlt_Qlt.
        assert ((2 ^ 53 < 2 ^ 1024)%Z) by (apply Z.pow_lt_mono_r; lia). lia. }
      apply Qle_lt_trans with (inject_Z a); [|exact Hbig].
      apply Qle_lteq. right. exact Hr. }
  f_equal. transitivity (Qred (inject_Z z)); [|apply Qred_inject_Z].
  apply Qred_complete.
  destruct (Qle_bool 0 (inject_Z z)) eqn:Es.
  - apply Qle_bool_iff in Es. change 0%Q with (inject_Z 0) in Es.
    rewrite <- Zle_Qle in Es. subst a.
    assert (E : Z.abs z = z) by lia. rewrite E in Hr |- *. exact Hr.
  - assert (Hneg : (z < 0)%Z).
    { destruct (Z_lt_le_dec z 0) as [H|H]; [exact H|].
      assert (Qle_bool 0 (inject_Z z) = true); [|congruence].
      apply Qle_bool_iff. change 0%Q with (inject_Z 0). now rewrite <- Zle_Qle. }
    subst a. assert (E : Z.abs z = (- z)%Z) by lia. rewrite E in Hr |- *.
    apply Qeq_trans with (- inject_Z (- z))%Q; [now apply Qopp_comp|].
    rewrite inject_Z_opp. ring.
Qed.

Lemma add_num (x y : Z) :
  safe (x + y) -> add (num x) (num y) = PVal (num (x + y)).
Proof.
  intros H. unfold add. rewrite <- (double_num _ H).
  apply double_comp. unfold num. now rewrite inject_Z_plus.
Qed.

Lemma safe_between (lo z hi : Z) :
  safe lo -> safe hi -> (lo <= z <= hi)%Z -> safe z.
Proof. unfold safe. lia. Qed.

(** *** Reading back what [decimal] spells *)

Lemma uint_chars_digits d : forallb is_digit (uint_chars d) = true.
Proof. induction d; simpl; auto. Qed.

Lemma digits_fold d (acc : N) :
  fold_left (fun a c => (a * 10 + digit_value c)%N) (uint_chars d) acc
  = (DecimalPos.Unsigned.of_lu (Decimal.rev d) + acc * 10 ^ DecimalPos.Unsigned.usize d)%N.
Proof.
  revert acc.
  induction d as [|d IHd|d IHd|d IHd|d IHd|d IHd|d IHd|d IHd|d IHd|d IHd|d IHd];
    intros acc; [simpl; lia | ..].
  all: cbn [uint_chars fold_left DecimalPos.Unsigned.usize]; rewrite IHd;
    unfold Decimal.rev; cbn [Decimal.revapp];
    match goal with
    | |- context [Decimal.revapp ?x (?c Decimal.Nil)] =>
        rewrite (DecimalPos.Unsigned.of_lu_revapp x (c Decimal.Nil))
    end;
    cbn [DecimalPos.Unsigned.of_lu]; rewrite N.pow_succ_r';
    change (Decimal.revapp d Decimal.Nil) with (Decimal.rev d);
    generalize (10 ^ DecimalPos.Unsigned.usize d)%N as P;
    generalize (DecimalPos.Unsigned.of_lu (Decimal.rev d)) as R; intros R P;
    change (digit_value "0") with 0%N; change (digit_value "1") with 1%N;
    change (digit_value "2") with 2%N; change (digit_value "3") with 3%N;
    change (digit_value "4") with 4%N; change (digit_value "5") with 5%N;
    change (digit_value "6") with 6%N; change (digit_value "7") with 7%N;
    change (digit_value "8") with 8%N; change (digit_value "9") with 9%N;
    ring.
Qed.

Lemma digits_value_N_chars (n : N) : digits_value (N_chars n) = n.
Proof.
  unfold digits_value, N_chars. rewrite digits_fold.
  rewrite <- DecimalPos.Unsigned.of_uint_alt, N.mul_0_l, N.add_0_r.
  apply DecimalN.Unsigned.of_to.
Qed.

Lemma take_digits_all ds :
  forallb is_digit ds = true -> take_digits ds = (ds, []).
Proof.
  induction ds as [|c ds IH]; simpl; [reflexivity|].
  intros H. apply andb_true_iff in H as [Hc Hds].
  now rewrite Hc, IH.
Qed.

Lemma N_chars_nonempty p : N_chars (Npos p) <> [].
Proof.
  unfold N_chars. simpl.
  pose proof (DecimalPos.Unsigned.to_uint_nonnil p) as H.
  destruct (Pos.to_uint p); simpl; congruence.
Qed.

Lemma read_mantissa_digits ds :
  ds <> [] -> forallb is_digit ds = true ->
  read_mantissa ds = Some (Qred (inject_Z (Z.of_N (digits_value ds))), []).
Proof.
  intros Hne Hd. unfold read_mantissa. rewrite (take_digits_all _ Hd).
  destruct ds; [congruence | reflexivity].
Qed.

Lemma digit_not_space c : is_digit c = true -> is_space c = false.
Proof.
  unfold is_digit, is_space. intros H.
  apply andb_true_iff in H as [H1 H2].
  apply Nat.leb_le in H1, H2.
  repeat rewrite orb_false_iff. repeat split.
  - apply andb_false_iff. right. apply Nat.leb_gt. lia.
  - apply Nat.eqb_neq. lia.
  - apply Nat.eqb_neq. lia.
Qed.

Lemma digit_not_sign c :
  is_digit c = true -> eq_char c "-" = false /\ eq_char c "+" = false.
Proof.
  unfold eq_char. intros H.
  split; apply Ascii.eqb_neq; intros ->; vm_compute in H; discriminate.
Qed.

(** A text with no white space at all is its own trimming. *)
Lemma trim_no_space t :
  forallb (fun c => negb (is_space c)) t = true -> trim t = t.
Proof.
  intros H. apply FormatterFacts.trim_of_trimmed. split.
  - apply FormatterFacts.drop_spaces_stable.
    destruct t as [|c t]; [exact I|]. simpl in H.
    apply andb_true_iff in H as [H _]. now apply negb_true_iff in H.
  - apply FormatterFacts.drop_spaces_stable.
    assert (Hr : forallb (fun c => negb (is_space c)) (rev t) = true).
    { rewrite forallb_forall in *. intros c Hc. apply H. now apply in_rev. }
    destruct (rev t) as [|c r]; [exact I|]. simpl in Hr.
    apply andb_true_iff in Hr as [Hr _]. now apply negb_true_iff in Hr.
Qed.

Lemma digits_no_space ds :
  forallb is_digit ds = true -> forallb (fun c => negb (is_space c)) ds = true.
Proof.
  induction ds as [|c ds IH]; simpl; [reflexivity|].
  intros H. apply andb_true_iff in H as [Hc Hds].
  now rewrite (digit_not_space _ Hc), IH.
Qed.

Lemma read_unsigned ds :
  ds <> [] -> forallb is_digit ds = true ->
  read_sign ds = (false, ds).
Proof.
  intros Hne Hd. destruct ds as [|c ds]; [congruence|]. simpl in *.
  apply andb_true_iff in Hd as [Hc _].
  destruct (digit_not_sign _ Hc) as [-> ->]. reflexivity.
Qed.

(** [Number] reads the decimal spelling of a safe integer back as this
    integer. *)
Lemma string_to_number_decimal (z : Z) :
  safe z -> string_to_number (decimal z) = PVal (Some (num z)).
Proof.
  intros Hz.
  unfold string_to_number, decimal, of_string, to_string.
  rewrite list_ascii_of_string_of_list_ascii.
  destruct z as [|p|p].
  - reflexivity.
  - cbn [Z_chars].
    pose proof (N_chars_nonempty p) as Hne.
    pose proof (uint_chars_digits (N.to_uint (Npos p))) as Hd.
    fold (N_chars (Npos p)) in Hd.
    rewrite (trim_no_space _ (digits_no_space _ Hd)).
    destruct (N_chars (N.pos p)) as [|c r] eqn:E; [congruence|].
    rewrite <- E in *.
    rewrite (read_unsigned _ Hne Hd), (read_mantissa_digits _ Hne Hd).
    rewrite digits_value_N_chars. cbn [Z.of_N].
    rewrite Qred_inject_Z. fold (num (Z.pos p)). now rewrite (double_num _ Hz).
  - cbn [Z_chars].
    pose proof (N_chars_nonempty p) as Hne.
    pose proof (uint_chars_digits (N.to_uint (Npos p))) as Hd.
    fold (N_chars (Npos p)) in Hd.
    rewrite trim_no_space
      by (cbn [forallb]; rewrite (digits_no_space _ Hd); reflexivity).
    cbn [read_sign]. change (eq_char "-" "-") with true. cbv iota.
    rewrite (read_mantissa_digits _ Hne Hd), digits_value_N_chars.
    cbn [Z.of_N]. rewrite Qred_inject_Z. fold (num (Z.pos p)).
    rewrite double_num by (unfold safe in *; lia).
    cbn [pbind apply_sign]. unfold neg, num.
    change (- inject_Z (Z.pos p))%Q with (inject_Z (Z.neg p)).
    now rewrite Qred_inject_Z.
Qed.

End NumFacts.

(** ** Laws of the execution monad *)

Module MonadFacts.
Import Text JS Ops Ast Run Interp RunSpec.
Local Open Scope monad_scope.

Lemma bind_ret_l {A B} (a : A) (k : A -> M B) s : bind (ret a) k s = k a s.
Proof. reflexivity. Qed.

Lemma bind_assoc {A B C} (m : M A) (k : A -> M B) (h : B -> M C) s :
  bind (bind m k) h s = bind m (fun a => bind (k a) h) s.
Proof. unfold bind. destruct (m s); reflexivity. Qed.

Lemma bind_ext {A B} (m : M A) (k k' : A -> M B) s :
  (forall a s', k a s' = k' a s') -> bind m k s = bind m k' s.
Proof. intros H. unfold bind. destruct (m s); auto. Qed.

Lemma bind_ret_r {A} (m : M A) s : bind m ret s = m s.
Proof. unfold bind, ret. destruct (m s); reflexivity. Qed.

(** A loop whose body skips the elements that fail a test is the loop over
    the elements that pass it. *)
Lemma for_each_filter {A} (p : A -> bool) (f : A -> M unit) (l : list A) s :
  for_each (fun x => if p x then f x else ret tt) l s
  = for_each f (List.filter p l) s.
Proof.
  revert s. induction l as [|x l IH]; intros s; simpl; [reflexivity|].
  destruct (p x); simpl.
  - apply bind_ext. intros _ s'. apply IH.
  - apply IH.
Qed.

Lemma for_each_ext {A} (f g : A -> M unit) (l : list A) s :
  (forall x s', f x s' = g x s') -> for_each f l s = for_each g l s.
Proof.
  intros H. revert s. induction l as [|x l IH]; intros s; simpl; [reflexivity|].
  unfold bind. rewrite H. destruct (g x s); auto.
Qed.

Lemma for_each_app {A} (f : A -> M unit) (l l' : list A) s :
  for_each f (l ++ l') s = (for_each f l ;;; for_each f l') s.
Proof.
  revert s. induction l as [|x l IH]; intros s; simpl.
  - reflexivity.
  - rewrite bind_assoc. apply bind_ext. intros _ s'. apply IH.
Qed.

Lemma keeps_ret {A} (a : A) : keeps_env (ret a).
Proof. intros s. reflexivity. Qed.

Lemma keeps_throw {A} e : keeps_env (@throw A e).
Proof. intros s. reflexivity. Qed.

Lemma keeps_halt {A} h : keeps_env (@halt A h).
Proof. intros s. exact I. Qed.

Lemma keeps_lift {A} (p : Pure A) : keeps_env (lift p).
Proof. destruct p; [apply keeps_ret | apply keeps_halt]. Qed.

Lemma keeps_bind {A B} (m : M A) (k : A -> M B) :
  keeps_env m -> (forall a, keeps_env (k a)) -> keeps_env (bind m k).
Proof.
  intros Hm Hk s. unfold bind. specialize (Hm s).
  destruct (m s) as [a s1|e s1|h s1]; auto.
  specialize (Hk a s1). destruct (k a s1); congruence.
Qed.

Lemma keeps_modify f :
  (forall s, environment (f s) = environment s) -> keeps_env (modify f).
Proof. intros H s. apply H. Qed.

Lemma keeps_for_each {A} (f : A -> M unit) l :
  (forall x, keeps_env (f x)) -> keeps_env (for_each f l).
Proof.
  intros H. induction l; simpl; [apply keeps_ret|].
  apply keeps_bind; auto.
Qed.

Lemma keeps_map_m {A B} (f : A -> M B) l :
  (forall x, keeps_env (f x)) -> keeps_env (map_m f l).
Proof.
  intros H. induction l; simpl; [apply keeps_ret|].
  apply keeps_bind; auto. intros b. apply keeps_bind; auto.
  intros bs. apply keeps_ret.
Qed.

Lemma keeps_current : keeps_env current.
Proof. intros s. reflexivity. Qed.

Lemma keeps_create o : keeps_env (Env.create o).
Proof. intros s. reflexivity. Qed.

Lemma keeps_define e n c t v : keeps_env (Env.define e n c t v).
Proof.
  intros s. unfold Env.define.
  destruct (environments s !! e); [|exact I].
  destruct (Env.local _ _); reflexivity.
Qed.

Lemma keeps_defineReference e n r : keeps_env (Env.defineReference e n r).
Proof.
  intros s. unfold Env.defineReference.
  destruct (environments s !! e); [|exact I].
  destruct (Env.local _ _); reflexivity.
Qed.

Lemma keeps_getEntry e n l : keeps_env (Env.getEntry e n l).
Proof. intros s. unfold Env.getEntry. destruct (Env.resolve s e n); simpl; auto. Qed.

Lemma keeps_read_entry r : keeps_env (Env.read_entry r).
Proof. intros s. unfold Env.read_entry. destruct (entries s !! r); simpl; auto. Qed.

Lemma keeps_get e n l : keeps_env (Env.get e n l).
Proof.
  unfold Env.get. apply keeps_bind; [apply keeps_getEntry|]. intros r.
  apply keeps_bind; [apply keeps_read_entry|]. intros x. apply keeps_ret.
Qed.

Lemma keeps_assign e n v l : keeps_env (Env.assign e n v l).
Proof.
  intros s. unfold Env.assign. destruct (Env.resolve s e n); simpl; auto.
  destruct (entries s !! ref); simpl; auto.
  destruct (entry_isConstant _); reflexivity.
Qed.

Lemma keeps_new_array vs : keeps_env (new_array vs).
Proof. intros s. reflexivity. Qed.

Lemma keeps_read_array r : keeps_env (read_array r).
Proof. intros s. unfold read_array. destruct (arrays s !! r); simpl; auto. Qed.

Lemma keeps_write_array r i v : keeps_env (write_array r i v).
Proof. intros s. reflexivity. Qed.

Lemma keeps_check_access a i l : keeps_env (check_access a i l).
Proof.
  unfold check_access. destruct a; try apply keeps_throw.
  apply keeps_bind; [apply keeps_read_array|]. intros x.
  destruct (valid_index i (length x)); [apply keeps_ret | apply keeps_throw].
Qed.

Lemma keeps_binary op l r line : keeps_env (binary op l r line).
Proof.
  unfold binary.
  repeat match goal with
  | |- keeps_env (if ?b then _ else _) => destruct b
  | |- keeps_env (match ?v with _ => _ end) => destruct v
  | |- keeps_env (bind _ _) => apply keeps_bind; [|intros ?]
  | |- keeps_env (lift _) => apply keeps_lift
  | |- keeps_env (ret _) => apply keeps_ret
  | |- keeps_env (throw _) => apply keeps_throw
  end.
Qed.

Lemma keeps_unary op r line : keeps_env (unary op r line).
Proof.
  unfold unary.
  repeat match goal with
  | |- keeps_env (if ?b then _ else _) => destruct b
  | |- keeps_env (lift _) => apply keeps_lift
  | |- keeps_env (ret _) => apply keeps_ret
  | |- keeps_env (throw _) => apply keeps_throw
  end.
Qed.

Section Host.
Variable shouldStop : nat -> bool.

Lemma keeps_checkStopSignal : keeps_env (checkStopSignal shouldStop).
Proof. intros s. unfold checkStopSignal. destruct (shouldStop _); reflexivity. Qed.

Lemma keeps_displayProvider vs : keeps_env (displayProvider vs).
Proof. intros s. reflexivity. Qed.

Lemma keeps_inputProvider p : keeps_env (inputProvider p).
Proof. intros s. unfold inputProvider. destruct (inputs s); simpl; auto. Qed.

Lemma keeps_yield_step l : keeps_env (yield_step l).
Proof. intros s. unfold yield_step. destruct (muted s); reflexivity. Qed.

(** A block restores the field whatever its statements do. *)
Lemma keeps_block exec stmts env : keeps_env (block shouldStop exec stmts env).
Proof.
  intros s. unfold block. unfold bind at 1. unfold current. cbv beta iota.
  unfold try_finally.
  match goal with |- match (match ?r with _ => _ end) with _ => _ end => destruct r end;
    simpl; auto.
Qed.

Lemma keeps_block_in_new exec stmts outer :
  keeps_env (block_in_new shouldStop exec stmts outer).
Proof.
  unfold block_in_new. apply keeps_bind; [apply keeps_create|].
  intros env. apply keeps_block.
Qed.

Lemma keeps_nested_block exec stmts :
  keeps_env (nested_block shouldStop exec stmts).
Proof.
  unfold nested_block. apply keeps_bind; [apply keeps_current|].
  intros outer. apply keeps_block_in_new.
Qed.

Lemma keeps_whileLoop fuel c b :
  keeps_env c -> keeps_env b -> keeps_env (whileLoop shouldStop fuel c b).
Proof.
  intros Hc Hb. induction fuel as [|fuel IH]; simpl; [apply keeps_halt|].
  apply keeps_bind; auto. intros v. destruct (truthy v); [|apply keeps_ret].
  apply keeps_bind; [apply keeps_checkStopSignal|]. intros _.
  apply keeps_bind; auto.
Qed.

Lemma keeps_doWhileLoop fuel c b :
  keeps_env c -> keeps_env b -> keeps_env (doWhileLoop shouldStop fuel c b).
Proof.
  intros Hc Hb. induction fuel as [|fuel IH]; simpl; [apply keeps_halt|].
  apply keeps_bind; [apply keeps_checkStopSignal|]. intros _.
  apply keeps_bind; auto. intros _.
  apply keeps_bind; auto. intros v. destruct (truthy v); [auto | apply keeps_ret].
Qed.

Lemma keeps_doUntilLoop fuel c b :
  keeps_env c -> keeps_env b -> keeps_env (doUntilLoop shouldStop fuel c b).
Proof.
  intros Hc Hb. induction fuel as [|fuel IH]; simpl; [apply keeps_halt|].
  apply keeps_bind; [apply keeps_checkStopSignal|]. intros _.
  apply keeps_bind; auto. intros _.
  apply keeps_bind; auto. intros v. destruct (negb (truthy v)); [auto | apply keeps_ret].
Qed.

Lemma keeps_forLoop fuel b scope id line i e :
  keeps_env b -> keeps_env (forLoop shouldStop fuel b scope id line i e).
Proof.
  intros Hb. revert i. induction fuel as [|fuel IH]; intros i; simpl; [apply keeps_halt|].
  destruct (Qle_bool i e); [|apply keeps_ret].
  apply keeps_bind; [apply keeps_checkStopSignal|]. intros _.
  apply keeps_bind; [apply keeps_assign|]. intros _.
  apply keeps_bind; [exact Hb|]. intros _.
  apply keeps_bind; [apply keeps_lift|]. intros next. apply IH.
Qed.

Lemma keeps_inputLoop fuel id line r :
  keeps_env (inputLoop shouldStop fuel id line r).
Proof.
  induction fuel as [|fuel IH]; simpl; [apply keeps_halt|].
  apply keeps_bind; [apply keeps_checkStopSignal|]. intros _.
  apply keeps_bind; [apply keeps_read_entry|]. intros en.
  apply keeps_bind; [apply keeps_inputProvider|]. intros [raw|].
  - destruct (fst _).
    + apply keeps_bind; [apply keeps_lift|]. intros value.
      apply keeps_bind; [apply keeps_current|]. intros env. apply keeps_assign.
    + apply keeps_bind; [apply keeps_displayProvider|]. intros _. exact IH.
  - apply keeps_bind; [apply keeps_checkStopSignal|]. intros _.
    apply keeps_displayProvider.
Qed.

Lemma keeps_bind_parameter eval calleeEnv line pa :
  (forall e, keeps_env (eval e)) ->
  keeps_env (bind_parameter eval calleeEnv line pa).
Proof.
  intros He. destruct pa as [p arg]. unfold bind_parameter.
  destruct (isReference p).
  - destruct arg; try apply keeps_throw.
    apply keeps_bind; [apply keeps_current|]. intros env.
    apply keeps_bind; [apply keeps_getEntry|]. intros r.
    apply keeps_defineReference.
  - apply keeps_bind; [apply He|]. intros v.
    apply keeps_bind; [|intros t; apply keeps_define].
    destruct (String.eqb _ _); [|apply keeps_ret].
    destruct arg; try apply keeps_throw.
    apply keeps_bind; [apply keeps_current|]. intros env.
    apply keeps_bind; [apply keeps_getEntry|]. intros r.
    apply keeps_bind; [apply keeps_read_entry|]. intros en. apply keeps_ret.
Qed.

Lemma keeps_call eval exec callee args line :
  (forall e, keeps_env (eval e)) ->
  keeps_env (call shouldStop eval exec callee args line).
Proof.
  intros He. unfold call. destruct (negb _); [apply keeps_throw|].
  apply keeps_bind; [apply keeps_create|]. intros env.
  apply keeps_bind; [|intros _; apply keeps_block].
  apply keeps_for_each. intros pa. now apply keeps_bind_parameter.
Qed.

Lemma keeps_call_function (body : M unit) name line :
  keeps_env body -> keeps_env (call_function body name line).
Proof.
  intros Hb s. unfold call_function. specialize (Hb (set_muted true s)).
  destruct (body (set_muted true s)) as [a s1|e s1|h s1]; simpl in *; auto.
  destruct e; simpl; auto.
Qed.

Lemma keeps_all_settled eval es :
  (forall e, keeps_env (eval e)) -> keeps_env (all_settled eval es).
Proof.
  intros He. induction es as [|e es IH]; simpl; [apply keeps_ret|].
  intros s. specialize (He e s). destruct (eval e s) as [v s1|x s1|h s1]; auto.
  - specialize (IH s1). destruct (all_settled eval es s1); congruence.
  - destruct (others eval es s1); simpl; auto.
Qed.

Lemma keeps_promise_all eval es :
  (forall e, keeps_env (eval e)) -> keeps_env (promise_all eval es).
Proof.
  intros He. unfold promise_all.
  destruct es as [|e [|e' es]]; try (apply keeps_map_m; exact He).
  destruct (existsb _ _); [apply keeps_halt | now apply keeps_all_settled].
Qed.

Lemma keeps_initial_value eval d :
  (forall e, keeps_env (eval e)) -> keeps_env (initial_value eval d).
Proof.
  intros He. unfold initial_value.
  repeat match goal with
  | |- keeps_env (if ?b then _ else _) => destruct b
  | |- keeps_env (match ?v with _ => _ end) => destruct v
  | |- keeps_env (bind _ _) => apply keeps_bind; [|intros ?]
  | |- keeps_env (for_each _ _) => apply keeps_for_each; intros ?
  | |- keeps_env (ret _) => apply keeps_ret
  | |- keeps_env (throw _) => apply keeps_throw
  | |- keeps_env (new_array _) => apply keeps_new_array
  | |- keeps_env (write_array _ _ _) => apply keeps_write_array
  | |- keeps_env (eval _) => apply He
  end.
Qed.

Variable this : Interpreter.

(** The evaluator leaves [this.environment] as it found it. *)
Lemma keeps_evaluate_exec fuel :
  (forall e, keeps_env (evaluate shouldStop this fuel e))
  /\ (forall st, keeps_env (executeStatementGenerator shouldStop this fuel st)).
Proof.
  induction fuel as [|fuel [IHe IHs]]; split; intros x; simpl;
    try apply keeps_halt.
  - destruct x;
      repeat match goal with
      | |- keeps_env (if ?b then _ else _) => destruct b
      | |- keeps_env (match ?v with _ => _ end) => destruct v
      | |- keeps_env (bind _ _) => apply keeps_bind; [|intros ?]
      | |- keeps_env (ret _) => apply keeps_ret
      | |- keeps_env (lift _) => apply keeps_lift
      | |- keeps_env (throw _) => apply keeps_throw
      | |- keeps_env (halt _) => apply keeps_halt
      | |- keeps_env current => apply keeps_current
      | |- keeps_env (Env.get _ _ _) => apply keeps_get
      | |- keeps_env (binary _ _ _ _) => apply keeps_binary
      | |- keeps_env (unary _ _ _) => apply keeps_unary
      | |- keeps_env (promise_all _ _) => apply keeps_promise_all; exact IHe
      | |- keeps_env (call_function _ _ _) => apply keeps_call_function
      | |- keeps_env (call _ _ _ _ _ _) => apply keeps_call; exact IHe
      | |- keeps_env (new_array _) => apply keeps_new_array
      | |- keeps_env (check_access _ _ _) => apply keeps_check_access
      | |- keeps_env (read_array _) => apply keeps_read_array
      | |- keeps_env (evaluate _ _ _ _) => apply IHe
      end.
  - apply keeps_bind; [apply keeps_checkStopSignal|]. intros _.
    apply keeps_bind; [apply keeps_yield_step|]. intros _.
    destruct x;
      repeat match goal with
      | |- keeps_env (if ?b then _ else _) => destruct b
      | |- keeps_env (match ?v with _ => _ end) => destruct v
      | |- keeps_env (bind _ _) => apply keeps_bind; [|intros ?]
      | |- keeps_env (for_each _ _) => apply keeps_for_each; intros ?
      | |- keeps_env (map_m _ _) => apply keeps_map_m; intros ?
      | |- keeps_env (ret _) => apply keeps_ret
      | |- keeps_env (throw _) => apply keeps_throw
      | |- keeps_env (halt _) => apply keeps_halt
      | |- keeps_env current => apply keeps_current
      | |- keeps_env (Env.define _ _ _ _ _) => apply keeps_define
      | |- keeps_env (Env.assign _ _ _ _) => apply keeps_assign
      | |- keeps_env (Env.getEntry _ _ _) => apply keeps_getEntry
      | |- keeps_env (Env.create _) => apply keeps_create
      | |- keeps_env (initial_value _ _) => apply keeps_initial_value; exact IHe
      | |- keeps_env (check_access _ _ _) => apply keeps_check_access
      | |- keeps_env (write_array _ _ _) => apply keeps_write_array
      | |- keeps_env (checkStopSignal _) => apply keeps_checkStopSignal
      | |- keeps_env (displayProvider _) => apply keeps_displayProvider
      | |- keeps_env (inputLoop _ _ _ _ _) => apply keeps_inputLoop
      | |- keeps_env (block_in_new _ _ _ _) => apply keeps_block_in_new
      | |- keeps_env (nested_block _ _ _) => apply keeps_nested_block
      | |- keeps_env (doWhileLoop _ _ _ _) => apply keeps_doWhileLoop
      | |- keeps_env (doUntilLoop _ _ _ _) => apply keeps_doUntilLoop
      | |- keeps_env (whileLoop _ _ _ _) => apply keeps_whileLoop
      | |- keeps_env (forLoop _ _ _ _ _ _ _ _) => apply keeps_forLoop
      | |- keeps_env (call _ _ _ _ _ _) => apply keeps_call; exact IHe
      | |- keeps_env (evaluate _ _ _ _) => apply IHe
      end.
Qed.

Lemma keeps_executeStatementGenerator fuel st :
  keeps_env (executeStatementGenerator shouldStop this fuel st).
Proof. apply keeps_evaluate_exec. Qed.

Lemma keeps_evaluate fuel e : keeps_env (evaluate shouldStop this fuel e).
Proof. apply keeps_evaluate_exec. Qed.

End Host.

End MonadFacts.

(** ** Fuel

    A run that ends otherwise than by running out of fuel ends the same
    way with more fuel. *)

Module FuelFacts.
Import Text JS Ops Ast Run Interp RunSpec.
Local Open Scope monad_scope.

Lemma refines_refl {A} (m : M A) : refines m m.
Proof. intros s _. reflexivity. Qed.

Lemma refines_bind {A B} (m m' : M A) (k k' : A -> M B) :
  refines m m' -> (forall a, refines (k a) (k' a)) ->
  refines (bind m k) (bind m' k').
Proof.
  intros Hm Hk s. unfold bind. intros Hf.
  assert (Hfm : final (m s)).
  { destruct (m s) as [a s1|e s1|h s1]; simpl; auto. }
  rewrite (Hm s Hfm). destruct (m s) as [a s1|e s1|h s1]; auto.
  now apply Hk.
Qed.

Lemma refines_try_finally {A} (m m' : M A) f :
  refines m m' -> refines (try_finally m f) (try_finally m' f).
Proof.
  intros Hm s. unfold try_finally. intros Hf.
  assert (Hfm : final (m s)).
  { destruct (m s) as [a s1|e s1|h s1]; simpl; auto. }
  now rewrite (Hm s Hfm).
Qed.

Lemma refines_for_each {A} (f f' : A -> M unit) l :
  (forall x, refines (f x) (f' x)) -> refines (for_each f l) (for_each f' l).
Proof.
  intros H. induction l; simpl; [apply refines_refl|].
  apply refines_bind; auto.
Qed.

Lemma refines_map_m {A B} (f f' : A -> M B) l :
  (forall x, refines (f x) (f' x)) -> refines (map_m f l) (map_m f' l).
Proof.
  intros H. induction l; simpl; [apply refines_refl|].
  apply refines_bind; auto. intros b.
  apply refines_bind; auto. intros bs. apply refines_refl.
Qed.

Section Host.
Variable shouldStop : nat -> bool.

Lemma refines_block exec exec' stmts env :
  (forall st, refines (exec st) (exec' st)) ->
  refines (block shouldStop exec stmts env) (block shouldStop exec' stmts env).
Proof.
  intros H. unfold block.
  apply refines_bind; [apply refines_refl|]. intros prev.
  apply refines_try_finally.
  apply refines_bind; [apply refines_refl|]. intros _.
  apply refines_for_each. intros st.
  apply refines_bind; [apply refines_refl|]. intros _. apply H.
Qed.

Lemma refines_block_in_new exec exec' stmts outer :
  (forall st, refines (exec st) (exec' st)) ->
  refines (block_in_new shouldStop exec stmts outer)
          (block_in_new shouldStop exec' stmts outer).
Proof.
  intros H. unfold block_in_new.
  apply refines_bind; [apply refines_refl|]. intros env. now apply refines_block.
Qed.

Lemma refines_nested_block exec exec' stmts :
  (forall st, refines (exec st) (exec' st)) ->
  refines (nested_block shouldStop exec stmts) (nested_block shouldStop exec' stmts).
Proof.
  intros H. unfold nested_block.
  apply refines_bind; [apply refines_refl|]. intros outer.
  now apply refines_block_in_new.
Qed.

Lemma refines_whileLoop fuel n c c' b b' :
  fuel <= n -> refines c c' -> refines b b' ->
  refines (whileLoop shouldStop fuel c b) (whileLoop shouldStop n c' b').
Proof.
  intros Hn Hc Hb. revert n Hn.
  induction fuel as [|fuel IH]; intros n Hn; [intros s []|].
  destruct n as [|n]; [lia|]. simpl.
  apply refines_bind; auto. intros v. destruct (truthy v); [|apply refines_refl].
  apply refines_bind; [apply refines_refl|]. intros _.
  apply refines_bind; auto. intros _. apply IH. lia.
Qed.

Lemma refines_doWhileLoop fuel n c c' b b' :
  fuel <= n -> refines c c' -> refines b b' ->
  refines (doWhileLoop shouldStop fuel c b) (doWhileLoop shouldStop n c' b').
Proof.
  intros Hn Hc Hb. revert n Hn.
  induction fuel as [|fuel IH]; intros n Hn; [intros s []|].
  destruct n as [|n]; [lia|]. simpl.
  apply refines_bind; [apply refines_refl|]. intros _.
  apply refines_bind; auto. intros _.
  apply refines_bind; auto. intros v.
  destruct (truthy v); [apply IH; lia | apply refines_refl].
Qed.

Lemma refines_doUntilLoop fuel n c c' b b' :
  fuel <= n -> refines c c' -> refines b b' ->
  refines (doUntilLoop shouldStop fuel c b) (doUntilLoop shouldStop n c' b').
Proof.
  intros Hn Hc Hb. revert n Hn.
  induction fuel as [|fuel IH]; intros n Hn; [intros s []|].
  destruct n as [|n]; [lia|]. simpl.
  apply refines_bind; [apply refines_refl|]. intros _.
  apply refines_bind; auto. intros _.
  apply refines_bind; auto. intros v.
  destruct (negb (truthy v)); [apply IH; lia | apply refines_refl].
Qed.

Lemma refines_forLoop fuel n b b' scope id line i e :
  fuel <= n -> refines b b' ->
  refines (forLoop shouldStop fuel b scope id line i e)
          (forLoop shouldStop n b' scope id line i e).
Proof.
  intros Hn Hb. revert n Hn i.
  induction fuel as [|fuel IH]; intros n Hn i; [intros s []|].
  destruct n as [|n]; [lia|]. simpl.
  destruct (Qle_bool i e); [|apply refines_refl].
  apply refines_bind; [apply refines_refl|]. intros _.
  apply refines_bind; [apply refines_refl|]. intros _.
  apply refines_bind; [exact Hb|]. intros _.
  apply refines_bind; [apply refines_refl|]. intros next. apply IH. lia.
Qed.

Lemma refines_inputLoop fuel n id line r :
  fuel <= n ->
  refines (inputLoop shouldStop fuel id line r) (inputLoop shouldStop n id line r).
Proof.
  revert n. induction fuel as [|fuel IH]; intros n Hn; [intros s []|].
  destruct n as [|n]; [lia|]. simpl.
  repeat match goal with
  | |- refines ?m ?m => apply refines_refl
  | |- refines (inputLoop _ _ _ _ _) (inputLoop _ _ _ _ _) => apply IH; lia
  | |- refines (if ?b then _ else _) _ => destruct b
  | |- refines (match ?v with _ => _ end) _ => destruct v
  | |- refines (bind _ _) (bind _ _) => apply refines_bind; [|intros ?]
  end.
Qed.

Lemma refines_bind_parameter eval eval' calleeEnv line pa :
  (forall e, refines (eval e) (eval' e)) ->
  refines (bind_parameter eval calleeEnv line pa)
          (bind_parameter eval' calleeEnv line pa).
Proof.
  intros He. destruct pa as [p arg]. unfold bind_parameter.
  destruct (isReference p); [apply refines_refl|].
  apply refines_bind; [apply He | intros v; apply refines_refl].
Qed.

Lemma refines_call eval eval' exec exec' callee args line :
  (forall e, refines (eval e) (eval' e)) ->
  (forall st, refines (exec st) (exec' st)) ->
  refines (call shouldStop eval exec callee args line)
          (call shouldStop eval' exec' callee args line).
Proof.
  intros He Hs. unfold call. destruct (negb _); [apply refines_refl|].
  apply refines_bind; [apply refines_refl|]. intros env.
  apply refines_bind.
  - apply refines_for_each. intros pa. now apply refines_bind_parameter.
  - intros _. now apply refines_block.
Qed.

Lemma refines_call_function (body body' : M unit) name line :
  refines body body' ->
  refines (call_function body name line) (call_function body' name line).
Proof.
  intros Hb s. unfold call_function. intros Hf.
  assert (Hfb : final (body (set_muted true s))).
  { destruct (body (set_muted true s)) as [a s1|e s1|h s1]; simpl; auto. }
  now rewrite (Hb _ Hfb).
Qed.

Lemma others_more_fuel eval eval' es s :
  (forall e, refines (eval e) (eval' e)) ->
  others eval es s <> OthersHalt OutOfFuel ->
  others eval' es s = others eval es s.
Proof.
  intros He. induction es as [|e es IH]; simpl; [reflexivity|].
  intros Hf.
  assert (Hfe : final (eval e s)).
  { destruct (eval e s) as [v s1|x s1|[] s1]; simpl; auto. }
  rewrite (He e s Hfe). destruct (eval e s) as [v s1|x s1|h s1]; auto.
  rewrite IH; [reflexivity|].
  intros E. rewrite E in Hf. congruence.
Qed.

Lemma refines_all_settled eval eval' es :
  (forall e, refines (eval e) (eval' e)) ->
  refines (all_settled eval es) (all_settled eval' es).
Proof.
  intros He. induction es as [|e es IH]; simpl; [apply refines_refl|].
  intros s Hf.
  assert (Hfe : final (eval e s)).
  { destruct (eval e s) as [v s1|x s1|[] s1]; simpl; auto. }
  rewrite (He e s Hfe). destruct (eval e s) as [v s1|x s1|h s1]; auto.
  - assert (Hfr : final (all_settled eval es s1)).
    { destruct (all_settled eval es s1) as [vs s2|x s2|[] s2]; simpl; auto. }
    now rewrite (IH s1 Hfr).
  - rewrite (others_more_fuel eval eval' es s1 He); [reflexivity|].
    intros E. rewrite E in Hf. exact Hf.
Qed.

Lemma refines_promise_all eval eval' es :
  (forall e, refines (eval e) (eval' e)) ->
  refines (promise_all eval es) (promise_all eval' es).
Proof.
  intros He. unfold promise_all.
  destruct es as [|e [|e' es]]; try (apply refines_map_m; exact He).
  destruct (existsb _ _); [apply refines_refl | now apply refines_all_settled].
Qed.

Lemma refines_initial_value eval eval' d :
  (forall e, refines (eval e) (eval' e)) ->
  refines (initial_value eval d) (initial_value eval' d).
Proof.
  intros He. unfold initial_value.
  repeat match goal with
  | |- refines ?m ?m => apply refines_refl
  | |- refines (if ?b then _ else _) _ => destruct b
  | |- refines (match ?v with _ => _ end) _ => destruct v
  | |- refines (bind _ _) (bind _ _) => apply refines_bind; [|intros ?]
  | |- refines (for_each _ _) (for_each _ _) => apply refines_for_each; intros ?
  | |- refines (eval _) (eval' _) => apply He
  end.
Qed.

Variable this : Interpreter.

(** More fuel. *)
Lemma refines_evaluate_exec fuel :
  forall n, fuel <= n ->
  (forall e, refines (evaluate shouldStop this fuel e)
                     (evaluate shouldStop this n e))
  /\ (forall st, refines (executeStatementGenerator shouldStop this fuel st)
                         (executeStatementGenerator shouldStop this n st)).
Proof.
  induction fuel as [|fuel IH]; intros n Hn; [split; intros x s []|].
  destruct n as [|n]; [lia|].
  assert (Hle : fuel <= n) by lia.
  destruct (IH n Hle) as [IHe IHs].
  split; intros x; simpl.
  - destruct x;
      repeat match goal with
      | |- refines ?m ?m => apply refines_refl
      | |- refines (if ?b then _ else _) _ => destruct b
      | |- refines (match ?v with _ => _ end) _ => destruct v
      | |- refines (bind _ _) (bind _ _) => apply refines_bind; [|intros ?]
      | |- refines (promise_all _ _) (promise_all _ _) =>
          apply refines_promise_all; exact IHe
      | |- refines (call_function _ _ _) (call_function _ _ _) =>
          apply refines_call_function
      | |- refines (call _ _ _ _ _ _) (call _ _ _ _ _ _) =>
          apply refines_call; [exact IHe | exact IHs]
      | |- refines (evaluate _ _ _ _) (evaluate _ _ _ _) => apply IHe
      end.
  - apply refines_bind; [apply refines_refl|]. intros _.
    apply refines_bind; [apply refines_refl|]. intros _.
    destruct x;
      repeat match goal with
      | |- refines ?m ?m => apply refines_refl
      | |- refines (if ?b then _ else _) _ => destruct b
      | |- refines (match ?v with _ => _ end) _ => destruct v
      | |- refines (bind _ _) (bind _ _) => apply refines_bind; [|intros ?]
      | |- refines (for_each _ _) (for_each _ _) => apply refines_for_each; intros ?
      | |- refines (map_m _ _) (map_m _ _) => apply refines_map_m; intros ?
      | |- refines (initial_value _ _) (initial_value _ _) =>
          apply refines_initial_value; exact IHe
      | |- refines (inputLoop _ _ _ _ _) (inputLoop _ _ _ _ _) =>
          apply refines_inputLoop; exact Hle
      | |- refines (nested_block _ _ _) (nested_block _ _ _) =>
          apply refines_nested_block; exact IHs
      | |- refines (block_in_new _ _ _ _) (block_in_new _ _ _ _) =>
          apply refines_block_in_new; exact IHs
      | |- refines (doWhileLoop _ _ _ _) (doWhileLoop _ _ _ _) =>
          apply refines_doWhileLoop; [exact Hle | |]
      | |- refines (doUntilLoop _ _ _ _) (doUntilLoop _ _ _ _) =>
          apply refines_doUntilLoop; [exact Hle | |]
      | |- refines (whileLoop _ _ _ _) (whileLoop _ _ _ _) =>
          apply refines_whileLoop; [exact Hle | |]
      | |- refines (forLoop _ _ _ _ _ _ _ _) (forLoop _ _ _ _ _ _ _ _) =>
          apply refines_forLoop; [exact Hle |]
      | |- refines (call _ _ _ _ _ _) (call _ _ _ _ _ _) =>
          apply refines_call; [exact IHe | exact IHs]
      | |- refines (evaluate _ _ _ _) (evaluate _ _ _ _) => apply IHe
      end.
Qed.

Lemma refines_runGenerator fuel n :
  fuel <= n ->
  refines (runGenerator shouldStop this fuel) (runGenerator shouldStop this n).
Proof.
  intros Hn. destruct (refines_evaluate_exec fuel n Hn) as [He Hs].
  unfold runGenerator.
  apply refines_bind; [apply refines_refl|]. intros _.
  destruct (0 <? _).
  - destruct (modules this !! _) as [mainModule|]; [|apply refines_refl].
    apply refines_bind.
    + apply refines_for_each. intros st.
      destruct (is_variable_declaration st); [apply Hs | apply refines_refl].
    + intros _. unfold executeCallGenerator. now apply refines_call.
  - apply refines_for_each. intros st.
    destruct (negb (is_function st)); [apply Hs | apply refines_refl].
Qed.

(** A run that ends otherwise than by running out of fuel ends the same
    way with any larger fuel. *)
Lemma runGenerator_more_fuel fuel extra s :
  final (runGenerator shouldStop this fuel s) ->
  runGenerator shouldStop this (fuel + extra) s = runGenerator shouldStop this fuel s.
Proof. apply refines_runGenerator. lia. Qed.

End Host.

(** The same for [interpret]. *)
Lemma interpret_more_fuel shouldStop code host_inputs fuel extra :
  finished (interpret shouldStop code host_inputs fuel) ->
  interpret shouldStop code host_inputs (fuel + extra)
  = interpret shouldStop code host_inputs fuel.
Proof.
  unfold interpret.
  destruct (Lexer.tokenize code) as [tokens| |]; try reflexivity.
  destruct (Parser.parse tokens) as [stmts rest| |]; try reflexivity.
  intros Hf. f_equal. now apply runGenerator_more_fuel.
Qed.

(** Settles a statement about a program run with [n + extra] units of fuel
    by running it with [n]. *)
Ltac run_with_more_fuel :=
  intros; rewrite interpret_more_fuel; [vm_compute; reflexivity | vm_compute; exact I].

End FuelFacts.

(** ** Program entry ([runGenerator]) *)

Module EntryFacts.
Import Text JS Ops Ast Run Interp RunSpec MonadFacts.
Local Open Scope monad_scope.

Lemma find_over_app {A} (p : A -> bool) (l l' : list A) :
  List.find p (l ++ l')
  = match List.find p l with
    | Some x => Some x
    | None => List.find p l'
    end.
Proof.
  induction l as [|x l IH]; simpl; [reflexivity|].
  destruct (p x); auto.
Qed.

(** What the constructor registers. *)
Lemma register_lookup maps st k :
  fst (register maps st) !! k
  = if module_named k st then Some st else fst maps !! k.
Proof.
  destruct st as [| | | | | | | | |mname ps body line| | |]; simpl; try reflexivity.
  destruct (String.eqb_spec (toLowerCase mname) k) as [->|Hne].
  - now rewrite lookup_insert_eq.
  - now rewrite lookup_insert_ne.
Qed.

Lemma register_modules_lookup stmts maps k :
  fst (fold_left register stmts maps) !! k
  = match find_module k stmts with
    | Some st => Some st
    | None => fst maps !! k
    end.
Proof.
  unfold find_module. revert maps.
  induction stmts as [|st stmts IH]; intros maps; simpl; [reflexivity|].
  rewrite find_over_app, IH.
  destruct (find (module_named k) (rev stmts)); [reflexivity|].
  simpl. rewrite register_lookup.
  destruct (module_named k st); reflexivity.
Qed.

Lemma register_empty maps st :
  fst (register maps st) = ∅ <-> fst maps = ∅ /\ is_module st = false.
Proof.
  destruct st; simpl; try tauto.
  split.
  - intros H. now apply insert_non_empty in H.
  - intros [_ H]. discriminate.
Qed.

Lemma register_modules_empty stmts maps :
  fst (fold_left register stmts maps) = ∅
  <-> fst maps = ∅ /\ existsb is_module stmts = false.
Proof.
  revert maps. induction stmts as [|st stmts IH]; intros maps; simpl.
  - tauto.
  - rewrite IH, register_empty, orb_false_iff. tauto.
Qed.

Lemma modules_size stmts :
  (0 <? base.size (modules (new_Interpreter stmts))) = existsb is_module stmts.
Proof.
  unfold new_Interpreter. simpl.
  destruct (existsb is_module stmts) eqn:E.
  - apply Nat.ltb_lt.
    destruct (base.size (fold_left register stmts (∅, ∅)).1) eqn:Hs; [|lia].
    apply map_size_empty_iff in Hs.
    apply register_modules_empty in Hs as [_ Hs]. congruence.
  - apply Nat.ltb_ge.
    assert (H : (fold_left register stmts (∅, ∅)).1 = (∅ : gmap string Statement)).
    { apply register_modules_empty. split; [reflexivity | exact E]. }
    rewrite H, map_size_empty. lia.
Qed.

Lemma modules_lookup stmts k :
  modules (new_Interpreter stmts) !! k = find_module k stmts.
Proof.
  unfold new_Interpreter. simpl. rewrite register_modules_lookup.
  destruct (find_module k stmts); [reflexivity | apply lookup_empty].
Qed.

Lemma set_environment_same s : set_environment (environment s) s = s.
Proof. now destruct s. Qed.

Section Entry.
Variable shouldStop : nat -> bool.

(** A computation that keeps [this.environment] runs every element of a
    loop in the environment in which the loop started. *)
Lemma for_each_in_environment {A} (f : A -> M unit) (l : list A) e s :
  (forall x, keeps_env (f x)) ->
  environment s = e ->
  for_each f l s = for_each (fun x => in_environment e (f x)) l s.
Proof.
  intros Hk. revert s. induction l as [|x l IH]; intros s He; simpl; [reflexivity|].
  unfold bind, in_environment.
  subst e. rewrite set_environment_same. specialize (Hk x s).
  destruct (f x s) as [[] s1|e1 s1|h s1];
    [apply IH; congruence | reflexivity | reflexivity].
Qed.

Lemma bind_in_environment {A B} (m : M A) (k : A -> M B) e s :
  keeps_env m ->
  environment s = e ->
  bind m k s = bind (in_environment e m) (fun a => in_environment e (k a)) s.
Proof.
  intros Hk He. unfold bind, in_environment.
  subst e. rewrite set_environment_same. specialize (Hk s).
  destruct (m s) as [a s1|e1 s1|h s1]; auto.
  now rewrite <- Hk, set_environment_same.
Qed.

Lemma bind_ext_keeps {A B} (m : M A) (k k' : A -> M B) s :
  keeps_env m ->
  (forall a s', environment s' = environment s -> k a s' = k' a s') ->
  bind m k s = bind m k' s.
Proof.
  intros Hk H. unfold bind. specialize (Hk s).
  destruct (m s); auto.
Qed.

End Entry.

End EntryFacts.

(** ** The [For] statement *)

Module ForFacts.
Import Text JS Ops Ast Run Interp RunSpec MonadFacts FuelFacts NumFacts.
Local Open Scope monad_scope.

(** *** Counting in doubles *)

(** From a safe integer on, as long as the end is below 2^53, the counter
    takes every integer up to and including the end, and the loop ends. *)
Lemma counter_values_num (n : nat) :
  forall (x : Z) (extra : nat),
    (- 2 ^ 53 <= x)%Z -> (x + Z.of_nat n < 2 ^ 53)%Z ->
    counter_values (S n + S extra) (num x) (num (x + Z.of_nat n))
    = map (fun k => num (x + Z.of_nat k)) (seq 0 (S n))
    /\ counter_end (S n + S extra) (num x) (num (x + Z.of_nat n)) = None.
Proof.
  induction n as [|n IH]; intros x extra Hlo Hhi.
  - cbn [Nat.add counter_values counter_end seq map].
    rewrite !Z.add_0_r, Qle_bool_num, Z.leb_refl.
    rewrite add_num by (unfold safe; lia).
    cbn [counter_values counter_end]. rewrite Qle_bool_num.
    replace (x + 1 <=? x)%Z with false by (symmetry; apply Z.leb_gt; lia).
    split; reflexivity.
  - change (S (S n) + S extra) with (S (S n + S extra)).
    cbn [counter_values counter_end]. rewrite Qle_bool_num.
    replace (x <=? x + Z.of_nat (S n))%Z with true by (symmetry; apply Z.leb_le; lia).
    rewrite add_num by (unfold safe; lia).
    replace (x + Z.of_nat (S n))%Z with (x + 1 + Z.of_nat n)%Z by lia.
    destruct (IH (x + 1)%Z extra) as [Hv He]; [lia | lia |].
    rewrite Hv, He. split; [|reflexivity].
    change (seq 0 (S (S n))) with (0 :: seq 1 (S n)).
    rewrite <- (seq_shift (S n) 0). cbn [map].
    rewrite map_map. f_equal; [f_equal; lia|].
    apply map_ext. intros k. f_equal. lia.
Qed.

Section For.
Variable shouldStop : nat -> bool.

(** The loop of the evaluator is the loop over the counter values, cut
    off by the fuel. *)
Lemma forLoop_turns fuel (body : M unit) scope id line (a b : Q) s :
  forLoop shouldStop fuel body scope id line a b s
  = (for_each
       (fun v => checkStopSignal shouldStop ;;;
                 Env.assign scope id (VNumber v) line ;;;
                 body)
       (counter_values fuel a b) ;;;
     match counter_end fuel a b with
     | None => ret tt
     | Some h => halt h
     end) s.
Proof.
  revert a s. induction fuel as [|fuel IH]; intros a s.
  - reflexivity.
  - cbn [forLoop counter_values counter_end].
    destruct (Qle_bool a b) eqn:E; [|reflexivity].
    cbn [for_each]. unfold bind.
    destruct (checkStopSignal shouldStop s) as [[] s1|e1 s1|h1 s1]; try reflexivity.
    destruct (Env.assign scope id (VNumber a) line s1) as [[] s2|e2 s2|h2 s2];
      try reflexivity.
    destruct (body s2) as [[] s3|e3 s3|h3 s3]; try reflexivity.
    destruct (add a (num 1)) as [next|]; [|reflexivity].
    cbn [lift]. unfold ret. rewrite IH. reflexivity.
Qed.

Variable this : Interpreter.

(** C3. The [For] statement.  After the poll of the stop signal and the
    step point, a fresh loop scope is created in the current environment;
    start and end are evaluated once each, in this order, before any turn;
    unless both are numbers the statement fails; the counter is defined in
    the loop scope, not constant, of type [Real], with the start as value;
    then, for each counter value, the counter is set to it and the body
    runs in a fresh environment inside the loop scope.  The counter values
    are the start and then, each time, the double sum of the value before
    and 1, as long as the value does not exceed the end.  (The fuel of the
    model bounds the turns.)  There is no turn when the start exceeds the
    end.  From an integer start that is not below -2^53 to an integer end
    below 2^53 the counter values are all the integers from start to end,
    both included, and the loop ends.  The program of the claim displays
    15, whatever fuel beyond 20 the model is given. *)
Theorem for_statement :
  (forall fuel id startExpr endExpr body line s,
     executeStatementGenerator shouldStop this (S fuel)
       (ForStatement id startExpr endExpr body line) s
     = (checkStopSignal shouldStop ;;;
        yield_step line ;;;
        env <- current ;;
        scope <- Env.create (Some env) ;;
        start <- evaluate shouldStop this fuel startExpr ;;
        end_ <- evaluate shouldStop this fuel endExpr ;;
        match start, end_ with
        | VNumber a, VNumber b =>
            Env.define scope id false "Real" (VNumber a) ;;;
            for_each
              (fun v =>
                 checkStopSignal shouldStop ;;;
                 Env.assign scope id (VNumber v) line ;;;
                 (inner <- Env.create (Some scope) ;;
                  executeBlockGenerator shouldStop this fuel body inner))
              (counter_values fuel a b) ;;;
            match counter_end fuel a b with
            | None => ret tt
            | Some h => halt h
            end
        | _, _ => throw (InterpreterError ForBoundsNotNumbers line)
        end) s)
  /\ (forall fuel a b,
        counter_values (S fuel) a b
        = (if Qle_bool a b then
             a :: match add a (num 1) with
                  | PVal next => counter_values fuel next b
                  | POutside => []
                  end
           else [])
        /\ (Qle_bool a b = false -> counter_end (S fuel) a b = None))
  /\ (forall (x : Z) (n extra : nat),
        (- 2 ^ 53 <= x)%Z -> (x + Z.of_nat n < 2 ^ 53)%Z ->
        counter_values (S n + S extra) (num x) (num (x + Z.of_nat n))
        = map (fun k => num (x + Z.of_nat k)) (seq 0 (S n))
        /\ counter_end (S n + S extra) (num x) (num (x + Z.of_nat n)) = None)
  /\ (forall enclosing s,
        Env.create enclosing s
        = Ok (length (environments s))
             (set_environments (fun es => es ++ [mkEnvironment [] enclosing]) s))
  /\ (forall extra,
      option_map displays_of
       (completed (interpret never_stop
          "Declare Integer s=0, i
For i = 1 To 5
Set s = s + i
End For
Display s" [] (20 + extra)))
      = Some [[VNumber (num 15)]]).
Proof.
  split; [|split; [|split; [|split]]].
  - intros fuel id startExpr endExpr body line s.
    cbn [executeStatementGenerator].
    apply bind_ext. intros _ s1. apply bind_ext. intros _ s2.
    apply bind_ext. intros env s3. apply bind_ext. intros scope s4.
    apply bind_ext. intros start s5. apply bind_ext. intros end_ s6.
    destruct start; try reflexivity. destruct end_; try reflexivity.
    apply bind_ext. intros _ s7.
    apply forLoop_turns.
  - intros fuel a b. split; [reflexivity|].
    intros H. cbn [counter_end]. now rewrite H.
  - intros x n extra. apply counter_values_num.
  - reflexivity.
  - run_with_more_fuel.
Qed.

End For.

(** The counter values from 3 to 5, at which the hypotheses of the
    statement hold. *)
Lemma for_statement_witness :
  counter_values 4 (num 3) (num 5) = [num 3; num 4; num 5]
  /\ counter_end 4 (num 3) (num 5) = None
  /\ counter_end 1 (num 6) (num 5) = None.
Proof.
  pose proof (for_statement never_stop (new_Interpreter [])) as H.
  destruct H as [_ [Hstep [Hint _]]].
  split; [|split].
  - refine (proj1 (Hint 3%Z 2 0 _ _)); vm_compute;
      first [reflexivity | intros E; discriminate E].
  - refine (proj2 (Hint 3%Z 2 0 _ _)); vm_compute;
      first [reflexivity | intros E; discriminate E].
  - refine (proj2 (Hstep 0 (num 6) (num 5)) _). vm_compute. reflexivity.
Defined.

(** C3 as stated does not hold: the counter is a double, and one more is
    not always the next counter value.  From 0.14 to 1.14 there is one
    turn, not two: the double sum of 0.14 and 1 exceeds the double 1.14.
    From 4503599627370495.5 (2^52 - 1/2) the second value is 2^52, half a
    unit further, and there are three turns up to 2^52 + 1, not two.  At
    2^53 the sum with 1 is 2^53 again: the loop from 2^53 to 2^53 takes
    this one value again and again, and does not end. *)
Lemma for_counts_in_doubles :
  option_map displays_of
    (completed (interpret never_stop
       "For i = 0.14 To 1.14
Display i
End For" [] 20))
  = Some [[VNumber (1261007895663739 # 9007199254740992)]]
  /\ option_map displays_of
    (completed (interpret never_stop
       "For i = 4503599627370495.5 To 4503599627370497
Display i
End For" [] 20))
  = Some [[VNumber (9007199254740991 # 2)]; [VNumber (num 4503599627370496)];
          [VNumber (num 4503599627370497)]]
  /\ (forall fuel, counter_values fuel (num (2 ^ 53)) (num (2 ^ 53))
                   = repeat (num (2 ^ 53)) fuel)
  /\ (forall fuel, counter_end fuel (num (2 ^ 53)) (num (2 ^ 53)) = Some OutOfFuel)
  /\ match interpret never_stop
       "For i = 9007199254740992 To 9007199254740992
Display i
End For" [] 20 with
     | Ran (Halt OutOfFuel s) =>
         firstn 3 (displays_of (events s))
         = repeat [VNumber (num (2 ^ 53))] 3
     | _ => False
     end.
Proof.
  split; [vm_compute; reflexivity|].
  split; [vm_compute; reflexivity|].
  assert (Hnext : add (num (2 ^ 53)) (num 1) = PVal (num (2 ^ 53)))
    by (vm_compute; reflexivity).
  assert (Hle : Qle_bool (num (2 ^ 53)) (num (2 ^ 53)) = true)
    by (vm_compute; reflexivity).
  split; [|split].
  - induction fuel as [|fuel IH]; [reflexivity|].
    cbn [counter_values repeat]. now rewrite Hle, Hnext, IH.
  - induction fuel as [|fuel IH]; [reflexivity|].
    cbn [counter_end]. now rewrite Hle, Hnext.
  - vm_compute. reflexivity.
Qed.

End ForFacts.

(** ** Parameters by reference *)

Module AliasFacts.
Import Text JS Ops Ast Run Interp RunSpec MonadFacts FuelFacts.
Local Open Scope monad_scope.

Lemma local_add_binding_old e k ref n r :
  Env.local e n = Some r -> Env.local (Env.add_binding k ref e) n = Some r.
Proof.
  unfold Env.local, Env.add_binding. simpl.
  induction (values e) as [|kv l IH]; simpl; [discriminate|].
  destruct (String.eqb (fst kv) n); auto.
Qed.

Lemma local_add_binding_new e k ref n :
  Env.local e n = None ->
  Env.local (Env.add_binding k ref e) n = if String.eqb k n then Some ref else None.
Proof.
  unfold Env.local, Env.add_binding. simpl.
  induction (values e) as [|kv l IH]; simpl; [intros _; now destruct (String.eqb k n)|].
  destruct (String.eqb (fst kv) n); [discriminate | auto].
Qed.

(** Binding one more name to an entry does not change where a name that
    already resolves to this entry resolves. *)
Lemma walk_add_binding depth (envs : list Environment) callee e k ref c n :
  envs !! callee = Some e ->
  Env.walk depth envs c n = Env.Found ref ->
  Env.walk depth (<[callee := Env.add_binding k ref e]> envs) c n = Env.Found ref.
Proof.
  intros He. revert c. induction depth as [|depth IH]; intros c; simpl; [discriminate|].
  destruct (decide (callee = c)) as [<-|Hne].
  - rewrite He, list_lookup_insert_eq by (eapply lookup_lt_Some; eassumption).
    destruct (Env.local e n) as [r|] eqn:El.
    + now rewrite (local_add_binding_old _ _ _ _ _ El).
    + rewrite (local_add_binding_new _ _ _ _ El).
      destruct (String.eqb k n); [reflexivity|].
      simpl. destruct (enclosing e); [apply IH | discriminate].
  - rewrite list_lookup_insert_ne by assumption.
    destruct (envs !! c) as [ec|]; [|discriminate].
    destruct (Env.local ec n); [auto|].
    destruct (enclosing ec); [apply IH | discriminate].
Qed.

Lemma resolve_after_assign s env n v line s' e' n' :
  Env.assign env n v line s = Ok tt s' ->
  Env.resolve s' e' n' = Env.resolve s e' n'.
Proof.
  unfold Env.assign. destruct (Env.resolve s env n); try discriminate.
  destruct (entries s !! ref); [|discriminate].
  destruct (entry_isConstant _); [discriminate|].
  now intros [= <-].
Qed.

(** *** The parameters of a call

    The environment of the callee is new, so no chain that starts in an
    environment of the caller goes through it. *)
Lemma walk_extends depth depth' (envs0 envs : list Environment) c n ref :
  (forall i e, envs0 !! i = Some e -> envs !! i = Some e) ->
  depth <= depth' ->
  Env.walk depth envs0 c n = Env.Found ref ->
  Env.walk depth' envs c n = Env.Found ref.
Proof.
  intros Hsub. revert depth' c.
  induction depth as [|depth IH]; intros depth' c Hle; simpl; [discriminate|].
  destruct depth' as [|depth']; [lia|]. simpl.
  destruct (envs0 !! c) as [e|] eqn:He; [|discriminate].
  rewrite (Hsub _ _ He).
  destruct (Env.local e n); [auto|].
  destruct (enclosing e); [|discriminate]. apply IH. lia.
Qed.

Lemma lookup_extended (envs0 : list Environment) E i e :
  envs0 !! i = Some e -> (envs0 ++ [E]) !! i = Some e.
Proof. intros H. rewrite lookup_app_l; [exact H | eapply lookup_lt_Some; eassumption]. Qed.

Lemma insert_last (envs0 : list Environment) E E' :
  <[length envs0 := E']> (envs0 ++ [E]) = envs0 ++ [E'].
Proof.
  rewrite insert_app_r_alt by lia. now rewrite Nat.sub_diag.
Qed.

(** Where each of several distinct names is bound, in an environment that
    binds them in order after names that differ from them. *)
Lemma find_combine (keys : list string) : forall (refs : list nat) pre,
  length keys = length refs ->
  List.NoDup (map fst pre ++ keys) ->
  Forall2 (fun k r => find (fun kv : string * nat => String.eqb (fst kv) k)
                        (pre ++ combine keys refs) = Some (k, r)) keys refs.
Proof.
  induction keys as [|k keys IH]; intros refs pre Hlen Hnd;
    destruct refs as [|r refs]; try discriminate; constructor.
  - assert (Hk : ~ In k (map fst pre)).
    { intros Hin. apply List.NoDup_remove_2 in Hnd. apply Hnd.
      apply in_or_app. now left. }
    clear -Hk. induction pre as [|[k' r'] pre IHp]; simpl.
    + now rewrite String.eqb_refl.
    + destruct (String.eqb k' k) eqn:E.
      * apply String.eqb_eq in E. subst. exfalso. apply Hk. now left.
      * apply IHp. intros Hin. apply Hk. now right.
  - specialize (IH refs (pre ++ [(k, r)])).
    rewrite <- app_assoc in IH. simpl in IH.
    rewrite map_app, <- app_assoc in IH. simpl in IH.
    apply IH; [simpl in Hlen; lia | exact Hnd].
Qed.

Lemma resolve_bound s envs0 E n r :
  environments s = envs0 ++ [E] ->
  Env.local E (toLowerCase n) = Some r ->
  Env.resolve s (length envs0) n = Env.Found r.
Proof.
  intros He Hl. unfold Env.resolve. rewrite He, length_app. simpl length.
  rewrite Nat.add_1_r. cbn [Env.walk].
  rewrite lookup_app_r by lia. rewrite Nat.sub_diag. cbn [lookup list_lookup].
  now rewrite Hl.
Qed.

Section Call.
Variable eval : Expression -> M Value.
Variable line : nat.
Variable envs0 : list Environment.
Variable cur : nat.
Variable outer : option nat.

Local Abbreviation lower := (fun p : Param => toLowerCase (name p)).

(** The loop over the parameters: the environment of the callee gets the
    bindings, in order; nothing else changes. *)
Lemma bind_references : forall params (args : list (string * nat)) refs bound s,
  Forall (fun p => isReference p = true) params ->
  length args = length params ->
  Forall2 (fun a ref => Env.walk (length envs0) envs0 cur (toLowerCase (fst a))
                        = Env.Found ref) args refs ->
  List.NoDup (map fst bound ++ map lower params) ->
  environments s = envs0 ++ [mkEnvironment bound outer] ->
  environment s = cur ->
  exists s1,
    for_each (bind_parameter eval (length envs0) line) (combine params (identifiers args)) s
    = Ok tt s1
    /\ environments s1
       = envs0 ++ [mkEnvironment (bound ++ combine (map lower params) refs) outer]
    /\ entries s1 = entries s
    /\ environment s1 = cur.
Proof.
  induction params as [|p params IH]; intros args refs bound s Href Hlen Hres Hnd Henv Hcur.
  - destruct args; [|discriminate]. apply Forall2_nil_inv_l in Hres. rewrite Hres.
    exists s. simpl. rewrite app_nil_r. auto.
  - destruct args as [|[a l] args]; [discriminate|].
    destruct refs as [|ref refs']; [now apply Forall2_nil_inv_r in Hres|].
    apply Forall2_cons_1 in Hres as [Ha Hrest]. cbn [fst] in Ha.
    apply Forall_cons_1 in Href as [Hp Href'].
    cbn [identifiers map combine for_each fst snd].
    unfold bind at 1. cbn [bind_parameter]. rewrite Hp.
    unfold bind at 1, current. unfold bind at 1, Env.getEntry, Env.resolve.
    rewrite Henv, Hcur, length_app. simpl length.
    assert (Hw : Env.walk (length envs0 + 1) (envs0 ++ [mkEnvironment bound outer]) cur
                   (toLowerCase a) = Env.Found ref).
    { eapply walk_extends; [intros i e; apply lookup_extended | | exact Ha]. lia. }
    rewrite Hw.
    unfold Env.defineReference. rewrite Henv.
    rewrite lookup_app_r by lia. rewrite Nat.sub_diag. cbn [lookup list_lookup].
    assert (Hfresh : Env.local (mkEnvironment bound outer) (toLowerCase (name p)) = None).
    { unfold Env.local. cbn [values].
      destruct (find _ bound) as [[k r]|] eqn:Ef; [|reflexivity].
      apply find_some in Ef as [Hin Hk]. simpl in Hk. apply String.eqb_eq in Hk. subst k.
      exfalso. simpl in Hnd. apply List.NoDup_remove_2 in Hnd. apply Hnd.
      apply in_or_app. left. exact (in_map fst _ _ Hin). }
    rewrite Hfresh.
    set (s' := set_environments _ s).
    destruct (IH args refs' (bound ++ [(lower p, ref)]) s') as (s1 & Hrun & He1 & Hen1 & Hc1).
    + exact Href'.
    + simpl in Hlen. lia.
    + exact Hrest.
    + rewrite map_app, <- app_assoc. exact Hnd.
    + unfold s'. cbn [environments set_environments]. rewrite Henv.
      unfold Env.add_binding. cbn [values enclosing]. apply insert_last.
    + exact Hcur.
    + exists s1. repeat split; try assumption.
      rewrite He1, <- app_assoc. reflexivity.
Qed.

End Call.

(** [defineReference] binds the name to the entry, and a name that
    resolves to this entry still does. *)
Lemma defineReference_shares s caller a callee x ref s1 :
  Env.resolve s caller a = Env.Found ref ->
  Env.defineReference callee x ref s = Ok tt s1 ->
  Env.resolve s1 callee x = Env.Found ref
  /\ Env.resolve s1 caller a = Env.Found ref
  /\ entries s1 = entries s.
Proof.
  intros Hres Hdef.
  unfold Env.defineReference in Hdef.
  destruct (environments s !! callee) as [e|] eqn:He; [|discriminate].
  destruct (Env.local e (toLowerCase x)) eqn:El; [discriminate|].
  injection Hdef as <-.
  pose proof (lookup_lt_Some _ _ _ He) as Hlt.
  unfold Env.resolve in *. simpl. rewrite length_insert.
  repeat split.
  - destruct (length (environments s)) as [|d] eqn:Hd; [lia|].
    simpl. rewrite list_lookup_insert_eq by lia.
    rewrite (local_add_binding_new _ _ _ _ El), String.eqb_refl. reflexivity.
  - now apply walk_add_binding.
Qed.

(** The binding of one parameter by reference, at any point of the loop
    over the parameters. *)
Lemma bind_parameter_shares eval calleeEnv line param a l s ref e :
  isReference param = true ->
  Env.resolve s (environment s) a = Env.Found ref ->
  environments s !! calleeEnv = Some e ->
  Env.local e (toLowerCase (name param)) = None ->
  exists s1,
    bind_parameter eval calleeEnv line (param, Identifier a l) s = Ok tt s1
    /\ Env.resolve s1 calleeEnv (name param) = Env.Found ref
    /\ Env.resolve s1 (environment s1) a = Env.Found ref
    /\ entries s1 = entries s
    /\ environment s1 = environment s.
Proof.
  intros Hp Hres He Hfresh.
  assert (Hdef : exists s1, Env.defineReference calleeEnv (name param) ref s = Ok tt s1
                            /\ environment s1 = environment s).
  { unfold Env.defineReference. rewrite He, Hfresh. eexists. split; reflexivity. }
  destruct Hdef as (s1 & Hdef & Henv).
  exists s1. split.
  - cbn [bind_parameter]. rewrite Hp.
    unfold bind at 1, current. unfold bind at 1, Env.getEntry. now rewrite Hres.
  - destruct (defineReference_shares _ _ _ _ _ _ _ Hres Hdef) as (H1 & H2 & H3).
    rewrite Henv. auto.
Qed.

(** C4. A parameter by reference shares the caller's entry.
    - A call: when every parameter of the callee is by reference, the
      parameters have distinct names and the arguments are variables of
      the caller, [executeCallGenerator] runs the body of the callee in a
      new environment in which every parameter's name resolves to the very
      entry that its argument resolves to in the caller's environment; no
      entry has been created or changed on the way, and the arguments still
      resolve to these entries.  An argument by reference that is not a
      variable is refused.
    - One parameter, whatever the others are: at any point of the loop
      over the parameters, binding a parameter by reference to a variable
      of the caller makes the parameter's name resolve, in the callee's
      environment, to the entry that the variable resolves to.
    - Binding: [defineReference] makes the parameter's name resolve, in the
      callee's environment, to the very entry that the argument's name
      resolves to in the caller's, and the latter still does.
    - Two names that resolve to one entry read the same value, and after a
      write through either of them both read the value written.
    - The program of the claim: after [Call swap(a, b)] the caller's scope
      holds [a = 2] and [b = 1], which is what it displays (with any fuel
      from 20 on). *)
Theorem by_reference_aliasing :
  (forall shouldStop eval exec callee (args : list (string * nat)) refs line s,
     Forall (fun p => isReference p = true) (callee_parameters callee) ->
     List.NoDup (map (fun p => toLowerCase (name p)) (callee_parameters callee)) ->
     length args = length (callee_parameters callee) ->
     resolve_all s (environment s) (map fst args) refs ->
     exists s1,
       call shouldStop eval exec callee (identifiers args) line s
       = block shouldStop exec (callee_body callee) (length (environments s)) s1
       /\ resolve_all s1 (length (environments s))
            (map name (callee_parameters callee)) refs
       /\ resolve_all s1 (environment s1) (map fst args) refs
       /\ entries s1 = entries s
       /\ environment s1 = environment s)
  /\ (forall eval calleeEnv line param arg s,
        isReference param = true ->
        (forall n l, arg <> Identifier n l) ->
        bind_parameter eval calleeEnv line (param, arg) s
        = Throw (InterpreterError (ReferenceArgumentNotVariable (name param)) line) s)
  /\ (forall eval calleeEnv line param a l s ref e,
        isReference param = true ->
        Env.resolve s (environment s) a = Env.Found ref ->
        environments s !! calleeEnv = Some e ->
        Env.local e (toLowerCase (name param)) = None ->
        exists s1,
          bind_parameter eval calleeEnv line (param, Identifier a l) s = Ok tt s1
          /\ Env.resolve s1 calleeEnv (name param) = Env.Found ref
          /\ Env.resolve s1 (environment s1) a = Env.Found ref
          /\ entries s1 = entries s
          /\ environment s1 = environment s)
  /\ (forall s caller a callee x ref s1,
     Env.resolve s caller a = Env.Found ref ->
     Env.defineReference callee x ref s = Ok tt s1 ->
     Env.resolve s1 callee x = Env.Found ref
     /\ Env.resolve s1 caller a = Env.Found ref
     /\ entries s1 = entries s)
  /\ (forall s e1 n1 e2 n2 ref line,
        Env.resolve s e1 n1 = Env.Found ref ->
        Env.resolve s e2 n2 = Env.Found ref ->
        Env.get e1 n1 line s = Env.get e2 n2 line s
        /\ forall v l s',
             Env.assign e1 n1 v l s = Ok tt s' ->
             Env.get e1 n1 line s' = Ok v s' /\ Env.get e2 n2 line s' = Ok v s')
  /\ (forall extra,
      option_map (fun evs => (last (steps_of evs), displays_of evs))
       (completed (interpret never_stop
          ("Module swap(Ref Integer x, Ref Integer y)
   Declare Integer t
   Set t = x
   Set x = y
   Set y = t
End Module
Module main()
   Declare Integer a = 1, b = 2
   Call swap(a, b)
   Display a, " ++ quoted " " ++ ", b
End Module") [] (20 + extra)))
      = Some (Some (10, [("a"%string, VNumber (num 2)); ("b"%string, VNumber (num 1))]),
              [[VNumber (num 2); VString " "; VNumber (num 1)]])).
Proof.
  split; [|split; [|split; [|split; [|split]]]].
  - intros shouldStop eval exec callee args refs line s Href Hnd Hlen Hres.
    unfold call.
    replace (length (identifiers args)) with (length args)
      by (unfold identifiers; now rewrite length_map).
    rewrite Hlen, Nat.eqb_refl. cbn [negb].
    unfold bind at 1, Env.create.
    set (s0 := set_environments _ s).
    assert (Hlenr : length refs = length args).
    { unfold resolve_all in Hres. apply Forall2_length in Hres.
      rewrite length_map in Hres. lia. }
    destruct (bind_references eval line (environments s) (environment s) (Some globals)
                (callee_parameters callee) args refs [] s0)
      as (s1 & Hrun & He1 & Hen1 & Hc1); try assumption; try reflexivity.
    { unfold resolve_all, Env.resolve in Hres.
      clear -Hres. revert refs Hres. induction args as [|a args IH]; intros refs Hres;
        inversion Hres; subst; constructor; auto. }
    unfold bind at 1. rewrite Hrun.
    exists s1. split; [reflexivity|].
    assert (Hsub : forall i e, environments s !! i = Some e -> environments s1 !! i = Some e).
    { intros i e Hi. rewrite He1. now apply lookup_extended. }
    assert (Hl1 : length (environments s1) = S (length (environments s))).
    { rewrite He1, length_app. simpl. lia. }
    repeat split.
    + unfold resolve_all. apply Forall2_fmap_l.
      pose proof (find_combine
                    (map (fun p => toLowerCase (name p)) (callee_parameters callee))
                    refs [] ltac:(rewrite length_map; lia) Hnd) as Hf.
      cbn [app] in Hf. apply Forall2_fmap_l in Hf.
      eapply Forall2_impl; [exact Hf|]. intros p r Hp. cbn [compose] in *.
      eapply resolve_bound; [exact He1|].
      unfold Env.local. cbn [values app]. now rewrite Hp.
    + rewrite Hc1. unfold resolve_all, Env.resolve in *. rewrite Hl1.
      clear -Hres Hsub. revert refs Hres.
      induction (map fst args) as [|a l IH]; intros refs Hres;
        inversion Hres; subst; constructor; auto.
      eapply walk_extends; [exact Hsub | | eassumption]. lia.
    + exact Hen1.
    + exact Hc1.
  - intros eval calleeEnv line param arg s Hp Harg.
    cbn [bind_parameter]. rewrite Hp.
    destruct arg; try reflexivity. exfalso. eapply Harg. reflexivity.
  - intros. now apply bind_parameter_shares with (e := e).
  - intros s caller a callee x ref s1. apply defineReference_shares.
  - intros s e1 n1 e2 n2 ref line H1 H2. split.
    + unfold Env.get, Env.getEntry, bind. now rewrite H1, H2.
    + intros v l s' Ha.
      pose proof (resolve_after_assign _ _ _ _ _ _ e1 n1 Ha) as R1.
      pose proof (resolve_after_assign _ _ _ _ _ _ e2 n2 Ha) as R2.
      unfold Env.assign in Ha. rewrite H1 in Ha.
      destruct (entries s !! ref) as [existing|] eqn:Ee; [|discriminate].
      destruct (entry_isConstant existing); [discriminate|].
      injection Ha as <-.
      unfold Env.get, Env.getEntry, Env.read_entry, bind.
      rewrite R1, R2, H1, H2. simpl.
      rewrite list_lookup_insert_eq by (eapply lookup_lt_Some; eassumption).
      split; reflexivity.
  - run_with_more_fuel.
Qed.

(** The parts of the statement at concrete states: the call of [swap] on
    [a] and [b]; [x] bound in the callee environment to the entry of the
    caller's [a]; and 7 written through [x]. *)
Lemma by_reference_aliasing_witness :
  (exists s1,
     call never_stop (evaluate never_stop (new_Interpreter []) 9)
       (executeStatementGenerator never_stop (new_Interpreter []) 9)
       swap_module (identifiers [("a"%string, 9); ("b"%string, 9)]) 9 swap_demo
     = block never_stop (executeStatementGenerator never_stop (new_Interpreter []) 9)
         (callee_body swap_module) (length (environments swap_demo)) s1
     /\ resolve_all s1 (length (environments swap_demo))
          (map name (callee_parameters swap_module)) [0; 1]
     /\ resolve_all s1 (environment s1) (map fst [("a"%string, 9); ("b"%string, 9)]) [0; 1]
     /\ entries s1 = entries swap_demo
     /\ environment s1 = environment swap_demo)
  /\ (Env.resolve alias_demo_bound 2 "x" = Env.Found 0
      /\ Env.resolve alias_demo_bound 1 "a" = Env.Found 0
      /\ entries alias_demo_bound = entries alias_demo)
  /\ Env.get 2 "x" 4 alias_demo_written = Ok (VNumber (num 7)) alias_demo_written
  /\ Env.get 1 "a" 4 alias_demo_written = Ok (VNumber (num 7)) alias_demo_written.
Proof.
  pose proof by_reference_aliasing as H.
  destruct H as [Hcall [_ [_ [Hbind [Hshare _]]]]].
  split; [|split].
  - refine (Hcall never_stop _ _ swap_module [("a"%string, 9); ("b"%string, 9)] [0; 1] 9
              swap_demo _ _ _ _).
    + repeat constructor.
    + repeat constructor; simpl; intuition discriminate.
    + reflexivity.
    + repeat constructor.
  - refine (Hbind alias_demo 1 "a"%string 2 "x"%string 0 alias_demo_bound _ _);
      reflexivity.
  - exact (proj2 (Hshare alias_demo_bound 2 "x"%string 1 "a"%string 0 4
                    eq_refl eq_refl)
             (VNumber (num 7)) 3 alias_demo_written eq_refl).
Defined.

End AliasFacts.

(** ** The operators of [evaluate] *)

Module OpsFacts.
Import Text JS Ops Ast Run Interp RunSpec MonadFacts FuelFacts NumFacts.
Local Open Scope monad_scope.

Lemma Qeq_bool_refl (q : Q) : Qeq_bool q q = true.
Proof. apply Qeq_bool_iff. reflexivity. Qed.

Lemma Qeq_bool_num (x y : Z) : Qeq_bool (num x) (num y) = (x =? y)%Z.
Proof.
  unfold Qeq_bool, num. simpl. now rewrite !Z.mul_1_r.
Qed.

(** A safe integer against the decimal spelling of another: they are
    equal exactly when the integers are. *)
Lemma number_equals_spelling (z z' : Z) :
  safe z' ->
  number_equals_string (num z) (decimal z') = PVal (z =? z')%Z.
Proof.
  intros Hz. unfold number_equals_string.
  rewrite (string_to_number_decimal _ Hz). simpl.
  now rewrite Qeq_bool_num.
Qed.

Section Operators.
Variable shouldStop : nat -> bool.
Variable this : Interpreter.

(** A binary expression evaluates its left operand, then its right
    operand, and only then looks at the operator. *)
Lemma evaluate_binary fuel l op r line s :
  evaluate shouldStop this (S fuel) (BinaryExpression l op r line) s
  = (left <- evaluate shouldStop this fuel l ;;
     right <- evaluate shouldStop this fuel r ;;
     binary op left right line) s.
Proof. reflexivity. Qed.

(** C1, as the evaluator has it.  [And] and [Or] evaluate both operands,
    the left one first, whatever its value: an error of the right operand
    is an error of the expression.  When both have a value, [And] yields
    the left one if it is falsy and the right one otherwise, [Or] the left
    one if it is truthy and the right one otherwise; on two booleans this
    is their conjunction and their disjunction. *)
Theorem and_or_evaluate_both_operands :
  (forall fuel l r line s,
     evaluate shouldStop this (S fuel) (BinaryExpression l "and" r line) s
     = (left <- evaluate shouldStop this fuel l ;;
        right <- evaluate shouldStop this fuel r ;;
        ret (and_value left right)) s)
  /\ (forall fuel l r line s,
        evaluate shouldStop this (S fuel) (BinaryExpression l "or" r line) s
        = (left <- evaluate shouldStop this fuel l ;;
           right <- evaluate shouldStop this fuel r ;;
           ret (or_value left right)) s)
  /\ (forall a b,
        and_value (VBool a) (VBool b) = VBool (a && b)
        /\ or_value (VBool a) (VBool b) = VBool (a || b)).
Proof.
  split; [|split].
  - intros. reflexivity.
  - intros. reflexivity.
  - intros [] []; split; reflexivity.
Qed.

(** C10. [==] and [!=] on any two operands: both are evaluated, the left
    one first, and the two values are compared with the host's loose
    equality; [!=] yields the negation of what [==] yields on the same
    operands (and fails when it fails).
    - Two numbers are equal when they are the same number, two strings
      when they are the same string.
    - A number and a string, in either order, are compared as numbers: the
      string is converted to the number that it spells, and a string that
      spells none equals no number.
    - So a safe integer and the decimal spelling of a safe integer are
      equal exactly when the two integers are the same; in particular an
      integer equals its own spelling. *)
Theorem equality_coerces_and_negates :
  (forall fuel l r line s,
     evaluate shouldStop this (S fuel) (BinaryExpression l "==" r line) s
     = (left <- evaluate shouldStop this fuel l ;;
        right <- evaluate shouldStop this fuel r ;;
        b <- lift (loose_eq left right) ;;
        ret (VBool b)) s)
  /\ (forall a b x y,
        loose_eq (VNumber a) (VNumber b) = PVal (Qeq_bool a b)
        /\ loose_eq (VString x) (VString y) = PVal (String.eqb x y))
  /\ (forall a x,
        loose_eq (VString x) (VNumber a) = loose_eq (VNumber a) (VString x)
        /\ loose_eq (VNumber a) (VString x)
           = match string_to_number x with
             | PVal (Some b) => PVal (Qeq_bool a b)
             | PVal None => PVal false
             | POutside => POutside
             end)
  /\ (forall z z',
        safe z' ->
        loose_eq (VNumber (num z)) (VString (decimal z')) = PVal (z =? z')%Z
        /\ loose_eq (VString (decimal z')) (VNumber (num z)) = PVal (z =? z')%Z)
  /\ (forall fuel l r line s,
        evaluate shouldStop this (S fuel) (BinaryExpression l "!=" r line) s
        = match evaluate shouldStop this (S fuel) (BinaryExpression l "==" r line) s with
          | Ok (VBool b) s' => Ok (VBool (negb b)) s'
          | other => other
          end)
  /\ (forall extra,
      option_map displays_of
       (completed (interpret never_stop
          ("Display 1 == " ++ quoted "1" ++ ", 1 != " ++ quoted "1"
           ++ ", 1 == " ++ quoted "2" ++ ", 1 != 2") [] (20 + extra)))
      = Some [[VBool true; VBool false; VBool false; VBool true]]).
Proof.
  split; [|split; [|split; [|split; [|split]]]].
  - intros. reflexivity.
  - intros. split; reflexivity.
  - intros a x. split; [reflexivity|].
    cbn [loose_eq]. unfold number_equals_string, pbind.
    destruct (string_to_number x) as [[b|]|]; reflexivity.
  - intros z z' Hz. split; cbn [loose_eq]; now apply number_equals_spelling.
  - intros fuel l r line s. rewrite !evaluate_binary. unfold bind.
    destruct (evaluate shouldStop this fuel l s) as [lv s1|e s1|h s1]; try reflexivity.
    destruct (evaluate shouldStop this fuel r s1) as [rv s2|e s2|h s2]; try reflexivity.
    change (binary "!=" lv rv line s2)
      with ((b <- lift (loose_neq lv rv) ;; ret (VBool b)) s2).
    change (binary "==" lv rv line s2)
      with ((b <- lift (loose_eq lv rv) ;; ret (VBool b)) s2).
    unfold loose_neq, pbind. destruct (loose_eq lv rv); reflexivity.
  - run_with_more_fuel.
Qed.

End Operators.

(** C1 as stated does not hold.  With a falsy left operand of [And], and
    with a truthy left operand of [Or], the division by zero in the right
    operand is raised; and the value of such an expression need not be a
    boolean: [0 And 1] is [0] and ["x" Or 1] is ["x"]. *)
Lemma and_or_do_not_short_circuit :
  thrown (interpret never_stop
            "Module main()
   Display 1 > 2 And 1 / 0 > 0
End Module" [] 20)
  = Some (InterpreterError DivisionByZero 2)
  /\ thrown (interpret never_stop
               "Module main()
   Display 2 > 1 Or 1 / 0 > 0
End Module" [] 20)
     = Some (InterpreterError DivisionByZero 2)
  /\ option_map displays_of
       (completed (interpret never_stop
          ("Display 0 And 1, " ++ quoted "x" ++ " Or 1") [] 20))
     = Some [[VNumber (num 0); VString "x"]].
Proof. repeat split; vm_compute; reflexivity. Qed.

(** The comparison of 12 with the spellings of 12 and of 13. *)
Lemma equality_coerces_and_negates_witness :
  (loose_eq (VNumber (num 12)) (VString (decimal 12)) = PVal true
   /\ loose_eq (VString (decimal 12)) (VNumber (num 12)) = PVal true)
  /\ (loose_eq (VNumber (num 12)) (VString (decimal 13)) = PVal false
      /\ loose_eq (VString (decimal 13)) (VNumber (num 12)) = PVal false).
Proof.
  pose proof (equality_coerces_and_negates never_stop (new_Interpreter [])) as H.
  destruct H as [_ [_ [_ [Hint _]]]].
  split.
  - refine (Hint 12%Z 12%Z _). vm_compute. intros E. discriminate E.
  - refine (Hint 12%Z 13%Z _). vm_compute. intros E. discriminate E.
Defined.

End OpsFacts.

(** ** Parameters by value *)

Module CallFacts.
Import Text JS Ops Ast Run Interp RunSpec MonadFacts FuelFacts.
Local Open Scope monad_scope.

(** The binding of a by-value parameter with a declared type: the
    argument is evaluated in the caller's environment, and an entry with
    this value, not constant, of the parameter's type, is defined in the
    callee's environment. *)
Lemma bind_typed_parameter (eval : Expression -> M Value) calleeEnv line p arg s :
  isReference p = false ->
  String.eqb (dataType p) "auto" = false ->
  bind_parameter eval calleeEnv line (p, arg) s
  = (argValue <- eval arg ;;
     Env.define calleeEnv (name p) false (dataType p) argValue) s.
Proof.
  intros Hr Ht. unfold bind_parameter. rewrite Hr, Ht.
  apply bind_ext. intros v s1. reflexivity.
Qed.

(** A parameter without declared type takes the type of the caller's
    entry when the argument is an identifier. *)
Lemma bind_auto_parameter_identifier (eval : Expression -> M Value) calleeEnv line p
  argName argLine s :
  isReference p = false ->
  dataType p = "auto"%string ->
  bind_parameter eval calleeEnv line (p, Identifier argName argLine) s
  = (argValue <- eval (Identifier argName argLine) ;;
     env <- current ;;
     ref <- Env.getEntry env argName argLine ;;
     originalEntry <- Env.read_entry ref ;;
     Env.define calleeEnv (name p) false (entry_dataType originalEntry) argValue) s.
Proof.
  intros Hr Ht. unfold bind_parameter. rewrite Hr, Ht. simpl.
  apply bind_ext. intros v s1.
  rewrite !bind_assoc. apply bind_ext. intros env s2.
  rewrite !bind_assoc. apply bind_ext. intros ref s3.
  rewrite !bind_assoc. apply bind_ext. intros en s4. reflexivity.
Qed.

(** With any other argument the binding fails once the argument has been
    evaluated: no entry is defined. *)
Lemma bind_auto_parameter_other (eval : Expression -> M Value) calleeEnv line p arg s v s1 :
  isReference p = false ->
  dataType p = "auto"%string ->
  is_identifier arg = false ->
  eval arg s = Ok v s1 ->
  bind_parameter eval calleeEnv line (p, arg) s = Throw TypeError s1.
Proof.
  intros Hr Ht Hi He. unfold bind_parameter. rewrite Hr, Ht. simpl.
  unfold bind. rewrite He. destruct arg; try reflexivity. discriminate.
Qed.

(** C5 on three programs.  A parameter with a declared type accepts a
    literal, and its entry has the declared type.  A parameter without
    declared type accepts an identifier, and its entry has the type of the
    caller's variable.  A parameter without declared type and a literal
    argument: the call fails with a [TypeError] before the module's body
    runs.  These are the runs with any fuel from 20 on. *)
Theorem by_value_parameters :
  (forall extra,
   option_map (fun s => (displays_of (events s), map entry_dataType (entries s)))
    (match interpret never_stop
             "Module show(Real x)
   Display x
End Module
Module main()
   Call show(5)
End Module" [] (20 + extra) with
     | Ran (Ok _ s) => Some s
     | _ => None
     end)
   = Some ([[VNumber (num 5)]], ["real"%string]))
  /\ (forall extra,
      option_map (fun s => (displays_of (events s), map entry_dataType (entries s)))
       (match interpret never_stop
                "Module show(x)
   Display x
End Module
Module main()
   Declare Integer a = 3
   Call show(a)
End Module" [] (20 + extra) with
        | Ran (Ok _ s) => Some s
        | _ => None
        end)
      = Some ([[VNumber (num 3)]], ["integer"%string; "integer"%string]))
  /\ (forall extra,
      option_map (fun r => (match r with Throw e _ => Some e | _ => None end,
                           displays_of (events (final_state r))))
       (match interpret never_stop
                "Module show(x)
   Display x
End Module
Module main()
   Call show(5)
End Module" [] (20 + extra) with
        | Ran r => Some r
        | _ => None
        end)
      = Some (Some TypeError, [])).
Proof. split; [|split]; run_with_more_fuel. Qed.

End CallFacts.

(** ** The [Input] statement *)

Module InputFacts.
Import Text JS Ops Ast Run Interp RunSpec MonadFacts NumFacts.
Local Open Scope monad_scope.

(** *** The test [/^-?\d+$/] *)

Lemma matches_integer_spec (t : text) :
  BuiltIn.matches_integer t = true <-> integer_text t.
Proof.
  unfold BuiltIn.matches_integer, integer_text. split.
  - intros H. destruct t as [|c r]; [discriminate|].
    destruct (eq_char c "-") eqn:Ec.
    + apply Ascii.eqb_eq in Ec. subst c.
      destruct r as [|d r']; [discriminate|].
      exists ["-"%char], (d :: r').
      split; [reflexivity|]. split; [now right|]. split; [discriminate | exact H].
    + exists [], (c :: r).
      split; [reflexivity|]. split; [now left|]. split; [discriminate | exact H].
  - intros (sign & digits & -> & [-> | ->] & Hne & Hd).
    + destruct digits as [|c r]; [congruence|]. simpl.
      simpl in Hd. apply andb_true_iff in Hd as [Hc Hr].
      destruct (digit_not_sign _ Hc) as [-> _]. simpl. now rewrite Hc.
    + simpl. change (eq_char "-" "-") with true. cbv iota.
      destruct digits; [congruence | exact Hd].
Qed.

Lemma integer_text_no_leading_space t :
  integer_text t -> drop_spaces t = t.
Proof.
  intros (sign & digits & -> & [-> | ->] & Hne & Hd);
    apply FormatterFacts.drop_spaces_stable.
  - destruct digits as [|c r]; [congruence|]. simpl in *.
    apply andb_true_iff in Hd as [Hc _]. now apply digit_not_space.
  - reflexivity.
Qed.

(** [parseInt] reads such a text as the double nearest to the integer
    that it spells: a safe integer as itself. *)
Lemma parseInt_integer_text t :
  integer_text t -> safe (integer_value t) ->
  parseInt t = PVal (Some (num (integer_value t))).
Proof.
  intros Ht. unfold parseInt. rewrite (integer_text_no_leading_space t Ht).
  destruct Ht as (sign & digits & -> & [-> | ->] & Hne & Hd).
  - simpl app. rewrite (read_unsigned _ Hne Hd), (take_digits_all _ Hd).
    destruct digits as [|c r] eqn:E; [congruence|]. rewrite <- E in *.
    unfold integer_value. rewrite E.
    assert (Hc : is_digit c = true).
    { rewrite E in Hd. simpl in Hd. now apply andb_true_iff in Hd as [Hc _]. }
    destruct (digit_not_sign _ Hc) as [-> _]. rewrite <- E.
    intros Hs. fold (num (Z.of_N (digits_value digits))).
    now rewrite (double_num _ Hs).
  - simpl app. cbn [read_sign]. change (eq_char "-" "-") with true. cbv iota.
    rewrite (take_digits_all _ Hd).
    destruct digits as [|c r] eqn:E; [congruence|]. rewrite <- E in *.
    unfold integer_value. change (eq_char "-" "-") with true. cbv iota.
    intros Hs. fold (num (Z.of_N (digits_value digits))).
    rewrite double_num by (unfold safe in *; lia).
    cbn [pbind apply_sign]. unfold neg, num. do 2 f_equal.
    rewrite <- inject_Z_opp. apply Qred_inject_Z.
Qed.

Section Input.
Variable shouldStop : nat -> bool.

Lemma validate_integer raw ty :
  toLowerCase ty = "integer"%string ->
  validateAndParseInput raw ty
  = if BuiltIn.matches_integer (trim (of_string raw))
    then (true, parsed_number (parseInt (trim (of_string raw))))
    else (false, PVal VNull).
Proof.
  intros Hty. unfold validateAndParseInput. rewrite Hty.
  change (String.eqb "integer" "integer") with true. reflexivity.
Qed.



Variables (id : string) (line : nat) (ref : nat) (entry : EnvironmentEntry).
Hypothesis declared_integer : toLowerCase (entry_dataType entry) = "integer"%string.







End Input.



End InputFacts.

(** ** Step points *)

Module DebugFacts.
Import Text JS Ops Ast Run Interp RunSpec MonadFacts FuelFacts.
Local Open Scope monad_scope.

(** Every statement begins with a poll of the stop signal and one step
    point, which carries the statement's line and the variables as they
    are before the statement runs. *)
Lemma statement_yields_first shouldStop this fuel stmt s :
  exists rest : M unit,
    executeStatementGenerator shouldStop this (S fuel) stmt s
    = (checkStopSignal shouldStop ;;; yield_step (stmt_line stmt) ;;; rest) s.
Proof. eexists. cbn [executeStatementGenerator]. reflexivity. Qed.

(** C7. The program of the claim, run to its end under the debugger: the
    host observes four step points and then one displayed line.  The step
    points are those of the four statements of [main], each with the scope
    as it is before its statement runs: empty, [x = 1], [x = 2], [x = 4].
    So once the third statement has been stepped over, the snapshot that
    the debugger shows (the fourth) has [x = 4]; the line displayed is
    4.  This is the run with any fuel from 20 on. *)
Theorem debug_step_count (extra : nat) :
  completed (interpret never_stop
     "Module main()
   Declare Integer x=1
   Set x=x+1
   Set x=x*2
   Display x
End Module" [] (20 + extra))
  = Some [ EStep 2 [];
           EStep 3 [("x"%string, VNumber (num 1))];
           EStep 4 [("x"%string, VNumber (num 2))];
           EStep 5 [("x"%string, VNumber (num 4))];
           EDisplay [VNumber (num 4)] ].
Proof. run_with_more_fuel. Qed.

End DebugFacts.

(** ** What the formatter changes and what it keeps *)

Module FormatterLaws.
Import Text Formatter FormatterSpec FormatterFacts.

Lemma trim_idempotent l : trim (trim l) = trim l.
Proof. apply trim_of_trimmed, trim_trimmed. Qed.

Lemma format_lines_trim k ls : map trim (format_lines k ls) = map trim ls.
Proof.
  revert k. induction ls as [|l ls IH]; intros k; simpl; [reflexivity|].
  pose proof (trim_trimmed l) as Ht.
  destruct (trim l) as [|c t] eqn:E.
  - simpl. now rewrite IH.
  - cbv zeta. cbn [map]. rewrite IH. f_equal.
    apply trim_blank_app; [apply blank_repeat_indent | exact Ht].
Qed.

Lemma format_lines_of_trimmed k ls : format_lines k (map trim ls) = format_lines k ls.
Proof.
  revert k. induction ls as [|l ls IH]; intros k; simpl; [reflexivity|].
  rewrite trim_idempotent.
  destruct (trim l) as [|c t]; simpl; now rewrite IH.
Qed.

Lemma split_format_text code :
  split_lines (format_text code) = format_lines 0 (split_lines code).
Proof.
  unfold format_text. apply split_join_lines.
  - intros E. apply (f_equal (@length _)) in E.
    rewrite format_lines_length in E.
    pose proof (split_lines_nonempty code).
    destruct (split_lines code); [congruence | discriminate].
  - apply format_lines_no_newline, split_lines_no_newline.
Qed.

Lemma lines_of_formatCode P :
  split_lines (of_string (formatCode P)) = format_lines 0 (split_lines (of_string P)).
Proof.
  unfold formatCode, of_string, to_string.
  rewrite list_ascii_of_string_of_list_ascii. apply split_format_text.
Qed.

Lemma format_lines_shape k ls :
  Forall (fun l => l = [] \/ exists n t, l = repeat_text INDENTATION n ++ t
                                         /\ t <> [] /\ trimmed t)
         (format_lines k ls).
Proof.
  revert k. induction ls as [|l ls IH]; intros k; simpl; [constructor|].
  pose proof (trim_trimmed l) as Ht.
  destruct (trim l) as [|c t] eqn:E.
  - constructor; [now left | apply IH].
  - constructor; [|apply IH].
    right. eexists _, (c :: t). repeat split; [discriminate | apply Ht..].
Qed.

(** X1. The formatter only touches the white space at the two ends of
    each line: the formatted text has as many lines as the source, and
    line by line the same content once both are trimmed. *)
Theorem formatCode_keeps_lines (P : string) :
  map trim (split_lines (of_string (formatCode P)))
  = map trim (split_lines (of_string P)).
Proof. rewrite lines_of_formatCode. apply format_lines_trim. Qed.

(** X2. The indentation that the source already has plays no part: two
    sources whose lines have the same trimmed content are formatted to the
    same text. *)
Theorem formatCode_ignores_indentation (P Q : string) :
  map trim (split_lines (of_string P)) = map trim (split_lines (of_string Q)) ->
  formatCode P = formatCode Q.
Proof.
  intros H. unfold formatCode, format_text.
  now rewrite <- (format_lines_of_trimmed 0 (split_lines (of_string P))), H,
    format_lines_of_trimmed.
Qed.

Lemma formatCode_ignores_indentation_witness :
  map trim (split_lines (of_string "  While x < 3
Set x = x + 1
     End While"))
  = map trim (split_lines (of_string "While x < 3
         Set x = x + 1	
End While"))
  /\ formatCode "  While x < 3
Set x = x + 1
     End While"
     = formatCode "While x < 3
         Set x = x + 1	
End While".
Proof.
  split; [vm_compute; reflexivity|].
  apply formatCode_ignores_indentation. vm_compute. reflexivity.
Defined.

(** X3. Every line of a formatted text is empty, or a whole number of
    three-space indentations followed by a non-empty content that neither
    starts nor ends with white space. *)
Theorem formatCode_line_shape (P : string) :
  Forall (fun l => l = [] \/ exists n t, l = repeat_text INDENTATION n ++ t
                                         /\ t <> [] /\ trimmed t)
         (split_lines (of_string (formatCode P))).
Proof. rewrite lines_of_formatCode. apply format_lines_shape. Qed.

End FormatterLaws.

(** ** Line numbers of tokens *)

Module LexerLines.
Import Text Types Lexer FormatterSpec LexerSpec LineSpec LexerFacts.

Lemma newlines_app a b : newlines (a ++ b) = newlines a + newlines b.
Proof. unfold newlines. now rewrite List.filter_app, length_app. Qed.

Lemma ascending_weaken lo lo' l hi hi' :
  lo' <= lo -> hi <= hi' -> ascending lo l hi -> ascending lo' l hi'.
Proof.
  revert lo lo'. induction l as [|x l IH]; simpl; intros lo lo' H1 H2.
  - lia.
  - intros [Hx Hl]. split; [lia|]. now apply (IH x x).
Qed.

Lemma ascending_app_same line toks l hi :
  Forall (fun t => lineNumber t = line) toks ->
  ascending line l hi ->
  ascending line (map lineNumber toks ++ l) hi.
Proof.
  induction 1 as [|t toks Ht _ IH]; simpl; [auto|].
  intros H. rewrite Ht. split; [lia | now apply IH].
Qed.

(** One turn of the loop, with the lines: the tokens pushed carry the
    current line, and the line moves on by at most the newlines
    consumed. *)
Lemma scan_turn_lines fuel char r line tokens :
  (exists message l, scan (S fuel) (char :: r) line tokens = LexError message l)
  \/ (exists m rest line' toks,
        char :: r = m ++ rest
        /\ scan (S fuel) (char :: r) line tokens = scan fuel rest line' (tokens ++ toks)
        /\ Forall (fun t => lineNumber t = line) toks
        /\ line <= line' <= line + newlines m).
Proof.
  cbn [scan].
  destruct (is_space char) eqn:Hsp.
  { right. exists [char], r. eexists. exists [].
    repeat split; [now rewrite app_nil_r | constructor | ..];
      unfold newlines; simpl; destruct (eq_char char newline); simpl; lia. }
  destruct (eq_char char "/"%char
            && match r with c :: _ => eq_char c "/"%char | [] => false end) eqn:Hcom.
  { right. destruct (consumeComment_split (char :: r)) as [m [Hm _]].
    exists m, (consumeComment (char :: r)), line, [].
    repeat split; [exact Hm | now rewrite app_nil_r | constructor | lia | lia]. }
  destruct (matchKeywords SORTED_KEYWORDS (char :: r)) as [[[kw ty] rest]|] eqn:Hkw.
  { right. apply matchKeywords_split in Hkw as [_ [m [Hm _]]].
    exists m, rest, line, [mkToken ty kw line].
    repeat split; [exact Hm | repeat constructor | lia | lia]. }
  destruct (eq_char char dquote) eqn:Hq.
  { destruct (consumeString r) as [[v rest]|] eqn:Hs.
    - right. apply consumeString_split in Hs.
      exists (char :: v ++ [dquote]), rest, line, [mkToken STRING (to_string v) line].
      repeat split; [|repeat constructor | lia | lia].
      simpl. rewrite <- app_assoc. simpl. now f_equal.
    - left. eexists _, _. reflexivity. }
  destruct (is_digit char) eqn:Hd.
  { right. destruct (consumeNumber (char :: r)) as [v rest] eqn:Hn.
    exists v, rest, line, [mkToken NUMBER (to_string v) line].
    repeat split; [now apply span_split in Hn | repeat constructor | lia | lia]. }
  destruct (is_alpha char) eqn:Ha.
  { right. destruct (consumeIdentifier (char :: r)) as [v rest] eqn:Hn.
    exists v, rest, line, [mkToken IDENTIFIER (to_string v) line].
    repeat split; [now apply span_split in Hn | repeat constructor | lia | lia]. }
  destruct (matchOperator SORTED_OPERATORS (char :: r)) as [[[op ty] rest]|] eqn:Hop.
  { right. apply matchOperator_split in Hop as [_ Hs].
    exists (of_string op), rest, line, [mkToken ty op line].
    repeat split; [exact Hs | repeat constructor | lia | lia]. }
  left. eexists _, _. reflexivity.
Qed.

Lemma scan_lines fuel s line tokens result :
  scan fuel s line tokens = LexOk result ->
  exists new,
    result = tokens ++ new
    /\ ascending line (map lineNumber new) (line + newlines s).
Proof.
  revert s line tokens.
  induction fuel as [|fuel IH]; intros s line tokens; [discriminate|].
  destruct s as [|char r].
  - simpl. intros [= <-]. eexists. split; [reflexivity|]. simpl. lia.
  - destruct (scan_turn_lines fuel char r line tokens)
      as [(message & l & ->) | (m & rest & line' & toks & Hs & -> & Hall & Hline)];
      [discriminate|].
    intros H. apply IH in H as (new & -> & Hasc).
    exists (toks ++ new). split; [now rewrite app_assoc|].
    rewrite map_app. apply ascending_app_same; [exact Hall|].
    rewrite Hs, newlines_app.
    eapply ascending_weaken; [| |exact Hasc]; lia.
Qed.

(** X4. The line numbers of the tokens of a source never decrease along
    the token sequence; the first is at least 1 and the last, that of the
    end marker, at most one more than the number of newlines of the
    source. *)
Theorem token_lines_ascend (input : string) (tokens : list Token) :
  tokenize input = LexOk tokens ->
  ascending 1 (map lineNumber tokens) (1 + newlines (of_string input)).
Proof.
  unfold tokenize, tokenize_text. intros H.
  apply scan_lines in H as (new & -> & Hasc). exact Hasc.
Qed.

Lemma token_lines_ascend_witness :
  tokenize "Declare Integer x
Set x = 2 // two
Display x" = LexOk
    [ mkToken DECLARE "declare" 1; mkToken INTEGER_TYPE "integer" 1;
      mkToken IDENTIFIER "x" 1; mkToken SET "set" 2; mkToken IDENTIFIER "x" 2;
      mkToken ASSIGN "=" 2; mkToken NUMBER "2" 2; mkToken DISPLAY "display" 3;
      mkToken IDENTIFIER "x" 3; mkToken EOF "" 3 ]
  /\ ascending 1 [1; 1; 1; 2; 2; 2; 2; 3; 3; 3] 3.
Proof.
  split; [vm_compute; reflexivity|].
  exact (token_lines_ascend "Declare Integer x
Set x = 2 // two
Display x" _ eq_refl).
Defined.

(** *** Keywords are reserved *)

Lemma word_char_folds c :
  is_word c = true ->
  is_space (lower_char c) = false /\ eq_char_ci (lower_char c) c = true.
Proof.
  destruct c as [[] [] [] [] [] [] [] []]; vm_compute; intros H;
    try discriminate; split; reflexivity.
Qed.

Lemma match_keyword_chars_word v rest :
  forallb is_word v = true ->
  match_keyword_chars (map lower_char v) (v ++ rest) = Some rest.
Proof.
  induction v as [|c v IH]; simpl; [reflexivity|].
  intros H. apply andb_true_iff in H as [Hc Hv].
  destruct (word_char_folds c Hc) as [-> ->]. now apply IH.
Qed.

Lemma span_word s v rest :
  span is_word s = (v, rest) ->
  forallb is_word v = true /\ s = v ++ rest /\ at_word_end rest = true.
Proof.
  revert v rest. induction s as [|c s IH]; intros v rest; simpl.
  - intros [= <- <-]. auto.
  - destruct (is_word c) eqn:Hc.
    + destruct (span is_word s) as [v' rest']. intros [= <- <-].
      destruct (IH v' rest' eq_refl) as (Hv & -> & Hr).
      simpl. rewrite Hc. auto.
    + intros [= <- <-]. simpl. rewrite Hc. auto.
Qed.

Lemma matchKeywords_none kws s kw ty :
  matchKeywords kws s = None -> In (kw, ty) kws -> matchKeyword kw s = None.
Proof.
  induction kws as [|[k t] kws IH]; simpl; [tauto|].
  destruct (matchKeyword k s) eqn:E; [discriminate|].
  intros H [[= <- <-] | Hin]; auto.
Qed.

Lemma keywords_sorted kw ty : In (kw, ty) KEYWORDS -> In (kw, ty) SORTED_KEYWORDS.
Proof.
  assert (H : Forall (fun x => In x SORTED_KEYWORDS) KEYWORDS).
  { vm_compute. repeat (constructor; [repeat (first [left; reflexivity | right])|]).
    constructor. }
  intros Hin. exact (proj1 (List.Forall_forall _ _) H _ Hin).
Qed.

Lemma keyword_types kw ty : In (kw, ty) SORTED_KEYWORDS -> ty <> IDENTIFIER.
Proof.
  assert (H : Forall (fun x => snd x <> IDENTIFIER) SORTED_KEYWORDS).
  { vm_compute. repeat (constructor; [discriminate|]). constructor. }
  intros Hin. exact (proj1 (List.Forall_forall _ _) H _ Hin).
Qed.

Lemma operator_types op ty : In (op, ty) SORTED_OPERATORS -> ty <> IDENTIFIER.
Proof.
  assert (H : Forall (fun x => snd x <> IDENTIFIER) SORTED_OPERATORS).
  { vm_compute. repeat (constructor; [discriminate|]). constructor. }
  intros Hin. exact (proj1 (List.Forall_forall _ _) H _ Hin).
Qed.

(** Where no keyword matches, the word ahead is none. *)
Lemma identifier_no_keyword s v rest line :
  matchKeywords SORTED_KEYWORDS s = None ->
  consumeIdentifier s = (v, rest) ->
  no_keyword (mkToken IDENTIFIER (to_string v) line).
Proof.
  intros Hkw Hspan _ ty Hin. simpl in Hin.
  apply span_word in Hspan as (Hv & -> & Hend).
  apply keywords_sorted in Hin.
  pose proof (matchKeywords_none _ _ _ _ Hkw Hin) as Hnone.
  unfold matchKeyword, toLowerCase, of_string, to_string in Hnone.
  rewrite !list_ascii_of_string_of_list_ascii in Hnone.
  rewrite (match_keyword_chars_word v rest Hv), Hend in Hnone. discriminate.
Qed.

Lemma scan_turn_tokens fuel char r line tokens :
  (exists message l, scan (S fuel) (char :: r) line tokens = LexError message l)
  \/ (exists rest line' toks,
        scan (S fuel) (char :: r) line tokens = scan fuel rest line' (tokens ++ toks)
        /\ Forall no_keyword toks).
Proof.
  cbn [scan].
  destruct (is_space char).
  { right. exists r. eexists. exists []. rewrite app_nil_r. split; [reflexivity | constructor]. }
  destruct (eq_char char "/"%char
            && match r with c :: _ => eq_char c "/"%char | [] => false end).
  { right. eexists _, _, []. rewrite app_nil_r. split; [reflexivity | constructor]. }
  destruct (matchKeywords SORTED_KEYWORDS (char :: r)) as [[[kw ty] rest]|] eqn:Hkw.
  { right. apply matchKeywords_split in Hkw as [Hin _].
    eexists _, _, [_]. split; [reflexivity|].
    repeat constructor. intros Hty. simpl in Hty. now apply keyword_types in Hin. }
  destruct (eq_char char dquote).
  { destruct (consumeString r) as [[v rest]|].
    - right. eexists _, _, [_]. split; [reflexivity|].
      repeat constructor. intros Hty. discriminate.
    - left. eexists _, _. reflexivity. }
  destruct (is_digit char).
  { right. destruct (consumeNumber (char :: r)) as [v rest].
    eexists _, _, [_]. split; [reflexivity|].
    repeat constructor. intros Hty. discriminate. }
  destruct (is_alpha char).
  { right. destruct (consumeIdentifier (char :: r)) as [v rest] eqn:Hn.
    eexists _, _, [_]. split; [reflexivity|].
    repeat constructor. eapply identifier_no_keyword; eassumption. }
  destruct (matchOperator SORTED_OPERATORS (char :: r)) as [[[op ty] rest]|] eqn:Hop.
  { right. apply matchOperator_split in Hop as [Hin _].
    eexists _, _, [_]. split; [reflexivity|].
    repeat constructor. intros Hty. simpl in Hty. now apply operator_types in Hin. }
  left. eexists _, _. reflexivity.
Qed.

Lemma scan_no_keyword fuel s line tokens result :
  scan fuel s line tokens = LexOk result ->
  Forall no_keyword tokens -> Forall no_keyword result.
Proof.
  revert s line tokens.
  induction fuel as [|fuel IH]; intros s line tokens; [discriminate|].
  destruct s as [|char r].
  - simpl. intros [= <-] H. apply Forall_app. split; [exact H|].
    repeat constructor. intros Hty. discriminate.
  - destruct (scan_turn_tokens fuel char r line tokens)
      as [(message & l & ->) | (rest & line' & toks & -> & Hall)]; [discriminate|].
    intros H Htok. eapply IH; [exact H|]. apply Forall_app. now split.
Qed.

(** X5. Keywords are reserved in every letter case: no identifier among
    the tokens of a source spells, once lower-cased, a keyword of the
    language. *)
Theorem identifiers_are_not_keywords (input : string) (tokens : list Token) :
  tokenize input = LexOk tokens ->
  forall t ty,
    In t tokens -> type t = IDENTIFIER ->
    ~ In (toLowerCase (value t), ty) KEYWORDS.
Proof.
  unfold tokenize, tokenize_text. intros H t ty Hin Hty.
  pose proof (scan_no_keyword _ _ _ _ _ H (List.Forall_nil _)) as Hall.
  exact (proj1 (List.Forall_forall _ _) Hall t Hin Hty ty).
Qed.

Lemma identifiers_are_not_keywords_witness :
  tokenize "Set iffy = TOtal" = LexOk
    [ mkToken SET "set" 1; mkToken IDENTIFIER "iffy" 1; mkToken ASSIGN "=" 1;
      mkToken IDENTIFIER "TOtal" 1; mkToken EOF "" 1 ]
  /\ ~ In (toLowerCase "TOtal", TO) KEYWORDS.
Proof.
  split; [vm_compute; reflexivity|].
  refine (identifiers_are_not_keywords "Set iffy = TOtal" _ eq_refl
            (mkToken IDENTIFIER "TOtal" 1) TO _ eq_refl).
  simpl. tauto.
Defined.

End LexerLines.

(** ** Declaring and looking up variables ([Environment]) *)

Module EnvLaws.
Import Text JS Ops Ast Run Interp RunSpec ScopeSpec AliasFacts.
Local Open Scope monad_scope.

Lemma local_add_binding_other e k ref n :
  k <> n -> Env.local (Env.add_binding k ref e) n = Env.local e n.
Proof.
  intros Hne. destruct (Env.local e n) as [r|] eqn:El.
  - now apply local_add_binding_old.
  - rewrite (local_add_binding_new _ _ _ _ El).
    destruct (String.eqb_spec k n); [contradiction | reflexivity].
Qed.

(** A new binding changes the meaning of no other name. *)
Lemma walk_insert_other depth (envs : list Environment) inner e k ref c n :
  envs !! inner = Some e -> k <> n ->
  Env.walk depth (<[inner := Env.add_binding k ref e]> envs) c n
  = Env.walk depth envs c n.
Proof.
  intros He Hne. revert c. induction depth as [|depth IH]; intros c; simpl; [reflexivity|].
  destruct (decide (inner = c)) as [<-|Hc].
  - rewrite He, list_lookup_insert_eq by (eapply lookup_lt_Some; eassumption).
    rewrite (local_add_binding_other _ _ _ _ Hne).
    destruct (Env.local e n); [reflexivity|].
    simpl. destruct (enclosing e); [apply IH | reflexivity].
  - rewrite list_lookup_insert_ne by assumption.
    destruct (envs !! c) as [ec|]; [|reflexivity].
    destruct (Env.local ec n); [reflexivity|].
    destruct (enclosing ec); [apply IH | reflexivity].
Qed.

(** A change to an environment is not seen from those created before
    it. *)
Lemma walk_insert_newer depth (envs : list Environment) inner x c n :
  (forall i e o, envs !! i = Some e -> enclosing e = Some o -> o < i) ->
  c < inner ->
  Env.walk depth (<[inner := x]> envs) c n = Env.walk depth envs c n.
Proof.
  intros Hwf. revert c. induction depth as [|depth IH]; intros c Hc; simpl; [reflexivity|].
  rewrite list_lookup_insert_ne by lia.
  destruct (envs !! c) as [ec|] eqn:Ec; [|reflexivity].
  destruct (Env.local ec n); [reflexivity|].
  destruct (enclosing ec) as [o|] eqn:Eo; [|reflexivity].
  apply IH. specialize (Hwf c ec o Ec Eo). lia.
Qed.

Lemma define_inv env name isConstant dataType value s s1 :
  Env.define env name isConstant dataType value s = Ok tt s1 ->
  exists e,
    environments s !! env = Some e
    /\ Env.local e (toLowerCase name) = None
    /\ s1 = set_environments
              (fun es => <[env := Env.add_binding (toLowerCase name) (length (entries s)) e]> es)
              (set_entries
                 (fun l => l ++ [Env.new_entry name isConstant dataType value]) s).
Proof.
  unfold Env.define.
  destruct (environments s !! env) as [e|]; [|discriminate].
  destruct (Env.local e (toLowerCase name)) eqn:El; [discriminate|].
  intros [= <-]. now exists e.
Qed.

(** X6. A variable that has just been declared reads as the value it was
    declared with, under every spelling of its name that differs only in
    the case of letters. *)
Theorem define_then_get env name name' isConstant dataType value line s s1 :
  Env.define env name isConstant dataType value s = Ok tt s1 ->
  same_name name' name ->
  Env.get env name' line s1 = Ok value s1.
Proof.
  intros Hdef Hsame.
  apply define_inv in Hdef as (e & He & El & ->).
  pose proof (lookup_lt_Some _ _ _ He) as Hlt.
  unfold Env.get, Env.getEntry, Env.resolve, Env.read_entry, bind, ret. simpl.
  rewrite length_insert, Hsame.
  destruct (length (environments s)) as [|d] eqn:Hd; [lia|].
  simpl. rewrite list_lookup_insert_eq by lia.
  rewrite (local_add_binding_new _ _ _ _ El), String.eqb_refl.
  cbn [entries set_environments set_entries].
  rewrite lookup_app_r by lia. now rewrite Nat.sub_diag.
Qed.

Lemma define_then_get_witness :
  Env.get 1 "X" 7
    (final_state (Env.define 1 "x" false "real" (VNumber (num 5)) shadow_demo))
  = Ok (VNumber (num 5))
      (final_state (Env.define 1 "x" false "real" (VNumber (num 5)) shadow_demo)).
Proof.
  apply (define_then_get 1 "x" "X" false "real" (VNumber (num 5)) 7 shadow_demo);
    reflexivity.
Defined.

(** X7. A name can be declared once in an environment: a second
    declaration under any spelling of the name fails with an error and
    changes nothing, whatever the kind, type and value declared. *)
Theorem define_twice_fails env name name' c t v c' t' v' s s1 :
  Env.define env name c t v s = Ok tt s1 ->
  same_name name' name ->
  Env.define env name' c' t' v' s1 = Throw (Error (AlreadyDefined name')) s1.
Proof.
  intros Hdef Hsame.
  apply define_inv in Hdef as (e & He & El & ->).
  pose proof (lookup_lt_Some _ _ _ He) as Hlt.
  unfold Env.define. simpl.
  rewrite list_lookup_insert_eq by lia.
  now rewrite Hsame, (local_add_binding_new _ _ _ _ El), String.eqb_refl.
Qed.

Lemma define_twice_fails_witness :
  Env.define 1 "Total" true "integer" (VNumber (num 0))
    (final_state (Env.define 1 "total" false "real" (VNumber (num 5)) shadow_demo))
  = Throw (Error (AlreadyDefined "Total"))
      (final_state (Env.define 1 "total" false "real" (VNumber (num 5)) shadow_demo)).
Proof.
  apply (define_twice_fails 1 "total" "Total" false "real" (VNumber (num 5))
           true "integer" (VNumber (num 0)) shadow_demo);
    reflexivity.
Defined.

(** X8. A declaration is local.  It changes the meaning of no other
    name, in any environment; seen from the environments created before
    the one it is made in (its enclosing ones among them) every name,
    the declared one included, means what it meant: an outer variable of
    the same name is shadowed, not overwritten; and no entry that existed
    is changed. *)
Theorem define_is_local inner name isConstant dataType value s s1 :
  well_scoped s ->
  Env.define inner name isConstant dataType value s = Ok tt s1 ->
  (forall env n, ~ same_name n name -> Env.resolve s1 env n = Env.resolve s env n)
  /\ (forall env n, env < inner -> Env.resolve s1 env n = Env.resolve s env n)
  /\ (forall ref en, entries s !! ref = Some en -> entries s1 !! ref = Some en)
  /\ well_scoped s1.
Proof.
  intros Hwf Hdef.
  apply define_inv in Hdef as (e & He & El & ->).
  repeat split.
  - intros env n Hn. unfold Env.resolve. simpl. rewrite length_insert.
    apply walk_insert_other; [exact He|]. intros E. apply Hn.
    unfold same_name. now rewrite E.
  - intros env n Hlt. unfold Env.resolve. simpl. rewrite length_insert.
    now apply walk_insert_newer.
  - intros ref en Hen. simpl. apply lookup_app_l_Some. exact Hen.
  - intros i ei o. simpl.
    destruct (decide (inner = i)) as [<-|Hi].
    + rewrite list_lookup_insert_eq by (eapply lookup_lt_Some; eassumption).
      intros [= <-]. simpl. now apply Hwf.
    + rewrite list_lookup_insert_ne by assumption. apply Hwf.
Qed.

Lemma define_is_local_witness :
  Env.resolve
    (final_state (Env.define 1 "X" false "real" (VNumber (num 5)) shadow_demo)) 0 "x"
  = Env.Found 0
  /\ Env.resolve
       (final_state (Env.define 1 "X" false "real" (VNumber (num 5)) shadow_demo)) 1 "x"
     = Env.Found 1.
Proof.
  assert (Hwf : well_scoped shadow_demo).
  { intros i e o Hi Ho.
    destruct i as [|[|i]]; cbn in Hi; try discriminate;
      injection Hi as <-; cbn in Ho; try discriminate.
    injection Ho as <-. lia. }
  split; [|reflexivity].
  exact (proj1 (proj2 (define_is_local 1 "X" false "real" (VNumber (num 5))
                         shadow_demo _ Hwf eq_refl)) 0 "x"%string (Nat.lt_0_1)).
Defined.

End EnvLaws.

(** ** Invariants of a run

    A relation between the state before and the state after that every
    primitive of the evaluator respects is respected by every expression
    and every statement. *)

Module InvariantFacts.
Import Text JS Ops Ast Run Interp RunSpec InvariantSpec.
Local Open Scope monad_scope.

Section Combinators.
Variable R : State -> State -> Prop.
Variable allowed : Exn -> Prop.
Hypothesis R_refl : forall s, R s s.
Hypothesis R_trans : forall s1 s2 s3, R s1 s2 -> R s2 s3 -> R s1 s3.

Lemma sat_ret {A} (a : A) : sat R allowed (ret a).
Proof. intros s. apply R_refl. Qed.

Lemma sat_throw {A} e : allowed e -> sat R allowed (@throw A e).
Proof. intros He s. split; [apply R_refl | exact He]. Qed.

Lemma sat_halt {A} h : sat R allowed (@halt A h).
Proof. intros s. exact I. Qed.

Lemma sat_lift {A} (p : Pure A) : sat R allowed (lift p).
Proof. destruct p; [apply sat_ret | apply sat_halt]. Qed.

Lemma sat_bind {A B} (m : M A) (k : A -> M B) :
  sat R allowed m -> (forall a, sat R allowed (k a)) -> sat R allowed (bind m k).
Proof.
  intros Hm Hk s. unfold bind. specialize (Hm s).
  destruct (m s) as [a s1|e s1|h s1]; auto.
  specialize (Hk a s1). destruct (k a s1) as [b s2|e s2|h s2]; [|destruct Hk|]; eauto.
Qed.

Lemma sat_for_each {A} (f : A -> M unit) l :
  (forall x, sat R allowed (f x)) -> sat R allowed (for_each f l).
Proof.
  intros H. induction l; simpl; [apply sat_ret|].
  apply sat_bind; auto.
Qed.

Lemma sat_map_m {A B} (f : A -> M B) l :
  (forall x, sat R allowed (f x)) -> sat R allowed (map_m f l).
Proof.
  intros H. induction l; simpl; [apply sat_ret|].
  apply sat_bind; [apply H|]. intros b. apply sat_bind; [exact IHl|].
  intros bs. apply sat_ret.
Qed.

Lemma sat_try_finally {A} (m : M A) f :
  (forall s, R s (f s)) -> sat R allowed m -> sat R allowed (try_finally m f).
Proof.
  intros Hf Hm s. unfold try_finally. specialize (Hm s).
  destruct (m s) as [a s1|e s1|h s1]; [|destruct Hm|]; eauto.
Qed.

Lemma sat_reader {A} (m : M A) :
  (forall e, e <> ProgramStoppedError -> allowed e) -> reads m -> sat R allowed m.
Proof.
  intros Ha H s. specialize (H s).
  destruct (m s) as [a s1|e s1|h s1]; [subst; apply R_refl | | exact I].
  destruct H as [-> He]. split; [apply R_refl | now apply Ha].
Qed.

Lemma sat_all_settled eval es :
  (forall e, sat R allowed (eval e)) -> sat R allowed (all_settled eval es).
Proof.
  intros He. induction es as [|e es IH]; simpl; [apply sat_ret|].
  intros s. specialize (He e s). destruct (eval e s) as [v s1|x s1|h s1]; auto.
  - specialize (IH s1).
    destruct (all_settled eval es s1) as [vs s2|x s2|h s2]; [|destruct IH|]; eauto.
  - destruct (others eval es s1); simpl; auto.
Qed.

Lemma sat_promise_all eval es :
  (forall e, sat R allowed (eval e)) -> sat R allowed (promise_all eval es).
Proof.
  intros He. unfold promise_all.
  destruct es as [|e [|e' es]]; try (apply sat_map_m; exact He).
  destruct (existsb _ _); [apply sat_halt | now apply sat_all_settled].
Qed.

End Combinators.

Lemma sat_weaken {A} (R R' : State -> State -> Prop) allowed (m : M A) :
  (forall s s', R s s' -> R' s s') -> sat R allowed m -> sat R' allowed m.
Proof.
  intros H Hm s. specialize (Hm s).
  destruct (m s) as [a s1|e s1|h s1]; [|destruct Hm|]; auto.
Qed.

(** *** Computations that only read the state *)

Lemma reads_ret {A} (a : A) : reads (ret a).
Proof. intros s. reflexivity. Qed.

Lemma reads_throw {A} e : e <> ProgramStoppedError -> reads (@throw A e).
Proof. intros He s. now split. Qed.

Lemma reads_halt {A} h : reads (@halt A h).
Proof. intros s. exact I. Qed.

Lemma reads_lift {A} (p : Pure A) : reads (lift p).
Proof. destruct p; [apply reads_ret | apply reads_halt]. Qed.

Lemma reads_bind {A B} (m : M A) (k : A -> M B) :
  reads m -> (forall a, reads (k a)) -> reads (bind m k).
Proof.
  intros Hm Hk s. unfold bind. specialize (Hm s).
  destruct (m s) as [a s1|e s1|h s1]; auto.
  subst s1. apply Hk.
Qed.

Lemma reads_current : reads current.
Proof. intros s. reflexivity. Qed.

Lemma reads_getEntry e n l : reads (Env.getEntry e n l).
Proof.
  intros s. unfold Env.getEntry.
  destruct (Env.resolve s e n); simpl; auto.
Qed.

Lemma reads_read_entry r : reads (Env.read_entry r).
Proof. intros s. unfold Env.read_entry. destruct (entries s !! r); simpl; auto. Qed.

Lemma reads_get e n l : reads (Env.get e n l).
Proof.
  unfold Env.get. apply reads_bind; [apply reads_getEntry|]. intros r.
  apply reads_bind; [apply reads_read_entry|]. intros x. apply reads_ret.
Qed.

Lemma reads_read_array r : reads (read_array r).
Proof. intros s. unfold read_array. destruct (arrays s !! r); simpl; auto. Qed.

Lemma reads_check_access a i l : reads (check_access a i l).
Proof.
  unfold check_access. destruct a; try (apply reads_throw; discriminate).
  apply reads_bind; [apply reads_read_array|]. intros x.
  destruct (valid_index i (length x)); [apply reads_ret | apply reads_throw; discriminate].
Qed.

Lemma reads_binary op l r line : reads (binary op l r line).
Proof.
  unfold binary.
  repeat match goal with
  | |- reads (if ?b then _ else _) => destruct b
  | |- reads (match ?v with _ => _ end) => destruct v
  | |- reads (bind _ _) => apply reads_bind; [|intros ?]
  | |- reads (lift _) => apply reads_lift
  | |- reads (ret _) => apply reads_ret
  | |- reads (throw _) => apply reads_throw; discriminate
  end.
Qed.

Lemma reads_unary op r line : reads (unary op r line).
Proof.
  unfold unary.
  repeat match goal with
  | |- reads (if ?b then _ else _) => destruct b
  | |- reads (lift _) => apply reads_lift
  | |- reads (ret _) => apply reads_ret
  | |- reads (throw _) => apply reads_throw; discriminate
  end.
Qed.

(** *** The evaluator *)

Section Evaluator.
Variables Re Rs : State -> State -> Prop.
Variable allowed : Exn -> Prop.
Variable shouldStop : nat -> bool.

Hypothesis Re_refl : forall s, Re s s.
Hypothesis Re_trans : forall s1 s2 s3, Re s1 s2 -> Re s2 s3 -> Re s1 s3.
Hypothesis Rs_refl : forall s, Rs s s.
Hypothesis Rs_trans : forall s1 s2 s3, Rs s1 s2 -> Rs s2 s3 -> Rs s1 s3.
Hypothesis Re_Rs : forall s s', Re s s' -> Rs s s'.

Hypothesis allowed_other : forall e, e <> ProgramStoppedError -> allowed e.
Hypothesis allowed_stop :
  forall s, shouldStop (polls s) = true -> allowed ProgramStoppedError.

(** What expressions do to the state. *)
Hypothesis Re_new_array : forall a s, Re s (set_arrays (fun l => l ++ [a]) s).
Hypothesis Re_call_function :
  forall (body : M unit) name line,
    sat Rs allowed body -> sat Re allowed (call_function body name line).

(** What statements do in addition. *)
Hypothesis Rs_poll : forall s, Rs s (set_polls (S (polls s)) s).
Hypothesis Rs_yield_step : forall line, sat Rs allowed (yield_step line).
Hypothesis Rs_display : forall vs s, Rs s (add_event (EDisplay vs) s).
Hypothesis Rs_input :
  forall prompt s, Rs s (set_inputs (tl (inputs s)) (add_event (EInput prompt) s)).
Hypothesis Rs_create :
  forall o s, Rs s (set_environments (fun es => es ++ [mkEnvironment [] o]) s).
Hypothesis Rs_define :
  forall env name c t v s s', Env.define env name c t v s = Ok tt s' -> Rs s s'.
Hypothesis Rs_defineReference :
  forall env name ref s s', Env.defineReference env name ref s = Ok tt s' -> Rs s s'.
Hypothesis Rs_assign :
  forall env name v line s s', Env.assign env name v line s = Ok tt s' -> Rs s s'.
Hypothesis Rs_write_array :
  forall ref index v s s', write_array ref index v s = Ok tt s' -> Rs s s'.
Hypothesis Rs_switch : forall e s, Rs s (set_environment e s).

Local Abbreviation sat_e := (sat Re allowed).
Local Abbreviation sat_s := (sat Rs allowed).

Lemma sats_of_reads {A} (m : M A) : reads m -> sat_s m.
Proof. intros H. now apply sat_reader. Qed.

Lemma sate_of_reads {A} (m : M A) : reads m -> sat_e m.
Proof. intros H. now apply sat_reader. Qed.

Lemma sats_of_sate {A} (m : M A) : sat_e m -> sat_s m.
Proof. apply sat_weaken, Re_Rs. Qed.

Lemma sats_throw {A} e : e <> ProgramStoppedError -> sat_s (@throw A e).
Proof. intros H. apply sat_throw; auto. Qed.

Lemma sate_throw {A} e : e <> ProgramStoppedError -> sat_e (@throw A e).
Proof. intros H. apply sat_throw; auto. Qed.

Lemma sate_new_array vs : sat_e (new_array vs).
Proof. intros s. apply Re_new_array. Qed.

Lemma sats_checkStopSignal : sat_s (checkStopSignal shouldStop).
Proof.
  intros s. unfold checkStopSignal.
  destruct (shouldStop (polls s)) eqn:E; [split|]; eauto.
Qed.

Lemma sats_displayProvider vs : sat_s (displayProvider vs).
Proof. intros s. apply Rs_display. Qed.

Lemma sats_inputProvider p : sat_s (inputProvider p).
Proof.
  intros s. unfold inputProvider.
  destruct (inputs s) as [|a rest] eqn:E; [exact I|].
  pose proof (Rs_input p s) as H. now rewrite E in H.
Qed.

Lemma sats_create o : sat_s (Env.create o).
Proof. intros s. apply Rs_create. Qed.

Lemma sats_define e n c t v : sat_s (Env.define e n c t v).
Proof.
  intros s. destruct (Env.define e n c t v s) as [[] s1|x s1|h s1] eqn:E; eauto.
  unfold Env.define in E.
  destruct (environments s !! e); [|discriminate].
  destruct (Env.local _ _); [|discriminate].
  injection E as <- <-. split; [apply Rs_refl | apply allowed_other; discriminate].
Qed.

Lemma sats_defineReference e n r : sat_s (Env.defineReference e n r).
Proof.
  intros s. destruct (Env.defineReference e n r s) as [[] s1|x s1|h s1] eqn:E; eauto.
  unfold Env.defineReference in E.
  destruct (environments s !! e); [|discriminate].
  destruct (Env.local _ _); [|discriminate].
  injection E as <- <-. split; [apply Rs_refl | apply allowed_other; discriminate].
Qed.

Lemma sats_assign e n v l : sat_s (Env.assign e n v l).
Proof.
  intros s. destruct (Env.assign e n v l s) as [[] s1|x s1|h s1] eqn:E; eauto.
  unfold Env.assign in E.
  destruct (Env.resolve s e n); try discriminate.
  - destruct (entries s !! ref); [|discriminate].
    destruct (entry_isConstant _); [|discriminate].
    injection E as <- <-. split; [apply Rs_refl | apply allowed_other; discriminate].
  - injection E as <- <-. split; [apply Rs_refl | apply allowed_other; discriminate].
Qed.

Lemma sats_write_array r i v : sat_s (write_array r i v).
Proof.
  intros s. destruct (write_array r i v s) as [[] s1|x s1|h s1] eqn:E; eauto.
  discriminate.
Qed.

Ltac step_s tac := apply sat_bind; [exact Rs_trans | tac | intros ?].
Ltac done_s := apply sat_ret; exact Rs_refl.

Lemma sats_block exec stmts env :
  (forall st, sat_s (exec st)) -> sat_s (block shouldStop exec stmts env).
Proof.
  intros H. unfold block.
  step_s ltac:(apply sats_of_reads, reads_current).
  apply sat_try_finally; [exact Rs_trans | intros s; apply Rs_switch |].
  step_s ltac:(intros s; apply Rs_switch).
  apply sat_for_each; [exact Rs_refl | exact Rs_trans |]. intros st.
  step_s ltac:(apply sats_checkStopSignal). apply H.
Qed.

Lemma sats_block_in_new exec stmts outer :
  (forall st, sat_s (exec st)) -> sat_s (block_in_new shouldStop exec stmts outer).
Proof.
  intros H. unfold block_in_new. step_s ltac:(apply sats_create).
  now apply sats_block.
Qed.

Lemma sats_nested_block exec stmts :
  (forall st, sat_s (exec st)) -> sat_s (nested_block shouldStop exec stmts).
Proof.
  intros H. unfold nested_block.
  step_s ltac:(apply sats_of_reads, reads_current).
  now apply sats_block_in_new.
Qed.

Lemma sats_whileLoop fuel c b :
  sat_s c -> sat_s b -> sat_s (whileLoop shouldStop fuel c b).
Proof.
  intros Hc Hb. induction fuel as [|fuel IH]; simpl; [apply sat_halt|].
  step_s ltac:(exact Hc). destruct (truthy _); [|done_s].
  step_s ltac:(apply sats_checkStopSignal).
  step_s ltac:(exact Hb). exact IH.
Qed.

Lemma sats_doWhileLoop fuel c b :
  sat_s c -> sat_s b -> sat_s (doWhileLoop shouldStop fuel c b).
Proof.
  intros Hc Hb. induction fuel as [|fuel IH]; simpl; [apply sat_halt|].
  step_s ltac:(apply sats_checkStopSignal).
  step_s ltac:(exact Hb).
  step_s ltac:(exact Hc). destruct (truthy _); [exact IH | done_s].
Qed.

Lemma sats_doUntilLoop fuel c b :
  sat_s c -> sat_s b -> sat_s (doUntilLoop shouldStop fuel c b).
Proof.
  intros Hc Hb. induction fuel as [|fuel IH]; simpl; [apply sat_halt|].
  step_s ltac:(apply sats_checkStopSignal).
  step_s ltac:(exact Hb).
  step_s ltac:(exact Hc). destruct (negb (truthy _)); [exact IH | done_s].
Qed.

Lemma sats_forLoop fuel b scope id line i e :
  sat_s b -> sat_s (forLoop shouldStop fuel b scope id line i e).
Proof.
  intros Hb. revert i. induction fuel as [|fuel IH]; intros i; simpl; [apply sat_halt|].
  destruct (Qle_bool i e); [|done_s].
  step_s ltac:(apply sats_checkStopSignal).
  step_s ltac:(apply sats_assign).
  step_s ltac:(exact Hb).
  step_s ltac:(apply sats_of_reads, reads_lift). apply IH.
Qed.

Lemma sats_inputLoop fuel id line r :
  sat_s (inputLoop shouldStop fuel id line r).
Proof.
  induction fuel as [|fuel IH]; simpl; [apply sat_halt|].
  step_s ltac:(apply sats_checkStopSignal).
  step_s ltac:(apply sats_of_reads, reads_read_entry).
  step_s ltac:(apply sats_inputProvider).
  match goal with |- sat _ _ (match ?x with _ => _ end) => destruct x as [raw|] end.
  - destruct (fst _).
    + step_s ltac:(apply sats_of_reads, reads_lift).
      step_s ltac:(apply sats_of_reads, reads_current). apply sats_assign.
    + step_s ltac:(apply sats_displayProvider). exact IH.
  - step_s ltac:(apply sats_checkStopSignal). apply sats_displayProvider.
Qed.

Lemma sats_bind_parameter eval calleeEnv line pa :
  (forall e, sat_s (eval e)) ->
  sat_s (bind_parameter eval calleeEnv line pa).
Proof.
  intros He. destruct pa as [p arg]. unfold bind_parameter.
  destruct (isReference p).
  - destruct arg; try (apply sats_throw; discriminate).
    step_s ltac:(apply sats_of_reads, reads_current).
    step_s ltac:(apply sats_of_reads, reads_getEntry).
    apply sats_defineReference.
  - step_s ltac:(apply He).
    apply sat_bind; [exact Rs_trans | | intros t; apply sats_define].
    destruct (String.eqb _ _); [|done_s].
    destruct arg; try (apply sats_throw; discriminate).
    apply sats_of_reads.
    apply reads_bind; [apply reads_current|]. intros env.
    apply reads_bind; [apply reads_getEntry|]. intros r.
    apply reads_bind; [apply reads_read_entry|]. intros en. apply reads_ret.
Qed.

Lemma sats_call eval exec callee args line :
  (forall e, sat_s (eval e)) -> (forall st, sat_s (exec st)) ->
  sat_s (call shouldStop eval exec callee args line).
Proof.
  intros He Hs. unfold call. destruct (negb _); [apply sats_throw; discriminate|].
  step_s ltac:(apply sats_create).
  apply sat_bind; [exact Rs_trans | | intros _; now apply sats_block].
  apply sat_for_each; [exact Rs_refl | exact Rs_trans |].
  intros pa. now apply sats_bind_parameter.
Qed.

Lemma sats_initial_value eval d :
  (forall e, sat_s (eval e)) -> sat_s (initial_value eval d).
Proof.
  intros He. unfold initial_value.
  repeat match goal with
  | |- sat _ _ (if ?b then _ else _) => destruct b
  | |- sat _ _ (match ?v with _ => _ end) => destruct v
  | |- sat _ _ (bind _ _) => apply sat_bind; [exact Rs_trans | | intros ?]
  | |- sat _ _ (for_each _ _) =>
      apply sat_for_each; [exact Rs_refl | exact Rs_trans | intros ?]
  | |- sat _ _ (ret _) => apply sat_ret; exact Rs_refl
  | |- sat _ _ (throw _) => apply sats_throw; discriminate
  | |- sat _ _ (new_array _) => apply sats_of_sate, sate_new_array
  | |- sat _ _ (write_array _ _ _) => apply sats_write_array
  | |- sat _ _ (eval _) => apply He
  end.
Qed.

Variable this : Interpreter.

(** Every expression respects [Re] and every statement [Rs]. *)
Lemma sat_evaluate_exec fuel :
  (forall e, sat_e (evaluate shouldStop this fuel e))
  /\ (forall st, sat_s (executeStatementGenerator shouldStop this fuel st)).
Proof.
  induction fuel as [|fuel [IHe IHs]]; split; intros x; simpl;
    try apply sat_halt.
  - destruct x;
      repeat match goal with
      | |- sat _ _ (if ?b then _ else _) => destruct b
      | |- sat _ _ (match ?v with _ => _ end) => destruct v
      | |- sat _ _ (bind _ _) => apply sat_bind; [exact Re_trans | | intros ?]
      | |- sat _ _ (ret _) => apply sat_ret; exact Re_refl
      | |- sat _ _ (lift _) => apply sate_of_reads, reads_lift
      | |- sat _ _ (throw _) => apply sate_throw; discriminate
      | |- sat _ _ (halt _) => apply sat_halt
      | |- sat _ _ current => apply sate_of_reads, reads_current
      | |- sat _ _ (Env.get _ _ _) => apply sate_of_reads, reads_get
      | |- sat _ _ (binary _ _ _ _) => apply sate_of_reads, reads_binary
      | |- sat _ _ (unary _ _ _) => apply sate_of_reads, reads_unary
      | |- sat _ _ (promise_all _ _) =>
          apply sat_promise_all; [exact Re_refl | exact Re_trans | exact IHe]
      | |- sat _ _ (call_function _ _ _) => apply Re_call_function
      | |- sat _ _ (call _ _ _ _ _ _) =>
          apply sats_call; [intros ?; apply sats_of_sate, IHe | exact IHs]
      | |- sat _ _ (new_array _) => apply sate_new_array
      | |- sat _ _ (check_access _ _ _) => apply sate_of_reads, reads_check_access
      | |- sat _ _ (read_array _) => apply sate_of_reads, reads_read_array
      | |- sat _ _ (evaluate _ _ _ _) => apply IHe
      end.
  - assert (IHe' : forall e, sat_s (evaluate shouldStop this fuel e))
      by (intros e; apply sats_of_sate, IHe).
    apply sat_bind; [exact Rs_trans | apply sats_checkStopSignal |]. intros _.
    apply sat_bind; [exact Rs_trans | apply Rs_yield_step |]. intros _.
    destruct x;
      repeat match goal with
      | |- sat _ _ (if ?b then _ else _) => destruct b
      | |- sat _ _ (match ?v with _ => _ end) => destruct v
      | |- sat _ _ (bind _ _) => apply sat_bind; [exact Rs_trans | | intros ?]
      | |- sat _ _ (for_each _ _) =>
          apply sat_for_each; [exact Rs_refl | exact Rs_trans | intros ?]
      | |- sat _ _ (map_m _ _) =>
          apply sat_map_m; [exact Rs_refl | exact Rs_trans | intros ?]
      | |- sat _ _ (ret _) => apply sat_ret; exact Rs_refl
      | |- sat _ _ (throw _) => apply sats_throw; discriminate
      | |- sat _ _ (halt _) => apply sat_halt
      | |- sat _ _ current => apply sats_of_reads, reads_current
      | |- sat _ _ (Env.define _ _ _ _ _) => apply sats_define
      | |- sat _ _ (Env.assign _ _ _ _) => apply sats_assign
      | |- sat _ _ (Env.getEntry _ _ _) => apply sats_of_reads, reads_getEntry
      | |- sat _ _ (Env.create _) => apply sats_create
      | |- sat _ _ (initial_value _ _) => apply sats_initial_value; exact IHe'
      | |- sat _ _ (check_access _ _ _) => apply sats_of_reads, reads_check_access
      | |- sat _ _ (write_array _ _ _) => apply sats_write_array
      | |- sat _ _ (checkStopSignal _) => apply sats_checkStopSignal
      | |- sat _ _ (displayProvider _) => apply sats_displayProvider
      | |- sat _ _ (inputLoop _ _ _ _ _) => apply sats_inputLoop
      | |- sat _ _ (block_in_new _ _ _ _) => apply sats_block_in_new; exact IHs
      | |- sat _ _ (nested_block _ _ _) => apply sats_nested_block; exact IHs
      | |- sat _ _ (doWhileLoop _ _ _ _) => apply sats_doWhileLoop
      | |- sat _ _ (doUntilLoop _ _ _ _) => apply sats_doUntilLoop
      | |- sat _ _ (whileLoop _ _ _ _) => apply sats_whileLoop
      | |- sat _ _ (forLoop _ _ _ _ _ _ _ _) => apply sats_forLoop
      | |- sat _ _ (call _ _ _ _ _ _) => apply sats_call; [exact IHe' | exact IHs]
      | |- sat _ _ (evaluate _ _ _ _) => apply IHe'
      end.
Qed.

Lemma sat_evaluate fuel e : sat_e (evaluate shouldStop this fuel e).
Proof. apply sat_evaluate_exec. Qed.

Lemma sat_executeStatementGenerator fuel st :
  sat_s (executeStatementGenerator shouldStop this fuel st).
Proof. apply sat_evaluate_exec. Qed.

Lemma sat_initial_value fuel d :
  sat_s (initial_value (evaluate shouldStop this fuel) d).
Proof. apply sats_initial_value. intros e. apply sats_of_sate, sat_evaluate. Qed.

Lemma sat_runGenerator fuel : sat_s (runGenerator shouldStop this fuel).
Proof.
  unfold runGenerator.
  step_s ltac:(apply sats_checkStopSignal).
  destruct (0 <? _).
  - destruct (modules this !! _) as [mainModule|]; [|apply sats_throw; discriminate].
    apply sat_bind; [exact Rs_trans | |].
    + apply sat_for_each; [exact Rs_refl | exact Rs_trans |]. intros st.
      destruct (is_variable_declaration st);
        [apply sat_executeStatementGenerator | done_s].
    + intros _. unfold executeCallGenerator. apply sats_call.
      * intros e. apply sats_of_sate, sat_evaluate.
      * apply sat_executeStatementGenerator.
  - apply sat_for_each; [exact Rs_refl | exact Rs_trans |]. intros st.
    destruct (negb (is_function st));
      [apply sat_executeStatementGenerator | done_s].
Qed.

End Evaluator.

(** An invariant holds across every expression, every statement and the
    whole run. *)
Lemma invariant_holds Re Rs allowed shouldStop this :
  Invariant Re Rs allowed shouldStop ->
  (forall fuel e, sat Re allowed (evaluate shouldStop this fuel e))
  /\ (forall fuel st, sat Rs allowed (executeStatementGenerator shouldStop this fuel st))
  /\ (forall fuel, sat Rs allowed (runGenerator shouldStop this fuel)).
Proof.
  intros []. repeat split; intros.
  - eapply sat_evaluate with (Rs := Rs); eassumption.
  - eapply sat_executeStatementGenerator with (Re := Re); eassumption.
  - eapply sat_runGenerator with (Re := Re); eassumption.
Qed.

(** And across the computation of the initial value of a declarator. *)
Lemma invariant_holds_initial_value Re Rs allowed shouldStop this :
  Invariant Re Rs allowed shouldStop ->
  forall fuel d, sat Rs allowed (initial_value (evaluate shouldStop this fuel) d).
Proof.
  intros [] fuel d.
  eapply sat_initial_value with (Re := Re); eassumption.
Qed.

End InvariantFacts.

(** ** What a run never does *)

Module RunInvariants.
Import Text JS Ops Ast Run Interp RunSpec ScopeSpec InvariantSpec EnvLaws InvariantFacts.
Local Open Scope monad_scope.

Lemma assign_inv env name v line s s' :
  Env.assign env name v line s = Ok tt s' ->
  exists ref existing,
    Env.resolve s env name = Env.Found ref
    /\ entries s !! ref = Some existing
    /\ entry_isConstant existing = false
    /\ s' = set_entries (fun l => <[ref := Env.with_value v existing]> l) s.
Proof.
  unfold Env.assign. destruct (Env.resolve s env name) as [ref| |]; try discriminate.
  destruct (entries s !! ref) as [existing|] eqn:E; [|discriminate].
  destruct (entry_isConstant existing) eqn:Ec; [discriminate|].
  intros [= <-]. now exists ref, existing.
Qed.

Lemma defineReference_inv env name ref s s' :
  Env.defineReference env name ref s = Ok tt s' ->
  exists e,
    environments s !! env = Some e
    /\ s' = set_environments
              (fun es => <[env := Env.add_binding (toLowerCase name) ref e]> es) s.
Proof.
  unfold Env.defineReference.
  destruct (environments s !! env) as [e|]; [|discriminate].
  destruct (Env.local e (toLowerCase name)); [discriminate|].
  intros [= <-]. now exists e.
Qed.

Lemma yield_step_inv line s :
  yield_step line s
  = Ok tt (if muted s then s
           else add_event (EStep line (Env.serialize s (environment s))) s).
Proof. unfold yield_step. now destruct (muted s). Qed.

(** A function call whose body respects a relation that does not look at
    the flag [muted] respects it. *)
Lemma call_function_sat (R : State -> State -> Prop) allowed :
  (forall s s' b b', R (set_muted b s) s' -> R s (set_muted b' s')) ->
  (forall e, e <> ProgramStoppedError -> allowed e) ->
  forall (body : M unit) name line,
    sat R allowed body -> sat R allowed (call_function body name line).
Proof.
  intros Hm Ha body name line Hb s. unfold call_function.
  specialize (Hb (set_muted true s)).
  destruct (body (set_muted true s)) as [a s1|e s1|h s1]; [| |exact I].
  - split; [now apply (Hm s s1 true) | apply Ha; discriminate].
  - destruct Hb as [Hb He].
    destruct e; try (split; [now apply (Hm s s1 true) | exact He]).
    now apply (Hm s s1 true).
Qed.

(** *** Entries *)

Lemma entries_kept_same s s' : entries s' = entries s -> entries_kept s s'.
Proof. intros E ref en H. exists en. rewrite E. auto. Qed.

Lemma entries_kept_trans s1 s2 s3 :
  entries_kept s1 s2 -> entries_kept s2 s3 -> entries_kept s1 s3.
Proof.
  intros H12 H23 ref en H.
  destruct (H12 ref en H) as (en2 & H2 & Hn2 & Ht2 & Hc2 & Hv2).
  destruct (H23 ref en2 H2) as (en3 & H3 & Hn3 & Ht3 & Hc3 & Hv3).
  exists en3. repeat split; try congruence.
  intros Hc. rewrite Hv3 by congruence. auto.
Qed.

Lemma entries_kept_define env name c t v s s' :
  Env.define env name c t v s = Ok tt s' -> entries_kept s s'.
Proof.
  intros H. apply define_inv in H as (e & _ & _ & ->).
  intros ref en Hen. exists en. simpl. split; [now apply lookup_app_l_Some | auto].
Qed.

Lemma entries_kept_assign env name v line s s' :
  Env.assign env name v line s = Ok tt s' -> entries_kept s s'.
Proof.
  intros H. apply assign_inv in H as (ref & existing & _ & Hex & Hc & ->).
  intros ref' en Hen. simpl.
  destruct (decide (ref = ref')) as [<-|Hne].
  - rewrite list_lookup_insert_eq by (eapply lookup_lt_Some; eassumption).
    assert (en = existing) as -> by congruence.
    eexists. split; [reflexivity|]. repeat split. congruence.
  - rewrite list_lookup_insert_ne by assumption. exists en. auto.
Qed.

Lemma entries_kept_invariant shouldStop :
  Invariant entries_kept entries_kept any_exception shouldStop.
Proof.
  constructor; try (intros; now apply entries_kept_same); try (intros; exact I); auto.
  - exact entries_kept_trans.
  - exact entries_kept_trans.
  - apply call_function_sat; [|intros; exact I].
    intros s s' b b' H ref en Hen. exact (H ref en Hen).
  - intros line s. rewrite yield_step_inv. apply entries_kept_same.
    now destruct (muted s).
  - exact entries_kept_define.
  - intros env name ref s s' H. apply defineReference_inv in H as (e & _ & ->).
    now apply entries_kept_same.
  - exact entries_kept_assign.
  - intros ref index v s s' [= <-]. now apply entries_kept_same.
Qed.

(** X9. What a declaration fixes stays fixed.  Across the execution of
    any statement, and across a whole run, every entry that exists is kept,
    with the name, the declared type and the kind (constant or variable)
    it was declared with; and the value of a constant never changes (for
    an array constant the value is the array object: its elements can
    still be assigned). *)
Theorem declarations_are_permanent shouldStop this fuel :
  (forall stmt s,
     match executeStatementGenerator shouldStop this fuel stmt s with
     | Ok _ s' | Throw _ s' => entries_kept s s'
     | Halt _ _ => True
     end)
  /\ (forall s,
        match runGenerator shouldStop this fuel s with
        | Ok _ s' | Throw _ s' => entries_kept s s'
        | Halt _ _ => True
        end).
Proof.
  destruct (invariant_holds _ _ _ _ this (entries_kept_invariant shouldStop))
    as (_ & Hs & Hr).
  split.
  - intros stmt s. specialize (Hs fuel stmt s).
    destruct (executeStatementGenerator shouldStop this fuel stmt s); tauto.
  - intros s. specialize (Hr fuel s).
    destruct (runGenerator shouldStop this fuel s); tauto.
Qed.

(** *** Arrays *)

Lemma array_sizes_kept_same s s' : arrays s' = arrays s -> array_sizes_kept s s'.
Proof. intros E ref a H. exists a. rewrite E. auto. Qed.

Lemma array_sizes_kept_trans s1 s2 s3 :
  array_sizes_kept s1 s2 -> array_sizes_kept s2 s3 -> array_sizes_kept s1 s3.
Proof.
  intros H12 H23 ref a H.
  destruct (H12 ref a H) as (a2 & H2 & Hl2).
  destruct (H23 ref a2 H2) as (a3 & H3 & Hl3).
  exists a3. split; [exact H3 | congruence].
Qed.

Lemma array_sizes_kept_write ref index v s s' :
  write_array ref index v s = Ok tt s' -> array_sizes_kept s s'.
Proof.
  intros [= <-] ref' a Ha. simpl.
  destruct (arrays s !! ref) as [old|] eqn:E; [|now exists a].
  destruct (decide (ref = ref')) as [<-|Hne].
  - rewrite list_lookup_insert_eq by (eapply lookup_lt_Some; eassumption).
    eexists. split; [reflexivity|]. rewrite length_insert. congruence.
  - rewrite list_lookup_insert_ne by assumption. now exists a.
Qed.

Lemma array_sizes_kept_invariant shouldStop :
  Invariant array_sizes_kept array_sizes_kept any_exception shouldStop.
Proof.
  constructor; try (intros; now apply array_sizes_kept_same); try (intros; exact I); auto.
  - exact array_sizes_kept_trans.
  - exact array_sizes_kept_trans.
  - intros a s ref x Hx. exists x. simpl. split; [now apply lookup_app_l_Some | reflexivity].
  - apply call_function_sat; [|intros; exact I].
    intros s s' b b' H ref a Ha. exact (H ref a Ha).
  - intros line s. rewrite yield_step_inv. apply array_sizes_kept_same.
    now destruct (muted s).
  - intros env name c t v s s' H. apply define_inv in H as (e & _ & _ & ->).
    now apply array_sizes_kept_same.
  - intros env name ref s s' H. apply defineReference_inv in H as (e & _ & ->).
    now apply array_sizes_kept_same.
  - intros env name v line s s' H.
    apply assign_inv in H as (ref & existing & _ & _ & _ & ->).
    now apply array_sizes_kept_same.
  - exact array_sizes_kept_write.
Qed.

(** X10. Arrays have a fixed size.  Across the evaluation of any
    expression, the execution of any statement and a whole run, every
    array that exists is kept with the number of elements it was created
    with: no assignment to an element makes an array longer or shorter. *)
Theorem array_sizes_are_fixed shouldStop this fuel :
  (forall e s,
     match evaluate shouldStop this fuel e s with
     | Ok _ s' | Throw _ s' => array_sizes_kept s s'
     | Halt _ _ => True
     end)
  /\ (forall stmt s,
        match executeStatementGenerator shouldStop this fuel stmt s with
        | Ok _ s' | Throw _ s' => array_sizes_kept s s'
        | Halt _ _ => True
        end)
  /\ (forall s,
        match runGenerator shouldStop this fuel s with
        | Ok _ s' | Throw _ s' => array_sizes_kept s s'
        | Halt _ _ => True
        end).
Proof.
  destruct (invariant_holds _ _ _ _ this (array_sizes_kept_invariant shouldStop))
    as (He & Hs & Hr).
  repeat split.
  - intros e s. specialize (He fuel e s).
    destruct (evaluate shouldStop this fuel e s); tauto.
  - intros stmt s. specialize (Hs fuel stmt s).
    destruct (executeStatementGenerator shouldStop this fuel stmt s); tauto.
  - intros s. specialize (Hr fuel s).
    destruct (runGenerator shouldStop this fuel s); tauto.
Qed.

(** *** The stop signal *)

Lemma no_stop_invariant shouldStop :
  (forall n, shouldStop n = false) ->
  Invariant any_change any_change (fun e => e <> ProgramStoppedError) shouldStop.
Proof.
  intros Hnever.
  constructor; try (intros; exact I); auto.
  - intros s Hs. rewrite Hnever in Hs. discriminate.
  - apply call_function_sat; [intros; exact I | auto].
  - intros line s. rewrite yield_step_inv. exact I.
Qed.

(** X11. A program is stopped only by its host: when [shouldStop] never
    answers true, no statement and no run ends with a
    [ProgramStoppedError]. *)
Theorem stops_only_on_signal shouldStop this fuel :
  (forall n, shouldStop n = false) ->
  (forall stmt s,
     match executeStatementGenerator shouldStop this fuel stmt s with
     | Throw ProgramStoppedError _ => False
     | _ => True
     end)
  /\ (forall s,
        match runGenerator shouldStop this fuel s with
        | Throw ProgramStoppedError _ => False
        | _ => True
        end).
Proof.
  intros Hnever.
  destruct (invariant_holds _ _ _ _ this (no_stop_invariant shouldStop Hnever))
    as (_ & Hs & Hr).
  split.
  - intros stmt s. specialize (Hs fuel stmt s).
    destruct (executeStatementGenerator shouldStop this fuel stmt s) as [a s1|e s1|h s1];
      auto.
    destruct e; auto. now destruct Hs.
  - intros s. specialize (Hr fuel s).
    destruct (runGenerator shouldStop this fuel s) as [a s1|e s1|h s1]; auto.
    destruct e; auto. now destruct Hr.
Qed.

Lemma stops_only_on_signal_witness :
  match runGenerator never_stop (new_Interpreter entry_demo) 5 (initial_state []) with
  | Throw ProgramStoppedError _ => False
  | _ => True
  end.
Proof.
  exact (proj2 (stops_only_on_signal never_stop (new_Interpreter entry_demo) 5
                  (fun _ => eq_refl)) (initial_state [])).
Defined.

(** *** Step points *)

Lemma steps_of_add_event ev s :
  steps_of (events (add_event ev s))
  = steps_of (events s) ++ match ev with
                           | EStep line scope => [(line, scope)]
                           | _ => []
                           end.
Proof.
  unfold steps_of. simpl. rewrite flat_map_app. simpl. now rewrite app_nil_r.
Qed.

Lemma no_step_same s s' :
  events s' = events s -> muted s' = muted s -> no_step s s'.
Proof. intros E M. split; [now rewrite E | exact M]. Qed.

Lemma no_step_if_muted_same s s' :
  events s' = events s -> muted s' = muted s -> no_step_if_muted s s'.
Proof. intros E M. split; [exact M | now rewrite E]. Qed.

Lemma no_step_invariant shouldStop :
  Invariant no_step no_step_if_muted any_exception shouldStop.
Proof.
  constructor; try (intros; now apply no_step_same);
    try (intros; now apply no_step_if_muted_same); try (intros; exact I).
  - intros s1 s2 s3 [E12 M12] [E23 M23]. split; congruence.
  - intros s1 s2 s3 [M12 E12] [M23 E23]. split; [congruence|].
    intros M. rewrite E23 by congruence. auto.
  - intros s s' [E M]. split; auto.
  - intros body name line Hb s. unfold call_function.
    specialize (Hb (set_muted true s)).
    destruct (body (set_muted true s)) as [a s1|e s1|h s1]; [| |exact I].
    + destruct Hb as [M E]. split; [|exact I].
      split; [exact (E eq_refl) | reflexivity].
    + destruct Hb as [[M E] _].
      assert (H : no_step s (set_muted (muted s) s1))
        by (split; [exact (E eq_refl) | reflexivity]).
      destruct e; try (split; [exact H | exact I]). exact H.
  - intros line s. rewrite yield_step_inv.
    destruct (muted s) eqn:E; split; try reflexivity; congruence.
  - intros vs s. split; [reflexivity|]. intros _.
    rewrite steps_of_add_event. apply app_nil_r.
  - intros prompt s. split; [reflexivity|]. intros _.
    change (events (set_inputs (tl (inputs s)) (add_event (EInput prompt) s)))
      with (events (add_event (EInput prompt) s)).
    rewrite steps_of_add_event. apply app_nil_r.
  - intros env name c t v s s' H. apply define_inv in H as (e & _ & _ & ->).
    now apply no_step_if_muted_same.
  - intros env name ref s s' H. apply defineReference_inv in H as (e & _ & ->).
    now apply no_step_if_muted_same.
  - intros env name v line s s' H.
    apply assign_inv in H as (ref & existing & _ & _ & _ & ->).
    now apply no_step_if_muted_same.
  - intros ref index v s s' [= <-]. now apply no_step_if_muted_same.
Qed.

(** X12. The evaluation of an expression yields no step point to the
    debugger, whatever user functions it calls: the statements of a
    function called from an expression run without being stepped
    through. *)
Theorem expressions_yield_no_step shouldStop this fuel e s :
  match evaluate shouldStop this fuel e s with
  | Ok _ s' | Throw _ s' => steps_of (events s') = steps_of (events s)
  | Halt _ _ => True
  end.
Proof.
  destruct (invariant_holds _ _ _ _ this (no_step_invariant shouldStop)) as (He & _).
  specialize (He fuel e s).
  destruct (evaluate shouldStop this fuel e s) as [a s1|x s1|h s1]; auto.
  - now destruct He.
  - now destruct He as [[H _] _].
Qed.

End RunInvariants.

(** ** The modules and functions of a program *)

Module RegistryLaws.
Import Text JS Ops Ast Run Interp RunSpec RegistrySpec EntryFacts.

Lemma register_function_lookup maps st k :
  snd (register maps st) !! k
  = if function_named k st then Some st else snd maps !! k.
Proof.
  destruct st as [| | | | | | | | | |fname ty ps body line| |]; simpl; try reflexivity.
  destruct (String.eqb_spec (toLowerCase fname) k) as [->|Hne].
  - now rewrite lookup_insert_eq.
  - now rewrite lookup_insert_ne.
Qed.

Lemma register_functions_lookup stmts maps k :
  snd (fold_left register stmts maps) !! k
  = match find_function k stmts with
    | Some st => Some st
    | None => snd maps !! k
    end.
Proof.
  unfold find_function. revert maps.
  induction stmts as [|st stmts IH]; intros maps; simpl; [reflexivity|].
  rewrite find_over_app, IH.
  destruct (find (function_named k) (rev stmts)); [reflexivity|].
  simpl. rewrite register_function_lookup.
  destruct (function_named k st); reflexivity.
Qed.

(** X16. Modules and functions are known by their lower-cased names, each
    kind apart from the other: under a name the interpreter holds the last
    module, and the last function, that the program declares with this
    name up to the case of letters; an earlier one is replaced. *)
Theorem last_declaration_wins (stmts : list Statement) (k : string) :
  modules (new_Interpreter stmts) !! k = find_module k stmts
  /\ functions (new_Interpreter stmts) !! k = find_function k stmts.
Proof.
  unfold new_Interpreter. simpl.
  rewrite register_modules_lookup, register_functions_lookup.
  split.
  - destruct (find_module k stmts); [reflexivity | apply lookup_empty].
  - destruct (find_function k stmts); [reflexivity | apply lookup_empty].
Qed.

End RegistryLaws.

(** ** Programs that run no two calls together

    The evaluator stops with [Interleaved] only at a [Promise.all] over
    several expressions of which one calls a user function.  A program
    without such a list never comes there. *)

Module CalmFacts.
Import Text JS Ops Ast Run Interp RunSpec RegistrySpec.
Local Open Scope monad_scope.

Lemma calm_ret {A} (a : A) : calm (ret a).
Proof. intros s s'. discriminate. Qed.

Lemma calm_throw {A} e : calm (@throw A e).
Proof. intros s s'. discriminate. Qed.

Lemma calm_halt {A} h : h <> Interleaved -> calm (@halt A h).
Proof. intros H s s' [= E _]. now apply H. Qed.

Lemma calm_lift {A} (p : Pure A) : calm (lift p).
Proof. destruct p; [apply calm_ret | apply calm_halt; discriminate]. Qed.

Lemma calm_modify f : calm (modify f).
Proof. intros s s'. discriminate. Qed.

Lemma calm_bind {A B} (m : M A) (k : A -> M B) :
  calm m -> (forall a, calm (k a)) -> calm (bind m k).
Proof.
  intros Hm Hk s s'. unfold bind. specialize (Hm s).
  destruct (m s) as [a s1|e s1|h s1]; [apply Hk | discriminate |].
  intros [= -> ->]. now apply (Hm s').
Qed.

Lemma calm_for_each {A} (f : A -> M unit) l :
  Forall (fun x => calm (f x)) l -> calm (for_each f l).
Proof.
  induction 1 as [|x l Hx _ IH]; simpl; [apply calm_ret|].
  apply calm_bind; auto.
Qed.

Lemma calm_map_m {A B} (f : A -> M B) l :
  Forall (fun x => calm (f x)) l -> calm (map_m f l).
Proof.
  induction 1 as [|x l Hx _ IH]; simpl; [apply calm_ret|].
  apply calm_bind; [exact Hx|]. intros b.
  apply calm_bind; [exact IH|]. intros bs. apply calm_ret.
Qed.

Lemma calm_try_finally {A} (m : M A) f : calm m -> calm (try_finally m f).
Proof.
  intros Hm s s'. unfold try_finally. specialize (Hm s).
  destruct (m s) as [a s1|e s1|h s1]; try discriminate.
  intros [= -> ->]. now apply (Hm s').
Qed.

Lemma others_calm eval es s :
  Forall (fun e => calm (eval e)) es -> others eval es s <> OthersHalt Interleaved.
Proof.
  induction 1 as [|e es He _ IH]; simpl; [discriminate|].
  specialize (He s).
  destruct (eval e s) as [v s1|x s1|h s1].
  - exact IH.
  - destruct (others eval es s) as [| |h]; try discriminate.
    intros [= ->]. now apply IH.
  - intros [= ->]. now apply (He s1).
Qed.

Lemma calm_all_settled eval es :
  Forall (fun e => calm (eval e)) es -> calm (all_settled eval es).
Proof.
  induction 1 as [|e es He Hes IH]; simpl; [apply calm_ret|].
  intros s s'. specialize (He s).
  destruct (eval e s) as [v s1|x s1|h s1].
  - specialize (IH s1).
    destruct (all_settled eval es s1) as [vs s2|x s2|h s2]; try discriminate.
    intros [= -> ->]. now apply (IH s').
  - pose proof (others_calm eval es s1 Hes) as Ho.
    destruct (others eval es s1) as [| |h]; try discriminate.
    intros [= -> _]. now apply Ho.
  - intros [= -> ->]. now apply (He s').
Qed.

(** [Promise.all] over a list that is [alone]. *)
Lemma calm_promise_all eval es :
  alone es = true ->
  Forall (fun e => calm (eval e)) es -> calm (promise_all eval es).
Proof.
  intros Ha He. unfold promise_all.
  destruct es as [|e [|e' es]]; try (now apply calm_map_m).
  unfold alone in Ha. apply negb_true_iff in Ha. rewrite Ha.
  now apply calm_all_settled.
Qed.

(** *** What the evaluator is made of *)

Ltac primitive :=
  let E := fresh "E" in
  intros ? ? E;
  repeat match type of E with
         | context [match ?x with _ => _ end] => destruct x
         | context [if ?b then _ else _] => destruct b
         end;
  discriminate E.

Lemma calm_current : calm current.
Proof. intros s s'. discriminate. Qed.

Lemma calm_getEntry e n l : calm (Env.getEntry e n l).
Proof. unfold Env.getEntry. primitive. Qed.

Lemma calm_read_entry r : calm (Env.read_entry r).
Proof. unfold Env.read_entry. primitive. Qed.

Lemma calm_get e n l : calm (Env.get e n l).
Proof.
  unfold Env.get. apply calm_bind; [apply calm_getEntry|]. intros r.
  apply calm_bind; [apply calm_read_entry|]. intros x. apply calm_ret.
Qed.

Lemma calm_create o : calm (Env.create o).
Proof. intros s s'. discriminate. Qed.

Lemma calm_define e n c t v : calm (Env.define e n c t v).
Proof. unfold Env.define. primitive. Qed.

Lemma calm_defineReference e n r : calm (Env.defineReference e n r).
Proof. unfold Env.defineReference. primitive. Qed.

Lemma calm_assign e n v l : calm (Env.assign e n v l).
Proof. unfold Env.assign. primitive. Qed.

Lemma calm_new_array vs : calm (new_array vs).
Proof. intros s s'. discriminate. Qed.

Lemma calm_read_array r : calm (read_array r).
Proof. unfold read_array. primitive. Qed.

Lemma calm_write_array r i v : calm (write_array r i v).
Proof. apply calm_modify. Qed.

Ltac pieces :=
  repeat match goal with
  | |- calm (if ?b then _ else _) => destruct b
  | |- calm (match ?v with _ => _ end) => destruct v
  | |- calm (bind _ _) => apply calm_bind; [|intros ?]
  | |- calm (lift _) => apply calm_lift
  | |- calm (ret _) => apply calm_ret
  | |- calm (throw _) => apply calm_throw
  | |- calm (read_array _) => apply calm_read_array
  end.

Lemma calm_check_access a i l : calm (check_access a i l).
Proof. unfold check_access. pieces. Qed.

Lemma calm_binary op l r line : calm (binary op l r line).
Proof. unfold binary. pieces. Qed.

Lemma calm_unary op r line : calm (unary op r line).
Proof. unfold unary. pieces. Qed.

Section Host.
Variable shouldStop : nat -> bool.

Lemma calm_checkStopSignal : calm (checkStopSignal shouldStop).
Proof. unfold checkStopSignal. primitive. Qed.

Lemma calm_displayProvider vs : calm (displayProvider vs).
Proof. apply calm_modify. Qed.

Lemma calm_inputProvider p : calm (inputProvider p).
Proof. unfold inputProvider. primitive. Qed.

Lemma calm_yield_step l : calm (yield_step l).
Proof. unfold yield_step. primitive. Qed.

Ltac step tac := apply calm_bind; [tac | intros ?].

Lemma calm_block exec stmts env :
  Forall (fun st => calm (exec st)) stmts -> calm (block shouldStop exec stmts env).
Proof.
  intros H. unfold block. step ltac:(apply calm_current).
  apply calm_try_finally. step ltac:(apply calm_modify).
  apply calm_for_each. eapply List.Forall_impl; [|exact H].
  intros st Hst. step ltac:(apply calm_checkStopSignal). exact Hst.
Qed.

Lemma calm_block_in_new exec stmts outer :
  Forall (fun st => calm (exec st)) stmts ->
  calm (block_in_new shouldStop exec stmts outer).
Proof.
  intros H. unfold block_in_new. step ltac:(apply calm_create).
  now apply calm_block.
Qed.

Lemma calm_nested_block exec stmts :
  Forall (fun st => calm (exec st)) stmts ->
  calm (nested_block shouldStop exec stmts).
Proof.
  intros H. unfold nested_block. step ltac:(apply calm_current).
  now apply calm_block_in_new.
Qed.

Lemma calm_whileLoop fuel c b :
  calm c -> calm b -> calm (whileLoop shouldStop fuel c b).
Proof.
  intros Hc Hb. induction fuel as [|fuel IH]; simpl;
    [apply calm_halt; discriminate|].
  step ltac:(exact Hc). destruct (truthy _); [|apply calm_ret].
  step ltac:(apply calm_checkStopSignal). step ltac:(exact Hb). exact IH.
Qed.

Lemma calm_doWhileLoop fuel c b :
  calm c -> calm b -> calm (doWhileLoop shouldStop fuel c b).
Proof.
  intros Hc Hb. induction fuel as [|fuel IH]; simpl;
    [apply calm_halt; discriminate|].
  step ltac:(apply calm_checkStopSignal). step ltac:(exact Hb).
  step ltac:(exact Hc). destruct (truthy _); [exact IH | apply calm_ret].
Qed.

Lemma calm_doUntilLoop fuel c b :
  calm c -> calm b -> calm (doUntilLoop shouldStop fuel c b).
Proof.
  intros Hc Hb. induction fuel as [|fuel IH]; simpl;
    [apply calm_halt; discriminate|].
  step ltac:(apply calm_checkStopSignal). step ltac:(exact Hb).
  step ltac:(exact Hc). destruct (negb (truthy _)); [exact IH | apply calm_ret].
Qed.

Lemma calm_forLoop fuel b scope id line i e :
  calm b -> calm (forLoop shouldStop fuel b scope id line i e).
Proof.
  intros Hb. revert i. induction fuel as [|fuel IH]; intros i; simpl;
    [apply calm_halt; discriminate|].
  destruct (Qle_bool i e); [|apply calm_ret].
  step ltac:(apply calm_checkStopSignal). step ltac:(apply calm_assign).
  step ltac:(exact Hb). step ltac:(apply calm_lift). apply IH.
Qed.

Lemma calm_inputLoop fuel id line r :
  calm (inputLoop shouldStop fuel id line r).
Proof.
  induction fuel as [|fuel IH]; simpl; [apply calm_halt; discriminate|].
  step ltac:(apply calm_checkStopSignal).
  step ltac:(apply calm_read_entry).
  step ltac:(apply calm_inputProvider).
  match goal with |- calm (match ?x with _ => _ end) => destruct x as [raw|] end.
  - destruct (fst _).
    + step ltac:(apply calm_lift). step ltac:(apply calm_current). apply calm_assign.
    + step ltac:(apply calm_displayProvider). exact IH.
  - step ltac:(apply calm_checkStopSignal). apply calm_displayProvider.
Qed.

Lemma calm_bind_parameter eval calleeEnv line pa :
  calm (eval (snd pa)) -> calm (bind_parameter eval calleeEnv line pa).
Proof.
  intros He. destruct pa as [p arg]. unfold bind_parameter.
  destruct (isReference p).
  - destruct arg; try apply calm_throw.
    step ltac:(apply calm_current). step ltac:(apply calm_getEntry).
    apply calm_defineReference.
  - step ltac:(exact He).
    apply calm_bind; [|intros t; apply calm_define].
    destruct (String.eqb _ _); [|apply calm_ret].
    destruct arg; try apply calm_throw.
    step ltac:(apply calm_current). step ltac:(apply calm_getEntry).
    step ltac:(apply calm_read_entry). apply calm_ret.
Qed.

Lemma Forall_combine_snd {A B} (P : B -> Prop) (l : list A) (l' : list B) :
  Forall P l' -> Forall (fun x => P (snd x)) (combine l l').
Proof.
  intros H. revert l. induction H as [|y l' Hy _ IH]; intros [|x l]; simpl;
    constructor; auto.
Qed.

Lemma calm_call eval exec callee args line :
  Forall (fun e => calm (eval e)) args ->
  Forall (fun st => calm (exec st)) (callee_body callee) ->
  calm (call shouldStop eval exec callee args line).
Proof.
  intros He Hs. unfold call. destruct (negb _); [apply calm_throw|].
  step ltac:(apply calm_create).
  apply calm_bind; [|intros _; now apply calm_block].
  apply calm_for_each.
  eapply List.Forall_impl; [|exact (Forall_combine_snd _ _ _ He)].
  intros pa Hpa. now apply calm_bind_parameter.
Qed.

Lemma calm_call_function (body : M unit) name line :
  calm body -> calm (call_function body name line).
Proof.
  intros Hb s s'. unfold call_function. specialize (Hb (set_muted true s)).
  destruct (body (set_muted true s)) as [a s1|e s1|h s1]; try discriminate.
  - destruct e; discriminate.
  - intros [= -> ->]. now apply (Hb s').
Qed.

Lemma calm_initial_value eval d :
  sequential_declarator d = true ->
  (forall e, sequential e = true -> calm (eval e)) ->
  calm (initial_value eval d).
Proof.
  intros Hd He. unfold sequential_declarator in Hd.
  apply andb_true_iff in Hd as [Hsize Hinit].
  assert (Hall : forall es, forallb sequential es = true ->
                   Forall (fun e => calm (eval e)) es).
  { intros es Hes. apply List.Forall_forall. intros e Hin. apply He.
    exact (proj1 (forallb_forall _ _) Hes e Hin). }
  unfold initial_value.
  destruct (size d) as [sizeExpr|].
  - step ltac:(now apply He).
    match goal with |- calm (match ?v with _ => _ end) => destruct v end;
      try apply calm_throw.
    destruct (_ && _); [|apply calm_throw].
    destruct (Qle_bool _ _); [apply calm_throw|].
    step ltac:(apply calm_new_array).
    destruct (initializer d) as [init|]; [|apply calm_ret].
    destruct init; try apply calm_throw.
    destruct (_ <? _); [apply calm_throw|].
    apply calm_bind; [|intros _; apply calm_ret].
    apply calm_for_each. apply List.Forall_forall. intros [i e] Hin.
    apply in_combine_r in Hin. cbn [sequential_initializer] in Hinit.
    cbn [fst snd].
    step ltac:(apply He; exact (proj1 (forallb_forall _ _) Hinit e Hin)).
    destruct a; try apply calm_ret. apply calm_write_array.
  - destruct (initializer d) as [init|]; [|apply calm_ret].
    destruct init; try apply calm_throw; now apply He.
Qed.

Variable this : Interpreter.

(** The bodies of the modules and of the functions that can be called run
    no two calls together. *)
Hypothesis modules_sequential :
  forall k m, modules this !! k = Some m -> forallb sequential_stmt (callee_body m) = true.
Hypothesis functions_sequential :
  forall k f, functions this !! k = Some f -> forallb sequential_stmt (callee_body f) = true.

Lemma calm_evaluate_exec fuel :
  (forall e, sequential e = true -> calm (evaluate shouldStop this fuel e))
  /\ (forall st, sequential_stmt st = true ->
                 calm (executeStatementGenerator shouldStop this fuel st)).
Proof.
  induction fuel as [|fuel [IHe IHs]]; split; intros x Hx; simpl;
    try (apply calm_halt; discriminate).
  - assert (IHes : forall es, forallb sequential es = true ->
                     Forall (fun e => calm (evaluate shouldStop this fuel e)) es).
    { intros es Hes. apply List.Forall_forall. intros e Hin. apply IHe.
      exact (proj1 (forallb_forall _ _) Hes e Hin). }
    assert (IHss : forall stmts, forallb sequential_stmt stmts = true ->
                     Forall (fun st => calm (executeStatementGenerator shouldStop this fuel st))
                       stmts).
    { intros stmts Hs. apply List.Forall_forall. intros st Hin. apply IHs.
      exact (proj1 (forallb_forall _ _) Hs st Hin). }
    destruct x; cbn [sequential] in Hx;
      repeat match goal with
             | H : _ && _ = true |- _ => apply andb_true_iff in H as [? ?]
             end.
    + apply calm_lift.
    + apply calm_bind; [|intros vs; apply calm_new_array].
      apply calm_promise_all; auto.
    + step ltac:(apply calm_current). apply calm_get.
    + step ltac:(now apply IHe). step ltac:(now apply IHe). apply calm_binary.
    + step ltac:(now apply IHe). apply calm_unary.
    + now apply IHe.
    + cbv zeta. destruct (BuiltIn.argCount (toLowerCase callee)) as [expected|].
      * destruct (negb _); [apply calm_throw|].
        step ltac:(apply calm_promise_all; auto).
        destruct (BuiltIn.implementation _ _);
          [apply calm_ret | apply calm_throw | apply calm_halt; discriminate].
      * destruct (functions this !! toLowerCase callee) as [funcToCall|] eqn:Ef;
          [|apply calm_throw].
        apply calm_call_function, calm_call; [now apply IHes|].
        apply IHss. eapply functions_sequential. exact Ef.
    + step ltac:(now apply IHe). step ltac:(now apply IHe).
      step ltac:(apply calm_check_access). step ltac:(apply calm_read_array).
      destruct (_ !! _); [apply calm_ret | apply calm_halt; discriminate].
  - assert (IHes : forall es, forallb sequential es = true ->
                     Forall (fun e => calm (evaluate shouldStop this fuel e)) es).
    { intros es Hes. apply List.Forall_forall. intros e Hin. apply IHe.
      exact (proj1 (forallb_forall _ _) Hes e Hin). }
    assert (IHss : forall stmts, forallb sequential_stmt stmts = true ->
                     Forall (fun st => calm (executeStatementGenerator shouldStop this fuel st))
                       stmts).
    { intros stmts Hs. apply List.Forall_forall. intros st Hin. apply IHs.
      exact (proj1 (forallb_forall _ _) Hs st Hin). }
    step ltac:(apply calm_checkStopSignal). step ltac:(apply calm_yield_step).
    destruct x; cbn [sequential_stmt] in Hx;
      repeat match goal with
             | H : _ && _ = true |- _ => apply andb_true_iff in H as [? ?]
             end.
    + apply calm_for_each. apply List.Forall_forall. intros d Hin.
      step ltac:(apply calm_initial_value;
                 [exact (proj1 (forallb_forall _ _) Hx d Hin) | exact IHe]).
      destruct (_ && _); [apply calm_throw|].
      step ltac:(apply calm_current). apply calm_define.
    + step ltac:(now apply IHe).
      destruct lvalue; try apply calm_throw.
      * step ltac:(apply calm_current). apply calm_assign.
      * match goal with H : sequential (ArrayAccess _ _ _) = true |- _ =>
          cbn [sequential] in H; apply andb_true_iff in H as [? ?] end.
        step ltac:(now apply IHe). step ltac:(now apply IHe).
        step ltac:(apply calm_check_access). apply calm_write_array.
    + step ltac:(idtac); [|apply calm_displayProvider].
      apply calm_map_m. apply List.Forall_forall. intros item Hin.
      step ltac:(apply calm_checkStopSignal).
      pose proof (proj1 (forallb_forall _ _) Hx item Hin) as Hitem.
      destruct item; [now apply IHe | apply calm_ret].
    + step ltac:(apply calm_current). step ltac:(apply calm_getEntry).
      apply calm_inputLoop.
    + step ltac:(now apply IHe).
      destruct (truthy _); [now apply calm_nested_block, IHss|].
      destruct elseBranch; [now apply calm_nested_block, IHss | apply calm_ret].
    + apply calm_doWhileLoop; [now apply IHe | now apply calm_nested_block, IHss].
    + apply calm_doUntilLoop; [now apply IHe | now apply calm_nested_block, IHss].
    + apply calm_whileLoop; [now apply IHe | now apply calm_nested_block, IHss].
    + step ltac:(apply calm_current). step ltac:(apply calm_create).
      step ltac:(now apply IHe). step ltac:(now apply IHe).
      match goal with |- calm (match ?v with _ => _ end) => destruct v end;
        try apply calm_throw.
      match goal with |- calm (match ?v with _ => _ end) => destruct v end;
        try apply calm_throw.
      step ltac:(apply calm_define).
      apply calm_forLoop. now apply calm_block_in_new, IHss.
    + apply calm_ret.
    + apply calm_ret.
    + step ltac:(now apply IHe). apply calm_throw.
    + destruct (modules this !! toLowerCase _) as [moduleToCall|] eqn:Em;
        [|apply calm_throw].
      apply calm_call; [now apply IHes|].
      apply IHss. eapply modules_sequential. exact Em.
Qed.

Lemma calm_executeStatementGenerator fuel st :
  sequential_stmt st = true ->
  calm (executeStatementGenerator shouldStop this fuel st).
Proof. apply calm_evaluate_exec. Qed.

Lemma calm_evaluate fuel e :
  sequential e = true -> calm (evaluate shouldStop this fuel e).
Proof. apply calm_evaluate_exec. Qed.

End Host.

(** The modules and the functions of a program are among its
    statements. *)
Lemma find_In {A} (p : A -> bool) l x : List.find p l = Some x -> In x l.
Proof. intros H. now apply find_some in H. Qed.

Lemma program_modules_sequential stmts k m :
  sequential_program stmts = true ->
  modules (new_Interpreter stmts) !! k = Some m ->
  forallb sequential_stmt (callee_body m) = true.
Proof.
  intros Hs Hm. rewrite EntryFacts.modules_lookup in Hm.
  unfold find_module in Hm.
  pose proof (find_some _ _ Hm) as [Hin Hk]. apply in_rev in Hin.
  pose proof (proj1 (forallb_forall _ _) Hs m Hin) as Hseq.
  destruct m; try discriminate. exact Hseq.
Qed.

Lemma program_functions_sequential stmts k f :
  sequential_program stmts = true ->
  functions (new_Interpreter stmts) !! k = Some f ->
  forallb sequential_stmt (callee_body f) = true.
Proof.
  intros Hs Hf.
  assert (Hfind : find_function k stmts = Some f).
  { unfold new_Interpreter in Hf. simpl in Hf.
    rewrite RegistryLaws.register_functions_lookup in Hf.
    destruct (find_function k stmts); [exact Hf|].
    simpl in Hf. now rewrite lookup_empty in Hf. }
  unfold find_function in Hfind.
  pose proof (find_some _ _ Hfind) as [Hin Hk]. apply in_rev in Hin.
  pose proof (proj1 (forallb_forall _ _) Hs f Hin) as Hseq.
  destruct f; try discriminate. exact Hseq.
Qed.

(** A program that runs no two calls together never stops for that. *)
Lemma calm_runGenerator shouldStop stmts fuel :
  sequential_program stmts = true ->
  calm (runGenerator shouldStop (new_Interpreter stmts) fuel).
Proof.
  intros Hs. set (this := new_Interpreter stmts).
  pose proof (calm_evaluate_exec shouldStop this
                (fun k m => program_modules_sequential stmts k m Hs)
                (fun k f => program_functions_sequential stmts k f Hs) fuel)
    as [He Hst].
  unfold runGenerator.
  apply calm_bind; [apply calm_checkStopSignal|]. intros _.
  assert (Hall : forall (p : Statement -> bool),
            Forall (fun st => calm (if p st
                                    then executeStatementGenerator shouldStop this fuel st
                                    else ret tt)) stmts).
  { intros p. apply List.Forall_forall. intros st Hin.
    destruct (p st); [|apply calm_ret].
    apply Hst. exact (proj1 (forallb_forall _ _) Hs st Hin). }
  destruct (0 <? _).
  - destruct (modules this !! "main"%string) as [mainModule|] eqn:Em;
      [|apply calm_throw].
    apply calm_bind; [apply calm_for_each, (Hall is_variable_declaration)|].
    intros _. unfold executeCallGenerator. apply calm_call; [constructor|].
    apply List.Forall_forall. intros st Hin. apply Hst.
    exact (proj1 (forallb_forall _ _)
             (program_modules_sequential stmts _ _ Hs Em) st Hin).
  - apply calm_for_each.
    exact (Hall (fun st => negb (is_function st))).
Qed.

End CalmFacts.

(** ** The entry of a program *)

Module ProgramFacts.
Import Text JS Ops Ast Run Interp RunSpec InvariantSpec.
Import MonadFacts EntryFacts AliasFacts EnvLaws InvariantFacts RunInvariants CalmFacts.
Local Open Scope monad_scope.

(** *** Bindings are kept *)

Lemma bindings_kept_same s s' :
  environments s' = environments s -> bindings_kept s s'.
Proof. intros E i e k ref He Hl. exists e. rewrite E. auto. Qed.

Lemma bindings_kept_trans s1 s2 s3 :
  bindings_kept s1 s2 -> bindings_kept s2 s3 -> bindings_kept s1 s3.
Proof.
  intros H12 H23 i e k ref He Hl.
  destruct (H12 i e k ref He Hl) as (e2 & He2 & Hl2).
  exact (H23 i e2 k ref He2 Hl2).
Qed.

Lemma bindings_kept_add env k ref e s s' :
  environments s !! env = Some e ->
  environments s' = <[env := Env.add_binding k ref e]> (environments s) ->
  bindings_kept s s'.
Proof.
  intros He E i e0 k0 r Hi Hl. rewrite E.
  destruct (decide (env = i)) as [<-|Hne].
  - rewrite list_lookup_insert_eq by (eapply lookup_lt_Some; eassumption).
    eexists. split; [reflexivity|].
    apply local_add_binding_old. congruence.
  - rewrite list_lookup_insert_ne by assumption. now exists e0.
Qed.

Lemma kept_same s s' :
  environments s' = environments s -> entries s' = entries s ->
  declarations_kept s s'.
Proof. intros E1 E2. split; [now apply bindings_kept_same | now apply entries_kept_same]. Qed.

Lemma kept_trans s1 s2 s3 :
  declarations_kept s1 s2 -> declarations_kept s2 s3 -> declarations_kept s1 s3.
Proof.
  intros [B12 E12] [B23 E23].
  split; [eapply bindings_kept_trans | eapply entries_kept_trans]; eassumption.
Qed.

Lemma kept_define env name c t v s s' :
  Env.define env name c t v s = Ok tt s' -> declarations_kept s s'.
Proof.
  intros H. split; [|now apply entries_kept_define in H].
  apply define_inv in H as (e & He & _ & ->).
  eapply bindings_kept_add; [exact He | reflexivity].
Qed.

Lemma kept_invariant shouldStop :
  Invariant declarations_kept declarations_kept any_exception shouldStop.
Proof.
  constructor; try (intros; now apply kept_same); try (intros; exact I); auto.
  - exact kept_trans.
  - exact kept_trans.
  - apply call_function_sat; [|intros; exact I].
    intros s s' b b' [Hb He]. split.
    + intros i e k ref Hi Hl. exact (Hb i e k ref Hi Hl).
    + intros ref en Hen. exact (He ref en Hen).
  - intros line s. rewrite yield_step_inv.
    destruct (muted s); now apply kept_same.
  - intros o s. split; [|now apply entries_kept_same].
    intros i e k ref Hi Hl. exists e. split; [|exact Hl].
    simpl. now apply lookup_app_l_Some.
  - exact kept_define.
  - intros env name ref s s' H. apply defineReference_inv in H as (e & He & ->).
    split; [|now apply entries_kept_same].
    eapply bindings_kept_add; [exact He | reflexivity].
  - intros env name v line s s' H. split; [|now apply entries_kept_assign in H].
    apply assign_inv in H as (ref & existing & _ & _ & _ & ->).
    now apply bindings_kept_same.
  - intros ref index v s s' [= <-]. now apply kept_same.
Qed.

(** What is declared stays declared. *)
Lemma declared_kept s s' env name t c :
  declarations_kept s s' -> declared s env name t c -> declared s' env name t c.
Proof.
  intros [Hb He] (e & ref & en & Henv & Hl & Hen & Hn & Ht & Hc).
  destruct (Hb env e _ ref Henv Hl) as (e' & Henv' & Hl').
  destruct (He ref en Hen) as (en' & Hen' & Hn' & Ht' & Hc' & _).
  exists e', ref, en'. repeat split; congruence.
Qed.

(** What [define] declares. *)
Lemma define_declares env name c t v s s' :
  Env.define env name c t v s = Ok tt s' -> declared s' env name t c.
Proof.
  intros H. apply define_inv in H as (e & He & Hfresh & ->).
  exists (Env.add_binding (toLowerCase name) (length (entries s)) e),
    (length (entries s)), (Env.new_entry name c t v).
  repeat split.
  - simpl. apply list_lookup_insert_eq. eapply lookup_lt_Some; eassumption.
  - rewrite (local_add_binding_new _ _ _ _ Hfresh). now rewrite String.eqb_refl.
  - simpl. rewrite lookup_app_r by lia. now rewrite Nat.sub_diag.
Qed.

Section Entry.
Variable shouldStop : nat -> bool.
Variable this : Interpreter.

(** The declarators of one declaration, from the second statement of the
    [VARIABLE_DECLARATION] case on. *)
Lemma declarators_declare fuel dataType isConstant line : forall declarators s s',
  for_each
    (fun declaration =>
       initialValue <- initial_value (evaluate shouldStop this fuel) declaration ;;
       if isConstant && is_null initialValue then
         throw (InterpreterError (ConstantNotInitialized (identifier declaration)) line)
       else
         env <- current ;;
         Env.define env (identifier declaration) isConstant dataType initialValue)
    declarators s = Ok tt s' ->
  environment s' = environment s
  /\ declarations_kept s s'
  /\ forall d, In d declarators ->
       declared s' (environment s) (identifier d) dataType isConstant.
Proof.
  induction declarators as [|d ds IH]; intros s s'; cbn [for_each].
  - intros [= <-]. split; [reflexivity|]. split; [now apply kept_same | intros d []].
  - unfold bind at 1. unfold bind at 1.
    pose proof (keeps_initial_value (evaluate shouldStop this fuel) d
                  (keeps_evaluate shouldStop this fuel) s) as Hk.
    pose proof (invariant_holds_initial_value _ _ _ shouldStop this
                  (kept_invariant shouldStop) fuel d s) as Hi.
    destruct (initial_value (evaluate shouldStop this fuel) d s) as [v s1|x s1|h s1];
      try discriminate.
    destruct (isConstant && is_null v); [discriminate|].
    unfold bind at 1, current.
    destruct (Env.define (environment s1) (identifier d) isConstant dataType v s1)
      as [[] s2|x s2|h s2] eqn:Hdef; try discriminate.
    intros Hrest. destruct (IH s2 s' Hrest) as (He & Hkept & Hds).
    pose proof (keeps_define (environment s1) (identifier d) isConstant dataType v s1) as Hk2.
    rewrite Hdef in Hk2.
    pose proof (kept_define _ _ _ _ _ _ _ Hdef) as Hkd.
    pose proof (define_declares _ _ _ _ _ _ _ Hdef) as Hd.
    assert (E2 : environment s2 = environment s) by congruence.
    split; [|split].
    + congruence.
    + eapply kept_trans; [exact Hi|]. eapply kept_trans; [exact Hkd | exact Hkept].
    + intros d' [<- | Hin].
      * eapply declared_kept; [exact Hkept|]. now rewrite <- Hk.
      * rewrite <- E2. now apply Hds.
Qed.

(** A declaration statement declares its names in the environment in
    which it runs. *)
Lemma declaration_declares fuel dataType declarators isConstant line s s' :
  executeStatementGenerator shouldStop this fuel
    (VariableDeclaration dataType declarators isConstant line) s = Ok tt s' ->
  forall d, In d declarators ->
    declared s' (environment s) (identifier d) dataType isConstant.
Proof.
  destruct fuel as [|fuel']; [discriminate|].
  cbn [executeStatementGenerator]. unfold bind at 1.
  pose proof (keeps_checkStopSignal shouldStop s) as Hk1.
  destruct (checkStopSignal shouldStop s) as [[] s1|x s1|h s1]; try discriminate.
  unfold bind at 1.
  pose proof (keeps_yield_step (stmt_line (VariableDeclaration dataType declarators
                                             isConstant line)) s1) as Hk2.
  destruct (yield_step _ s1) as [[] s2|x s2|h s2]; try discriminate.
  intros H. apply declarators_declare in H.
  destruct H as (_ & _ & Hd). intros d Hin.
  replace (environment s) with (environment s2) by congruence. now apply Hd.
Qed.

(** The declarations of a program, run one after the other in the global
    environment, declare their names there. *)
Lemma declarations_populate fuel : forall (stmts : list Statement) s s1,
  environment s = globals ->
  for_each
    (fun stmt => in_environment globals (executeStatementGenerator shouldStop this fuel stmt))
    (List.filter is_variable_declaration stmts) s = Ok tt s1 ->
  environment s1 = globals
  /\ declarations_kept s s1
  /\ forall dataType declarators isConstant line d,
       In (VariableDeclaration dataType declarators isConstant line) stmts ->
       In d declarators ->
       declared s1 globals (identifier d) dataType isConstant.
Proof.
  induction stmts as [|st stmts IH]; intros s s1 Hg.
  - simpl. intros [= <-]. split; [exact Hg|]. split; [now apply kept_same|].
    intros ? ? ? ? ? [].
  - cbn [List.filter].
    destruct (is_variable_declaration st) eqn:Hst.
    + cbn [for_each]. unfold bind at 1, in_environment.
      rewrite <- Hg at 1. rewrite set_environment_same.
      pose proof (keeps_executeStatementGenerator shouldStop this fuel st s) as Hk.
      destruct (invariant_holds _ _ _ shouldStop this (kept_invariant shouldStop))
        as (_ & Hinv & _).
      specialize (Hinv fuel st s).
      destruct (executeStatementGenerator shouldStop this fuel st s)
        as [[] s2|x s2|h s2] eqn:Hrun; try discriminate.
      intros Hrest.
      destruct (IH s2 s1 ltac:(congruence) Hrest) as (Hg1 & Hkept & Hds).
      split; [exact Hg1|]. split; [eapply kept_trans; eassumption|].
      intros dataType declarators isConstant line d [-> | Hin] Hd.
      * eapply declared_kept; [exact Hkept|].
        rewrite <- Hg. eapply declaration_declares; eassumption.
      * eapply Hds; eassumption.
    + intros Hrun. destruct (IH s s1 Hg Hrun) as (Hg1 & Hkept & Hds).
      split; [exact Hg1|]. split; [exact Hkept|].
      intros dataType declarators isConstant line d [-> | Hin] Hd;
        [discriminate | eapply Hds; eassumption].
Qed.

End Entry.

Section Program.
Variable shouldStop : nat -> bool.

(** [runGenerator] and the schedule: every statement is run in the global
    environment. *)
Lemma entry_schedule (stmts : list Statement) (fuel : nat) (s : State) :
  environment s = globals ->
  let this := new_Interpreter stmts in
  let exec := executeStatementGenerator shouldStop this fuel in
  runGenerator shouldStop this fuel s
  = (checkStopSignal shouldStop ;;;
     if existsb is_module stmts then
       match find_module "main" stmts with
       | None => throw (InterpreterError MainRequired 1)
       | Some mainModule =>
           for_each (fun stmt => in_environment globals (exec stmt))
             (List.filter is_variable_declaration stmts) ;;;
           in_environment globals
             (executeCallGenerator shouldStop this fuel mainModule [] 1)
       end
     else
       for_each (fun stmt => in_environment globals (exec stmt))
         (List.filter (fun stmt => negb (is_function stmt)) stmts)) s.
Proof.
  intros Hg this exec. unfold runGenerator.
  assert (Hstmts : statements this = stmts) by reflexivity.
  rewrite Hstmts.
  subst this. rewrite modules_size, modules_lookup.
  apply bind_ext_keeps; [apply keeps_checkStopSignal|].
  intros _ s1 Hs1. assert (Hg1 : environment s1 = globals) by congruence.
  destruct (existsb is_module stmts).
  - destruct (find_module "main" stmts) as [mainModule|]; [|reflexivity].
    rewrite (bind_in_environment _ _ globals s1); [| |exact Hg1].
    + unfold bind, in_environment.
      rewrite <- Hg1 at 1. rewrite set_environment_same, for_each_filter.
      rewrite (for_each_in_environment _ _ globals s1); [reflexivity| |exact Hg1].
      intros x. apply keeps_executeStatementGenerator.
    + apply keeps_for_each. intros x.
      destruct (is_variable_declaration x); [|apply keeps_ret].
      apply keeps_executeStatementGenerator.
  - rewrite for_each_filter.
    apply for_each_in_environment; [|exact Hg1].
    intros x. apply keeps_executeStatementGenerator.
Qed.

(** C2. The entry of a program in which no two calls of user functions are
    evaluated together (by one [Promise.all]: as arguments of one built-in
    function or elements of one array literal).  After the first poll of
    the stop signal:
    - a program that declares a module needs one whose lower-cased name is
      [main], and fails with an error when there is none; when there is
      one, the top-level variable declarations run first, in order and in
      the global environment, and then [main] is called with no argument
      (from the global environment, at line 1);
    - a program that declares no module runs its top-level statements
      other than function declarations, in order and in the global
      environment;
    - the run never stops for calls run together;
    - when the declarations have run, the global environment itself binds
      the name of every declarator of every top-level declaration, to an
      entry with this name, the declared type and the declared kind
      (constant or variable), and [this.environment] is the global
      environment. *)
Theorem program_entry (stmts : list Statement) (fuel : nat) (s : State) :
  sequential_program stmts = true ->
  environment s = globals ->
  let this := new_Interpreter stmts in
  let exec := executeStatementGenerator shouldStop this fuel in
  let declarations :=
    for_each (fun stmt => in_environment globals (exec stmt))
      (List.filter is_variable_declaration stmts) in
  runGenerator shouldStop this fuel s
  = (checkStopSignal shouldStop ;;;
     if existsb is_module stmts then
       match find_module "main" stmts with
       | None => throw (InterpreterError MainRequired 1)
       | Some mainModule =>
           declarations ;;;
           in_environment globals
             (executeCallGenerator shouldStop this fuel mainModule [] 1)
       end
     else
       for_each (fun stmt => in_environment globals (exec stmt))
         (List.filter (fun stmt => negb (is_function stmt)) stmts)) s
  /\ (forall s', runGenerator shouldStop this fuel s <> Halt Interleaved s')
  /\ (forall s1,
        (checkStopSignal shouldStop ;;; declarations) s = Ok tt s1 ->
        environment s1 = globals
        /\ forall dataType declarators isConstant line d,
             In (VariableDeclaration dataType declarators isConstant line) stmts ->
             In d declarators ->
             declared s1 globals (identifier d) dataType isConstant).
Proof.
  intros Hseq Hg this exec declarations. split; [|split].
  - now apply entry_schedule.
  - intros s'. now apply calm_runGenerator.
  - intros s1. unfold bind at 1.
    pose proof (keeps_checkStopSignal shouldStop s) as Hk.
    destruct (checkStopSignal shouldStop s) as [[] s0|x s0|h s0]; try discriminate.
    intros Hrun.
    destruct (declarations_populate shouldStop this fuel stmts s0 s1
                ltac:(congruence) Hrun) as (Hg1 & _ & Hd).
    split; [exact Hg1 | exact Hd].
Qed.

End Program.

(** The entry of a concrete program with a global and two modules: the
    hypotheses of [program_entry] hold of it and of the initial state. *)
Lemma program_entry_witness :
  sequential_program entry_demo = true
  /\ environment (initial_state []) = globals
  /\ runGenerator never_stop (new_Interpreter entry_demo) 5 (initial_state [])
     = (checkStopSignal never_stop ;;;
        for_each (fun stmt => in_environment globals
                                (executeStatementGenerator never_stop
                                   (new_Interpreter entry_demo) 5 stmt))
          [VariableDeclaration "integer" [mkDeclarator "g" None None] false 1] ;;;
        in_environment globals
          (executeCallGenerator never_stop (new_Interpreter entry_demo) 5
             (ModuleStatement "Main" [] [] 2) [] 1))
       (initial_state [])
  /\ (forall s',
        runGenerator never_stop (new_Interpreter entry_demo) 5 (initial_state [])
        <> Halt Interleaved s')
  /\ (forall s1,
        (checkStopSignal never_stop ;;;
         for_each (fun stmt => in_environment globals
                                 (executeStatementGenerator never_stop
                                    (new_Interpreter entry_demo) 5 stmt))
           (List.filter is_variable_declaration entry_demo)) (initial_state [])
        = Ok tt s1 ->
        environment s1 = globals
        /\ forall dataType declarators isConstant line d,
             In (VariableDeclaration dataType declarators isConstant line) entry_demo ->
             In d declarators ->
             declared s1 globals (identifier d) dataType isConstant).
Proof.
  split; [reflexivity|]. split; [reflexivity|].
  exact (program_entry never_stop entry_demo 5 (initial_state []) eq_refl eq_refl).
Defined.

(** Where the hypothesis of [program_entry] fails: the initializer of [y]
    has two calls of user functions as arguments of one built-in function.
    The evaluator starts both before either has returned, each saves and
    restores [this.environment] around its body, and these runs are left
    out here. *)
Lemma calls_run_together :
  match Lexer.tokenize together_demo with
  | Lexer.LexOk tokens =>
      match Parser.parse tokens with
      | Parser.POk stmts _ => sequential_program stmts = false
      | _ => False
      end
  | _ => False
  end
  /\ match interpret never_stop together_demo [] 20 with
     | Ran (Halt Interleaved _) => True
     | _ => False
     end.
Proof. split; vm_compute; [reflexivity | exact I]. Qed.

End ProgramFacts.

(** ** Scopes

    Declarations reach the current environment only; blocks, loops and
    calls work in environments of their own. *)

Module ScopeFacts.
Import Text JS Ops Ast Run Interp RunSpec ScopeSpec InvariantSpec.
Import EnvLaws InvariantFacts RunInvariants.
Local Open Scope monad_scope.

Lemma scope_frame_refl b n s : scope_frame b n s s.
Proof. intros H. auto. Qed.

Lemma scope_frame_trans b n s1 s2 s3 :
  scope_frame b n s1 s2 -> scope_frame b n s2 s3 -> scope_frame b n s1 s3.
Proof.
  intros H12 H23 H1.
  destruct (H12 H1) as (H2 & E12 & F12).
  destruct (H23 H2) as (H3 & E23 & F23).
  repeat split; [exact H3 | congruence |].
  intros i Hi Hc. rewrite F23, F12; auto. rewrite E12. exact Hc.
Qed.

Lemma scope_frame_weaken b n s s' : scope_frame true n s s' -> scope_frame b n s s'.
Proof.
  intros H Hn. destruct (H Hn) as (H' & E & F).
  repeat split; auto.
Qed.

Lemma scope_frame_same b n s s' :
  environments s' = environments s -> environment s' = environment s ->
  scope_frame b n s s'.
Proof. intros E1 E2 Hn. rewrite E1. auto. Qed.

Lemma scope_frame_create n o s :
  scope_frame true n s (set_environments (fun es => es ++ [mkEnvironment [] o]) s).
Proof.
  intros Hn. simpl. rewrite length_app. repeat split; [lia|].
  intros i Hi _. apply lookup_app_l. lia.
Qed.

Lemma scope_frame_insert_fresh n env x s s' :
  n <= env ->
  environments s' = <[env := x]> (environments s) ->
  environment s' = environment s ->
  scope_frame true n s s'.
Proof.
  intros Henv E1 E2 Hn. rewrite E1, length_insert. repeat split; [exact Hn | exact E2 |].
  intros i Hi _. apply list_lookup_insert_ne. lia.
Qed.

Lemma scope_frame_insert_current n x s s' :
  environments s' = <[environment s := x]> (environments s) ->
  environment s' = environment s ->
  scope_frame false n s s'.
Proof.
  intros E1 E2 Hn. rewrite E1, length_insert. repeat split; [exact Hn | exact E2 |].
  intros i Hi [|Hne]; [discriminate|]. apply list_lookup_insert_ne. congruence.
Qed.

Lemma define_outcome env name c t v s :
  match Env.define env name c t v s with
  | Ok _ s' =>
      exists x, environments s' = <[env := x]> (environments s)
                /\ environment s' = environment s
  | Throw _ s' => s' = s
  | Halt _ _ => True
  end.
Proof.
  unfold Env.define. destruct (environments s !! env) as [e|]; [|exact I].
  destruct (Env.local e (toLowerCase name)); [reflexivity|].
  eexists. split; reflexivity.
Qed.

Lemma defineReference_outcome env name ref s :
  match Env.defineReference env name ref s with
  | Ok _ s' =>
      exists x, environments s' = <[env := x]> (environments s)
                /\ environment s' = environment s
  | Throw _ s' => s' = s
  | Halt _ _ => True
  end.
Proof.
  unfold Env.defineReference. destruct (environments s !! env) as [e|]; [|exact I].
  destruct (Env.local e (toLowerCase name)); [reflexivity|].
  eexists. split; reflexivity.
Qed.

Section Frame.
Variable n : nat.
Variable shouldStop : nat -> bool.

Local Abbreviation holds b := (sat (scope_frame b n) any_exception).

Ltac side :=
  first [ exact (scope_frame_refl _ n)
        | exact (scope_frame_trans _ n)
        | exact (scope_frame_weaken _ n)
        | intros; exact I
        | intros; apply scope_frame_same; reflexivity ].

Ltac step tac := apply sat_bind; [side | tac | intros ?].

Lemma holds_weaken {A} b (m : M A) : holds true m -> holds b m.
Proof. apply sat_weaken, scope_frame_weaken. Qed.

Lemma holds_reads {A} b (m : M A) : reads m -> holds b m.
Proof. apply sat_reader; side. Qed.

Lemma holds_throw {A} b e : holds b (@throw A e).
Proof. apply sat_throw; side. Qed.

Lemma holds_checkStopSignal b : holds b (checkStopSignal shouldStop).
Proof. apply sats_checkStopSignal; side. Qed.

Lemma holds_yield_step b line : holds b (yield_step line).
Proof.
  intros s. rewrite yield_step_inv. apply scope_frame_same; now destruct (muted s).
Qed.

Lemma holds_assign b e name v l : holds b (Env.assign e name v l).
Proof.
  apply sats_assign; try side.
  intros env nm w line s s' H.
  apply assign_inv in H as (ref & existing & _ & _ & _ & ->).
  now apply scope_frame_same.
Qed.

Lemma holds_write_array b r i v : holds b (write_array r i v).
Proof. intros s. now apply scope_frame_same. Qed.

Lemma holds_new_array b vs : holds b (new_array vs).
Proof. intros s. now apply scope_frame_same. Qed.

Lemma holds_displayProvider b vs : holds b (displayProvider vs).
Proof. intros s. now apply scope_frame_same. Qed.

Lemma holds_call_function b (body : M unit) name line :
  holds b body -> holds b (call_function body name line).
Proof.
  apply call_function_sat; [|side].
  intros s s' x y H Hn. destruct (H Hn) as (H' & E & F). repeat split; auto.
Qed.

(** An environment that is new is at no index under [n]. *)
Lemma holds_bind_create {A} b o (k : nat -> M A) :
  (forall env, n <= env -> holds b (k env)) -> holds b (bind (Env.create o) k).
Proof.
  intros Hk s. unfold bind, Env.create.
  set (s1 := set_environments _ s).
  assert (H01 : scope_frame b n s s1) by apply scope_frame_weaken, scope_frame_create.
  destruct (k (length (environments s)) s1) as [a s2|e s2|h s2] eqn:E; [| |exact I].
  - intros Hn. specialize (Hk _ Hn s1). rewrite E in Hk.
    exact (scope_frame_trans _ _ _ _ _ H01 Hk Hn).
  - split; [|exact I]. intros Hn. specialize (Hk _ Hn s1). rewrite E in Hk.
    exact (scope_frame_trans _ _ _ _ _ H01 (proj1 Hk) Hn).
Qed.

Lemma holds_define_fresh env name c t v :
  n <= env -> holds true (Env.define env name c t v).
Proof.
  intros Henv s. pose proof (define_outcome env name c t v s) as H.
  destruct (Env.define env name c t v s) as [a s1|e s1|h s1]; [| |exact I].
  - destruct H as (x & E1 & E2). eapply scope_frame_insert_fresh; eassumption.
  - subst. split; [apply scope_frame_refl | exact I].
Qed.

Lemma holds_defineReference_fresh env name ref :
  n <= env -> holds true (Env.defineReference env name ref).
Proof.
  intros Henv s. pose proof (defineReference_outcome env name ref s) as H.
  destruct (Env.defineReference env name ref s) as [a s1|e s1|h s1]; [| |exact I].
  - destruct H as (x & E1 & E2). eapply scope_frame_insert_fresh; eassumption.
  - subst. split; [apply scope_frame_refl | exact I].
Qed.

(** A declaration writes to the current environment. *)
Lemma holds_declare name c t v :
  holds false (env <- current ;; Env.define env name c t v).
Proof.
  intros s. unfold bind, current.
  pose proof (define_outcome (environment s) name c t v s) as H.
  destruct (Env.define (environment s) name c t v s) as [a s1|e s1|h s1]; [| |exact I].
  - destruct H as (x & E1 & E2). eapply scope_frame_insert_current; eassumption.
  - subst. split; [apply scope_frame_refl | exact I].
Qed.

Lemma bind_modify {A} f (k : unit -> M A) s : bind (modify f) k s = k tt (f s).
Proof. reflexivity. Qed.

(** A block that runs in a new environment leaves the others alone. *)
Lemma holds_block_fresh exec stmts env :
  n <= env -> (forall st, holds false (exec st)) ->
  holds true (block shouldStop exec stmts env).
Proof.
  intros Henv H s. unfold block, bind at 1, current, try_finally.
  cbv beta iota. rewrite bind_modify.
  assert (Hb : holds false
                 (for_each (fun stmt => checkStopSignal shouldStop ;;; exec stmt) stmts)).
  { apply sat_for_each; [side | side |]. intros st.
    step ltac:(apply holds_checkStopSignal). apply H. }
  specialize (Hb (set_environment env s)).
  assert (Hframe : forall s1,
            scope_frame false n (set_environment env s) s1 ->
            scope_frame true n s (set_environment (environment s) s1)).
  { intros s1 F Hn. destruct (F Hn) as (Hn1 & E & Fr). simpl in *.
    repeat split; [exact Hn1|]. intros i Hi _. apply Fr; [exact Hi|]. right. lia. }
  destruct (for_each _ stmts (set_environment env s)) as [a s1|e s1|h s1]; [| |exact I].
  - now apply Hframe.
  - split; [apply Hframe; tauto | exact I].
Qed.

Lemma holds_block_in_new exec stmts outer :
  (forall st, holds false (exec st)) ->
  holds true (block_in_new shouldStop exec stmts outer).
Proof.
  intros H. unfold block_in_new. apply holds_bind_create.
  intros env Henv. now apply holds_block_fresh.
Qed.

Lemma holds_nested_block exec stmts :
  (forall st, holds false (exec st)) ->
  holds true (nested_block shouldStop exec stmts).
Proof.
  intros H. unfold nested_block.
  step ltac:(apply holds_reads, reads_current). now apply holds_block_in_new.
Qed.

Lemma holds_bind_parameter eval calleeEnv line pa :
  n <= calleeEnv -> (forall e, holds true (eval e)) ->
  holds true (bind_parameter eval calleeEnv line pa).
Proof.
  intros Henv He. destruct pa as [p arg]. unfold bind_parameter.
  destruct (isReference p).
  - destruct arg; try apply holds_throw.
    step ltac:(apply holds_reads, reads_current).
    step ltac:(apply holds_reads, reads_getEntry).
    now apply holds_defineReference_fresh.
  - step ltac:(apply He).
    apply sat_bind; [side | | intros t; now apply holds_define_fresh].
    destruct (String.eqb _ _); [|apply sat_ret; side].
    destruct arg; try apply holds_throw.
    apply holds_reads.
    apply reads_bind; [apply reads_current|]. intros env.
    apply reads_bind; [apply reads_getEntry|]. intros r.
    apply reads_bind; [apply reads_read_entry|]. intros en. apply reads_ret.
Qed.

(** A call works in the environment that it creates. *)
Lemma holds_call eval exec callee args line :
  (forall e, holds true (eval e)) -> (forall st, holds false (exec st)) ->
  holds true (call shouldStop eval exec callee args line).
Proof.
  intros He Hs. unfold call. destruct (negb _); [apply holds_throw|].
  apply holds_bind_create. intros env Henv.
  apply sat_bind; [side | | intros _; now apply holds_block_fresh].
  apply sat_for_each; [side | side |].
  intros pa. now apply holds_bind_parameter.
Qed.

Lemma holds_initial_value b eval d :
  (forall e, holds b (eval e)) -> holds b (initial_value eval d).
Proof.
  intros He.
  apply sats_initial_value with (Re := scope_frame b n); try side; auto.
  intros ref index v s s' [= <-]. now apply scope_frame_same.
Qed.

Lemma holds_inputLoop b fuel id line r : holds b (inputLoop shouldStop fuel id line r).
Proof.
  apply sats_inputLoop; try side.
  intros env nm w l s s' H.
  apply assign_inv in H as (ref & existing & _ & _ & _ & ->).
  now apply scope_frame_same.
Qed.

Lemma holds_forLoop b fuel body scope id line i e :
  holds b body -> holds b (forLoop shouldStop fuel body scope id line i e).
Proof.
  apply sats_forLoop; try side.
  intros env nm w l s s' H.
  apply assign_inv in H as (ref & existing & _ & _ & _ & ->).
  now apply scope_frame_same.
Qed.

Variable this : Interpreter.

(** Expressions and statements other than declarations are held to the
    strict frame, declarations to the other. *)
Lemma holds_evaluate_exec fuel :
  (forall e, holds true (evaluate shouldStop this fuel e))
  /\ (forall st, holds (strictness st) (executeStatementGenerator shouldStop this fuel st)).
Proof.
  induction fuel as [|fuel [IHe IHs]]; [split; intros x; apply sat_halt|].
  assert (IHs' : forall st, holds false (executeStatementGenerator shouldStop this fuel st)).
  { intros st. specialize (IHs st).
    destruct (strictness st); [now apply holds_weaken | exact IHs]. }
  assert (IHe' : forall b e, holds b (evaluate shouldStop this fuel e))
    by (intros b e; apply holds_weaken, IHe).
  split; intros x; simpl.
  - destruct x;
      repeat match goal with
      | |- sat _ _ (if ?b then _ else _) => destruct b
      | |- sat _ _ (match ?v with _ => _ end) => destruct v
      | |- sat _ _ (bind _ _) => apply sat_bind; [side | | intros ?]
      | |- sat _ _ (ret _) => apply sat_ret; side
      | |- sat _ _ (lift _) => apply holds_reads, reads_lift
      | |- sat _ _ (throw _) => apply holds_throw
      | |- sat _ _ (halt _) => apply sat_halt
      | |- sat _ _ current => apply holds_reads, reads_current
      | |- sat _ _ (Env.get _ _ _) => apply holds_reads, reads_get
      | |- sat _ _ (binary _ _ _ _) => apply holds_reads, reads_binary
      | |- sat _ _ (unary _ _ _) => apply holds_reads, reads_unary
      | |- sat _ _ (promise_all _ _) => apply sat_promise_all; [side | side | exact IHe]
      | |- sat _ _ (call_function _ _ _) => apply holds_call_function
      | |- sat _ _ (call _ _ _ _ _ _) => apply holds_call; [exact IHe | exact IHs']
      | |- sat _ _ (new_array _) => apply holds_new_array
      | |- sat _ _ (check_access _ _ _) => apply holds_reads, reads_check_access
      | |- sat _ _ (read_array _) => apply holds_reads, reads_read_array
      | |- sat _ _ (evaluate _ _ _ _) => apply IHe
      end.
  - apply sat_bind; [side | apply holds_checkStopSignal |]. intros _.
    apply sat_bind; [side | apply holds_yield_step |]. intros _.
    destruct x; unfold strictness; cbn [is_variable_declaration negb];
      repeat match goal with
      | |- sat _ _ (bind current (fun env => Env.define env _ _ _ _)) =>
          apply holds_declare
      | |- sat _ _ (bind (Env.create _) _) => apply holds_bind_create; intros ? ?
      | |- sat _ _ (if ?b then _ else _) => destruct b
      | |- sat _ _ (match ?v with _ => _ end) => destruct v
      | |- sat _ _ (bind _ _) => apply sat_bind; [side | | intros ?]
      | |- sat _ _ (for_each _ _) => apply sat_for_each; [side | side | intros ?]
      | |- sat _ _ (map_m _ _) => apply sat_map_m; [side | side | intros ?]
      | |- sat _ _ (ret _) => apply sat_ret; side
      | |- sat _ _ (throw _) => apply holds_throw
      | |- sat _ _ (halt _) => apply sat_halt
      | |- sat _ _ current => apply holds_reads, reads_current
      | |- sat _ _ (Env.define _ _ _ _ _) => apply holds_define_fresh; assumption
      | |- sat _ _ (Env.assign _ _ _ _) => apply holds_assign
      | |- sat _ _ (Env.getEntry _ _ _) => apply holds_reads, reads_getEntry
      | |- sat _ _ (initial_value _ _) => apply holds_initial_value; apply IHe'
      | |- sat _ _ (check_access _ _ _) => apply holds_reads, reads_check_access
      | |- sat _ _ (write_array _ _ _) => apply holds_write_array
      | |- sat _ _ (checkStopSignal _) => apply holds_checkStopSignal
      | |- sat _ _ (displayProvider _) => apply holds_displayProvider
      | |- sat _ _ (inputLoop _ _ _ _ _) => apply holds_inputLoop
      | |- sat _ _ (block_in_new _ _ _ _) => apply holds_block_in_new; exact IHs'
      | |- sat _ _ (nested_block _ _ _) => apply holds_nested_block; exact IHs'
      | |- sat _ _ (doWhileLoop _ _ _ _) => apply sats_doWhileLoop; try side
      | |- sat _ _ (doUntilLoop _ _ _ _) => apply sats_doUntilLoop; try side
      | |- sat _ _ (whileLoop _ _ _ _) => apply sats_whileLoop; try side
      | |- sat _ _ (forLoop _ _ _ _ _ _ _ _) => apply holds_forLoop
      | |- sat _ _ (call _ _ _ _ _ _) => apply holds_call; [apply IHe' | exact IHs']
      | |- sat _ _ (evaluate _ _ _ _) => apply IHe'
      end.
Qed.

End Frame.

(** X13. Scopes, in a program in which no two calls of user functions are
    evaluated together (by one [Promise.all]).  The execution of a
    statement leaves [this.environment] as it found it, and leaves every
    environment that existed before it with the bindings and the enclosing
    environment it had; only a declaration ([Declare], [Constant]) may
    change the environment it runs in, and no other.  So what the body of
    an [If], of a loop or of a called module or function declares is
    declared in an environment of its own.  The evaluation of an
    expression changes no environment that existed.  Neither stops for
    calls run together. *)
Theorem declarations_are_scoped shouldStop (stmts : list Statement) fuel :
  sequential_program stmts = true ->
  let this := new_Interpreter stmts in
  (forall stmt s,
     sequential_stmt stmt = true ->
     match executeStatementGenerator shouldStop this fuel stmt s with
     | Ok _ s' | Throw _ s' =>
         environment s' = environment s
         /\ forall i, i < length (environments s) ->
              is_variable_declaration stmt = false \/ i <> environment s ->
              environments s' !! i = environments s !! i
     | Halt h _ => h <> Interleaved
     end)
  /\ (forall e s,
        sequential e = true ->
        match evaluate shouldStop this fuel e s with
        | Ok _ s' | Throw _ s' =>
            environment s' = environment s
            /\ forall i, i < length (environments s) ->
                 environments s' !! i = environments s !! i
        | Halt h _ => h <> Interleaved
        end).
Proof.
  intros Hseq this.
  pose proof (CalmFacts.calm_evaluate_exec shouldStop this
                (fun k m => CalmFacts.program_modules_sequential stmts k m Hseq)
                (fun k f => CalmFacts.program_functions_sequential stmts k f Hseq) fuel)
    as [Hce Hcs].
  split.
  - intros stmt s Hstmt.
    pose proof (proj2 (holds_evaluate_exec (length (environments s)) shouldStop this fuel)
                  stmt s) as H.
    pose proof (Hcs stmt Hstmt s) as Hc.
    assert (Hgoal : forall s', scope_frame (strictness stmt) (length (environments s)) s s' ->
              environment s' = environment s
              /\ forall i, i < length (environments s) ->
                   is_variable_declaration stmt = false \/ i <> environment s ->
                   environments s' !! i = environments s !! i).
    { intros s' F. destruct (F (Nat.le_refl _)) as (_ & E & Fr).
      split; [exact E|]. intros i Hi Hc'. apply Fr; [exact Hi|].
      unfold strictness. destruct Hc' as [-> | Hc']; auto. }
    destruct (executeStatementGenerator shouldStop this fuel stmt s) as [a s'|x s'|h s'].
    + apply Hgoal, H.
    + apply Hgoal, H.
    + intros ->. now apply (Hc s').
  - intros e s He.
    pose proof (proj1 (holds_evaluate_exec (length (environments s)) shouldStop this fuel)
                  e s) as H.
    pose proof (Hce e He s) as Hc.
    assert (Hgoal : forall s', scope_frame true (length (environments s)) s s' ->
              environment s' = environment s
              /\ forall i, i < length (environments s) ->
                   environments s' !! i = environments s !! i).
    { intros s' F. destruct (F (Nat.le_refl _)) as (_ & E & Fr).
      split; [exact E|]. intros i Hi. apply Fr; auto. }
    destruct (evaluate shouldStop this fuel e s) as [a s'|x s'|h s'].
    + apply Hgoal, H.
    + apply Hgoal, H.
    + intros ->. now apply (Hc s').
Qed.

(** At a program with a global and two modules. *)
Lemma declarations_are_scoped_witness :
  sequential_program entry_demo = true
  /\ (forall stmt s,
        sequential_stmt stmt = true ->
        match executeStatementGenerator never_stop (new_Interpreter entry_demo) 5 stmt s with
        | Ok _ s' | Throw _ s' =>
            environment s' = environment s
            /\ forall i, i < length (environments s) ->
                 is_variable_declaration stmt = false \/ i <> environment s ->
                 environments s' !! i = environments s !! i
        | Halt h _ => h <> Interleaved
        end).
Proof.
  split; [reflexivity|].
  exact (proj1 (declarations_are_scoped never_stop entry_demo 5 eq_refl)).
Defined.

End ScopeFacts.

(** ** Input validation and the built-in tests *)

Module InputLaws.
Import Text JS Ops Ast Run Interp RunSpec FormatterSpec NumFacts InputFacts.

Lemma Z_chars_integer_text z : integer_text (Z_chars z).
Proof.
  destruct z as [|p|p]; cbn [Z_chars].
  - exists [], ["0"%char]. repeat split; [now left | discriminate].
  - exists [], (N_chars (Npos p)).
    repeat split; [now left | apply N_chars_nonempty | apply uint_chars_digits].
  - exists ["-"%char], (N_chars (Npos p)).
    repeat split; [now right | apply N_chars_nonempty | apply uint_chars_digits].
Qed.

Lemma integer_value_Z_chars z : integer_value (Z_chars z) = z.
Proof.
  destruct z as [|p|p]; cbn [Z_chars].
  - reflexivity.
  - unfold integer_value.
    pose proof (N_chars_nonempty p) as Hne.
    pose proof (uint_chars_digits (N.to_uint (Npos p))) as Hd.
    fold (N_chars (Npos p)) in Hd.
    destruct (N_chars (Npos p)) as [|c r] eqn:E; [congruence|].
    simpl in Hd. apply andb_true_iff in Hd as [Hc _].
    destruct (digit_not_sign _ Hc) as [-> _].
    rewrite <- E, digits_value_N_chars. reflexivity.
  - unfold integer_value. change (eq_char "-" "-") with true. cbv iota.
    now rewrite digits_value_N_chars.
Qed.

Lemma integer_text_trimmed t : integer_text t -> trim t = t.
Proof.
  intros (sign & digits & -> & Hs & Hne & Hd). apply trim_no_space.
  rewrite forallb_app, (digits_no_space _ Hd), andb_true_r.
  destruct Hs as [-> | ->]; reflexivity.
Qed.

Lemma take_digits_spec s ip r :
  take_digits s = (ip, r) ->
  s = ip ++ r /\ forallb is_digit ip = true
  /\ match r with c :: _ => is_digit c = false | [] => True end.
Proof.
  revert ip r. induction s as [|c s IH]; intros ip r; simpl.
  - intros [= <- <-]. auto.
  - destruct (is_digit c) eqn:Hc.
    + destruct (take_digits s) as [v rest]. intros [= <- <-].
      destruct (IH v rest eq_refl) as (-> & Hv & Hr).
      repeat split; [simpl; now rewrite Hc | exact Hr].
    + intros [= <- <-]. auto.
Qed.

Lemma matches_real_integer_text t : integer_text t -> BuiltIn.matches_real t = true.
Proof.
  intros (sign & digits & -> & Hs & Hne & Hd). unfold BuiltIn.matches_real.
  assert (Ht : take_digits digits = (digits, [])) by now apply take_digits_all.
  destruct digits as [|c r]; [congruence|].
  assert (Hc : is_digit c = true) by (simpl in Hd; now apply andb_true_iff in Hd as [Hc _]).
  destruct Hs as [-> | ->].
  - cbn [app]. destruct (digit_not_sign _ Hc) as [Hm _]. rewrite Hm.
    cbv beta iota zeta. now rewrite Ht.
  - cbn [app]. change (eq_char "-" "-") with true.
    cbv beta iota zeta. now rewrite Ht.
Qed.

Lemma parseFloat_integer_text t :
  integer_text t -> parseFloat t = parseInt t.
Proof.
  intros Ht. unfold parseFloat, parseInt.
  rewrite (integer_text_no_leading_space t Ht).
  destruct Ht as (sign & digits & -> & Hs & Hne & Hd).
  assert (Hsign : read_sign (sign ++ digits)
                  = (match sign with [] => false | _ => true end, digits)).
  { destruct Hs as [-> | ->]; [now apply read_unsigned | reflexivity]. }
  rewrite Hsign, (read_mantissa_digits _ Hne Hd), (take_digits_all _ Hd).
  cbn [exponent_ahead].
  rewrite (double_comp _ _ (Qred_correct (inject_Z (Z.of_N (digits_value digits))))).
  destruct digits; [congruence | reflexivity].
Qed.

Lemma validate_real raw ty :
  toLowerCase ty = "real"%string ->
  fst (validateAndParseInput raw ty) = BuiltIn.matches_real (trim (of_string raw)).
Proof.
  intros Hty. unfold validateAndParseInput. rewrite Hty.
  change (String.eqb "real" "integer") with false.
  change (String.eqb "real" "real") with true. cbv iota.
  now destruct (BuiltIn.matches_real (trim (of_string raw))).
Qed.

(** X14. The [Input] statement and the built-in tests agree: a line is
    accepted for an Integer variable exactly when [isInteger] answers true
    on it, and for a Real variable exactly when [isReal] does; and a line
    accepted for an Integer variable is accepted for a Real one, with the
    same value. *)
Theorem input_agrees_with_builtins (line integer real : string) :
  toLowerCase integer = "integer"%string ->
  toLowerCase real = "real"%string ->
  BuiltIn.implementation "isinteger" [VString line]
  = BuiltIn.Returns (VBool (fst (validateAndParseInput line integer)))
  /\ BuiltIn.implementation "isreal" [VString line]
     = BuiltIn.Returns (VBool (fst (validateAndParseInput line real)))
  /\ (fst (validateAndParseInput line integer) = true ->
      validateAndParseInput line real = validateAndParseInput line integer).
Proof.
  intros Hi Hr. repeat split.
  - rewrite (validate_integer line integer Hi).
    cbn [BuiltIn.implementation BuiltIn.on_string to_string_value].
    now destruct (BuiltIn.matches_integer (trim (of_string line))).
  - rewrite (validate_real line real Hr). reflexivity.
  - rewrite (validate_integer line integer Hi).
    destruct (BuiltIn.matches_integer (trim (of_string line))) eqn:E; [|discriminate].
    intros _. apply matches_integer_spec in E.
    unfold validateAndParseInput. rewrite Hr.
    change (String.eqb "real" "integer") with false.
    change (String.eqb "real" "real") with true. cbv iota.
    rewrite (matches_real_integer_text _ E), (parseFloat_integer_text _ E).
    reflexivity.
Qed.

Lemma input_agrees_with_builtins_witness :
  BuiltIn.implementation "isinteger" [VString " -12 "]
  = BuiltIn.Returns (VBool (fst (validateAndParseInput " -12 " "Integer")))
  /\ BuiltIn.implementation "isreal" [VString " -12 "]
     = BuiltIn.Returns (VBool (fst (validateAndParseInput " -12 " "Real")))
  /\ (fst (validateAndParseInput " -12 " "Integer") = true ->
      validateAndParseInput " -12 " "Real" = validateAndParseInput " -12 " "Integer").
Proof.
  apply (input_agrees_with_builtins " -12 " "Integer" "Real"); reflexivity.
Defined.

(** X15. The decimal spelling of an integer of magnitude at most 2^53 is
    accepted by [Input], for an Integer and for a Real variable, and read
    as this integer; beyond, the value is the nearest double:
    9007199254740993 is read as 9007199254740992. *)
Theorem input_reads_decimal :
  (forall (z : Z) (ty : string),
     safe z ->
     toLowerCase ty = "integer"%string \/ toLowerCase ty = "real"%string ->
     validateAndParseInput (decimal z) ty = (true, PVal (VNumber (num z))))
  /\ validateAndParseInput "9007199254740993" "Integer"
     = (true, PVal (VNumber (num 9007199254740992)))
  /\ validateAndParseInput "9007199254740993" "Real"
     = (true, PVal (VNumber (num 9007199254740992))).
Proof.
  split; [|split; vm_compute; reflexivity].
  intros z ty Hz.
  assert (Hraw : trim (of_string (decimal z)) = Z_chars z).
  { unfold decimal, of_string, to_string.
    rewrite list_ascii_of_string_of_list_ascii.
    apply integer_text_trimmed, Z_chars_integer_text. }
  pose proof (Z_chars_integer_text z) as Ht.
  assert (Hv : parseInt (Z_chars z) = PVal (Some (num z))).
  { rewrite <- (integer_value_Z_chars z) at 2.
    apply parseInt_integer_text; [exact Ht | now rewrite integer_value_Z_chars]. }
  intros [Hty | Hty]; unfold validateAndParseInput; rewrite Hty, Hraw.
  - change (String.eqb "integer" "integer") with true. cbv iota.
    now rewrite (proj2 (matches_integer_spec _) Ht), Hv.
  - change (String.eqb "real" "integer") with false.
    change (String.eqb "real" "real") with true. cbv iota.
    now rewrite (matches_real_integer_text _ Ht), (parseFloat_integer_text _ Ht), Hv.
Qed.

Lemma input_reads_decimal_witness :
  validateAndParseInput (decimal (-2026)) "Real" = (true, PVal (VNumber (num (-2026)))).
Proof.
  pose proof input_reads_decimal as H. destruct H as [H _].
  refine (H (-2026)%Z "Real"%string _ _).
  - unfold safe. vm_compute. intros E; discriminate E.
  - right. reflexivity.
Defined.

End InputLaws.

(** ** Loops *)

Module LoopLaws.
Import Text JS Ops Ast Run Interp RunSpec MonadFacts FuelFacts.
Local Open Scope monad_scope.

Section Loops.
Variable shouldStop : nat -> bool.
Variable this : Interpreter.

Lemma evaluate_not fuel condition l s :
  evaluate shouldStop this (S fuel) (UnaryExpression "not" condition l) s
  = (v <- evaluate shouldStop this fuel condition ;;
     ret (VBool (negb (truthy v)))) s.
Proof. reflexivity. Qed.

Lemma doWhile_not_refines_doUntil k fuel condition l (body : M unit) :
  refines
    (doWhileLoop shouldStop k
       (evaluate shouldStop this fuel (UnaryExpression "not" condition l)) body)
    (doUntilLoop shouldStop k (evaluate shouldStop this fuel condition) body).
Proof.
  induction k as [|k IH]; [intros s []|].
  cbn [doWhileLoop doUntilLoop].
  apply refines_bind; [apply refines_refl|]. intros _.
  apply refines_bind; [apply refines_refl|]. intros _.
  intros s Hf. unfold bind in *.
  destruct fuel as [|fuel]; [destruct Hf|].
  rewrite evaluate_not in *. unfold bind, ret in *.
  pose proof (proj1 (refines_evaluate_exec shouldStop this fuel (S fuel) (Nat.le_succ_diag_r _))
                condition s) as Hmore.
  destruct (evaluate shouldStop this fuel condition s) as [v s1|e s1|h s1] eqn:E.
  - rewrite (Hmore I). cbn [truthy] in *.
    destruct (negb (truthy v)); [now apply IH | reflexivity].
  - now rewrite (Hmore I).
  - destruct h; [destruct Hf | now rewrite (Hmore I)..].
Qed.

Lemma doUntil_refines_doWhile_not k k' (C C' : M Value) (B B' : M unit) :
  k <= k' ->
  (forall s, C' s = (v <- C ;; ret (VBool (negb (truthy v)))) s) ->
  refines B B' ->
  refines (doUntilLoop shouldStop k C B) (doWhileLoop shouldStop k' C' B').
Proof.
  intros Hk HC HB. revert k' Hk.
  induction k as [|k IH]; intros k' Hk; [intros s []|].
  destruct k' as [|k']; [lia|].
  cbn [doWhileLoop doUntilLoop].
  apply refines_bind; [apply refines_refl|]. intros _.
  apply refines_bind; [exact HB|]. intros _.
  intros s Hf. unfold bind in *. rewrite HC. unfold bind, ret.
  destruct (C s) as [v s1|e s1|h s1]; try reflexivity.
  cbn [truthy]. destruct (negb (truthy v)); [|reflexivity].
  apply IH; [lia | exact Hf].
Qed.

(** X17. [Do ... Until c] is [Do ... While Not c]: whenever one of the
    two runs to an outcome, the other runs to the same outcome, through
    the same states and with the same step points, output and requests
    (the second needs one more unit of the model's fuel, for the
    [Not]). *)
Theorem do_until_is_do_while_not fuel condition body line l s :
  (final (executeStatementGenerator shouldStop this fuel
            (DoWhileStatement (UnaryExpression "not" condition l) body line) s) ->
   executeStatementGenerator shouldStop this fuel (DoUntilStatement condition body line) s
   = executeStatementGenerator shouldStop this fuel
       (DoWhileStatement (UnaryExpression "not" condition l) body line) s)
  /\ (final (executeStatementGenerator shouldStop this fuel
               (DoUntilStatement condition body line) s) ->
      executeStatementGenerator shouldStop this (S fuel)
        (DoWhileStatement (UnaryExpression "not" condition l) body line) s
      = executeStatementGenerator shouldStop this fuel
          (DoUntilStatement condition body line) s).
Proof.
  split; revert s.
  - change (refines
      (executeStatementGenerator shouldStop this fuel
         (DoWhileStatement (UnaryExpression "not" condition l) body line))
      (executeStatementGenerator shouldStop this fuel
         (DoUntilStatement condition body line))).
    destruct fuel as [|fuel]; [intros s []|].
    cbn [executeStatementGenerator stmt_line].
    apply refines_bind; [apply refines_refl|]. intros _.
    apply refines_bind; [apply refines_refl|]. intros _.
    apply doWhile_not_refines_doUntil.
  - change (refines
      (executeStatementGenerator shouldStop this fuel
         (DoUntilStatement condition body line))
      (executeStatementGenerator shouldStop this (S fuel)
         (DoWhileStatement (UnaryExpression "not" condition l) body line))).
    destruct fuel as [|fuel]; [intros s []|].
    cbn [executeStatementGenerator stmt_line].
    apply refines_bind; [apply refines_refl|]. intros _.
    apply refines_bind; [apply refines_refl|]. intros _.
    apply doUntil_refines_doWhile_not; [lia | intros s; apply evaluate_not |].
    apply refines_nested_block.
    apply (refines_evaluate_exec shouldStop this fuel (S fuel)). lia.
Qed.

End Loops.

Lemma do_until_is_do_while_not_witness :
  executeStatementGenerator never_stop (new_Interpreter []) 5
    (DoUntilStatement (Literal (LNumber (num 1)) 2) [] 1) (initial_state [])
  = executeStatementGenerator never_stop (new_Interpreter []) 5
      (DoWhileStatement (UnaryExpression "not" (Literal (LNumber (num 1)) 2) 2) [] 1)
      (initial_state [])
  /\ executeStatementGenerator never_stop (new_Interpreter []) 6
       (DoWhileStatement (UnaryExpression "not" (Literal (LNumber (num 1)) 2) 2) [] 1)
       (initial_state [])
     = executeStatementGenerator never_stop (new_Interpreter []) 5
         (DoUntilStatement (Literal (LNumber (num 1)) 2) [] 1) (initial_state []).
Proof.
  split.
  - refine (proj1 (do_until_is_do_while_not never_stop (new_Interpreter []) 5
                     (Literal (LNumber (num 1)) 2) [] 1 2 (initial_state [])) _).
    vm_compute. exact I.
  - refine (proj2 (do_until_is_do_while_not never_stop (new_Interpreter []) 5
                     (Literal (LNumber (num 1)) 2) [] 1 2 (initial_state [])) _).
    vm_compute. exact I.
Defined.

End LoopLaws.

(** ** Arrays *)

Module ArrayLaws.
Import Text JS Ops Ast Run Interp RunSpec NumFacts.
Local Open Scope monad_scope.

Lemma isInteger_num z : isInteger (num z) = true.
Proof. unfold isInteger, num. now rewrite Qred_inject_Z. Qed.

Lemma valid_index_num z len :
  valid_index (VNumber (num z)) len
  = if (0 <=? z)%Z && (z <? Z.of_nat len)%Z then Some (Z.to_nat z) else None.
Proof.
  unfold valid_index. rewrite isInteger_num.
  change (Qle_bool 0 (num z)) with (Qle_bool (num 0) (num z)).
  rewrite Qle_bool_num. unfold Qltb.
  change (inject_Z (Z.of_nat len)) with (num (Z.of_nat len)).
  rewrite Qle_bool_num. unfold num at 1. rewrite Qred_inject_Z. simpl Qnum.
  cbn [andb]. rewrite Z.ltb_antisym. reflexivity.
Qed.

(** X18. Array elements.  An array of [size] elements has the indices 0
    to [size - 1]: an access with an integer index succeeds exactly within
    these bounds and fails with an out-of-bounds error otherwise, as does
    an index that is not a whole number; an access to a value that is not
    an array fails.  After a write within bounds the element written holds
    the value, every other element and the size are as before. *)
Theorem array_access_in_bounds ref a s (Ha : arrays s !! ref = Some a) :
  (forall z line,
     check_access (VArray ref) (VNumber (num z)) line s
     = if (0 <=? z)%Z && (z <? Z.of_nat (length a))%Z
       then Ok (ref, Z.to_nat z) s
       else Throw (InterpreterError (IndexOutOfBounds (VNumber (num z)) (length a)) line) s)
  /\ (forall q line,
        isInteger q = false ->
        check_access (VArray ref) (VNumber q) line s
        = Throw (InterpreterError (IndexOutOfBounds (VNumber q) (length a)) line) s)
  /\ (forall v index line,
        is_array v = false ->
        check_access v index line s = Throw (InterpreterError NotAnArray line) s)
  /\ (forall index v,
        index < length a ->
        exists s' a',
          write_array ref index v s = Ok tt s'
          /\ read_array ref s' = Ok a' s'
          /\ a' !! index = Some v
          /\ length a' = length a
          /\ forall j, j <> index -> a' !! j = a !! j).
Proof.
  split; [|split; [|split]].
  - intros z line. unfold check_access, bind, read_array. cbv beta.
    rewrite Ha, valid_index_num.
    now destruct ((0 <=? z)%Z && (z <? Z.of_nat (length a))%Z).
  - intros q line Hq. unfold check_access, bind, read_array. cbv beta. rewrite Ha.
    unfold valid_index. now rewrite Hq.
  - intros v index line Hv. destruct v; try reflexivity. discriminate.
  - intros index v Hi.
    exists (set_arrays (fun l => <[ref := <[index := v]> a]> l) s), (<[index := v]> a).
    repeat split.
    + unfold write_array, modify, set_arrays. cbv beta. now rewrite Ha.
    + unfold read_array. simpl.
      now rewrite list_lookup_insert_eq by (eapply lookup_lt_Some; eassumption).
    + now apply list_lookup_insert_eq.
    + apply length_insert.
    + intros j Hj. now apply list_lookup_insert_ne.
Qed.

Lemma array_access_in_bounds_witness :
  check_access (VArray 0) (VNumber (num 2)) 4
    (mkState [] [mkEnvironment [] None] [[VNull; VNull; VNull]] 0 [] [] 0 false)
  = Ok (0, 2)
      (mkState [] [mkEnvironment [] None] [[VNull; VNull; VNull]] 0 [] [] 0 false)
  /\ check_access (VArray 0) (VNumber (num 3)) 4
       (mkState [] [mkEnvironment [] None] [[VNull; VNull; VNull]] 0 [] [] 0 false)
     = Throw (InterpreterError (IndexOutOfBounds (VNumber (num 3)) 3) 4)
         (mkState [] [mkEnvironment [] None] [[VNull; VNull; VNull]] 0 [] [] 0 false).
Proof.
  split.
  - exact (proj1 (array_access_in_bounds 0 [VNull; VNull; VNull]
                    (mkState [] [mkEnvironment [] None] [[VNull; VNull; VNull]]
                       0 [] [] 0 false) eq_refl) 2%Z 4).
  - exact (proj1 (array_access_in_bounds 0 [VNull; VNull; VNull]
                    (mkState [] [mkEnvironment [] None] [[VNull; VNull; VNull]]
                       0 [] [] 0 false) eq_refl) 3%Z 4).
Defined.

End ArrayLaws.

(** ** Expressions without calls of user functions *)

Module PureLaws.
Import Text JS Ops Ast Run Interp RunSpec InvariantSpec InvariantFacts.
Local Open Scope monad_scope.

Lemma only_allocates_refl s : only_allocates s s.
Proof. exists []. destruct s. unfold set_arrays. simpl. now rewrite app_nil_r. Qed.

Lemma only_allocates_trans s1 s2 s3 :
  only_allocates s1 s2 -> only_allocates s2 s3 -> only_allocates s1 s3.
Proof.
  intros [m1 ->] [m2 ->]. exists (m1 ++ m2).
  unfold set_arrays. simpl. now rewrite app_assoc.
Qed.

Section Lists.
Variable R : State -> State -> Prop.
Variable allowed : Exn -> Prop.
Hypothesis R_refl : forall s, R s s.
Hypothesis R_trans : forall s1 s2 s3, R s1 s2 -> R s2 s3 -> R s1 s3.

Lemma sat_map_m_each {A B} (f : A -> M B) l :
  Forall (fun x => sat R allowed (f x)) l -> sat R allowed (map_m f l).
Proof.
  induction 1 as [|x l Hx _ IH]; simpl; [now apply sat_ret|].
  apply sat_bind; [exact R_trans | exact Hx |]. intros b.
  apply sat_bind; [exact R_trans | exact IH |]. intros bs. now apply sat_ret.
Qed.

Lemma sat_all_settled_each eval es :
  Forall (fun e => sat R allowed (eval e)) es -> sat R allowed (all_settled eval es).
Proof.
  induction 1 as [|e es He _ IH]; simpl; [now apply sat_ret|].
  intros s. specialize (He s). destruct (eval e s) as [v s1|x s1|h s1]; auto.
  - specialize (IH s1).
    destruct (all_settled eval es s1) as [vs s2|x s2|h s2]; [|destruct IH|]; eauto.
  - destruct (others eval es s1); simpl; auto.
Qed.

Lemma sat_promise_all_each eval es :
  Forall (fun e => sat R allowed (eval e)) es -> sat R allowed (promise_all eval es).
Proof.
  intros H. unfold promise_all.
  destruct es as [|e [|e' es]]; try (now apply sat_map_m_each).
  destruct (existsb _ _); [apply sat_halt | now apply sat_all_settled_each].
Qed.

End Lists.

Lemma existsb_false_Forall {A} (p : A -> bool) l :
  existsb p l = false -> Forall (fun x => p x = false) l.
Proof.
  induction l as [|x l IH]; simpl; [constructor|].
  intros H. apply orb_false_iff in H as [Hx Hl]. constructor; auto.
Qed.

Section Pure.
Variable shouldStop : nat -> bool.
Variable this : Interpreter.

Local Abbreviation pure := (sat only_allocates any_exception).

Ltac side :=
  first [ exact only_allocates_refl | exact only_allocates_trans | intros; exact I ].

Lemma pure_reads {A} (m : M A) : reads m -> pure m.
Proof. apply sat_reader; side. Qed.

Lemma pure_evaluate fuel :
  forall e, calls_user_function e = false -> pure (evaluate shouldStop this fuel e).
Proof.
  induction fuel as [|fuel IH]; intros e He; [apply sat_halt|].
  assert (IHs : forall es, existsb calls_user_function es = false ->
                  Forall (fun e => pure (evaluate shouldStop this fuel e)) es).
  { intros es Hes. apply existsb_false_Forall in Hes.
    eapply List.Forall_impl; [|exact Hes]. intros x Hx. now apply IH. }
  destruct e; cbn [evaluate]; cbn [calls_user_function] in He.
  - apply pure_reads, reads_lift.
  - apply sat_bind; [side | | intros vs; intros s; now exists [vs]].
    apply sat_promise_all_each; [side | side | now apply IHs].
  - apply sat_bind; [side | apply pure_reads, reads_current |]. intros env.
    apply pure_reads, reads_get.
  - apply orb_false_iff in He as [H1 H2].
    apply sat_bind; [side | now apply IH |]. intros l.
    apply sat_bind; [side | now apply IH |]. intros r.
    apply pure_reads, reads_binary.
  - apply sat_bind; [side | now apply IH |]. intros r. apply pure_reads, reads_unary.
  - now apply IH.
  - cbv zeta. destruct (BuiltIn.argCount (toLowerCase callee)) as [expected|];
      [|discriminate].
    destruct (negb _); [apply sat_throw; [side | exact I]|].
    apply sat_bind; [side | apply sat_promise_all_each; [side | side | now apply IHs] |].
    intros vs. destruct (BuiltIn.implementation _ vs);
      [apply sat_ret; side | apply sat_throw; [side | exact I] | apply sat_halt].
  - apply orb_false_iff in He as [H1 H2].
    apply sat_bind; [side | now apply IH |]. intros a.
    apply sat_bind; [side | now apply IH |]. intros i.
    apply sat_bind; [side | apply pure_reads, reads_check_access |]. intros ri.
    apply sat_bind; [side | apply pure_reads, reads_read_array |]. intros arr.
    destruct (arr !! snd ri); [apply sat_ret; side | apply sat_halt].
Qed.

(** X19. An expression that calls no user function has no effect: its
    evaluation polls no stop signal, displays nothing, asks for nothing,
    changes no variable, no environment and no array; at most it creates
    arrays (those of its array literals).  Calls of built-in functions
    are of this kind. *)
Theorem expressions_without_calls_are_pure fuel e s :
  calls_user_function e = false ->
  match evaluate shouldStop this fuel e s with
  | Ok _ s' | Throw _ s' => only_allocates s s'
  | Halt _ _ => True
  end.
Proof.
  intros He. pose proof (pure_evaluate fuel e He s) as H.
  destruct (evaluate shouldStop this fuel e s); tauto.
Qed.

End Pure.

Lemma expressions_without_calls_are_pure_witness :
  match evaluate never_stop (new_Interpreter []) 5
          (FunctionCall "length" [Literal (LString "abc") 1] 1) (initial_state []) with
  | Ok _ s' | Throw _ s' => only_allocates (initial_state []) s'
  | Halt _ _ => True
  end.
Proof.
  exact (expressions_without_calls_are_pure never_stop (new_Interpreter []) 5
           (FunctionCall "length" [Literal (LString "abc") 1] 1) (initial_state [])
           eq_refl).
Defined.

End PureLaws.

(** ** The parser comes to an end *)

Module ParserFacts.
Import Text Types Lexer JS Ast Parser ParserSpec.
Local Open Scope parser_scope.

Lemma TokenType_eqb_eq a b : TokenType_eqb a b = true <-> a = b.
Proof. unfold TokenType_eqb. destruct (TokenType_eq_dec a b); split; congruence. Qed.

Lemma TokenType_eqb_neq a b : TokenType_eqb a b = false <-> a <> b.
Proof. unfold TokenType_eqb. destruct (TokenType_eq_dec a b); split; congruence. Qed.

(** *** Closed token lists *)

Lemma closed_cons ts : closed ts -> exists t ts', ts = t :: ts'.
Proof.
  intros (body & e & -> & _ & _). destruct body as [|t body]; simpl; eauto.
Qed.

Lemma closed_length ts : closed ts -> 1 <= length ts.
Proof. intros H. destruct (closed_cons ts H) as (t & ts' & ->). simpl. lia. Qed.

Lemma closed_tail t ts : closed (t :: ts) -> type t <> EOF -> closed ts.
Proof.
  intros (body & e & E & He & Hb) Ht.
  destruct body as [|b body]; simpl in E; injection E as E1 E2; subst; [contradiction|].
  inversion Hb; subst. now exists body, e.
Qed.

Lemma closed_at_end t ts : closed (t :: ts) -> type t = EOF -> at_end (t :: ts).
Proof.
  intros (body & e & E & He & Hb) Ht.
  destruct body as [|b body]; simpl in E; injection E as E1 E2; subst.
  - eexists. split; [reflexivity | assumption].
  - inversion Hb; subst. tauto.
Qed.

(** *** Results *)

Lemma fine_weaken {A} n n' (Q Q' : A -> list Token -> Prop) r :
  fine n Q r -> n <= n' -> (forall a rest, Q a rest -> Q' a rest) -> fine n' Q' r.
Proof.
  destruct r as [a rest| |]; simpl; auto.
  intros (H1 & H2 & H3) Hn HQ. repeat split; auto. lia.
Qed.

Lemma fine_bind {A B} n Q (m : P A) (k : A -> P B) n' Q' ts :
  fine n Q (m ts) ->
  (forall a rest, closed rest -> length rest <= n -> Q a rest -> fine n' Q' (k a rest)) ->
  fine n' Q' (pbind m k ts).
Proof.
  unfold pbind. destruct (m ts) as [a rest| |]; simpl; auto.
  intros (H1 & H2 & H3) Hk. now apply Hk.
Qed.

Lemma fine_pret {A} (a : A) n (Q : A -> list Token -> Prop) ts :
  closed ts -> length ts <= n -> Q a ts -> fine n Q (pret a ts).
Proof. simpl. auto. Qed.

(** *** The primitives *)

Lemma peek_fine ts :
  closed ts -> fine (length ts) (fun t rest => rest = ts /\ head ts = Some t) (peek ts).
Proof.
  intros H. destruct (closed_cons ts H) as (t & ts' & ->). simpl. auto.
Qed.

Lemma check_fine ty ts :
  closed ts -> fine (length ts) (fun _ rest => rest = ts) (check ty ts).
Proof.
  intros H. destruct (closed_cons ts H) as (t & ts' & ->). simpl. auto.
Qed.

Lemma isAtEnd_fine ts :
  closed ts ->
  fine (length ts) (fun b rest => rest = ts /\ (b = true -> at_end ts)) (isAtEnd ts).
Proof.
  intros H. destruct (closed_cons ts H) as (t & ts' & ->). simpl.
  repeat split; auto. intros Ht. apply TokenType_eqb_eq in Ht. now apply closed_at_end.
Qed.

Lemma advance_fine t ts :
  closed (t :: ts) -> type t <> EOF ->
  fine (length ts) (fun t' rest => t' = t /\ rest = ts) (advance (t :: ts)).
Proof.
  intros H Ht. simpl. apply TokenType_eqb_neq in Ht as Hb. rewrite Hb. simpl.
  repeat split; auto. now apply closed_tail in H.
Qed.

Lemma fail_here_fine {A} (message : Token -> ParseMessage) n (Q : A -> list Token -> Prop) ts :
  closed ts -> fine n Q (fail_here message ts).
Proof. intros H. destruct (closed_cons ts H) as (t & ts' & ->). exact I. Qed.

(** A match leaves the list as it is or takes one token. *)
Lemma match_fine types ts :
  closed ts ->
  fine (length ts)
    (fun o rest => match o with
                   | Some _ => S (length rest) = length ts
                   | None => rest = ts
                   end)
    (match_ types ts).
Proof.
  intros H. destruct (closed_cons ts H) as (t & ts' & ->).
  unfold match_, pbind, peek.
  destruct (negb (TokenType_eqb (type t) EOF) && existsb (TokenType_eqb (type t)) types)
    eqn:E; [|simpl; auto].
  apply andb_true_iff in E as [E _]. apply negb_true_iff in E.
  cbn [advance]. rewrite E. simpl. repeat split; auto.
  apply TokenType_eqb_neq in E. now apply closed_tail in H.
Qed.

Lemma consume_fine ty ts :
  closed ts -> fine (length ts - 1) anything (consume ty ts).
Proof.
  intros H. destruct (closed_cons ts H) as (t & ts' & ->).
  unfold consume, check, pbind, peek, pret.
  destruct (negb (TokenType_eqb (type t) EOF) && TokenType_eqb (type t) ty) eqn:E;
    [|exact I].
  apply andb_true_iff in E as [E _]. apply negb_true_iff in E.
  cbn [advance]. rewrite E. simpl. rewrite Nat.sub_0_r. repeat split; auto.
  apply TokenType_eqb_neq in E. now apply closed_tail in H.
Qed.

Lemma consumeOneOf_fine types ts :
  closed ts -> fine (length ts - 1) anything (consumeOneOf types ts).
Proof.
  intros H. destruct (closed_cons ts H) as (t & ts' & ->).
  unfold consumeOneOf, pbind, peek.
  destruct (negb (TokenType_eqb (type t) EOF) && existsb (TokenType_eqb (type t)) types)
    eqn:E; [|exact I].
  apply andb_true_iff in E as [E _]. apply negb_true_iff in E.
  cbn [advance]. rewrite E. simpl. rewrite Nat.sub_0_r. repeat split; auto.
  apply TokenType_eqb_neq in E. now apply closed_tail in H.
Qed.

(** *** Sequences of parsers *)

Ltac note_lengths :=
  repeat match goal with
  | H : closed ?l |- _ =>
      lazymatch goal with
      | _ : 1 <= length l |- _ => fail
      | _ => pose proof (closed_length l H)
      end
  end.

Ltac lens := note_lengths; simpl length in *; lia.

(** The first parser of a sequence is settled by [tac]. *)
Ltac step tac :=
  eapply fine_bind; [tac | intros ? ? ? ? ?].

(** The last parser of a sequence is settled by [tac]. *)
Ltac close tac :=
  eapply fine_weaken; [tac | lens | intros; exact I].

Ltac returns := apply fine_pret; [assumption | lens | exact I].

Ltac by_lemma L := apply L; [assumption | try lens ..].

Ltac matched types :=
  eapply fine_bind;
  [ apply (match_fine types); assumption
  | let o := fresh "o" in
    let H := fresh "Hm" in
    intros o ? ? ? H; destruct o; cbn beta iota in H; [|subst] ].

Ltac consumed := step ltac:(apply consume_fine; assumption).

(** *** Expressions *)

Lemma comma_list_fine {A} fuel (item : P A) ts :
  closed ts -> length ts < fuel ->
  (forall ts', closed ts' -> length ts' <= length ts ->
               fine (length ts' - 1) anything (item ts')) ->
  fine (length ts - 1) anything (comma_list fuel item ts).
Proof.
  revert ts. induction fuel as [|fuel IH]; intros ts Hc Hf Hitem; [lia|].
  cbn [comma_list].
  step ltac:(apply Hitem; [assumption | lia]).
  matched [COMMA].
  - step ltac:(apply IH; [assumption | lens | intros; apply Hitem; [assumption | lens]]).
    returns.
  - returns.
Qed.

Lemma parseArguments_with_fine fuel expression ts :
  closed ts -> length ts < fuel ->
  (forall ts', closed ts' -> length ts' <= length ts ->
               fine (length ts' - 1) anything (expression ts')) ->
  fine (length ts) anything (parseArguments_with fuel expression ts).
Proof.
  intros Hc Hf He. unfold parseArguments_with.
  eapply fine_bind; [apply check_fine; assumption | intros closing ? _ _ ->].
  destruct closing; [returns|].
  close ltac:(apply comma_list_fine; assumption).
Qed.

Lemma number_of_token_fine t ts :
  closed ts -> fine (length ts) anything (number_of_token t ts).
Proof.
  intros Hc. unfold number_of_token.
  destruct (parseFloat (of_string (value t))) as [[q|]|]; returns.
Qed.

Lemma parsePrimary_with_fine expression ts :
  closed ts ->
  (forall ts', closed ts' -> length ts' < length ts ->
               fine (length ts' - 1) anything (expression ts')) ->
  fine (length ts - 1) anything (parsePrimary_with expression ts).
Proof.
  intros Hc He. destruct (closed_cons ts Hc) as (t & ts' & ->).
  unfold parsePrimary_with. unfold pbind at 1. cbn [peek].
  destruct (type t) eqn:Et; try (apply fail_here_fine; assumption).
  all: eapply fine_bind;
    [ apply advance_fine; [assumption | congruence]
    | intros ? rest Hrest Hl [-> ->] ].
  all: lazymatch goal with
       | _ : type _ = NUMBER |- _ =>
           close ltac:(apply number_of_token_fine; assumption)
       | _ : type _ = LPAREN |- _ =>
           step ltac:(apply He; [assumption | lens]); consumed; returns
       | _ => returns
       end.
Qed.

Lemma postfix_loop_fine N fuel expression expr ts :
  closed ts -> length ts < fuel -> length ts <= S N ->
  (forall ts', closed ts' -> length ts' <= N ->
               fine (length ts' - 1) anything (expression ts')) ->
  fine (length ts) anything (postfix_loop fuel expression expr ts).
Proof.
  revert expr ts. induction fuel as [|fuel IH]; intros expr ts Hc Hf HN He; [lia|].
  cbn [postfix_loop].
  matched [LPAREN].
  - destruct expr; try exact I.
    step ltac:(apply parseArguments_with_fine;
               [assumption | lens | intros; apply He; [assumption | lens]]).
    consumed.
    close ltac:(apply IH; [assumption | lens | lens | assumption]).
  - matched [LBRACKET].
    + step ltac:(apply He; [assumption | lens]).
      consumed.
      close ltac:(apply IH; [assumption | lens | lens | assumption]).
    + returns.
Qed.

Lemma parsePostfix_with_fine N fuel expression ts :
  closed ts -> length ts <= fuel -> length ts <= S N ->
  (forall ts', closed ts' -> length ts' <= N ->
               fine (length ts' - 1) anything (expression ts')) ->
  fine (length ts - 1) anything (parsePostfix_with fuel expression ts).
Proof.
  intros Hc Hf HN He. unfold parsePostfix_with.
  step ltac:(apply parsePrimary_with_fine;
             [assumption | intros; apply He; [assumption | lens]]).
  close ltac:(apply (postfix_loop_fine N); [assumption | lens | lens | assumption]).
Qed.

Lemma parseUnary_with_fine N fuel expression ts :
  closed ts -> length ts < fuel -> length ts <= S N ->
  (forall ts', closed ts' -> length ts' <= N ->
               fine (length ts' - 1) anything (expression ts')) ->
  fine (length ts - 1) anything (parseUnary_with fuel expression ts).
Proof.
  revert ts. induction fuel as [|fuel IH]; intros ts Hc Hf HN He; [lia|].
  cbn [parseUnary_with].
  matched [MINUS; NOT].
  - step ltac:(apply IH; [assumption | lens | lens | assumption]).
    returns.
  - close ltac:(apply (parsePostfix_with_fine N); [assumption | lens | lens | assumption]).
Qed.

Lemma binary_loop_fine fuel operand ops operator_of expr ts :
  closed ts -> length ts < fuel ->
  (forall ts', closed ts' -> length ts' <= length ts ->
               fine (length ts' - 1) anything (operand ts')) ->
  fine (length ts) anything (binary_loop fuel operand ops operator_of expr ts).
Proof.
  revert expr ts. induction fuel as [|fuel IH]; intros expr ts Hc Hf Ho; [lia|].
  cbn [binary_loop].
  matched ops.
  - step ltac:(apply Ho; [assumption | lens]).
    close ltac:(apply IH; [assumption | lens | intros; apply Ho; [assumption | lens]]).
  - returns.
Qed.

Lemma binary_level_fine fuel operand ops operator_of ts :
  closed ts -> length ts <= fuel ->
  (forall ts', closed ts' -> length ts' <= length ts ->
               fine (length ts' - 1) anything (operand ts')) ->
  fine (length ts - 1) anything (binary_level fuel operand ops operator_of ts).
Proof.
  intros Hc Hf Ho. unfold binary_level.
  step ltac:(apply Ho; [assumption | lia]).
  close ltac:(apply binary_loop_fine;
              [assumption | lens | intros; apply Ho; [assumption | lens]]).
Qed.

Section Levels.
Variables (N fuel : nat) (expression : P Expression).
Hypothesis expression_fine :
  forall ts', closed ts' -> length ts' <= N ->
              fine (length ts' - 1) anything (expression ts').

Ltac level below :=
  intros; apply binary_level_fine;
  [assumption | lens | intros; apply below; [assumption | lens ..]].

Lemma parseFactor_with_fine ts :
  closed ts -> length ts < fuel -> length ts <= S N ->
  fine (length ts - 1) anything (parseFactor_with fuel expression ts).
Proof.
  intros; apply binary_level_fine;
  [assumption | lens
  | intros; apply (parseUnary_with_fine N); [assumption | lens | lens | assumption]].
Qed.

Lemma parseTerm_with_fine ts :
  closed ts -> length ts < fuel -> length ts <= S N ->
  fine (length ts - 1) anything (parseTerm_with fuel expression ts).
Proof. level parseFactor_with_fine. Qed.

Lemma parseComparison_with_fine ts :
  closed ts -> length ts < fuel -> length ts <= S N ->
  fine (length ts - 1) anything (parseComparison_with fuel expression ts).
Proof. level parseTerm_with_fine. Qed.

Lemma parseEquality_with_fine ts :
  closed ts -> length ts < fuel -> length ts <= S N ->
  fine (length ts - 1) anything (parseEquality_with fuel expression ts).
Proof. level parseComparison_with_fine. Qed.

Lemma parseAnd_with_fine ts :
  closed ts -> length ts < fuel -> length ts <= S N ->
  fine (length ts - 1) anything (parseAnd_with fuel expression ts).
Proof. level parseEquality_with_fine. Qed.

Lemma parseOr_with_fine ts :
  closed ts -> length ts < fuel -> length ts <= S N ->
  fine (length ts - 1) anything (parseOr_with fuel expression ts).
Proof. level parseAnd_with_fine. Qed.

End Levels.

Lemma parseExpression_fine fuel ts :
  closed ts -> length ts + 2 <= fuel ->
  fine (length ts - 1) anything (parseExpression fuel ts).
Proof.
  revert ts. induction fuel as [|fuel IH]; intros ts Hc Hf; [lia|].
  cbn [parseExpression].
  apply (parseOr_with_fine (length ts - 1)); [|assumption|lia|lens].
  intros ts' Hc' Hl. apply IH; [assumption | lens].
Qed.

Lemma parsePostfix_fine fuel ts :
  closed ts -> length ts + 1 <= fuel ->
  fine (length ts - 1) anything (parsePostfix fuel ts).
Proof.
  intros Hc Hf. apply (parsePostfix_with_fine (length ts - 1)); [assumption|lia|lens|].
  intros ts' Hc' Hl. apply parseExpression_fine; [assumption | lens].
Qed.

Lemma parseArguments_fine fuel ts :
  closed ts -> length ts + 2 <= fuel ->
  fine (length ts) anything (parseArguments fuel ts).
Proof.
  intros Hc Hf. apply parseArguments_with_fine; [assumption|lia|].
  intros ts' Hc' Hl. apply parseExpression_fine; [assumption | lens].
Qed.

(** *** Statements *)

Lemma fine_bind_assoc {A B C} n Q (m : P A) (k : A -> P B) (k' : B -> P C) ts :
  fine n Q (pbind m (fun a => pbind (k a) k') ts) ->
  fine n Q (pbind (pbind m k) k' ts).
Proof. unfold pbind. destruct (m ts); auto. Qed.

Ltac nest := apply fine_bind_assoc.

Lemma fine_kept {A} (a : A) ts :
  closed ts -> fine (length ts) (fun a' _ => a' = a) (pret a ts).
Proof. intros H. apply fine_pret; [assumption | lia | reflexivity]. Qed.

Ltac kept :=
  eapply fine_bind; [apply fine_kept; assumption | intros ? ? ? ? ->].

Ltac peeked :=
  eapply fine_bind; [apply peek_fine; assumption | intros ? ? _ _ [-> _]].

Ltac expr :=
  step ltac:(apply parseExpression_fine; [assumption | lens]).

Ltac exprs :=
  step ltac:(apply comma_list_fine;
             [ assumption | lens
             | intros; apply parseExpression_fine; [assumption | lens] ]).

Lemma parseParameter_fine ts :
  closed ts -> fine (length ts - 1) anything (parseParameter ts).
Proof.
  intros Hc. unfold parseParameter.
  matched [REF]; matched [INTEGER_TYPE; REAL_TYPE; STRING_TYPE].
  1, 2: kept.
  3, 4: matched [REF].
  all: consumed; matched [LBRACKET]; [nest; consumed; kept | kept]; returns.
Qed.

Lemma parseParameters_fine fuel ts :
  closed ts -> length ts < fuel ->
  fine (length ts) anything (parseParameters fuel ts).
Proof.
  intros Hc Hf. unfold parseParameters.
  eapply fine_bind; [apply check_fine; assumption | intros closing ? _ _ ->].
  destruct closing; [returns|].
  close ltac:(apply comma_list_fine;
              [assumption | lia | intros; apply parseParameter_fine; assumption]).
Qed.

Lemma block_until_fine fuel statement stops ts :
  closed ts -> length ts < fuel ->
  (forall ts', closed ts' -> length ts' <= length ts ->
               fine (length ts' - 1) anything (statement ts')) ->
  fine (length ts) anything (block_until fuel statement stops ts).
Proof.
  revert ts. induction fuel as [|fuel IH]; intros ts Hc Hf Hs; [lia|].
  cbn [block_until]. peeked.
  destruct (_ || _); [returns|].
  step ltac:(apply Hs; [assumption | lia]).
  step ltac:(apply IH; [assumption | lens | intros; apply Hs; [assumption | lens]]).
  returns.
Qed.

Ltac statements Hs :=
  step ltac:(apply block_until_fine;
             [assumption | lens | intros; apply Hs; [assumption | lens]]).

Lemma parseDeclarator_fine fuel ts :
  closed ts -> length ts + 2 <= fuel ->
  fine (length ts - 1) anything (parseDeclarator fuel ts).
Proof.
  intros Hc Hf. unfold parseDeclarator.
  consumed. matched [LBRACKET].
  - nest. expr. nest. consumed. kept.
    matched [ASSIGN].
    + nest. peeked. nest. exprs. kept. returns.
    + kept. returns.
  - kept. matched [ASSIGN].
    + nest. expr. kept. returns.
    + kept. returns.
Qed.

Lemma parseVariableDeclaration_fine fuel ts :
  closed ts -> length ts + 2 <= fuel ->
  fine (length ts - 1) anything (parseVariableDeclaration fuel ts).
Proof.
  intros Hc Hf. unfold parseVariableDeclaration. peeked. cbv zeta.
  step ltac:(destruct (TokenType_eqb _ CONSTANT); apply consume_fine; assumption).
  step ltac:(apply consumeOneOf_fine; assumption).
  step ltac:(apply comma_list_fine;
             [ assumption | lens
             | intros; apply parseDeclarator_fine; [assumption | lens] ]).
  returns.
Qed.

Lemma parseAssignment_fine fuel ts :
  closed ts -> length ts + 2 <= fuel ->
  fine (length ts - 1) anything (parseAssignment fuel ts).
Proof.
  intros Hc Hf. unfold parseAssignment.
  consumed.
  step ltac:(apply parsePostfix_fine; [assumption | lens]).
  match goal with |- context [match ?a with _ => _ end] => destruct a end; try exact I.
  all: consumed; expr; returns.
Qed.

Lemma display_items_fine fuel first ts :
  closed ts -> length ts + 2 < fuel ->
  fine (length ts - 1) anything (display_items fuel first ts).
Proof.
  revert first ts. induction fuel as [|fuel IH]; intros first ts Hc Hf; [lia|].
  cbn [display_items]. peeked.
  destruct (TokenType_eqb _ TAP).
  - destruct first; [exact I|].
    nest. consumed. kept.
    matched [COMMA]; [step ltac:(apply IH; [assumption | lens])|]; returns.
  - nest. expr. kept.
    matched [COMMA]; [step ltac:(apply IH; [assumption | lens])|]; returns.
Qed.

Lemma parseDisplayStatement_fine fuel ts :
  closed ts -> length ts + 2 <= fuel ->
  fine (length ts - 1) anything (parseDisplayStatement fuel ts).
Proof.
  intros Hc Hf. unfold parseDisplayStatement.
  consumed. step ltac:(apply display_items_fine; [assumption | lens]). returns.
Qed.

Lemma parseInputStatement_fine ts :
  closed ts -> fine (length ts - 1) anything (parseInputStatement ts).
Proof. intros Hc. unfold parseInputStatement. consumed. consumed. returns. Qed.

Lemma parseReturnStatement_fine fuel ts :
  closed ts -> length ts + 2 <= fuel ->
  fine (length ts - 1) anything (parseReturnStatement fuel ts).
Proof. intros Hc Hf. unfold parseReturnStatement. consumed. expr. returns. Qed.

Lemma parseCallStatement_fine fuel ts :
  closed ts -> length ts + 2 <= fuel ->
  fine (length ts - 1) anything (parseCallStatement fuel ts).
Proof.
  intros Hc Hf. unfold parseCallStatement.
  consumed. consumed. consumed.
  step ltac:(apply parseArguments_fine; [assumption | lens]).
  consumed. returns.
Qed.

Lemma parseIfStatement_with_fine statement fuel ts :
  closed ts -> length ts + 2 <= fuel ->
  (forall ts', closed ts' -> length ts' < length ts ->
               fine (length ts' - 1) anything (statement ts')) ->
  fine (length ts - 1) anything (parseIfStatement_with fuel statement ts).
Proof.
  revert ts. induction fuel as [|fuel IH]; intros ts Hc Hf Hs; [lia|].
  cbn [parseIfStatement_with].
  consumed. expr. consumed. statements Hs.
  matched [ELSE].
  - peeked. destruct (TokenType_eqb _ IF).
    + step ltac:(apply IH;
                 [assumption | lens | intros; apply Hs; [assumption | lens]]).
      returns.
    + statements Hs. consumed. returns.
  - consumed. returns.
Qed.

Lemma parseDoLoopStatement_with_fine statement fuel ts :
  closed ts -> length ts + 2 <= fuel ->
  (forall ts', closed ts' -> length ts' < length ts ->
               fine (length ts' - 1) anything (statement ts')) ->
  fine (length ts - 1) anything (parseDoLoopStatement_with fuel statement ts).
Proof.
  intros Hc Hf Hs. unfold parseDoLoopStatement_with.
  consumed. statements Hs.
  matched [WHILE]; [expr; returns|].
  matched [UNTIL]; [expr; returns|].
  apply fail_here_fine; assumption.
Qed.

Lemma parseWhileStatement_with_fine statement fuel ts :
  closed ts -> length ts + 2 <= fuel ->
  (forall ts', closed ts' -> length ts' < length ts ->
               fine (length ts' - 1) anything (statement ts')) ->
  fine (length ts - 1) anything (parseWhileStatement_with fuel statement ts).
Proof.
  intros Hc Hf Hs. unfold parseWhileStatement_with.
  consumed. expr. statements Hs. consumed. returns.
Qed.

Lemma parseForStatement_with_fine statement fuel ts :
  closed ts -> length ts + 2 <= fuel ->
  (forall ts', closed ts' -> length ts' < length ts ->
               fine (length ts' - 1) anything (statement ts')) ->
  fine (length ts - 1) anything (parseForStatement_with fuel statement ts).
Proof.
  intros Hc Hf Hs. unfold parseForStatement_with.
  consumed. consumed. consumed. expr. consumed. expr.
  statements Hs. consumed. returns.
Qed.

Lemma parseStatement_fine fuel ts :
  closed ts -> length ts + 3 <= fuel ->
  fine (length ts - 1) anything (parseStatement fuel ts).
Proof.
  revert ts. induction fuel as [|fuel IH]; intros ts Hc Hf; [lia|].
  cbn [parseStatement]. peeked.
  match goal with |- context [type ?t] => destruct (type t) end;
    try (apply fail_here_fine; assumption).
  all: first
    [ apply parseVariableDeclaration_fine; [assumption | lia]
    | apply parseAssignment_fine; [assumption | lia]
    | apply parseDisplayStatement_fine; [assumption | lia]
    | apply parseInputStatement_fine; assumption
    | apply parseCallStatement_fine; [assumption | lia]
    | apply parseReturnStatement_fine; [assumption | lia]
    | apply parseIfStatement_with_fine;
      [assumption | lia | intros; apply IH; [assumption | lens]]
    | apply parseDoLoopStatement_with_fine;
      [assumption | lia | intros; apply IH; [assumption | lens]]
    | apply parseWhileStatement_with_fine;
      [assumption | lia | intros; apply IH; [assumption | lens]]
    | apply parseForStatement_with_fine;
      [assumption | lia | intros; apply IH; [assumption | lens]] ].
Qed.

Lemma parseModuleStatement_fine fuel ts :
  closed ts -> length ts + 3 <= fuel ->
  fine (length ts - 1) anything (parseModuleStatement fuel ts).
Proof.
  intros Hc Hf. unfold parseModuleStatement.
  consumed. consumed. consumed.
  step ltac:(apply parseParameters_fine; [assumption | lens]).
  consumed. statements parseStatement_fine. consumed. returns.
Qed.

Lemma parseFunctionDeclaration_fine fuel ts :
  closed ts -> length ts + 3 <= fuel ->
  fine (length ts - 1) anything (parseFunctionDeclaration fuel ts).
Proof.
  intros Hc Hf. unfold parseFunctionDeclaration.
  consumed. step ltac:(apply consumeOneOf_fine; assumption). consumed. consumed.
  step ltac:(apply parseParameters_fine; [assumption | lens]).
  consumed. statements parseStatement_fine. consumed. returns.
Qed.

Lemma parseDeclaration_fine fuel ts :
  closed ts -> length ts + 3 <= fuel ->
  fine (length ts - 1) anything (parseDeclaration fuel ts).
Proof.
  intros Hc Hf. unfold parseDeclaration. peeked.
  match goal with |- context [type ?t] => destruct (type t) end;
    first
    [ apply parseModuleStatement_fine; [assumption | lia]
    | apply parseFunctionDeclaration_fine; [assumption | lia]
    | apply parseVariableDeclaration_fine; [assumption | lia]
    | apply parseStatement_fine; [assumption | lia] ].
Qed.

Lemma parse_loop_fine fuel ts :
  closed ts -> length ts + 3 < fuel ->
  fine (length ts) (fun _ rest => at_end rest) (parse_loop fuel ts).
Proof.
  revert ts. induction fuel as [|fuel IH]; intros ts Hc Hf; [lia|].
  cbn [parse_loop].
  eapply fine_bind; [apply isAtEnd_fine; assumption | intros atEnd ? _ _ [-> Hend]].
  destruct atEnd.
  - apply fine_pret; auto.
  - step ltac:(apply parseDeclaration_fine; [assumption | lia]).
    eapply fine_bind; [apply IH; [assumption | lens] | intros ? ? ? ? ?].
    apply fine_pret; [assumption | lens | assumption].
Qed.

Lemma parse_fine ts :
  closed ts -> fine (length ts) (fun _ rest => at_end rest) (parse ts).
Proof. intros Hc. apply parse_loop_fine; [assumption | lia]. Qed.

(** *** The tokens of the lexer *)

Import LexerFacts.

Lemma scan_turn_open fuel char r line tokens :
  (exists message l, scan (S fuel) (char :: r) line tokens = LexError message l)
  \/ (exists rest line' toks,
        scan (S fuel) (char :: r) line tokens = scan fuel rest line' (tokens ++ toks)
        /\ Forall (fun t => type t <> EOF) toks).
Proof.
  cbn [scan].
  destruct (is_space char).
  { right. exists r. eexists. exists []. rewrite app_nil_r. split; [reflexivity | constructor]. }
  destruct (eq_char char "/"%char
            && match r with c :: _ => eq_char c "/"%char | [] => false end).
  { right. eexists _, _, []. rewrite app_nil_r. split; [reflexivity | constructor]. }
  destruct (matchKeywords SORTED_KEYWORDS (char :: r)) as [[[kw ty] rest]|] eqn:Hkw.
  { right. apply matchKeywords_split in Hkw as [Hin _].
    eexists _, _, [_]. split; [reflexivity|].
    repeat constructor. now apply keywords_proper in Hin. }
  destruct (eq_char char dquote).
  { destruct (consumeString r) as [[v rest]|].
    - right. eexists _, _, [_]. split; [reflexivity|].
      repeat constructor; discriminate.
    - left. eexists _, _. reflexivity. }
  destruct (is_digit char) eqn:Hd.
  { right. destruct (consumeNumber (char :: r)) as [v rest] eqn:Hn.
    eexists _, _, [_]. split; [reflexivity|].
    repeat constructor; discriminate. }
  destruct (is_alpha char).
  { right. destruct (consumeIdentifier (char :: r)) as [v rest] eqn:Hn.
    eexists _, _, [_]. split; [reflexivity|].
    repeat constructor; discriminate. }
  destruct (matchOperator SORTED_OPERATORS (char :: r)) as [[[op ty] rest]|] eqn:Hop.
  { right. apply matchOperator_split in Hop as [Hin _].
    eexists _, _, [_]. split; [reflexivity|].
    repeat constructor. now apply operators_proper in Hin. }
  left. eexists _, _. reflexivity.
Qed.

Lemma scan_closed fuel s line tokens result :
  scan fuel s line tokens = LexOk result ->
  Forall (fun t => type t <> EOF) tokens -> closed result.
Proof.
  revert s line tokens.
  induction fuel as [|fuel IH]; intros s line tokens; [discriminate|].
  destruct s as [|char r].
  - simpl. intros [= <-] H. now exists tokens, (mkToken EOF "" line).
  - destruct (scan_turn_open fuel char r line tokens)
      as [(message & l & ->) | (rest & line' & toks & -> & Hall)]; [discriminate|].
    intros H Htok. eapply IH; [exact H|]. apply Forall_app. now split.
Qed.

Lemma tokenize_closed input tokens : tokenize input = LexOk tokens -> closed tokens.
Proof.
  unfold tokenize, tokenize_text. intros H.
  exact (scan_closed _ _ _ _ _ H (List.Forall_nil _)).
Qed.

(** X20. On the tokens of any source text the parser comes to an end: it
    returns a program or reports a syntax error, and it never runs short of
    the turns that [parse] allows it.  When it returns a program, every
    token has been consumed: nothing but the end marker is left. *)
Theorem parser_comes_to_an_end (input : string) (tokens : list Token) :
  tokenize input = LexOk tokens ->
  match parse tokens with
  | POk _ rest => exists e, rest = [e] /\ type e = EOF
  | PError _ _ => True
  | PStuck => False
  end.
Proof.
  intros H. apply tokenize_closed in H.
  pose proof (parse_fine tokens H) as Hp.
  destruct (parse tokens) as [stmts rest| |]; [|exact I|exact Hp].
  exact (proj2 (proj2 Hp)).
Qed.

Lemma parser_comes_to_an_end_witness :
  tokenize parser_demo_text = LexOk parser_demo
  /\ match parse parser_demo with
     | POk _ rest => exists e, rest = [e] /\ type e = EOF
     | PError _ _ => True
     | PStuck => False
     end.
Proof.
  split; [vm_compute; reflexivity|].
  refine (parser_comes_to_an_end parser_demo_text parser_demo _).
  vm_compute. reflexivity.
Defined.

(** X21. Lexing and parsing any source text come to an end: [interpret]
    reports a lexical error or a syntax error, or it runs the program that
    the parser returned. *)
Theorem front_end_comes_to_an_end shouldStop (code : string) host_inputs fuel :
  match Interp.interpret shouldStop code host_inputs fuel with
  | Interp.LexFailed message line => tokenize code = LexError message line
  | Interp.ParseFailed message line =>
      exists tokens, tokenize code = LexOk tokens /\ parse tokens = PError message line
  | Interp.Ran result =>
      exists tokens stmts e,
        tokenize code = LexOk tokens
        /\ parse tokens = POk stmts [e]
        /\ result = Interp.runGenerator shouldStop (Interp.new_Interpreter stmts) fuel
                      (Run.initial_state host_inputs)
  | Interp.FrontEndStuck => False
  end.
Proof.
  unfold Interp.interpret.
  destruct (tokenize code) as [tokens|message line|] eqn:Hlex.
  - pose proof (parse_fine tokens (tokenize_closed _ _ Hlex)) as Hp.
    destruct (parse tokens) as [stmts rest|message line|] eqn:Hparse.
    + destruct Hp as (_ & _ & e & -> & _). now exists tokens, stmts, e.
    + now exists tokens.
    + exact Hp.
  - reflexivity.
  - unfold tokenize, tokenize_text in Hlex.
    apply scan_enough_fuel in Hlex; [exact Hlex | lia].
Qed.

End ParserFacts.

(** ** Assignment, the scope shown to the debugger, and substrings *)

Module AssignLaws.
Import Text JS Ops Ast Run Interp ScopeSpec.

(** X22. After a successful assignment the variable reads as the value
    assigned, under every spelling of its name that differs only in the
    case of letters; the assignment changes one entry, the one that the
    name resolved to, and no environment. *)
Theorem assign_then_get env name name' value line line' s s1 :
  Env.assign env name value line s = Ok tt s1 ->
  same_name name' name ->
  Env.get env name' line' s1 = Ok value s1
  /\ environments s1 = environments s
  /\ exists ref,
       Env.resolve s env name = Env.Found ref
       /\ forall r, r <> ref -> entries s1 !! r = entries s !! r.
Proof.
  intros Hassign Hsame.
  apply RunInvariants.assign_inv in Hassign as (ref & existing & Hres & Hen & _ & ->).
  pose proof (lookup_lt_Some _ _ _ Hen) as Hlt.
  split; [|split; [reflexivity|]].
  - unfold Env.get, Env.getEntry, Env.read_entry, bind, ret.
    unfold Env.resolve in *. cbn [environments set_entries]. rewrite Hsame, Hres.
    cbn [entries set_entries]. now rewrite list_lookup_insert_eq.
  - exists ref. split; [exact Hres|]. intros r Hr.
    cbn [entries set_entries]. now rewrite list_lookup_insert_ne.
Qed.

Lemma assign_then_get_witness :
  Env.get 1 "x" 7
    (final_state (Env.assign 1 "X" (VNumber (num 9)) 3 shadow_demo))
  = Ok (VNumber (num 9))
      (final_state (Env.assign 1 "X" (VNumber (num 9)) 3 shadow_demo)).
Proof.
  refine (proj1 (assign_then_get 1 "X" "x" (VNumber (num 9)) 3 7 shadow_demo
                   (final_state (Env.assign 1 "X" (VNumber (num 9)) 3 shadow_demo))
                   _ _)); reflexivity.
Defined.

End AssignLaws.

Module SerializeLaws.
Import Text JS Ops Ast Run Env.

Lemma record_set_keys key v scope k :
  In k (map fst (record_set key v scope)) <-> k = key \/ In k (map fst scope).
Proof.
  induction scope as [|[k0 w] scope IH]; simpl.
  - intuition congruence.
  - destruct (String.eqb k0 key) eqn:E; simpl.
    + apply String.eqb_eq in E. subst k0. intuition congruence.
    + rewrite IH. intuition congruence.
Qed.

Lemma record_set_distinct key v scope :
  List.NoDup (map fst scope) -> List.NoDup (map fst (record_set key v scope)).
Proof.
  induction scope as [|[k0 w] scope IH]; simpl; intros H.
  - repeat constructor. intros [].
  - inversion H as [|? ? Hnot Hrest]; subst.
    destruct (String.eqb k0 key) eqn:E; simpl.
    + now constructor.
    + apply String.eqb_neq in E. constructor; [|now apply IH].
      rewrite record_set_keys. intros [->|Hin]; [congruence | contradiction].
Qed.

(** The fold over the bindings of one environment. *)
Lemma fold_bindings s (bindings : list (string * nat)) (scope : list (string * Value)) :
  let scope' :=
    fold_left
      (fun (scope : list (string * Value)) (kv : string * nat) =>
         match entries s !! snd kv with
         | Some en => record_set (originalName en) (entry_value en) scope
         | None => scope
         end) bindings scope in
  (List.NoDup (map fst scope) -> List.NoDup (map fst scope'))
  /\ (forall k, In k (map fst scope) -> In k (map fst scope'))
  /\ (forall kv en, In kv bindings -> entries s !! snd kv = Some en ->
                    In (originalName en) (map fst scope')).
Proof.
  revert scope. induction bindings as [|kv bindings IH]; intros scope; simpl.
  - repeat split; auto. intros kv en [].
  - set (next := match entries s !! snd kv with
                 | Some en => record_set (originalName en) (entry_value en) scope
                 | None => scope
                 end).
    destruct (IH next) as (Hdistinct & Hkeep & Hall).
    assert (Hnext : forall k, In k (map fst scope) -> In k (map fst next)).
    { intros k Hk. subst next. destruct (entries s !! snd kv); [|exact Hk].
      apply record_set_keys. now right. }
    repeat split.
    + intros H. apply Hdistinct. subst next.
      destruct (entries s !! snd kv); [now apply record_set_distinct | exact H].
    + intros k Hk. apply Hkeep, Hnext, Hk.
    + intros kv' en [<-|Hin] Hen; [|now apply (Hall kv' en)].
      apply Hkeep. subst next. rewrite Hen. apply record_set_keys. now left.
Qed.

Lemma serialize_walk_distinct depth s env :
  List.NoDup (map fst (serialize_walk depth s env)).
Proof.
  revert env. induction depth as [|depth IH]; intros env; simpl; [constructor|].
  destruct (environments s !! env) as [e|]; [|constructor].
  apply (fold_bindings s (values e)).
  destruct (enclosing e); [apply IH | constructor].
Qed.

(** X23. The scope shown to the debugger names every variable once: the
    keys of [serialize] are pairwise distinct, and each variable bound in
    the current environment is among them, under the name it was declared
    with. *)
Theorem serialize_names_once s env :
  List.NoDup (map fst (serialize s env))
  /\ forall e lowerName ref en,
       environments s !! env = Some e ->
       In (lowerName, ref) (values e) ->
       entries s !! ref = Some en ->
       In (originalName en) (map fst (serialize s env)).
Proof.
  split; [apply serialize_walk_distinct|].
  intros e lowerName ref en He Hin Hen. unfold serialize.
  pose proof (lookup_lt_Some _ _ _ He) as Hlt.
  destruct (length (environments s)) as [|depth]; [lia|].
  simpl. rewrite He.
  eapply (proj2 (proj2 (fold_bindings s (values e) _)) (lowerName, ref)); eassumption.
Qed.

End SerializeLaws.

Module BuiltInLaws.
Import Text JS Ops Ast Run BuiltIn.

Lemma to_string_of_string s : to_string (of_string s) = s.
Proof. apply string_of_list_ascii_of_string. Qed.

Lemma of_string_to_string t : of_string (to_string t) = t.
Proof. apply list_ascii_of_string_of_list_ascii. Qed.

(** X24. A string cut at an index and put together again is the string:
    for every number [k] that is not negative, [substring(s, 0, k)] and
    [substring(s, k)] return two strings that [append] joins to [s],
    whether [k] is an integer or not and whether it is inside the string or
    beyond its end. *)
Theorem substring_splits (s : string) (k : Q) :
  Qle_bool 0 k = true ->
  exists l r,
    implementation "substring" [VString s; VNumber (num 0); VNumber k]
    = Returns (VString l)
    /\ implementation "substring" [VString s; VNumber k] = Returns (VString r)
    /\ implementation "append" [VString l; VString r] = Returns (VString s).
Proof.
  intros Hk.
  exists (to_string (firstn (clamp_index k (length (of_string s))) (of_string s))),
         (to_string (skipn (clamp_index k (length (of_string s))) (of_string s))).
  split; [|split].
  - cbn [implementation on_string to_string_value]. unfold Qltb.
    change (Qle_bool (num 0) k) with (Qle_bool 0 k). rewrite Hk.
    cbn [negb]. unfold substring_text.
    change (clamp_index (num 0) (length (of_string s))) with 0.
    now rewrite Nat.min_0_l, Nat.max_0_l, Nat.sub_0_r.
  - reflexivity.
  - cbn [implementation on_string to_string_value].
    rewrite !of_string_to_string, firstn_skipn. now rewrite to_string_of_string.
Qed.

Lemma substring_splits_witness :
  exists l r,
    implementation "substring" [VString "pseudocode"; VNumber (num 0); VNumber (7 # 2)]
    = Returns (VString l)
    /\ implementation "substring" [VString "pseudocode"; VNumber (7 # 2)]
       = Returns (VString r)
    /\ implementation "append" [VString l; VString r] = Returns (VString "pseudocode").
Proof.
  refine (substring_splits "pseudocode" (7 # 2) _). reflexivity.
Defined.

End BuiltInLaws.

Module DeclarationLaws.
Import Text JS Ops Ast Run Interp RunSpec InvariantSpec InvariantFacts RunInvariants
  DeclarationSpec.

Lemma whole_number q :
  isInteger q = true -> Qle_bool 0 q = true ->
  inject_Z (Z.of_nat (Z.to_nat (Qnum (Qred q)))) == q.
Proof.
  unfold isInteger. intros Hden Hpos.
  apply Pos.eqb_eq in Hden. apply Qle_bool_iff in Hpos.
  rewrite <- (Qred_correct q) in Hpos. rewrite <- (Qred_correct q) at 2.
  destruct (Qred q) as [n d]. simpl in *. subst d.
  unfold Qle in Hpos. simpl in Hpos.
  rewrite Z2Nat.id by lia. reflexivity.
Qed.

(** X25. An array has the size it is declared with.  When the initial
    value of a declarator with a size is computed, the size expression has
    been evaluated to a number [q], and the value is a new array of exactly
    [q] elements, however many of them the initializer list gives. *)
Theorem declared_array_has_its_size shouldStop this fuel d sizeExpr s v s' :
  size d = Some sizeExpr ->
  initial_value (evaluate shouldStop this fuel) d s = Ok v s' ->
  exists q s1 ref a,
    evaluate shouldStop this fuel sizeExpr s = Ok (VNumber q) s1
    /\ v = VArray ref
    /\ arrays s1 !! ref = None
    /\ arrays s' !! ref = Some a
    /\ inject_Z (Z.of_nat (length a)) == q.
Proof.
  intros Hsize H. unfold initial_value in H. rewrite Hsize in H.
  unfold bind at 1 in H.
  destruct (evaluate shouldStop this fuel sizeExpr s) as [sz s1| |] eqn:Hsz;
    try discriminate.
  destruct sz as [| |q| |]; try discriminate.
  destruct (isInteger q && Qle_bool 0 q) eqn:Hq; [|discriminate].
  apply andb_true_iff in Hq as [Hint Hpos].
  destruct (Qle_bool (inject_Z (2 ^ 32)) q); [discriminate|].
  set (n := Z.to_nat (Qnum (Qred q))) in *.
  unfold bind at 1, new_array in H.
  set (s2 := set_arrays (fun l => l ++ [repeat VNull n]) s1) in *.
  assert (Hnew : arrays s2 !! length (arrays s1) = Some (repeat VNull n)).
  { subst s2. cbn [arrays set_arrays].
    rewrite lookup_app_r by lia. now rewrite Nat.sub_diag. }
  assert (Hkept : array_sizes_kept s2 s').
  { destruct (initializer d) as [init|].
    - destruct init; try discriminate.
      destruct (n <? length elements); [discriminate|].
      unfold bind at 1 in H.
      match type of H with
      | match ?m s2 with _ => _ end = _ =>
          assert (Hm : sat array_sizes_kept any_exception m)
      end.
      { apply sat_for_each;
          [intros; now apply array_sizes_kept_same | exact array_sizes_kept_trans|].
        intros ie. apply sat_bind; [exact array_sizes_kept_trans | |].
        - apply (invariant_holds _ _ _ _ this (array_sizes_kept_invariant shouldStop)).
        - intros x t.
          destruct (write_array (length (arrays s1)) (fst ie) x t) as [[] t'| |] eqn:Hw;
            try discriminate.
          now apply array_sizes_kept_write in Hw. }
      specialize (Hm s2).
      match type of H with
      | match ?m s2 with _ => _ end = _ => destruct (m s2) as [[] s3| |]
      end; try discriminate.
      now injection H as _ <-.
    - injection H as _ <-. now apply array_sizes_kept_same. }
  destruct (Hkept _ _ Hnew) as (a & Ha & Hlen).
  exists q, s1, (length (arrays s1)), a.
  repeat split.
  - destruct (initializer d) as [init|].
    + destruct init; try discriminate.
      destruct (n <? length elements); [discriminate|].
      unfold bind at 1 in H.
      match type of H with
      | match ?m s2 with _ => _ end = _ => destruct (m s2) as [[] s3| |]
      end; try discriminate.
      now injection H as <- _.
    + now injection H as <- _.
  - apply lookup_ge_None. lia.
  - exact Ha.
  - rewrite Hlen, repeat_length. now apply whole_number.
Qed.

Lemma declared_array_has_its_size_witness :
  exists q s1 ref a,
    evaluate never_stop (new_Interpreter []) 5 (Literal (LNumber (num 3)) 1)
      (initial_state []) = Ok (VNumber q) s1
    /\ VArray 0 = VArray ref
    /\ arrays s1 !! ref = None
    /\ arrays (final_state (initial_value (evaluate never_stop (new_Interpreter []) 5)
                              array_demo (initial_state []))) !! ref = Some a
    /\ inject_Z (Z.of_nat (length a)) == q.
Proof.
  refine (declared_array_has_its_size never_stop (new_Interpreter []) 5 array_demo
            (Literal (LNumber (num 3)) 1) (initial_state []) (VArray 0)
            (final_state (initial_value (evaluate never_stop (new_Interpreter []) 5)
                            array_demo (initial_state []))) _ _).
  - reflexivity.
  - vm_compute. reflexivity.
Defined.

End DeclarationLaws.
